(** * Version Sync: a shallow embedding of the extraction, reconciliation and
    update engine (scripts/version-check.ts and scripts/version-update.ts).

    JavaScript strings are sequences of UTF-16 code units, regular expressions
    are the seven patterns of the program run by a small matcher, the file
    system is an explicit world threaded through a state-and-exception monad. *)

From Stdlib Require Import String Ascii.
From Stdlib Require Import List Arith NArith Lia Bool.
From Stdlib Require Decimal DecimalN.
Import ListNotations.

Set Implicit Arguments.
Set Warnings "-register-all".

(* ================================================================== *)
(** ** JavaScript strings *)
(* ================================================================== *)

(** A UTF-16 code unit. *)
Definition char := N.

(** A JavaScript string. *)
Definition jsstring := list char.

(** A literal of the program text (ASCII) as a JavaScript string. *)
Definition js (s : string) : jsstring :=
  map N_of_ascii (list_ascii_of_string s).

Definition char_eqb (a b : char) : bool := N.eqb a b.

Fixpoint str_eqb (a b : jsstring) : bool :=
  match a, b with
  | [], [] => true
  | x :: a', y :: b' => char_eqb x y && str_eqb a' b'
  | _, _ => false
  end.

(** [\d] : the ten ASCII digits only. *)
Definition is_digit (c : char) : bool := (48 <=? c)%N && (c <=? 57)%N.

(** [\s] and the characters removed by [String.prototype.trim]: WhiteSpace and
    LineTerminator of ECMAScript. *)
Definition is_space (c : char) : bool :=
  ((9 <=? c)%N && (c <=? 13)%N)          (* TAB LF VT FF CR *)
  || (c =? 32)%N                          (* SP *)
  || (c =? 160)%N                         (* NBSP *)
  || (c =? 5760)%N                        (* U+1680 *)
  || ((8192 <=? c)%N && (c <=? 8202)%N)   (* U+2000 .. U+200A *)
  || (c =? 8232)%N || (c =? 8233)%N       (* LS PS *)
  || (c =? 8239)%N                        (* U+202F *)
  || (c =? 8287)%N                        (* U+205F *)
  || (c =? 12288)%N                       (* U+3000 *)
  || (c =? 65279)%N.                      (* U+FEFF *)

(** [[^\s]] *)
Definition not_space (c : char) : bool := negb (is_space c).

(** The class of the single and the double quote. *)
Definition is_quote (c : char) : bool := (c =? 39)%N || (c =? 34)%N.

(** Canonicalize of a regular expression with the [i] flag and without the
    [u] flag: upper-casing, except that a non-ASCII character is never mapped
    to an ASCII one.  The patterns of the program are ASCII, so an identity
    outside [a-z] decides the same matches. *)
Definition canonicalize (c : char) : char :=
  if (97 <=? c)%N && (c <=? 122)%N then (c - 32)%N else c.

Definition char_eq_ci (a b : char) : bool :=
  N.eqb (canonicalize a) (canonicalize b).

(** The longest prefix of [s] in the class [p], and what follows it. *)
Fixpoint span (p : char -> bool) (s : jsstring) : jsstring * jsstring :=
  match s with
  | [] => ([], [])
  | c :: t =>
      if p c then let (m, r) := span p t in (c :: m, r) else ([], s)
  end.

Fixpoint dropWhile (p : char -> bool) (s : jsstring) : jsstring :=
  match s with
  | [] => []
  | c :: t => if p c then dropWhile p t else s
  end.

(** [String.prototype.trim]. *)
Definition trim (s : jsstring) : jsstring :=
  rev (dropWhile is_space (rev (dropWhile is_space s))).

(** [s.endsWith(suffix)]. *)
Definition endsWith (s suffix : jsstring) : bool :=
  str_eqb (skipn (length s - length suffix) s) suffix
  && (length suffix <=? length s)%nat.

(** [s.startsWith(prefix)], returning what follows the prefix. *)
Fixpoint strip_prefix (prefix s : jsstring) : option jsstring :=
  match prefix, s with
  | [], _ => Some s
  | p :: prefix', c :: s' =>
      if char_eqb p c then strip_prefix prefix' s' else None
  | _ :: _, [] => None
  end.

(* ------------------------------------------------------------------ *)
(** *** Numbers and their decimal text *)

(** Major versions, targets and timestamps are Numbers that are non-negative
    integers, or [Infinity]; the program prints them with [toString] / string
    concatenation and reads them with [parseInt(_, 10)].  A Number that is
    an integer is kept as that integer, and [Infinity] as 2^1024, which lies
    above every finite Number. *)

Definition digit_char (d : N) : char := (48 + d)%N.

Fixpoint uint_chars (d : Decimal.uint) : jsstring :=
  match d with
  | Decimal.Nil => []
  | Decimal.D0 d' => digit_char 0 :: uint_chars d'
  | Decimal.D1 d' => digit_char 1 :: uint_chars d'
  | Decimal.D2 d' => digit_char 2 :: uint_chars d'
  | Decimal.D3 d' => digit_char 3 :: uint_chars d'
  | Decimal.D4 d' => digit_char 4 :: uint_chars d'
  | Decimal.D5 d' => digit_char 5 :: uint_chars d'
  | Decimal.D6 d' => digit_char 6 :: uint_chars d'
  | Decimal.D7 d' => digit_char 7 :: uint_chars d'
  | Decimal.D8 d' => digit_char 8 :: uint_chars d'
  | Decimal.D9 d' => digit_char 9 :: uint_chars d'
  end.

(** The decimal text of a non-negative integer. *)
Definition decimal (n : N) : jsstring := uint_chars (N.to_uint n).

(** The integer that a run of decimal digits denotes. *)
Definition digits_value (s : jsstring) : N :=
  fold_left (fun acc c => (acc * 10 + (c - 48))%N) s 0%N.

(** [Infinity], kept as the first integer above every finite Number. *)
Definition Infinity : N := (2 ^ 1024)%N.

(** [Number.isSafeInteger(n)] for a non-negative integer: [n] is below 2^53.
    A safe integer is a Number of its own, is printed in plain decimal and
    is read back from its decimal text. *)
Definition safe_integer (n : N) : Prop := (n < 9007199254740992)%N.

Existing Class safe_integer.

(** The Number nearest to the integer [n]: [n] itself when it has at most 53
    binary digits; otherwise its 53 leading binary digits, rounded to
    nearest with ties to even, and [Infinity] when that reaches 2^1024. *)
Definition to_number (n : N) : N :=
  if (N.size n <=? 53)%N then n
  else
    let e := (N.size n - 53)%N in
    let q := N.shiftr n e in
    let r := (n - N.shiftl q e)%N in
    let half := N.shiftl 1 (e - 1) in
    let q' := if (half <? r)%N || ((r =? half)%N && N.odd q)
              then (q + 1)%N else q in
    let v := N.shiftl q' e in
    if (Infinity <=? v)%N then Infinity else v.

(** [parseInt(s, 10)] on a run of decimal digits (the only way the program
    calls it: on capture group 1, which is [\d+]): the Number nearest to the
    integer the digits denote. *)
Definition parseInt (s : jsstring) : N := to_number (digits_value s).

(** The digits and the power of ten of the shortest decimal that denotes the
    Number [x]: with the fewest digits, the multiple of a power of ten next
    to [x] that is read back as [x]; of two, the nearer one, and the even one
    when they are as near.  [p] is the power of ten tried first. *)
Fixpoint shortest (x : N) (p : nat) : N * nat :=
  let unit := (10 ^ N.of_nat p)%N in
  let low := (x / unit)%N in
  let high := (low + 1)%N in
  let low_ok := (to_number (low * unit) =? x)%N in
  let high_ok := (to_number (high * unit) =? x)%N in
  if low_ok && high_ok then
    let below := (x - low * unit)%N in
    let above := (high * unit - x)%N in
    if (below <? above)%N then (low, p)
    else if (above <? below)%N then (high, p)
    else if N.even low then (low, p) else (high, p)
  else if low_ok then (low, p)
  else if high_ok then (high, p)
  else
    match p with
    | O => (x, O)
    | S p' => shortest x p'
    end.

(** The text of a finite Number from 2^53 on: its shortest digits, followed
    by zeros when the integer has up to 21 digits, and in exponent notation
    when it has more. *)
Definition large_text (x : N) : jsstring :=
  let (s, p) := shortest x (length (decimal x) - 1) in
  let ds := decimal s in
  let n := (length ds + p)%nat in
  if (n <=? 21)%nat then ds ++ repeat 48%N p
  else
    match rev (dropWhile (fun c => (c =? 48)%N) (rev ds)) with
    | [] => ds
    | d :: more =>
        d :: match more with [] => [] | _ :: _ => 46%N :: more end
        ++ [101%N; 43%N] ++ decimal (N.of_nat (n - 1))
    end.

(** [n.toString()], and [n] in a string concatenation, for a Number that is
    a non-negative integer or [Infinity].  Below 2^53 every integer is a
    Number of its own, so that its shortest digits are its decimal text. *)
Definition toString (n : N) : jsstring :=
  if (n <? 9007199254740992)%N then decimal n
  else if (Infinity <=? n)%N then js "Infinity"
  else large_text n.

(** A number as [parseInt] returns it: [NaN], or an integer with its sign
    (minus zero is [Int true 0]). *)
Inductive jsnumber : Type :=
| NaN
| Int (negative : bool) (magnitude : N).

(** [parseInt(s, 10)] on any string: leading white space is dropped, one sign
    is read, then the longest run of decimal digits; without a digit the
    result is [NaN].  What follows the digits is ignored. *)
Definition parseInt10 (s : jsstring) : jsnumber :=
  let s1 := dropWhile is_space s in
  let '(negative, s2) :=
    match s1 with
    | c :: t =>
        if (c =? 45)%N then (true, t)
        else if (c =? 43)%N then (false, t)
        else (false, s1)
    | [] => (false, s1)
    end in
  match fst (span is_digit s2) with
  | [] => NaN
  | ds => Int negative (parseInt ds)
  end.

(** The lines of a text of the program, joined by line breaks. *)
Fixpoint join_nl (parts : list jsstring) : jsstring :=
  match parts with
  | [] => []
  | [p] => p
  | p :: ps => p ++ 10%N :: join_nl ps
  end.

(* ================================================================== *)
(** ** Regular expressions *)
(* ================================================================== *)

(** The patterns of the program are sequences of the following atoms.  Each
    repetition is followed either by nothing, by an optional atom, or by a
    character outside the repeated class, so greedy matching never has to give
    anything back: the matcher below takes the longest run and goes on. *)
Inductive atom : Type :=
| Lit (ci : bool) (c : char)        (* one character, [ci] = the i flag *)
| Opt (p : char -> bool)            (* [[..]?] *)
| Star (p : char -> bool)           (* [[..]*] *)
| Plus (p : char -> bool)           (* [[..]+] *)
| Cap (a : atom)                    (* [( a )] *)
| CapOpt (a : atom).                (* [( a )?] *)

Definition regex := list atom.

(** The literal text [s] as a sequence of atoms. *)
Definition lits (ci : bool) (s : jsstring) : regex := map (Lit ci) s.

Fixpoint exec_atom (a : atom) (s : jsstring) : option (jsstring * jsstring) :=
  match a with
  | Lit ci c =>
      match s with
      | x :: t =>
          if (if ci then char_eq_ci x c else char_eqb x c)
          then Some ([x], t) else None
      | [] => None
      end
  | Opt p =>
      match s with
      | x :: t => if p x then Some ([x], t) else Some ([], s)
      | [] => Some ([], [])
      end
  | Star p => Some (span p s)
  | Plus p =>
      match span p s with
      | ([], _) => None
      | (m, r) => Some (m, r)
      end
  | Cap a' => exec_atom a' s
  | CapOpt a' => exec_atom a' s
  end.

(** What an atom adds to the capture array.  A [( .. )?] group whose body
    matched the empty string does not participate: its capture is
    [undefined], here [None]. *)
Definition capture (a : atom) (m : jsstring) : list (option jsstring) :=
  match a with
  | Cap _ => [Some m]
  | CapOpt _ => [match m with [] => None | _ => Some m end]
  | _ => []
  end.

(** The result of a match: [match[0]], the captures [match[1..]] and the text
    after the match. *)
Record mres : Type := MRes {
  matched : jsstring;
  groups : list (option jsstring);
  rest : jsstring
}.

(** Match the pattern at the start of [s]. *)
Fixpoint exec (pat : regex) (s : jsstring) : option mres :=
  match pat with
  | [] => Some (MRes [] [] s)
  | a :: pat' =>
      match exec_atom a s with
      | None => None
      | Some (m, r) =>
          match exec pat' r with
          | None => None
          | Some res =>
              Some (MRes (m ++ matched res) (capture a m ++ groups res)
                         (rest res))
          end
      end
  end.

(** [match[i]] for i >= 1; [None] is [undefined]. *)
Definition group (i : nat) (res : mres) : option jsstring :=
  nth (i - 1) (groups res) None.

(** [x || <empty string>] for a capture. *)
Definition or_empty (o : option jsstring) : jsstring :=
  match o with Some s => s | None => [] end.

(** The leftmost match of an unanchored pattern: the text before it and the
    match ([String.prototype.match] without the g flag). *)
Fixpoint regex_search (pat : regex) (s : jsstring) : option (jsstring * mres) :=
  match exec pat s with
  | Some res => Some ([], res)
  | None =>
      match s with
      | [] => None
      | c :: t =>
          match regex_search pat t with
          | Some (pre, res) => Some (c :: pre, res)
          | None => None
          end
      end
  end.

(** [GetSubstitution] of ECMAScript for a pattern without named groups: the
    expansion of [$$], [$&], [$`], [$'], [$n] and [$nn] in a replacement
    string. *)
Definition capture_ref (caps : list (option jsstring)) (index : N)
  : option jsstring :=
  if ((1 <=? index)%N && (index <=? N.of_nat (length caps))%N)%bool
  then Some (or_empty (nth (N.to_nat index - 1) caps None))
  else None.

Fixpoint getSubstitution (m before after : jsstring)
    (caps : list (option jsstring)) (repl : jsstring) : jsstring :=
  match repl with
  | [] => []
  | c :: t =>
      if negb (c =? 36)%N then c :: getSubstitution m before after caps t
      else
        match t with
        | [] => [c]
        | d1 :: t1 =>
            if (d1 =? 36)%N then 36%N :: getSubstitution m before after caps t1
            else if (d1 =? 38)%N then m ++ getSubstitution m before after caps t1
            else if (d1 =? 96)%N then before ++ getSubstitution m before after caps t1
            else if (d1 =? 39)%N then after ++ getSubstitution m before after caps t1
            else if is_digit d1 then
              let one :=
                match capture_ref caps (d1 - 48)%N with
                | Some s => s ++ getSubstitution m before after caps t1
                | None => c :: d1 :: getSubstitution m before after caps t1
                end in
              match t1 with
              | d2 :: t2 =>
                  if is_digit d2 then
                    let index := ((d1 - 48) * 10 + (d2 - 48))%N in
                    if (index <=? N.of_nat (length caps))%N then
                      match capture_ref caps index with
                      | Some s => s ++ getSubstitution m before after caps t2
                      | None =>
                          c :: d1 :: d2 :: getSubstitution m before after caps t2
                      end
                    else one
                  else one
              | [] => one
              end
            else c :: getSubstitution m before after caps t
        end
  end.

(** [s.replace(pat, repl)] for a pattern without the g flag and a string
    replacement. *)
Definition replace_first (pat : regex) (repl : jsstring) (s : jsstring)
  : jsstring :=
  match regex_search pat s with
  | None => s
  | Some (pre, res) =>
      pre ++ getSubstitution (matched res) pre (rest res) (groups res) repl
          ++ rest res
  end.

(** [s.replace(pat, repl)] for a pattern with the g flag.  [seen] is the text
    already passed, most recent character first; [skip] counts the characters
    of the current match still to pass.  After an empty match the scan moves
    one character on, as [lastIndex] does. *)
Fixpoint replace_all_from (pat : regex) (repl : jsstring) (seen : jsstring)
    (skip : nat) (s : jsstring) : jsstring :=
  match s with
  | [] =>
      match skip, exec pat [] with
      | O, Some res =>
          getSubstitution (matched res) (rev seen) (rest res) (groups res) repl
      | _, _ => []
      end
  | c :: t =>
      match skip with
      | S k => replace_all_from pat repl (c :: seen) k t
      | O =>
          match exec pat s with
          | Some res =>
              getSubstitution (matched res) (rev seen) (rest res) (groups res)
                              repl
              ++ match length (matched res) with
                 | O => c :: replace_all_from pat repl (c :: seen) 0 t
                 | S k => replace_all_from pat repl (c :: seen) k t
                 end
          | None => c :: replace_all_from pat repl (c :: seen) 0 t
          end
      end
  end.

Definition replace_all (pat : regex) (repl : jsstring) (s : jsstring)
  : jsstring :=
  replace_all_from pat repl [] 0 s.

(* ------------------------------------------------------------------ *)
(** *** The patterns of the program *)

(** [/(\d+)/] *)
Definition re_digits : regex := [Cap (Plus is_digit)].

(** [/^v?(\d+)/]: anchored, so it is run with [exec] at the start only. *)
Definition re_leading_version : regex :=
  [Opt (fun c => (c =? 118)%N); Cap (Plus is_digit)].

(** [/FROM\s+node:(\d+)(T)?/i] where T is [[^\s]*], the rest of the tag. *)
Definition re_from : regex :=
  lits true (js "FROM") ++ [Plus is_space] ++ lits true (js "node:")
  ++ [Cap (Plus is_digit); CapOpt (Star not_space)].

(** [/image:\s*node:(\d+)(T)?/i] with the same T. *)
Definition re_image : regex :=
  lits true (js "image:") ++ [Star is_space] ++ lits true (js "node:")
  ++ [Cap (Plus is_digit); CapOpt (Star not_space)].

(** [/node-version:\s*Q?(\d+)Q?/i] where Q is the class of the two quotes;
    the same pattern with the g flag is used by the update. *)
Definition re_node_version : regex :=
  lits true (js "node-version:")
  ++ [Star is_space; Opt is_quote; Cap (Plus is_digit); Opt is_quote].

(** [/NODE_VERSION:\s*Q?(\d+)Q?/i], also used with the g flag. *)
Definition re_NODE_VERSION : regex :=
  lits true (js "NODE_VERSION:")
  ++ [Star is_space; Opt is_quote; Cap (Plus is_digit); Opt is_quote].

(** [/nodejs\s+(\d+)/] *)
Definition re_nodejs : regex :=
  lits false (js "nodejs") ++ [Plus is_space; Cap (Plus is_digit)].

(* ================================================================== *)
(** ** JSON *)
(* ================================================================== *)

(** A parsed JSON document.  A number keeps its lexeme: the program never
    computes with one, and [JSON.stringify] writes the same text back for a
    number written in its shortest form.  An object keeps its members in
    insertion order, as JavaScript does for the keys that are not array
    indices. *)
Inductive json : Type :=
| JNull
| JBool (b : bool)
| JNum (lexeme : jsstring)
| JStr (s : jsstring)
| JArr (items : list json)
| JObj (members : list (jsstring * json)).

(** Property lookup on an object's members. *)
Fixpoint assoc (k : jsstring) (ms : list (jsstring * json)) : option json :=
  match ms with
  | [] => None
  | (k', v) :: ms' => if str_eqb k k' then Some v else assoc k ms'
  end.

(** Property assignment: an existing key keeps its place, a new key goes to
    the end. *)
Fixpoint assoc_set (k : jsstring) (v : json) (ms : list (jsstring * json))
  : list (jsstring * json) :=
  match ms with
  | [] => [(k, v)]
  | (k', v') :: ms' =>
      if str_eqb k k' then (k, v) :: ms' else (k', v') :: assoc_set k v ms'
  end.

Definition is_json_ws (c : char) : bool :=
  (c =? 32)%N || (c =? 9)%N || (c =? 10)%N || (c =? 13)%N.

Definition hex_value (c : char) : option N :=
  if is_digit c then Some (c - 48)%N
  else if (97 <=? c)%N && (c <=? 102)%N then Some (c - 87)%N
  else if (65 <=? c)%N && (c <=? 70)%N then Some (c - 55)%N
  else None.

Definition hex4 (a b c d : char) : option char :=
  match hex_value a, hex_value b, hex_value c, hex_value d with
  | Some x, Some y, Some z, Some w => Some (((x * 16 + y) * 16 + z) * 16 + w)%N
  | _, _, _, _ => None
  end.

(** The character denoted by a one-letter escape. *)
Definition unescape (e : char) : option char :=
  if (e =? 34)%N then Some 34%N            (* quote *)
  else if (e =? 92)%N then Some 92%N       (* backslash *)
  else if (e =? 47)%N then Some 47%N       (* slash *)
  else if (e =? 98)%N then Some 8%N        (* b *)
  else if (e =? 102)%N then Some 12%N      (* f *)
  else if (e =? 110)%N then Some 10%N      (* n *)
  else if (e =? 114)%N then Some 13%N      (* r *)
  else if (e =? 116)%N then Some 9%N       (* t *)
  else None.

Definition cons_fst (c : char) (r : option (jsstring * jsstring))
  : option (jsstring * jsstring) :=
  match r with Some (m, t) => Some (c :: m, t) | None => None end.

(** The characters of a string literal after its opening quote, up to and
    without the closing quote. *)
Fixpoint parse_string_chars (s : jsstring) : option (jsstring * jsstring) :=
  match s with
  | [] => None
  | c :: t =>
      if (c =? 34)%N then Some ([], t)
      else if (c <? 32)%N then None
      else if (c =? 92)%N then
        match t with
        | [] => None
        | e :: t1 =>
            if (e =? 117)%N then
              match t1 with
              | h1 :: h2 :: h3 :: h4 :: t2 =>
                  match hex4 h1 h2 h3 h4 with
                  | Some u => cons_fst u (parse_string_chars t2)
                  | None => None
                  end
              | _ => None
              end
            else
              match unescape e with
              | Some x => cons_fst x (parse_string_chars t1)
              | None => None
              end
        end
      else cons_fst c (parse_string_chars t)
  end.

(** The lexeme of a number: an optional minus sign, then 0 or a digit run
    without leading zero, an optional fraction, an optional exponent. *)
Definition parse_number (s : jsstring) : option (jsstring * jsstring) :=
  let (sign, s1) :=
    match s with
    | c :: t => if (c =? 45)%N then ([c], t) else ([], s)
    | [] => ([], s)
    end in
  let int_part :=
    match s1 with
    | c :: t =>
        if (c =? 48)%N then Some ([c], t)
        else if is_digit c then Some (span is_digit s1)
        else None
    | [] => None
    end in
  match int_part with
  | None => None
  | Some (ip, s2) =>
      let (frac, s3) :=
        match s2 with
        | c :: t =>
            if (c =? 46)%N then
              match span is_digit t with
              | ([], _) => (None, s2)
              | (ds, r) => (Some (c :: ds), r)
              end
            else (Some [], s2)
        | [] => (Some [], s2)
        end in
      match frac with
      | None => None
      | Some fp =>
          let (ex, s4) :=
            match s3 with
            | c :: t =>
                if (c =? 101)%N || (c =? 69)%N then
                  let (sg, t') :=
                    match t with
                    | d :: u =>
                        if (d =? 43)%N || (d =? 45)%N then ([d], u) else ([], t)
                    | [] => ([], t)
                    end in
                  match span is_digit t' with
                  | ([], _) => (None, s3)
                  | (ds, r) => (Some (c :: sg ++ ds), r)
                  end
                else (Some [], s3)
            | [] => (Some [], s3)
            end in
          match ex with
          | None => None
          | Some ep => Some (sign ++ ip ++ fp ++ ep, s4)
          end
      end
  end.

(** Recursive descent; every call spends one unit of [fuel], and a document
    of n characters needs fewer than 2n + 2 nested calls. *)
Fixpoint parse_value (fuel : nat) (s : jsstring) : option (json * jsstring) :=
  match fuel with
  | O => None
  | S f =>
      match dropWhile is_json_ws s with
      | [] => None
      | c :: t =>
          if (c =? 34)%N then
            match parse_string_chars t with
            | Some (str, r) => Some (JStr str, r)
            | None => None
            end
          else if (c =? 123)%N then
            match dropWhile is_json_ws t with
            | c' :: t' =>
                if (c' =? 125)%N then Some (JObj [], t')
                else parse_members f [] t
            | [] => None
            end
          else if (c =? 91)%N then
            match dropWhile is_json_ws t with
            | c' :: t' =>
                if (c' =? 93)%N then Some (JArr [], t')
                else parse_elements f [] t
            | [] => None
            end
          else
            match strip_prefix (js "true") (c :: t),
                  strip_prefix (js "false") (c :: t),
                  strip_prefix (js "null") (c :: t) with
            | Some r, _, _ => Some (JBool true, r)
            | _, Some r, _ => Some (JBool false, r)
            | _, _, Some r => Some (JNull, r)
            | None, None, None =>
                match parse_number (c :: t) with
                | Some (lx, r) => Some (JNum lx, r)
                | None => None
                end
            end
      end
  end

with parse_elements (fuel : nat) (acc : list json) (s : jsstring)
  : option (json * jsstring) :=
  match fuel with
  | O => None
  | S f =>
      match parse_value f s with
      | None => None
      | Some (v, r) =>
          match dropWhile is_json_ws r with
          | c :: t =>
              if (c =? 44)%N then parse_elements f (acc ++ [v]) t
              else if (c =? 93)%N then Some (JArr (acc ++ [v]), t)
              else None
          | [] => None
          end
      end
  end

with parse_members (fuel : nat) (acc : list (jsstring * json)) (s : jsstring)
  : option (json * jsstring) :=
  match fuel with
  | O => None
  | S f =>
      match dropWhile is_json_ws s with
      | q :: t =>
          if (q =? 34)%N then
            match parse_string_chars t with
            | None => None
            | Some (k, r) =>
                match dropWhile is_json_ws r with
                | c :: r' =>
                    if (c =? 58)%N then
                      match parse_value f r' with
                      | None => None
                      | Some (v, r2) =>
                          match dropWhile is_json_ws r2 with
                          | c2 :: t2 =>
                              if (c2 =? 44)%N
                              then parse_members f (assoc_set k v acc) t2
                              else if (c2 =? 125)%N
                              then Some (JObj (assoc_set k v acc), t2)
                              else None
                          | [] => None
                          end
                      end
                    else None
                | [] => None
                end
            end
          else None
      | [] => None
      end
  end.

(** [JSON.parse(text)]; [None] is the SyntaxError it throws. *)
Definition JSON_parse (text : jsstring) : option json :=
  match parse_value (2 * length text + 2) text with
  | Some (v, r) =>
      match dropWhile is_json_ws r with
      | [] => Some v
      | _ :: _ => None
      end
  | None => None
  end.

Definition hex_digit (n : N) : char :=
  if (n <? 10)%N then (48 + n)%N else (87 + n)%N.

(** [\uXXXX], lower-case hexadecimal as [JSON.stringify] writes it. *)
Definition unicode_escape (c : char) : jsstring :=
  [92; 117; hex_digit ((c / 4096) mod 16); hex_digit ((c / 256) mod 16);
   hex_digit ((c / 16) mod 16); hex_digit (c mod 16)]%N.

Definition is_high_surrogate (c : char) : bool :=
  (55296 <=? c)%N && (c <=? 56319)%N.

Definition is_low_surrogate (c : char) : bool :=
  (56320 <=? c)%N && (c <=? 57343)%N.

Definition escape_char (c : char) : jsstring :=
  if (c =? 34)%N then [92; 34]%N
  else if (c =? 92)%N then [92; 92]%N
  else if (c =? 8)%N then [92; 98]%N
  else if (c =? 12)%N then [92; 102]%N
  else if (c =? 10)%N then [92; 110]%N
  else if (c =? 13)%N then [92; 114]%N
  else if (c =? 9)%N then [92; 116]%N
  else if (c <? 32)%N then unicode_escape c
  else if is_low_surrogate c then unicode_escape c
  else [c].

(** QuoteJSONString without its quotes: a surrogate pair is copied, a lone
    surrogate is escaped. *)
Fixpoint escape_chars (s : jsstring) : jsstring :=
  match s with
  | [] => []
  | c :: t =>
      if is_high_surrogate c then
        match t with
        | d :: t' =>
            if is_low_surrogate d then c :: d :: escape_chars t'
            else unicode_escape c ++ escape_chars t
        | [] => unicode_escape c
        end
      else escape_char c ++ escape_chars t
  end.

Definition quote_json (s : jsstring) : jsstring :=
  34%N :: escape_chars s ++ [34%N].

Definition newline : jsstring := [10%N].

(** [parts] joined by a comma and a line break. *)
Fixpoint join_lines (parts : list jsstring) : jsstring :=
  match parts with
  | [] => []
  | [p] => p
  | p :: ps => p ++ 44%N :: 10%N :: join_lines ps
  end.

(** [JSON.stringify(v, null, 2)] at indentation [ind]. *)
Fixpoint stringify (ind : jsstring) (v : json) : jsstring :=
  let ind' := ind ++ [32; 32]%N in
  match v with
  | JNull => js "null"
  | JBool true => js "true"
  | JBool false => js "false"
  | JNum lx => lx
  | JStr s => quote_json s
  | JArr [] => js "[]"
  | JArr items =>
      91%N :: newline
      ++ join_lines (map (fun x => ind' ++ stringify ind' x) items)
      ++ newline ++ ind ++ [93%N]
  | JObj [] => js "{}"
  | JObj ms =>
      123%N :: newline
      ++ join_lines
           (map (fun kv => ind' ++ quote_json (fst kv) ++ [58; 32]%N
                           ++ stringify ind' (snd kv)) ms)
      ++ newline ++ ind ++ [125%N]
  end.

Definition JSON_stringify (v : json) : jsstring := stringify [] v.

(** JavaScript values met when package.json is inspected: [None] is
    [undefined]. *)
Definition jsval := option json.

(** [v?.k] for the two keys the program reads, [engines] and [node]: only an
    object can hold them. *)
Definition opt_get (v : jsval) (k : jsstring) : jsval :=
  match v with
  | Some (JObj ms) => assoc k ms
  | _ => None
  end.

(** A number lexeme denotes zero when its mantissa has no non-zero digit. *)
Fixpoint mantissa_zero (lx : jsstring) : bool :=
  match lx with
  | [] => true
  | c :: t =>
      if (c =? 101)%N || (c =? 69)%N then true
      else if is_digit c && negb (c =? 48)%N then false
      else mantissa_zero t
  end.

(** ToBoolean. *)
Definition truthy (v : jsval) : bool :=
  match v with
  | None => false
  | Some JNull => false
  | Some (JBool b) => b
  | Some (JNum lx) => negb (mantissa_zero lx)
  | Some (JStr []) => false
  | Some _ => true
  end.

(** A JSON text of the examples below, written with single quotes where the
    document has double quotes. *)
Definition json_text (s : string) : jsstring :=
  map (fun c => if (c =? 39)%N then 34%N else c) (js s).

(* ================================================================== *)
(** ** The world: file system, injected I/O failures, clock *)
(* ================================================================== *)

(** [files] maps the path of each regular file to its content, in the order in
    which a directory lists them; directories are the proper prefixes of those
    paths.  [faults] is consumed one flag per fallible file-system call: a
    [true] flag makes that call throw (permission denied, disk full, path
    removed by someone else, ...); a write that throws reads from the flags
    that follow how far it got.  [clock] holds the successive readings of
    [Date.now()].  [cwd] is [process.cwd()]. *)
Record world : Type := World {
  files : list (jsstring * jsstring);
  faults : list bool;
  clock : list N;
  cwd : jsstring
}.

Inductive result (A : Type) : Type :=
| Ok (a : A)
| Throw (e : jsstring).

Arguments Ok {A} a.
Arguments Throw {A} e.

(** Computations that read and change the world and may throw. *)
Definition M (A : Type) : Type := world -> result A * world.

Definition ret {A : Type} (a : A) : M A := fun w => (Ok a, w).

Definition throw {A : Type} (e : jsstring) : M A := fun w => (Throw e, w).

Definition bind {A B : Type} (m : M A) (k : A -> M B) : M B :=
  fun w =>
    match m w with
    | (Ok a, w') => k a w'
    | (Throw e, w') => (Throw e, w')
    end.

(** [try { body } catch (error) { handler(error) }] *)
Definition try_catch {A : Type} (body : M A) (handler : jsstring -> M A) : M A :=
  fun w =>
    match body w with
    | (Ok a, w') => (Ok a, w')
    | (Throw e, w') => handler e w'
    end.

Notation "x <- m ;; k" := (bind m (fun x => k))
  (at level 61, m at next level, right associativity).

(** A [for .. of] loop whose body pushes to the array [results].  The array
    outlives an exception: the loop hands back what was pushed so far together
    with the pending exception, if any. *)
Fixpoint push_loop {A B : Type} (body : A -> M (list B)) (xs : list A)
    (results : list B) (w : world) : (list B * option jsstring) * world :=
  match xs with
  | [] => ((results, None), w)
  | x :: xs' =>
      match body x w with
      | (Ok pushed, w') => push_loop body xs' (results ++ pushed) w'
      | (Throw e, w') => ((results, Some e), w')
      end
  end.

(* ------------------------------------------------------------------ *)
(** *** node:path and node:fs *)

Definition slash : jsstring := [47%N].

(** [path.join(a, b)] for a normalized directory [a] other than the root
    directory and a relative [b] without [.] or [..] segments. *)
Definition path_join (a b : jsstring) : jsstring := a ++ slash ++ b.

(** The segments of a path: what stands between its slashes. *)
Fixpoint path_segments (current path : jsstring) : list jsstring :=
  match path with
  | [] => [current]
  | c :: t =>
      if (c =? 47)%N then current :: path_segments [] t
      else path_segments (current ++ [c]) t
  end.

(** The segments of an absolute path after [path.resolve]: an empty segment
    and [.] are dropped, [..] drops the segment before it.  [kept] holds the
    segments kept so far, the last one first. *)
Fixpoint resolve_segments (kept segments : list jsstring) : list jsstring :=
  match segments with
  | [] => rev kept
  | s :: rest =>
      if str_eqb s [] || str_eqb s [46%N] then resolve_segments kept rest
      else if str_eqb s [46%N; 46%N] then resolve_segments (tl kept) rest
      else resolve_segments (s :: kept) rest
  end.

Fixpoint drop_common (a b : list jsstring)
  : list jsstring * list jsstring :=
  match a, b with
  | x :: a', y :: b' => if str_eqb x y then drop_common a' b' else (a, b)
  | _, _ => (a, b)
  end.

Fixpoint join_slash (segments : list jsstring) : jsstring :=
  match segments with
  | [] => []
  | [s] => s
  | s :: rest => s ++ slash ++ join_slash rest
  end.

(** [path.relative(from, to)] as the program calls it, with [process.cwd()]
    as [from]: an absolute directory, against which a relative [to] is
    resolved.  Both paths are resolved, what they share is dropped, and the
    result climbs with one [..] for each segment left of [from] before it
    goes down the segments left of [to]. *)
Definition path_relative (from to : jsstring) : jsstring :=
  let absolute := match to with c :: _ => (c =? 47)%N | [] => false end in
  let a := resolve_segments [] (path_segments [] from) in
  let b := resolve_segments []
             (path_segments [] (if absolute then to else from ++ slash ++ to)) in
  let (up, down) := drop_common a b in
  join_slash (map (fun _ => [46%N; 46%N]) up ++ down).

Fixpoint lookup_file (p : jsstring) (fs : list (jsstring * jsstring))
  : option jsstring :=
  match fs with
  | [] => None
  | (q, c) :: fs' => if str_eqb p q then Some c else lookup_file p fs'
  end.

(** Create or overwrite: an existing file keeps its place in the listing, a
    new one is listed last. *)
Fixpoint store_file (p c : jsstring) (fs : list (jsstring * jsstring))
  : list (jsstring * jsstring) :=
  match fs with
  | [] => [(p, c)]
  | (q, c') :: fs' =>
      if str_eqb p q then (p, c) :: fs' else (q, c') :: store_file p c fs'
  end.

(** The entry of directory [dir] through which the file [p] is reached. *)
Definition child_name (dir p : jsstring) : option jsstring :=
  match strip_prefix (dir ++ slash) p with
  | Some r => Some (fst (span (fun c => negb (c =? 47)%N) r))
  | None => None
  end.

Fixpoint dedup (seen l : list jsstring) : list jsstring :=
  match l with
  | [] => []
  | x :: t =>
      if existsb (str_eqb x) seen then dedup seen t
      else x :: dedup (x :: seen) t
  end.

Fixpoint filter_map {A B : Type} (f : A -> option B) (l : list A) : list B :=
  match l with
  | [] => []
  | x :: t =>
      match f x with
      | Some y => y :: filter_map f t
      | None => filter_map f t
      end
  end.

Definition dir_entries (dir : jsstring) (fs : list (jsstring * jsstring))
  : list jsstring :=
  dedup [] (filter_map (child_name dir) (map fst fs)).

Definition is_file (p : jsstring) (fs : list (jsstring * jsstring)) : bool :=
  match lookup_file p fs with Some _ => true | None => false end.

Definition is_dir (p : jsstring) (fs : list (jsstring * jsstring)) : bool :=
  match dir_entries p fs with [] => false | _ :: _ => true end.

(** The next fault flag. *)
Definition pop_fault (w : world) : bool * world :=
  match faults w with
  | [] => (false, w)
  | b :: bs => (b, World (files w) bs (clock w) (cwd w))
  end.

Definition set_files (fs : list (jsstring * jsstring)) (w : world) : world :=
  World fs (faults w) (clock w) (cwd w).

Definition EIO : jsstring := Eval cbv in js "Error: EIO: i/o error".
Definition ENOENT : jsstring :=
  Eval cbv in js "Error: ENOENT: no such file or directory".
Definition EISDIR : jsstring :=
  Eval cbv in js "Error: EISDIR: illegal operation on a directory".
Definition ENOTDIR : jsstring := Eval cbv in js "Error: ENOTDIR: not a directory".

(** [fs.existsSync(p)]: never throws. *)
Definition existsSync (p : jsstring) : M bool :=
  fun w => (Ok (is_file p (files w) || is_dir p (files w)), w).

(** [fs.readFileSync(p, "utf-8")] *)
Definition readFileSync (p : jsstring) : M jsstring :=
  fun w =>
    let (fault, w') := pop_fault w in
    if fault then (Throw EIO, w')
    else
      match lookup_file p (files w') with
      | Some c => (Ok c, w')
      | None => (Throw (if is_dir p (files w') then EISDIR else ENOENT), w')
      end.

(** [fs.readdirSync(dir)] *)
Definition readdirSync (dir : jsstring) : M (list jsstring) :=
  fun w =>
    let (fault, w') := pop_fault w in
    if fault then (Throw EIO, w')
    else if is_dir dir (files w') then (Ok (dir_entries dir (files w')), w')
    else (Throw (if is_file dir (files w') then ENOTDIR else ENOENT), w').

(** How far a failing write got, told by the flags that follow the one that
    made it fail, up to the next [false]: without a [true] flag the file
    could not be opened; with k + 1 of them it was opened, which empties it,
    and k characters were written before the failure. *)
Fixpoint write_progress (flags : list bool) : option nat * list bool :=
  match flags with
  | true :: rest =>
      let (progress, rest') := write_progress rest in
      (Some match progress with Some k => S k | None => O end, rest')
  | false :: rest => (None, rest)
  | [] => (None, [])
  end.

(** [fs.writeFileSync(p, content)]: the file is opened for writing, which
    creates it or empties it, and the content is written.  A write that
    fails after the file was opened leaves it with what was written so far,
    a prefix of the content. *)
Definition writeFileSync (p content : jsstring) : M unit :=
  fun w =>
    let (fault, w') := pop_fault w in
    if fault then
      let (progress, rest) := write_progress (faults w') in
      let w2 := World (files w') rest (clock w') (cwd w') in
      match progress with
      | Some k =>
          if is_dir p (files w') then (Throw EIO, w2)
          else (Throw EIO,
                set_files (store_file p (firstn k content) (files w')) w2)
      | None => (Throw EIO, w2)
      end
    else if is_dir p (files w') then (Throw EISDIR, w')
    else (Ok tt, set_files (store_file p content (files w')) w').

(** [fs.copyFileSync(src, dst)] *)
Definition copyFileSync (src dst : jsstring) : M unit :=
  fun w =>
    let (fault, w') := pop_fault w in
    if fault then (Throw EIO, w')
    else
      match lookup_file src (files w') with
      | None => (Throw (if is_dir src (files w') then EISDIR else ENOENT), w')
      | Some c =>
          if is_dir dst (files w') then (Throw EISDIR, w')
          else (Ok tt, set_files (store_file dst c (files w')) w')
      end.

(** [Date.now()] *)
Definition Date_now : M N :=
  fun w =>
    match clock w with
    | [] => (Ok 0%N, w)
    | t :: ts => (Ok t, World (files w) (faults w) ts (cwd w))
    end.

(** [process.cwd()] *)
Definition process_cwd : M jsstring := fun w => (Ok (cwd w), w).

(* ================================================================== *)
(** ** scripts/version-check.ts *)
(* ================================================================== *)

Module VersionCheck.

Record VersionInfo : Type := mkVersionInfo {
  file : jsstring;
  relativePath : jsstring;
  currentVersion : jsstring;
  fullVersion : jsstring;
  majorVersion : N;
  fileType : jsstring
}.

Record VersionReport : Type := mkVersionReport {
  versions : list VersionInfo;
  hasMismatch : bool;
  targetVersion : option N
}.

(** Extract major version number from a version string. *)
Definition extractMajorVersion (version : jsstring) : N :=
  match regex_search re_digits version with
  | Some (_, m) => parseInt (or_empty (group 1 m))
  | None => 0%N
  end.

(** The checker shared in shape by [.nvmrc] and [.node-version]. *)
Definition check_version_file (name tag : jsstring) (projectRoot : jsstring)
  : M (option VersionInfo) :=
  let filePath := path_join projectRoot name in
  present <- existsSync filePath ;;
  if negb present then ret None
  else
    raw <- readFileSync filePath ;;
    let content := trim raw in
    match exec re_leading_version content with
    | None => ret None
    | Some m =>
        ret (Some (mkVersionInfo filePath name (or_empty (group 1 m)) content
                     (parseInt (or_empty (group 1 m))) tag))
    end.

(** Check .nvmrc file for Node version. *)
Definition checkNvmrc : jsstring -> M (option VersionInfo) :=
  check_version_file (js ".nvmrc") (js "nvmrc").

Definition TypeError : jsstring := Eval cbv in js "TypeError".
Definition SyntaxError : jsstring := Eval cbv in js "SyntaxError".

(** Check package.json engines.node field. *)
Definition checkPackageJson (projectRoot : jsstring) : M (option VersionInfo) :=
  let filePath := path_join projectRoot (js "package.json") in
  present <- existsSync filePath ;;
  if negb present then ret None
  else
    try_catch
      (text <- readFileSync filePath ;;
       match JSON_parse text with
       | None => throw SyntaxError
       | Some content =>
           let nodeVersion := opt_get (opt_get (Some content) (js "engines"))
                                      (js "node") in
           if negb (truthy nodeVersion) then ret None
           else
             match nodeVersion with
             | Some (JStr version) =>
                 ret (Some (mkVersionInfo filePath (js "package.json")
                              (toString (extractMajorVersion version))
                              version (extractMajorVersion version)
                              (js "package.json")))
             | _ => throw TypeError   (* version.match is not a function *)
             end
       end)
      (fun _ => ret None).

(** The checker shared in shape by Dockerfile, docker-compose.yml: the
    pattern has two groups, the integer and the rest of the tag. *)
Definition check_image_file (name tag : jsstring) (pat : regex)
    (projectRoot : jsstring) : M (option VersionInfo) :=
  let filePath := path_join projectRoot name in
  present <- existsSync filePath ;;
  if negb present then ret None
  else
    content <- readFileSync filePath ;;
    match regex_search pat content with
    | None => ret None
    | Some (_, m) =>
        let suffix := or_empty (group 2 m) in
        ret (Some (mkVersionInfo filePath name (or_empty (group 1 m))
                     (or_empty (group 1 m) ++ suffix)
                     (parseInt (or_empty (group 1 m))) tag))
    end.

(** Check Dockerfile for Node version. *)
Definition checkDockerfile : jsstring -> M (option VersionInfo) :=
  check_image_file (js "Dockerfile") (js "dockerfile") re_from.

(** Check docker-compose.yml for Node version. *)
Definition checkDockerCompose : jsstring -> M (option VersionInfo) :=
  check_image_file (js "docker-compose.yml") (js "docker-compose") re_image.

Definition workflowDir (projectRoot : jsstring) : jsstring :=
  path_join (path_join projectRoot (js ".github")) (js "workflows").

Definition is_workflow_name (f : jsstring) : bool :=
  endsWith f (js ".yml") || endsWith f (js ".yaml").

Definition workflow_record (filePath name : jsstring) (m : mres) : VersionInfo :=
  mkVersionInfo filePath (js ".github/workflows/" ++ name)
    (or_empty (group 1 m)) (or_empty (group 1 m))
    (parseInt (or_empty (group 1 m))) (js "github-workflow").

(** The body of the loop of [checkGitHubWorkflows]: what one file pushes. *)
Definition check_workflow_file (dir name : jsstring) : M (list VersionInfo) :=
  let filePath := path_join dir name in
  content <- readFileSync filePath ;;
  match regex_search re_node_version content with
  | Some (_, m) => ret [workflow_record filePath name m]
  | None =>
      match regex_search re_NODE_VERSION content with
      | Some (_, m) => ret [workflow_record filePath name m]
      | None => ret []
      end
  end.

(** Check GitHub workflow files for Node version.  One handler encloses the
    directory listing and the whole loop, and it returns [results]. *)
Definition checkGitHubWorkflows (projectRoot : jsstring) : M (list VersionInfo) :=
  let dir := workflowDir projectRoot in
  present <- existsSync dir ;;
  if negb present then ret []
  else
    fun w =>
      match readdirSync dir w with
      | (Throw _, w') => (Ok [], w')
      | (Ok names, w') =>
          let '((results, _), w'') :=
            push_loop (check_workflow_file dir)
                      (filter is_workflow_name names) [] w' in
          (Ok results, w'')
      end.

(** Check .node-version file. *)
Definition checkNodeVersion : jsstring -> M (option VersionInfo) :=
  check_version_file (js ".node-version") (js "node-version").

(** Check .tool-versions file (asdf). *)
Definition checkToolVersions (projectRoot : jsstring) : M (option VersionInfo) :=
  let filePath := path_join projectRoot (js ".tool-versions") in
  present <- existsSync filePath ;;
  if negb present then ret None
  else
    content <- readFileSync filePath ;;
    match regex_search re_nodejs content with
    | None => ret None
    | Some (_, m) =>
        ret (Some (mkVersionInfo filePath (js ".tool-versions")
                     (or_empty (group 1 m)) (or_empty (group 1 m))
                     (parseInt (or_empty (group 1 m))) (js "tool-versions")))
    end.

(** The non-null entries of [checks]. *)
Definition non_null (checks : list (option VersionInfo)) : list VersionInfo :=
  filter_map (fun c => c) checks.

(** The array [checks] of [scanVersions]: the six single-file checkers, run
    in this order, outside any handler. *)
Definition checks (projectRoot : jsstring) : M (list (option VersionInfo)) :=
  c1 <- checkNvmrc projectRoot ;;
  c2 <- checkPackageJson projectRoot ;;
  c3 <- checkDockerfile projectRoot ;;
  c4 <- checkDockerCompose projectRoot ;;
  c5 <- checkNodeVersion projectRoot ;;
  c6 <- checkToolVersions projectRoot ;;
  ret [c1; c2; c3; c4; c5; c6].

(** Scan project for all Node.js version specifications. *)
Definition scanVersions (projectRoot : jsstring) : M (list VersionInfo) :=
  cs <- checks projectRoot ;;
  workflowVersions <- checkGitHubWorkflows projectRoot ;;
  ret (non_null cs ++ workflowVersions).

(** [new Set(xs).size] *)
Fixpoint distinct (seen xs : list N) : list N :=
  match xs with
  | [] => []
  | x :: t =>
      if existsb (N.eqb x) seen then distinct seen t
      else x :: distinct (x :: seen) t
  end.

(** A [Map<number, number>]: entries in insertion order. *)
Fixpoint map_get (k : N) (m : list (N * N)) : option N :=
  match m with
  | [] => None
  | (k', v) :: m' => if (k =? k')%N then Some v else map_get k m'
  end.

Fixpoint map_set (k v : N) (m : list (N * N)) : list (N * N) :=
  match m with
  | [] => [(k, v)]
  | (k', v') :: m' =>
      if (k =? k')%N then (k, v) :: m' else (k', v') :: map_set k v m'
  end.

(** [for (const v of versions) versionCounts.set(m, (versionCounts.get(m) || 0) + 1)] *)
Definition count_versions (majors : list N) : list (N * N) :=
  fold_left
    (fun counts m =>
       map_set m (match map_get m counts with Some c => c | None => 0 end + 1)%N
               counts)
    majors [].

(** The loop over [versionCounts] with its two variables. *)
Definition most_common (counts : list (N * N)) (resolvedTarget : option N)
  : option N :=
  snd (fold_left
         (fun (st : N * option N) (e : N * N) =>
            let (maxCount, target) := st in
            if (maxCount <? snd e)%N then (snd e, Some (fst e))
            else (maxCount, target))
         counts (0%N, resolvedTarget)).

(** [!resolvedTarget]: null and 0 are falsy. *)
Definition no_target (t : option N) : bool :=
  match t with
  | None => true
  | Some n => (n =? 0)%N
  end.

(** Generate version report with mismatch detection. *)
Definition generateReport (projectRoot : jsstring) (target : option N)
  : M VersionReport :=
  vs <- scanVersions projectRoot ;;
  let majorVersions := distinct [] (map majorVersion vs) in
  let mismatch := (1 <? length majorVersions)%nat in
  let resolvedTarget :=
    if no_target target && (0 <? length vs)%nat
    then most_common (count_versions (map majorVersion vs)) target
    else target in
  ret (mkVersionReport vs mismatch resolvedTarget).

(** [target && v.majorVersion !== target]: no target and the target 0 are
    falsy. *)
Definition needsUpdate (target : option N) (v : VersionInfo) : bool :=
  match target with
  | None => false
  | Some t => negb (t =? 0)%N && negb (majorVersion v =? t)%N
  end.

(** [(target ?? "-")] in a string concatenation. *)
Definition shown_target (target : option N) : jsstring :=
  match target with
  | Some t => toString t
  | None => js "-"
  end.

(** The line added to the table for one record. *)
Definition report_row (target : option N) (v : VersionInfo) : jsstring :=
  let action :=
    if needsUpdate target v then js "Will update" else js "No change" in
  let icon := if needsUpdate target v then js "[UPDATE]" else js "[OK]" in
  js "| " ++ relativePath v ++ js " | " ++ fullVersion v ++ js " | "
  ++ shown_target target ++ js " | " ++ icon ++ js " " ++ action ++ js " |"
  ++ newline.

(** Format report as markdown table.  [explicit] is the optional second
    argument. *)
Definition formatReportMarkdown (report : VersionReport) (explicit : option N)
  : jsstring :=
  let target :=
    match explicit with
    | Some t => Some t
    | None => targetVersion report
    end in
  match versions report with
  | [] =>
      join_nl [js "## Node.js Version Status"; [];
               js "No Node.js version files found in this project."]
  | _ :: _ =>
      let output0 :=
        join_nl [js "## Node.js Version Status"; []; []] in
      let output1 :=
        output0
        ++ (if hasMismatch report
            then join_nl [js "**Warning: Version mismatch detected!**";
                          []; []]
            else join_nl [js "All versions are aligned."; [];
                          []]) in
      let output2 :=
        output1
        ++ join_nl [js "| File | Current | Target | Action |"; []]
        ++ join_nl [js "|------|---------|--------|--------|"; []] in
      fold_left (fun output v => output ++ report_row target v)
                (versions report) output2
  end.

End VersionCheck.

(* ================================================================== *)
(** ** scripts/version-update.ts *)
(* ================================================================== *)

Module VersionUpdate.

Import VersionCheck.

(** [error] and [backedUp] are optional properties: [None] is an absent one. *)
Record UpdateResult : Type := mkUpdateResult {
  file : jsstring;
  relativePath : jsstring;
  oldVersion : jsstring;
  newVersion : jsstring;
  success : bool;
  error : option jsstring;
  backedUp : option bool
}.

Record UpdateOptions : Type := mkUpdateOptions {
  dryRun : bool;
  backup : bool
}.

(** [Partial<UpdateOptions>] *)
Record PartialOptions : Type := mkPartialOptions {
  dryRun_opt : option bool;
  backup_opt : option bool
}.

Definition DEFAULT_OPTIONS : UpdateOptions := mkUpdateOptions false true.

(** [{ ...DEFAULT_OPTIONS, ...options }] *)
Definition merge_options (options : PartialOptions) : UpdateOptions :=
  mkUpdateOptions
    (match dryRun_opt options with Some b => b | None => dryRun DEFAULT_OPTIONS end)
    (match backup_opt options with Some b => b | None => backup DEFAULT_OPTIONS end).

(** The path of the backup of [filePath] taken at [timestamp]. *)
Definition backup_path (filePath : jsstring) (timestamp : N) : jsstring :=
  filePath ++ js ".backup." ++ toString timestamp.

(** Create a backup of a file before modifying. *)
Definition backupFile (filePath : jsstring) : M jsstring :=
  timestamp <- Date_now ;;
  let backupPath := backup_path filePath timestamp in
  _ <- copyFileSync filePath backupPath ;;
  ret backupPath.

(** The part common to the seven update functions:
    [try { backup?; write; return ok } catch (error) { return failed }]. *)
Definition backup_and_write (filePath relPath old new newContent : jsstring)
    (options : UpdateOptions) : M UpdateResult :=
  try_catch
    (backedUp <- (if backup options
                  then _ <- backupFile filePath ;; ret true
                  else ret false) ;;
     _ <- writeFileSync filePath newContent ;;
     ret (mkUpdateResult filePath relPath old new true None (Some backedUp)))
    (fun e =>
       ret (mkUpdateResult filePath relPath old new false (Some e) None)).

(** The update shared in shape by [.nvmrc] and [.node-version]. *)
Definition update_version_file (filePath : jsstring) (targetVersion : N)
    (options : UpdateOptions) : M UpdateResult :=
  dir <- process_cwd ;;
  let relPath := path_relative dir filePath in
  raw <- readFileSync filePath ;;
  let content := trim raw in
  let newContent := toString targetVersion ++ newline in
  if dryRun options then
    ret (mkUpdateResult filePath relPath content (toString targetVersion)
           true None None)
  else
    backup_and_write filePath relPath content (toString targetVersion)
                     newContent options.

(** Update .nvmrc file. *)
Definition updateNvmrc := update_version_file.

(** The value shown for a truthy [engines.node]: the string itself; the JSON
    text stands for a value that is not a string. *)
Definition shown (v : jsval) : jsstring :=
  if negb (truthy v) then []
  else
    match v with
    | Some (JStr s) => s
    | Some other => JSON_stringify other
    | None => []
    end.

(** [if (!content.engines) content.engines = {}; content.engines.node = v]
    as tsx runs it, a CommonJS module without strict mode: an assignment to
    a property of a primitive is dropped without an error.  [None] is the
    TypeError thrown when a property of [null] is read, and when
    [content.engines] is still [undefined] at the second assignment because
    [content] is a primitive.  A property put on an array is not serialised,
    so an array stays as it is; so does an [engines] that is [true], a
    number other than zero or a non-empty string, on which the assignment of
    [node] is dropped. *)
Definition set_engines_node (content : json) (v : jsstring) : option json :=
  match content with
  | JNull => None
  | JObj ms =>
      if negb (truthy (assoc (js "engines") ms)) then
        Some (JObj (assoc_set (js "engines") (JObj [(js "node", JStr v)]) ms))
      else
        match assoc (js "engines") ms with
        | Some (JObj es) =>
            Some (JObj (assoc_set (js "engines")
                          (JObj (assoc_set (js "node") (JStr v) es)) ms))
        | _ => Some content
        end
  | JArr _ => Some content
  | _ => None
  end.

(** A value of [engines] that takes [node]: a falsy one, in whose place a new
    object is put, or an object. *)
Definition takes_node (engines : jsval) : Prop :=
  truthy engines = false \/ exists es, engines = Some (JObj es).

(** Update package.json engines.node field. *)
Definition updatePackageJson (filePath : jsstring) (targetVersion : N)
    (options : UpdateOptions) : M UpdateResult :=
  dir <- process_cwd ;;
  let relPath := path_relative dir filePath in
  let newVersion := js ">=" ++ toString targetVersion ++ js ".0.0" in
  try_catch
    (text <- readFileSync filePath ;;
     match JSON_parse text with
     | None => throw SyntaxError
     | Some content =>
         let old := shown (opt_get (opt_get (Some content) (js "engines"))
                                   (js "node")) in
         if dryRun options then
           ret (mkUpdateResult filePath relPath old newVersion true None None)
         else
           match set_engines_node content newVersion with
           | None => throw TypeError
           | Some content' =>
               backedUp <- (if backup options
                            then _ <- backupFile filePath ;; ret true
                            else ret false) ;;
               _ <- writeFileSync filePath (JSON_stringify content' ++ newline) ;;
               ret (mkUpdateResult filePath relPath old newVersion true None
                      (Some backedUp))
           end
     end)
    (fun e =>
       ret (mkUpdateResult filePath relPath [] newVersion false (Some e) None)).

(** The update shared in shape by Dockerfile and docker-compose.yml:
    [head] is the text put before the target, [missing] the error for a file
    without the pattern. *)
Definition update_image_file (pat : regex) (head missing : jsstring)
    (filePath : jsstring) (targetVersion : N) (options : UpdateOptions)
  : M UpdateResult :=
  dir <- process_cwd ;;
  let relPath := path_relative dir filePath in
  content <- readFileSync filePath ;;
  match regex_search pat content with
  | None =>
      ret (mkUpdateResult filePath relPath [] (toString targetVersion) false
             (Some missing) None)
  | Some (_, m) =>
      let old := or_empty (group 1 m) in
      let suffix := or_empty (group 2 m) in
      let newContent :=
        replace_first pat (head ++ toString targetVersion ++ suffix) content in
      if dryRun options then
        ret (mkUpdateResult filePath relPath (old ++ suffix)
               (toString targetVersion ++ suffix) true None None)
      else
        backup_and_write filePath relPath (old ++ suffix)
                         (toString targetVersion ++ suffix) newContent options
  end.

(** Update Dockerfile FROM node:<version> line. *)
Definition updateDockerfile :=
  update_image_file re_from (js "FROM node:") (js "No FROM node: line found").

(** Update docker-compose.yml image: node:<version> line. *)
Definition updateDockerCompose :=
  update_image_file re_image (js "image: node:")
                    (js "No image: node: line found").

(** The two rewrites of [updateGitHubWorkflow], in the order of the code: the
    content after them, [oldVersion] and [updated]. *)
Definition rewrite_workflow (content : jsstring) (targetVersion : N)
  : jsstring * jsstring * bool :=
  let '(content1, old1, updated1) :=
    match regex_search re_node_version content with
    | Some (_, m) =>
        (replace_all re_node_version
           (js "node-version: '" ++ toString targetVersion ++ js "'") content,
         or_empty (group 1 m), true)
    | None => (content, [], false)
    end in
  match regex_search re_NODE_VERSION content1 with
  | Some (_, m) =>
      (replace_all re_NODE_VERSION
         (js "NODE_VERSION: '" ++ toString targetVersion ++ js "'") content1,
       match old1 with [] => or_empty (group 1 m) | _ => old1 end,
       true)
  | None => (content1, old1, updated1)
  end.

(** Update GitHub workflow file. *)
Definition updateGitHubWorkflow (filePath : jsstring) (targetVersion : N)
    (options : UpdateOptions) : M UpdateResult :=
  dir <- process_cwd ;;
  let relPath := path_relative dir filePath in
  content0 <- readFileSync filePath ;;
  let '(content, old, updated) := rewrite_workflow content0 targetVersion in
  if negb updated then
    ret (mkUpdateResult filePath relPath [] (toString targetVersion) false
           (Some (js "No node version pattern found")) None)
  else if dryRun options then
    ret (mkUpdateResult filePath relPath old (toString targetVersion) true
           None None)
  else
    backup_and_write filePath relPath old (toString targetVersion) content
                     options.

(** Update .node-version file. *)
Definition updateNodeVersionFile := update_version_file.

(** Update .tool-versions file (asdf). *)
Definition updateToolVersions (filePath : jsstring) (targetVersion : N)
    (options : UpdateOptions) : M UpdateResult :=
  dir <- process_cwd ;;
  let relPath := path_relative dir filePath in
  content <- readFileSync filePath ;;
  match regex_search re_nodejs content with
  | None =>
      ret (mkUpdateResult filePath relPath [] (toString targetVersion) false
             (Some (js "No nodejs line found")) None)
  | Some (_, m) =>
      let old := or_empty (group 1 m) in
      let newContent :=
        replace_first re_nodejs (js "nodejs " ++ toString targetVersion)
                      content in
      if dryRun options then
        ret (mkUpdateResult filePath relPath old (toString targetVersion) true
               None None)
      else
        backup_and_write filePath relPath old (toString targetVersion)
                         newContent options
  end.

(** Update a single version file based on its type. *)
Definition updateVersionFile (versionInfo : VersionInfo) (targetVersion : N)
    (options : UpdateOptions) : M UpdateResult :=
  let t := VersionCheck.fileType versionInfo in
  let f := VersionCheck.file versionInfo in
  if str_eqb t (js "nvmrc") then updateNvmrc f targetVersion options
  else if str_eqb t (js "package.json")
  then updatePackageJson f targetVersion options
  else if str_eqb t (js "dockerfile")
  then updateDockerfile f targetVersion options
  else if str_eqb t (js "docker-compose")
  then updateDockerCompose f targetVersion options
  else if str_eqb t (js "github-workflow")
  then updateGitHubWorkflow f targetVersion options
  else if str_eqb t (js "node-version")
  then updateNodeVersionFile f targetVersion options
  else if str_eqb t (js "tool-versions")
  then updateToolVersions f targetVersion options
  else
    ret (mkUpdateResult f (VersionCheck.relativePath versionInfo)
           (fullVersion versionInfo) (toString targetVersion) false
           (Some (js "Unknown file type: " ++ t)) None).

(** The result pushed for a record that is already at the target version. *)
Definition skipped (versionInfo : VersionInfo) (targetVersion : N)
  : UpdateResult :=
  mkUpdateResult (VersionCheck.file versionInfo)
    (VersionCheck.relativePath versionInfo) (fullVersion versionInfo)
    (toString targetVersion) true None None.

(** The body of the loop of [updateAllVersions]. *)
Definition update_record (targetVersion : N) (opts : UpdateOptions)
    (versionInfo : VersionInfo) : M (list UpdateResult) :=
  if (majorVersion versionInfo =? targetVersion)%N
  then ret [skipped versionInfo targetVersion]
  else
    r <- updateVersionFile versionInfo targetVersion opts ;;
    ret [r].

(** The loop of [updateAllVersions] over the scanned records; it is not
    inside any handler, so a pending exception leaves the function. *)
Definition update_records (vs : list VersionInfo) (targetVersion : N)
    (opts : UpdateOptions) : M (list UpdateResult) :=
  fun w =>
    match push_loop (update_record targetVersion opts) vs [] w with
    | ((results, None), w') => (Ok results, w')
    | ((_, Some e), w') => (Throw e, w')
    end.

(** Update all version files in a project. *)
Definition updateAllVersions (projectRoot : jsstring) (targetVersion : N)
    (options : PartialOptions) : M (list UpdateResult) :=
  let opts := merge_options options in
  vs <- scanVersions projectRoot ;;
  update_records vs targetVersion opts.

(** [r.backedUp] as a condition, as in [results.filter((r) => r.backedUp)]. *)
Definition is_backed_up (r : UpdateResult) : bool :=
  match backedUp r with Some true => true | _ => false end.

(** The status shown for one result.  An absent [error] is printed as
    [undefined]. *)
Definition status (dry_run : bool) (r : UpdateResult) : jsstring :=
  if success r then
    if str_eqb (oldVersion r) (newVersion r) then js "No change needed"
    else if dry_run then js "Will update"
    else js "Updated"
  else
    js "Error: " ++ match error r with Some e => e | None => js "undefined" end.

(** The line added to the table for one result. *)
Definition result_row (dry_run : bool) (r : UpdateResult) : jsstring :=
  js "| " ++ relativePath r ++ js " | " ++ oldVersion r ++ js " | "
  ++ newVersion r ++ js " | " ++ status dry_run r ++ js " |" ++ newline.

(** Format update results as markdown. *)
Definition formatUpdateResultsMarkdown (results : list UpdateResult)
    (dry_run : bool) : jsstring :=
  let output0 :=
    if dry_run
    then join_nl [js "## Version Update Preview (Dry Run)"; [];
                  []]
    else join_nl [js "## Version Update Results"; []; []] in
  match results with
  | [] => output0 ++ js "No version files found to update."
  | _ :: _ =>
      let output1 :=
        output0
        ++ join_nl [js "| File | Old Version | New Version | Status |";
                    []]
        ++ join_nl [js "|------|-------------|-------------|--------|";
                    []] in
      let output2 :=
        fold_left (fun output r => output ++ result_row dry_run r)
                  results output1 in
      if negb dry_run then
        let backed := filter is_backed_up results in
        if (0 <? length backed)%nat then
          output2 ++ join_nl [[]; js "**"]
          ++ toString (N.of_nat (length backed))
          ++ js " file(s) backed up before modification.**"
        else output2
      else output2
  end.

End VersionUpdate.

(* ================================================================== *)
(** ** scripts/index.ts *)
(* ================================================================== *)

Module Cli.

Import VersionCheck VersionUpdate.

Definition HELP_TEXT : jsstring :=
  join_nl
    [[];
     js "Version Sync - Node.js Version Management";
     [];
     js "Usage:";
     js "  npx tsx index.ts <command> [options]";
     [];
     js "Commands:";
     js "  check                   Check for version mismatches across project files";
     js "  update <version>        Update all version files to target version";
     js "  help                    Show this help message";
     [];
     js "Options:";
     js "  --dry-run              Preview changes without modifying files (for update command)";
     js "  --no-backup            Skip creating backup files before updates";
     [];
     js "Examples:";
     js "  # Check current version status";
     js "  npx tsx index.ts check";
     [];
     js "  # Preview updating to Node 22";
     js "  npx tsx index.ts update 22 --dry-run";
     [];
     js "  # Update all files to Node 22";
     js "  npx tsx index.ts update 22";
     [];
     js "  # Update without creating backups";
     js "  npx tsx index.ts update 22 --no-backup";
     []].

(** A line written by [console.log] or by [console.error]. *)
Inductive console_line : Type :=
| Log (text : jsstring)
| Err (text : jsstring).

(** How a run of [main] ends: [Ok code] is [process.exit(code)], or the end
    of [main] with the code 0; [Throw e] is an exception nothing catches.
    The lines are those printed before that. *)
Definition ending : Type := (result N * list console_line) * world.

(** One step of [main] that can throw: an exception ends the run with what
    was printed so far. *)
Definition step {A : Type} (printed : list console_line) (m : M A)
    (k : A -> world -> ending) : world -> ending :=
  fun w =>
    match m w with
    | (Ok a, w') => k a w'
    | (Throw e, w') => ((Throw e, printed), w')
    end.

Definition finish (code : N) (printed : list console_line) : world -> ending :=
  fun w => ((Ok code, printed), w).

(** [!s] for an optional string: [undefined] and the empty string. *)
Definition absent (s : option jsstring) : bool :=
  match s with
  | None => true
  | Some [] => true
  | Some _ => false
  end.

Definition includes (args : list jsstring) (flag : jsstring) : bool :=
  existsb (str_eqb flag) args.

(** The [update] command once the target is known. *)
Definition run_update (projectRoot : jsstring) (targetVersion : N)
    (dry_run noBackup : bool) : world -> ending :=
  step [] (generateReport projectRoot (Some targetVersion)) (fun report =>
    let printed1 :=
      [Log (formatReportMarkdown report (Some targetVersion)); Log []] in
    step printed1
      (updateAllVersions projectRoot targetVersion
         (mkPartialOptions (Some dry_run) (Some (negb noBackup))))
      (fun results =>
         let printed2 :=
           printed1 ++ [Log (formatUpdateResultsMarkdown results dry_run)] in
         let failures := filter (fun r => negb (success r)) results in
         if (0 <? length failures)%nat then finish 1 printed2
         else if dry_run then
           finish 0
             (printed2
              ++ [Log (join_nl [[];
                                js "This was a dry run. No files were modified."]);
                  Log (js "Run 'npx tsx index.ts update "
                       ++ toString targetVersion
                       ++ js "' to apply changes.")])
         else finish 0 printed2)).

(** [main()] on [args = process.argv.slice(2)]. *)
Definition main (args : list jsstring) : world -> ending :=
  let command := nth_error args 0 in
  match command with
  | None => finish 0 [Log HELP_TEXT]
  | Some command =>
      if str_eqb command [] || str_eqb command (js "help")
         || str_eqb command (js "--help") || str_eqb command (js "-h")
      then finish 0 [Log HELP_TEXT]
      else
        step [] process_cwd (fun projectRoot =>
          if str_eqb command (js "check") then
            step [] (generateReport projectRoot None) (fun report =>
              let printed := [Log (formatReportMarkdown report None)] in
              if hasMismatch report then
                finish 1
                  (printed
                   ++ [Log (join_nl
                              [[];
                               js "Run 'npx tsx index.ts update <version>' to sync all files."])])
              else finish 0 printed)
          else if str_eqb command (js "update") then
            let versionArg := nth_error args 1 in
            let dry_run := includes args (js "--dry-run") in
            let noBackup := includes args (js "--no-backup") in
            if absent versionArg then
              finish 1
                [Err (js "Error: Version number required.");
                 Err (js "Usage: npx tsx index.ts update <version> [--dry-run]")]
            else
              let text := match versionArg with Some a => a | None => [] end in
              match parseInt10 text with
              | Int false (Npos p) =>
                  run_update projectRoot (Npos p) dry_run noBackup
              | _ =>
                  finish 1 [Err (js "Error: Invalid version number: " ++ text)]
              end
          else
            finish 1 [Err (js "Unknown command: " ++ command); Log HELP_TEXT])
  end.

End Cli.

(* ================================================================== *)
(** ** Notions of the specification *)
(* ================================================================== *)

Import VersionCheck.

(** The first integer run of a display value. *)
Fixpoint first_integer_run (s : jsstring) : option jsstring :=
  match s with
  | [] => None
  | c :: t =>
      if is_digit c then Some (fst (span is_digit s)) else first_integer_run t
  end.

(** The major version derived from a display value: its first integer run,
    and 0 when it has none. *)
Definition major_of (display : jsstring) : N :=
  match first_integer_run display with
  | Some ds => parseInt ds
  | None => 0%N
  end.

(** Parts of the patterns, named for the proofs. *)
(** A pattern without groups. *)
Definition no_caps (pat : regex) : bool :=
  forallb (fun a => match a with Cap _ | CapOpt _ => false | _ => true end) pat.

Definition image_tail : regex := [Cap (Plus is_digit); CapOpt (Star not_space)].

Definition from_head : regex :=
  lits true (js "FROM") ++ [Plus is_space] ++ lits true (js "node:").

Definition image_head : regex :=
  lits true (js "image:") ++ [Star is_space] ++ lits true (js "node:").


Definition workflow_head (key : string) : regex :=
  lits true (js key) ++ [Star is_space; Opt is_quote].

Definition workflow_tail : regex := [Cap (Plus is_digit); Opt is_quote].

Definition nodejs_head : regex := lits false (js "nodejs") ++ [Plus is_space].

(** A computation that leaves every file as it is, whatever its outcome. *)
Definition keeps_files {A : Type} (m : M A) : Prop :=
  forall w x w', m w = (x, w') -> files w' = files w.

(** What a record returned by the scan says about the files it was read
    from: the file is there and its content matches the pattern of its
    format the way the record tells. *)
Inductive scanned (fs : list (jsstring * jsstring)) : VersionInfo -> Prop :=
| scanned_version filePath name tag raw m :
    lookup_file filePath fs = Some raw ->
    exec re_leading_version (trim raw) = Some m ->
    tag = js "nvmrc" \/ tag = js "node-version" ->
    scanned fs
      (mkVersionInfo filePath name (or_empty (group 1 m)) (trim raw)
         (parseInt (or_empty (group 1 m))) tag)
| scanned_package filePath text content version :
    lookup_file filePath fs = Some text ->
    JSON_parse text = Some content ->
    opt_get (opt_get (Some content) (js "engines")) (js "node")
      = Some (JStr version) ->
    version <> [] ->
    scanned fs
      (mkVersionInfo filePath (js "package.json")
         (toString (extractMajorVersion version)) version
         (extractMajorVersion version) (js "package.json"))
| scanned_image filePath name tag pat content pre m :
    lookup_file filePath fs = Some content ->
    regex_search pat content = Some (pre, m) ->
    (tag = js "dockerfile" /\ pat = re_from)
    \/ (tag = js "docker-compose" /\ pat = re_image) ->
    scanned fs
      (mkVersionInfo filePath name (or_empty (group 1 m))
         (or_empty (group 1 m) ++ or_empty (group 2 m))
         (parseInt (or_empty (group 1 m))) tag)
| scanned_workflow filePath name content pre m :
    lookup_file filePath fs = Some content ->
    regex_search re_node_version content = Some (pre, m)
    \/ (regex_search re_node_version content = None
        /\ regex_search re_NODE_VERSION content = Some (pre, m)) ->
    scanned fs (workflow_record filePath name m)
| scanned_tool filePath content pre m :
    lookup_file filePath fs = Some content ->
    regex_search re_nodejs content = Some (pre, m) ->
    scanned fs
      (mkVersionInfo filePath (js ".tool-versions") (or_empty (group 1 m))
         (or_empty (group 1 m)) (parseInt (or_empty (group 1 m)))
         (js "tool-versions")).

(** The names of the six single files. *)
Definition top_names : list jsstring :=
  [js ".nvmrc"; js "package.json"; js "Dockerfile"; js "docker-compose.yml";
   js ".node-version"; js ".tool-versions"].

(** A project with a package.json whose [engines.node] names no number. *)
Definition project_latest : world :=
  World [(js "/p/package.json", json_text "{'engines': {'node': 'latest'}}")]
        [] [] (js "/p").

(** The distinct elements of a list in the order in which they are first
    seen. *)
Fixpoint first_seen (l : list N) : list N :=
  match l with
  | [] => []
  | x :: t => x :: filter (fun y => negb (y =? x)%N) (first_seen t)
  end.

(** How often [u] occurs among [majors]. *)
Definition frequency (majors : list N) (u : N) : nat :=
  count_occ N.eq_dec majors u.

(** [t] is the majority value of [majors]: no value is more frequent, and
    every value seen before the first [t] is strictly less frequent. *)
Definition majority (majors : list N) (t : N) : Prop :=
  exists pre post,
    majors = pre ++ t :: post
    /\ ~ In t pre
    /\ (forall u, In u pre -> (frequency majors u < frequency majors t)%nat)
    /\ (forall u, (frequency majors u <= frequency majors t)%nat).

(** An entry of the map of counts. *)
Definition tally (p : list N) (k : N) : N * N := (k, N.of_nat (frequency p k)).


(** A computation that leaves the whole world as it is when no fault is
    pending. *)
Definition quiet {A : Type} (m : M A) : Prop :=
  forall w x w', faults w = [] -> m w = (x, w') -> w' = w.

(** A property of every value a computation can return. *)
Definition returns {A : Type} (P : A -> Prop) (m : M A) : Prop :=
  forall w a w', m w = (Ok a, w') -> P a.

Import VersionUpdate.

(** The value a record is rewritten to, format by format: the integer is
    replaced by the target; package.json gets the range [>=target.0.0]; an
    image tag keeps what follows its integer; the other formats are the bare
    integer. *)
Definition after_value (v : VersionInfo) (target : N) : jsstring :=
  if str_eqb (fileType v) (js "package.json")
  then js ">=" ++ toString target ++ js ".0.0"
  else if str_eqb (fileType v) (js "dockerfile")
          || str_eqb (fileType v) (js "docker-compose")
  then toString target ++ dropWhile is_digit (fullVersion v)
  else toString target.

(** The options of a dry run. *)
Definition dry (b : bool) : UpdateOptions := mkUpdateOptions true b.

(** What the dry run says of a record the scan has just made. *)
Definition previewed (V : N) (v : VersionInfo) (r : UpdateResult) : Prop :=
  VersionUpdate.file r = VersionCheck.file v
  /\ backedUp r = None
  /\ (majorVersion v <> V ->
      success r = true /\ error r = None /\ newVersion r = after_value v V).


(** A project with one file of each format, for the examples. *)
Definition sample_project : world :=
  World
    [ (js "/p/.nvmrc", js "v20.1" ++ newline);
      (js "/p/package.json", json_text "{'engines': {'node': '>=18.0.0'}}");
      (js "/p/Dockerfile", js "FROM node:20-slim" ++ newline ++ js "RUN true");
      (js "/p/docker-compose.yml", js "image: node:18-alpine");
      (js "/p/.node-version", js "22");
      (js "/p/.tool-versions", js "nodejs 20.11.0");
      (js "/p/.github/workflows/ci.yml",
       js "node-version: 18" ++ newline ++ js "NODE_VERSION: '16'");
      (js "/p/.github/workflows/notes.txt", js "node-version: 12") ]
    [] [1700000000000%N] (js "/p").

Definition sample_records : list VersionInfo :=
  Eval vm_compute in
    match scanVersions (js "/p") sample_project with
    | (Ok vs, _) => vs
    | _ => []
    end.

Definition sample_preview : list UpdateResult :=
  Eval vm_compute in
    match updateAllVersions (js "/p") 22
            (mkPartialOptions (Some true) None) sample_project with
    | (Ok rs, _) => rs
    | _ => []
    end.

(** The default options of [updateAllVersions]: a real run with backups. *)
Definition no_options : PartialOptions := mkPartialOptions None None.

(** A project whose [.nvmrc] exists but cannot be read: the first
    file-system call that can fail does fail. *)
Definition project_unreadable_nvmrc : world :=
  World [ (js "/p/.nvmrc", js "20"); (js "/p/Dockerfile", js "FROM node:20") ]
        [true] [] (js "/p").

(** A project in which [.nvmrc] is a directory. *)
Definition project_nvmrc_directory : world :=
  World [ (js "/p/.nvmrc/README", js "20"); (js "/p/Dockerfile", js "FROM node:20") ]
        [] [] (js "/p").

(** A project whose package.json cannot be read. *)
Definition project_unreadable_package : world :=
  World [ (js "/p/package.json", json_text "{'engines': {'node': '20'}}");
          (js "/p/Dockerfile", js "FROM node:20") ]
        [true] [] (js "/p").

(** Two files at version 20.  The scan reads both; the third read, the one
    [updateNvmrc] makes, fails. *)
Definition project_read_fails_in_update : world :=
  World [ (js "/p/.nvmrc", js "20"); (js "/p/Dockerfile", js "FROM node:20") ]
        [false; false; true] [] (js "/p").

(** The same project when it is the backup copy of [.nvmrc], the fourth
    call, that fails. *)
Definition project_write_fails_in_update : world :=
  World [ (js "/p/.nvmrc", js "20"); (js "/p/Dockerfile", js "FROM node:20") ]
        [false; false; false; true] [] (js "/p").

(** The same failure of the third read when the first file is package.json. *)
Definition project_package_read_fails_in_update : world :=
  World [ (js "/p/package.json", json_text "{'engines': {'node': '20'}}");
          (js "/p/Dockerfile", js "FROM node:20") ]
        [false; false; true] [] (js "/p").

(** A Dockerfile whose tag is 20 followed by the two characters dollar,
    one. *)
Definition project_dollar : world :=
  World [ (js "/p/Dockerfile", js "FROM node:20$1") ] [] [1; 2]%N (js "/p").

(** A project made of one file. *)
Definition single_file (path : string) (content : jsstring) : world :=
  World [ (js path, content) ] [] [] (js "/p").

(** A computation that cannot throw. *)
Definition never_throws {A : Type} (m : M A) : Prop :=
  forall w, exists a w', m w = (Ok a, w').

Definition content_of (p : string) (w : world) : option jsstring :=
  lookup_file (js p) (files w).

(** The world after a computation, whatever its outcome. *)
Definition after {A : Type} (m : M A) (w : world) : world := snd (m w).

(** What a computation returns, [None] when it throws. *)
Definition value {A : Type} (m : M A) (w : world) : option A :=
  match fst (m w) with Ok a => Some a | Throw _ => None end.

Definition thrown {A : Type} (m : M A) (w : world) : option jsstring :=
  match fst (m w) with Ok _ => None | Throw e => Some e end.

(** The options of a real run that makes backups. *)
Definition real_with_backup : UpdateOptions := mkUpdateOptions false true.

(** What C6 asks of an update of the file [f] that went from the world [w]
    to the world [w'] with the result [r]: a copy of [f] was made at a
    backup path while every file still had its content of [w], the write
    came after the copy, the backup path is not [f], and in the end the
    backup holds the content [f] had in [w]. *)
Definition backed_up_before_write (f : jsstring) (w : world)
    (r : UpdateResult) (w' : world) : Prop :=
  exists original timestamp w0 w1 newContent,
    lookup_file f (files w) = Some original
    /\ files w0 = files w
    /\ copyFileSync f (backup_path f timestamp) w0 = (Ok tt, w1)
    /\ writeFileSync f newContent w1 = (Ok tt, w')
    /\ backup_path f timestamp <> f
    /\ lookup_file (backup_path f timestamp) (files w') = Some original
    /\ backedUp r = Some true.

(** Three workflow files; the listing and the first file are read, the read
    of the second file fails. *)
Definition project_workflow_fault : world :=
  World [ (js "/p/.github/workflows/a.yml", js "node-version: 18");
          (js "/p/.github/workflows/b.yml", js "node-version: 20");
          (js "/p/.github/workflows/c.yml", js "node-version: 22") ]
        [false; false; true] [] (js "/p").

(** A workflow file with both keys, the first one already at 22. *)
Definition both_keys : jsstring :=
  js "node-version: 22" ++ newline ++ js "NODE_VERSION: 18".

Definition project_both_keys : world :=
  World [ (js "/p/.github/workflows/ci.yml", both_keys) ] [] [] (js "/p").

(** The quoted target as [updateGitHubWorkflow] writes it after each key. *)
Definition quoted_node_version (target : N) : jsstring :=
  js "node-version: '" ++ toString target ++ js "'".

Definition quoted_NODE_VERSION (target : N) : jsstring :=
  js "NODE_VERSION: '" ++ toString target ++ js "'".

(** [out] is [s] with every occurrence of [pat], taken from left to right,
    each one searched after the end of the one before, replaced by [repl]. *)
Inductive rewritten_all (pat : regex) (repl : jsstring)
  : jsstring -> jsstring -> Prop :=
| rewritten_none s :
    regex_search pat s = None -> rewritten_all pat repl s s
| rewritten_next s pre m out :
    regex_search pat s = Some (pre, m) ->
    rewritten_all pat repl (rest m) out ->
    rewritten_all pat repl s (pre ++ repl ++ out).

(** A replacement string without a dollar sign. *)
Definition plain (repl : jsstring) : bool :=
  forallb (fun c => negb (c =? 36)%N) repl.

(** A pattern that starts with a literal character. *)
Definition starts_with_literal (pat : regex) : bool :=
  match pat with
  | Lit _ _ :: _ => true
  | _ => false
  end.

(** The atom cannot take the character [c]. *)
Fixpoint rejects (a : atom) (c : char) : bool :=
  match a with
  | Lit ci x => negb (if ci then char_eq_ci c x else char_eqb c x)
  | Opt p => negb (p c)
  | Star p => negb (p c)
  | Plus p => negb (p c)
  | Cap a' => rejects a' c
  | CapOpt a' => rejects a' c
  end.

(** The match [r] of a text, seen as a match of that text followed by [z]. *)
Definition frame (z : jsstring) (r : mres) : mres :=
  MRes (matched r) (groups r) (rest r ++ z).

(** Whether the pattern matches at the start of the text. *)
Definition matches_at (pat : regex) (s : jsstring) : bool :=
  match exec pat s with Some _ => true | None => false end.

(** A pattern that matches whatever the text. *)
Definition always_matches (pat : regex) : Prop :=
  forall s, exec pat s <> None.

(** Every occurrence of the pattern in [s], at whatever position, is the
    text [t]. *)
Definition all_occurrences_are (pat : regex) (t : jsstring) (s : jsstring)
  : Prop :=
  forall a b m, s = a ++ b -> exec pat b = Some m -> matched m = t.

(** The text starts with the letters n and o, in either case: the way every
    occurrence of the two workflow keys starts. *)
Definition head_no (z : jsstring) : bool :=
  match z with
  | c0 :: c1 :: _ => char_eq_ci c0 110%N && char_eq_ci c1 111%N
  | _ => false
  end.

(** What follows the key in the two workflow patterns. *)
Definition after_key : regex :=
  [Star is_space; Opt is_quote; Cap (Plus is_digit); Opt is_quote].

(* ------------------------------------------------------------------ *)
(** *** Notions for the further properties *)

(** The tags of the six single files, in the order of the scan. *)
Definition format_tags : list jsstring :=
  [js "nvmrc"; js "package.json"; js "dockerfile"; js "docker-compose";
   js "node-version"; js "tool-versions"].

Fixpoint index_of (t : jsstring) (l : list jsstring) : nat :=
  match l with
  | [] => O
  | x :: r => if str_eqb t x then O else S (index_of t r)
  end.

(** The place of a format in the scan: the six single files, then the
    workflows; 7 is no format. *)
Definition format_rank (tag : jsstring) : nat :=
  index_of tag (format_tags ++ [js "github-workflow"]).

(** The order in which the scan returns two records: by the place of their
    formats, the workflow files among themselves in the order of the
    directory listing. *)
Definition scans_before (v1 v2 : VersionInfo) : Prop :=
  (format_rank (fileType v1) < format_rank (fileType v2))%nat
  \/ (fileType v1 = js "github-workflow"
      /\ fileType v2 = js "github-workflow").

(** What a single-file checker returns: nothing, or a record with the tag
    of the format and the path and the name of its file. *)
Definition labelled (root name tag : jsstring) (o : option VersionInfo)
  : Prop :=
  forall v, o = Some v ->
            fileType v = tag /\ VersionCheck.file v = path_join root name
            /\ VersionCheck.relativePath v = name.

(** A computation each run of which, whatever its outcome, takes the files
    to files related to them by [R]. *)
Definition moves (R : list (jsstring * jsstring)
                      -> list (jsstring * jsstring) -> Prop)
    {A : Type} (m : M A) : Prop :=
  forall w x w', m w = (x, w') -> R (files w) (files w').

(** Apart from [f] and from the backups of [f], every path holds what it
    held. *)
Definition only_touches (f : jsstring) (fs fs' : list (jsstring * jsstring))
  : Prop :=
  forall q, q <> f -> (forall ts, q <> backup_path f ts) ->
            lookup_file q fs' = lookup_file q fs.

(** The same paths in the same order. *)
Definition same_paths (fs fs' : list (jsstring * jsstring)) : Prop :=
  map fst fs' = map fst fs.

(** The same paths, provided [f] is among them. *)
Definition same_paths_if (f : jsstring) (fs fs' : list (jsstring * jsstring))
  : Prop :=
  lookup_file f fs <> None -> same_paths fs fs'.

(** The path [f] holds what it held. *)
Definition keeps_target (f : jsstring) (fs fs' : list (jsstring * jsstring))
  : Prop :=
  lookup_file f fs' = lookup_file f fs.

(** Nothing stands in the way of a write to [f] or of a backup of [f]:
    neither [f] nor a backup path of [f] is a directory. *)
Definition writable (f : jsstring) (fs : list (jsstring * jsstring)) : Prop :=
  is_dir f fs = false /\ forall ts, is_dir (backup_path f ts) fs = false.

(** An update after which what [f] held is not lost: the file is as it was,
    or a backup of it holds what it held, or the update reports a success. *)
Definition protects (f : jsstring) (m : M UpdateResult) : Prop :=
  forall w x w',
    m w = (x, w') ->
    keeps_target f (files w) (files w')
    \/ (exists ts, lookup_file (backup_path f ts) (files w')
                   = lookup_file f (files w))
    \/ exists r, x = Ok r /\ success r = true.

(* ------------------------------------------------------------------ *)
(** *** Notions for reading back a written package.json *)

(** The four stages of [parse_number]: the sign, the integer part, the
    fraction and the exponent. *)
Definition num_sign (s : jsstring) : jsstring * jsstring :=
  match s with
  | c :: t => if (c =? 45)%N then ([c], t) else ([], s)
  | [] => ([], s)
  end.

Definition num_int (s1 : jsstring) : option (jsstring * jsstring) :=
  match s1 with
  | c :: t =>
      if (c =? 48)%N then Some ([c], t)
      else if is_digit c then Some (span is_digit s1)
      else None
  | [] => None
  end.

Definition num_frac (s2 : jsstring) : option jsstring * jsstring :=
  match s2 with
  | c :: t =>
      if (c =? 46)%N then
        match span is_digit t with
        | ([], _) => (None, s2)
        | (ds, r) => (Some (c :: ds), r)
        end
      else (Some [], s2)
  | [] => (Some [], s2)
  end.

Definition num_exp (s3 : jsstring) : option jsstring * jsstring :=
  match s3 with
  | c :: t =>
      if (c =? 101)%N || (c =? 69)%N then
        let (sg, t') :=
          match t with
          | d :: u =>
              if (d =? 43)%N || (d =? 45)%N then ([d], u) else ([], t)
          | [] => ([], t)
          end in
        match span is_digit t' with
        | ([], _) => (None, s3)
        | (ds, r) => (Some (c :: sg ++ ds), r)
        end
      else (Some [], s3)
  | [] => (Some [], s3)
  end.

(** The text starts with a character of the class, or is empty. *)
Definition head_in (class : char -> bool) (s : jsstring) : Prop :=
  match s with
  | [] => True
  | c :: _ => class c = true
  end.

(** What follows a value in the text [JSON.stringify] writes: a comma, a
    line break, or nothing. *)
Definition ends_value (r : jsstring) : Prop :=
  head_in (fun c => (c =? 10)%N || (c =? 44)%N) r.

(** A number lexeme that is read back as it is. *)
Definition number_lexeme (lx : jsstring) : Prop :=
  forall r, ends_value r -> parse_number (lx ++ r) = Some (lx, r).

(** A value as [JSON.parse] returns it: the lexemes of its numbers are read
    back as they are, and no object has a key twice. *)
#[warnings="-register-all"] Inductive well_formed : json -> Prop :=
| wf_null : well_formed JNull
| wf_bool b : well_formed (JBool b)
| wf_num lx : number_lexeme lx -> well_formed (JNum lx)
| wf_str s : well_formed (JStr s)
| wf_arr items : Forall well_formed items -> well_formed (JArr items)
| wf_obj ms :
    NoDup (map fst ms) ->
    Forall (fun kv => well_formed (snd kv)) ms ->
    well_formed (JObj ms).

(** The fuel that reading a value back takes. *)
Fixpoint json_size (v : json) : nat :=
  match v with
  | JArr items => S (fold_right (fun x n => S (json_size x) + n) O items)
  | JObj ms =>
      S (fold_right (fun kv n => S (json_size (snd kv)) + n) O ms)
  | _ => 1
  end.

(** An indentation: spaces only. *)
Definition is_indent (ind : jsstring) : Prop :=
  forallb (fun c => (c =? 32)%N) ind = true.

(** The first character of the text of a value: no white space, no closing
    bracket, no closing brace. *)
Definition value_start (c : char) : bool :=
  negb (is_json_ws c) && negb (c =? 93)%N && negb (c =? 125)%N.

(** The fuel for the elements of an array, and for the members of an
    object. *)
Definition elements_size (items : list json) : nat :=
  fold_right (fun x n => S (json_size x) + n) O items.

Definition members_size (ms : list (jsstring * json)) : nat :=
  fold_right (fun kv n => S (json_size (snd kv)) + n) O ms.

(** What reading a value back means, for a given fuel and value. *)
Definition read_back_at (f : nat) (v : json) : Prop :=
  forall ind r, is_indent ind -> ends_value r ->
    parse_value f (stringify ind v ++ r) = Some (v, r).
(* ================================================================== *)
(** ** Properties *)
(* ================================================================== *)

(* ------------------------------------------------------------------ *)
(** *** Strings *)

Lemma char_eqb_eq (a b : char) : char_eqb a b = true <-> a = b.
Proof. unfold char_eqb. apply N.eqb_eq. Qed.

Lemma str_eqb_eq (a b : jsstring) : str_eqb a b = true <-> a = b.
Proof.
  revert b. induction a as [|x a IH]; intros [|y b]; simpl; split;
    try congruence; try reflexivity.
  - intros H. apply andb_true_iff in H as [H1 H2].
    apply char_eqb_eq in H1. apply IH in H2. congruence.
  - intros H. injection H as -> ->. apply andb_true_iff. split.
    + now apply char_eqb_eq.
    + now apply IH.
Qed.

Lemma str_eqb_refl (a : jsstring) : str_eqb a a = true.
Proof. now apply str_eqb_eq. Qed.

Lemma str_eqb_neq (a b : jsstring) : a <> b -> str_eqb a b = false.
Proof.
  intros H. destruct (str_eqb a b) eqn:E; [|reflexivity].
  apply str_eqb_eq in E. contradiction.
Qed.

Lemma span_app (p : char -> bool) (s m r : jsstring) :
  span p s = (m, r) -> s = m ++ r.
Proof.
  revert m r. induction s as [|c t IH]; simpl; intros m r H.
  - now inversion H.
  - destruct (p c).
    + destruct (span p t) as [m' r'] eqn:E. inversion H; subst.
      simpl. f_equal. now apply IH.
    + now inversion H.
Qed.

Lemma span_all (p : char -> bool) (s m r : jsstring) :
  span p s = (m, r) -> forallb p m = true.
Proof.
  revert m r. induction s as [|c t IH]; simpl; intros m r H.
  - now inversion H.
  - destruct (p c) eqn:Ec.
    + destruct (span p t) as [m' r'] eqn:E. inversion H; subst.
      simpl. rewrite Ec. simpl. eapply IH. reflexivity.
    + now inversion H.
Qed.

(** What follows the run is empty or starts outside the class. *)
Lemma span_stop (p : char -> bool) (s m r : jsstring) :
  span p s = (m, r) -> match r with [] => True | c :: _ => p c = false end.
Proof.
  revert m r. induction s as [|c t IH]; simpl; intros m r H.
  - now inversion H.
  - destruct (p c) eqn:Ec.
    + destruct (span p t) as [m' r'] eqn:E. inversion H; subst.
      eapply IH. reflexivity.
    + inversion H; subst. exact Ec.
Qed.

(** A run followed by a character outside the class is found again. *)
Lemma span_run (p : char -> bool) (m r : jsstring) :
  forallb p m = true ->
  match r with [] => True | c :: _ => p c = false end ->
  span p (m ++ r) = (m, r).
Proof.
  intros Hm Hr. induction m as [|c m IH]; simpl in *.
  - destruct r as [|c r]; [reflexivity|]. simpl. now rewrite Hr.
  - apply andb_true_iff in Hm as [Hc Hm]. rewrite Hc, (IH Hm). reflexivity.
Qed.

(* ------------------------------------------------------------------ *)
(** *** The matcher *)

Lemma exec_atom_app (a : atom) (s m r : jsstring) :
  exec_atom a s = Some (m, r) -> s = m ++ r.
Proof.
  revert s m r. induction a; simpl; intros s m r H.
  - destruct s as [|x t]; [discriminate|].
    destruct (if ci then char_eq_ci x c else char_eqb x c); inversion H.
    reflexivity.
  - destruct s as [|x t]; [now inversion H|].
    destruct (p x); inversion H; reflexivity.
  - inversion H. now apply span_app with (p := p).
  - destruct (span p s) as [m' r'] eqn:E. apply span_app in E.
    destruct m'; inversion H; subst. reflexivity.
  - now apply IHa.
  - now apply IHa.
Qed.

Lemma exec_app (pat : regex) (s : jsstring) (res : mres) :
  exec pat s = Some res -> s = matched res ++ rest res.
Proof.
  revert s res. induction pat as [|a pat IH]; simpl; intros s res H.
  - inversion H. reflexivity.
  - destruct (exec_atom a s) as [[m r]|] eqn:Ea; [|discriminate].
    destruct (exec pat r) as [res'|] eqn:Er; [|discriminate].
    inversion H; subst; simpl.
    apply exec_atom_app in Ea. apply IH in Er. rewrite <- app_assoc.
    congruence.
Qed.

(** The leftmost match splits the text in three. *)
Lemma regex_search_app (pat : regex) (s pre : jsstring) (res : mres) :
  regex_search pat s = Some (pre, res) ->
  s = pre ++ matched res ++ rest res
  /\ exec pat (matched res ++ rest res) = Some res.
Proof.
  revert pre res. induction s as [|c t IH]; simpl; intros pre res H.
  - destruct (exec pat []) as [r|] eqn:E; [|discriminate].
    inversion H; subst. simpl. pose proof (exec_app _ _ E) as Hs.
    rewrite <- Hs. auto.
  - destruct (exec pat (c :: t)) as [r|] eqn:E.
    + inversion H; subst. simpl. pose proof (exec_app _ _ E) as Hs.
      rewrite <- Hs. auto.
    + destruct (regex_search pat t) as [[pre' r]|] eqn:Et; [|discriminate].
      inversion H; subst. destruct (IH _ _ eq_refl) as [Hs He].
      simpl. split; [now f_equal|exact He].
Qed.

Lemma exec_cat (p1 p2 : regex) (s : jsstring) :
  exec (p1 ++ p2) s =
  match exec p1 s with
  | None => None
  | Some r1 =>
      match exec p2 (rest r1) with
      | None => None
      | Some r2 =>
          Some (MRes (matched r1 ++ matched r2) (groups r1 ++ groups r2)
                     (rest r2))
      end
  end.
Proof.
  revert s. induction p1 as [|a p1 IH]; intros s; simpl.
  - destruct (exec p2 s) as [[m g r]|]; reflexivity.
  - destruct (exec_atom a s) as [[m r]|]; [|reflexivity].
    rewrite IH. destruct (exec p1 r) as [r1|]; [|reflexivity]. simpl.
    destruct (exec p2 (rest r1)) as [r2|]; [|reflexivity]. simpl.
    now rewrite !app_assoc.
Qed.


Lemma exec_no_caps (pat : regex) (s : jsstring) (r : mres) :
  no_caps pat = true -> exec pat s = Some r -> groups r = [].
Proof.
  revert s r. induction pat as [|a pat IH]; simpl; intros s r Hn H.
  - now inversion H.
  - apply andb_true_iff in Hn as [Ha Hn].
    destruct (exec_atom a s) as [[m r0]|]; [|discriminate].
    destruct (exec pat r0) as [r1|] eqn:E; [|discriminate].
    inversion H; subst; simpl. rewrite (IH _ _ Hn E).
    destruct a; simpl in *; try discriminate; reflexivity.
Qed.

(** A pattern made of a part without groups and a tail. *)
Lemma exec_split (p1 p2 : regex) (s : jsstring) (r : mres) :
  no_caps p1 = true ->
  exec (p1 ++ p2) s = Some r ->
  exists r1 r2,
    exec p1 s = Some r1 /\ exec p2 (rest r1) = Some r2
    /\ groups r = groups r2 /\ matched r = matched r1 ++ matched r2
    /\ rest r = rest r2.
Proof.
  intros Hn H. rewrite exec_cat in H.
  destruct (exec p1 s) as [r1|] eqn:E1; [|discriminate].
  destruct (exec p2 (rest r1)) as [r2|] eqn:E2; [|discriminate].
  inversion H; subst; simpl. exists r1, r2.
  rewrite (exec_no_caps _ _ Hn E1). auto.
Qed.

(** A tail that starts with the group of the integer. *)
Lemma exec_digits_cap (p2 : regex) (s : jsstring) (r : mres) :
  exec (Cap (Plus is_digit) :: p2) s = Some r ->
  exists ds s1 r2,
    span is_digit s = (ds, s1) /\ ds <> [] /\ exec p2 s1 = Some r2
    /\ groups r = Some ds :: groups r2 /\ matched r = ds ++ matched r2
    /\ rest r = rest r2.
Proof.
  simpl. destruct (span is_digit s) as [ds s1] eqn:E.
  destruct ds as [|d ds]; [discriminate|].
  destruct (exec p2 s1) as [r2|] eqn:E2; [|discriminate].
  intros H; inversion H; subst; simpl.
  exists (d :: ds), s1, r2. repeat split; auto. discriminate.
Qed.

(** The rest-of-tag group. *)
Lemma exec_tag_cap (s : jsstring) (r : mres) :
  exec [CapOpt (Star not_space)] s = Some r ->
  exists sfx, span not_space s = (sfx, rest r)
    /\ or_empty (nth 0 (groups r) None) = sfx /\ matched r = sfx.
Proof.
  simpl. destruct (span not_space s) as [sfx s1] eqn:E.
  intros H; inversion H; subst; simpl. exists sfx.
  rewrite app_nil_r. repeat split. now destruct sfx.
Qed.

(** The facts about a match of one of the two image patterns that the
    program uses: the integer, the rest of the tag, and where they sit. *)

Lemma exec_image_tail (s : jsstring) (r : mres) :
  exec image_tail s = Some r ->
  exists ds sfx s1,
    span is_digit s = (ds, s1) /\ ds <> []
    /\ span not_space s1 = (sfx, rest r)
    /\ group 1 r = Some ds /\ or_empty (group 2 r) = sfx
    /\ matched r = ds ++ sfx.
Proof.
  intros H. apply exec_digits_cap in H
    as (ds & s1 & r2 & Hd & Hne & H2 & Hg & Hm & Hr).
  apply exec_tag_cap in H2 as (sfx & Hs & Hg2 & Hm2).
  exists ds, sfx, s1. unfold group. rewrite Hg, Hr, Hm, Hm2. simpl.
  repeat split; auto.
Qed.



Lemma re_from_split : re_from = from_head ++ image_tail.
Proof. reflexivity. Qed.

Lemma re_image_split : re_image = image_head ++ image_tail.
Proof. reflexivity. Qed.

(** A match of an image pattern: a head without groups, then the integer and
    the rest of the tag. *)
Lemma exec_image (pat : regex) (s : jsstring) (r : mres) :
  pat = re_from \/ pat = re_image ->
  exec pat s = Some r ->
  exists hd ds sfx s1,
    s = hd ++ ds ++ sfx ++ rest r
    /\ span is_digit (ds ++ sfx ++ rest r) = (ds, s1) /\ ds <> []
    /\ span not_space s1 = (sfx, rest r)
    /\ group 1 r = Some ds /\ or_empty (group 2 r) = sfx
    /\ matched r = hd ++ ds ++ sfx.
Proof.
  intros Hp H.
  assert (exists h, pat = h ++ image_tail /\ no_caps h = true) as (h & -> & Hn).
  { destruct Hp as [-> | ->]; [exists from_head | exists image_head];
      split; reflexivity. }
  pose proof (exec_app _ _ H) as Hs.
  apply exec_split in H as (r1 & r2 & H1 & H2 & Hg & Hm & Hr); [|exact Hn].
  pose proof (exec_app _ _ H1) as Hs1.
  apply exec_image_tail in H2 as (ds & sfx & s1 & Hd & Hne & Hsfx & G1 & G2 & Hm2).
  exists (matched r1), ds, sfx, s1.
  pose proof (span_app _ _ Hd) as A1. pose proof (span_app _ _ Hsfx) as A2.
  assert (rest r1 = ds ++ sfx ++ rest r) as E
    by (rewrite Hr, A1, A2; reflexivity).
  unfold group. rewrite Hg, Hm, Hm2. simpl.
  rewrite <- E, Hr. repeat split; auto.
Qed.

Lemma re_node_version_split :
  re_node_version = workflow_head "node-version:" ++ workflow_tail.
Proof. reflexivity. Qed.

Lemma re_NODE_VERSION_split :
  re_NODE_VERSION = workflow_head "NODE_VERSION:" ++ workflow_tail.
Proof. reflexivity. Qed.

Lemma re_nodejs_split : re_nodejs = nodejs_head ++ [Cap (Plus is_digit)].
Proof. reflexivity. Qed.

(** A pattern whose only group is the integer captures a non-empty run of
    digits. *)
Lemma exec_single_group (h tl : regex) (s : jsstring) (r : mres) :
  no_caps h = true -> no_caps tl = true ->
  exec (h ++ Cap (Plus is_digit) :: tl) s = Some r ->
  exists ds, group 1 r = Some ds /\ ds <> [] /\ forallb is_digit ds = true.
Proof.
  intros Hh Ht H.
  apply exec_split in H as (r1 & r2 & H1 & H2 & Hg & _); [|exact Hh].
  apply exec_digits_cap in H2 as (ds & s1 & r3 & Hd & Hne & H3 & Hg2 & _).
  exists ds. unfold group. rewrite Hg, Hg2. simpl.
  repeat split; auto. eapply span_all; eauto.
Qed.

Lemma exec_workflow (pat : regex) (s : jsstring) (r : mres) :
  pat = re_node_version \/ pat = re_NODE_VERSION ->
  exec pat s = Some r ->
  exists ds, group 1 r = Some ds /\ ds <> [] /\ forallb is_digit ds = true.
Proof.
  intros [-> | ->] H.
  - rewrite re_node_version_split in H.
    eapply exec_single_group in H; auto.
  - rewrite re_NODE_VERSION_split in H.
    eapply exec_single_group in H; auto.
Qed.

Lemma exec_nodejs (s : jsstring) (r : mres) :
  exec re_nodejs s = Some r ->
  exists ds, group 1 r = Some ds /\ ds <> [] /\ forallb is_digit ds = true.
Proof.
  intros H. rewrite re_nodejs_split in H.
  eapply exec_single_group in H; auto.
Qed.

(** [/^v?(\d+)/] on a content: the digits stand first, or after one [v]. *)
Lemma exec_leading_version (s : jsstring) (r : mres) :
  exec re_leading_version s = Some r ->
  exists ds tl,
    group 1 r = Some ds /\ ds <> [] /\ forallb is_digit ds = true
    /\ (s = ds ++ tl \/ s = 118%N :: ds ++ tl)
    /\ match tl with [] => True | c :: _ => is_digit c = false end.
Proof.
  unfold re_leading_version. intros H.
  change (exec ([Opt (fun c => (c =? 118)%N)] ++ [Cap (Plus is_digit)]) s
          = Some r) in H.
  apply exec_split in H as (r1 & r2 & H1 & H2 & Hg & Hm & Hr); [|reflexivity].
  apply exec_digits_cap in H2 as (ds & s1 & r3 & Hd & Hne & H3 & Hg2 & _).
  exists ds, s1. unfold group. rewrite Hg, Hg2. simpl.
  pose proof (span_app _ _ Hd) as A. pose proof (span_all _ _ Hd) as B.
  pose proof (span_stop _ _ Hd) as C.
  repeat split; auto.
  simpl in H1. destruct s as [|x t].
  - inversion H1; subst. simpl in A. left. exact A.
  - destruct (x =? 118)%N eqn:Ex; inversion H1; subst; simpl in A.
    + apply N.eqb_eq in Ex. subst. right. now f_equal.
    + left. exact A.
Qed.

(* ------------------------------------------------------------------ *)
(** *** First integer runs *)

Lemma first_integer_run_digits (ds tl : jsstring) :
  ds <> [] -> forallb is_digit ds = true ->
  match tl with [] => True | c :: _ => is_digit c = false end ->
  first_integer_run (ds ++ tl) = Some ds.
Proof.
  intros Hne Hd Ht. destruct ds as [|d ds]; [contradiction|].
  pose proof (span_run is_digit (d :: ds) tl Hd Ht) as E.
  simpl in Hd. apply andb_true_iff in Hd as [Hd0 _].
  cbn [app first_integer_run]. rewrite Hd0.
  change (d :: ds ++ tl) with ((d :: ds) ++ tl). now rewrite E.
Qed.

Lemma major_of_digits (ds tl : jsstring) :
  ds <> [] -> forallb is_digit ds = true ->
  match tl with [] => True | c :: _ => is_digit c = false end ->
  major_of (ds ++ tl) = parseInt ds.
Proof.
  intros. unfold major_of. now rewrite first_integer_run_digits.
Qed.

(** [extractMajorVersion] computes the major version of the specification. *)
Lemma extractMajorVersion_major_of (s : jsstring) :
  extractMajorVersion s = major_of s.
Proof.
  unfold extractMajorVersion, major_of.
  induction s as [|c t IH]; [reflexivity|].
  cbn [regex_search first_integer_run].
  destruct (is_digit c) eqn:Ec.
  - simpl. rewrite Ec. destruct (span is_digit t) as [m r]. reflexivity.
  - simpl exec. rewrite Ec. simpl.
    destruct (regex_search re_digits t) as [[pre m]|];
      destruct (first_integer_run t); exact IH.
Qed.

(* ------------------------------------------------------------------ *)
(** *** The monad *)

Lemma bind_ok {A B : Type} (m : M A) (k : A -> M B) (w w' : world) (b : B) :
  bind m k w = (Ok b, w') ->
  exists a w1, m w = (Ok a, w1) /\ k a w1 = (Ok b, w').
Proof.
  unfold bind. destruct (m w) as [[a|e] w1]; intros H.
  - exists a, w1. auto.
  - discriminate.
Qed.

Lemma bind_run {A B : Type} (m : M A) (k : A -> M B) (w w1 : world) (a : A) :
  m w = (Ok a, w1) -> bind m k w = k a w1.
Proof. unfold bind. now intros ->. Qed.

Lemma bind_throw {A B : Type} (m : M A) (k : A -> M B) (w w1 : world) e :
  m w = (Throw e, w1) -> bind m k w = (Throw e, w1).
Proof. unfold bind. now intros ->. Qed.

Lemma keeps_ret {A : Type} (a : A) : keeps_files (ret a).
Proof. intros w x w' H. inversion H. reflexivity. Qed.

Lemma keeps_throw {A : Type} e : keeps_files (@throw A e).
Proof. intros w x w' H. inversion H. reflexivity. Qed.

Lemma keeps_bind {A B : Type} (m : M A) (k : A -> M B) :
  keeps_files m -> (forall a, keeps_files (k a)) -> keeps_files (bind m k).
Proof.
  intros Hm Hk w x w' H. unfold bind in H.
  destruct (m w) as [[a|e] w1] eqn:E.
  - apply Hk in H. apply Hm in E. congruence.
  - inversion H; subst. eapply Hm; eauto.
Qed.

Lemma keeps_try {A : Type} (m : M A) (h : jsstring -> M A) :
  keeps_files m -> (forall e, keeps_files (h e)) -> keeps_files (try_catch m h).
Proof.
  intros Hm Hh w x w' H. unfold try_catch in H.
  destruct (m w) as [[a|e] w1] eqn:E.
  - inversion H; subst. eapply Hm; eauto.
  - apply Hh in H. apply Hm in E. congruence.
Qed.

Lemma pop_fault_files (w : world) : files (snd (pop_fault w)) = files w.
Proof. unfold pop_fault. destruct (faults w); reflexivity. Qed.

Lemma keeps_existsSync p : keeps_files (existsSync p).
Proof. intros w x w' H. inversion H. reflexivity. Qed.

Lemma keeps_process_cwd : keeps_files process_cwd.
Proof. intros w x w' H. inversion H. reflexivity. Qed.

Lemma keeps_readFileSync p : keeps_files (readFileSync p).
Proof.
  intros w x w' H. unfold readFileSync in H.
  pose proof (pop_fault_files w) as F.
  destruct (pop_fault w) as [[|] w1]; simpl in F.
  - inversion H; subst. exact F.
  - destruct (lookup_file p (files w1)); inversion H; subst; exact F.
Qed.

Lemma keeps_readdirSync p : keeps_files (readdirSync p).
Proof.
  intros w x w' H. unfold readdirSync in H.
  pose proof (pop_fault_files w) as F.
  destruct (pop_fault w) as [[|] w1]; simpl in F.
  - inversion H; subst. exact F.
  - destruct (is_dir p (files w1)); inversion H; subst; exact F.
Qed.

Lemma keeps_push_loop {A B : Type} (body : A -> M (list B)) (xs : list A) :
  (forall x, keeps_files (body x)) ->
  forall acc w out w', push_loop body xs acc w = (out, w') ->
                       files w' = files w.
Proof.
  intros Hb. induction xs as [|x xs IH]; simpl; intros acc w out w' H.
  - inversion H. reflexivity.
  - destruct (body x w) as [[pushed|e] w1] eqn:E.
    + apply IH in H. apply Hb in E. congruence.
    + inversion H; subst. eapply Hb; eauto.
Qed.

(** A successful read returns the content that is stored. *)
Lemma readFileSync_ok p w c w' :
  readFileSync p w = (Ok c, w') ->
  lookup_file p (files w) = Some c /\ files w' = files w.
Proof.
  intros H. pose proof (keeps_readFileSync _ _ H) as F. split; [|exact F].
  unfold readFileSync in H. pose proof (pop_fault_files w) as G.
  destruct (pop_fault w) as [[|] w1]; simpl in G; [discriminate|].
  destruct (lookup_file p (files w1)) eqn:L; inversion H; subst.
  congruence.
Qed.

(** Without pending faults a stored file is read, and the world stays. *)
Lemma readFileSync_run p w c :
  faults w = [] -> lookup_file p (files w) = Some c ->
  readFileSync p w = (Ok c, w).
Proof.
  intros Hf Hl. unfold readFileSync, pop_fault. rewrite Hf, Hl. reflexivity.
Qed.

Lemma existsSync_run p w : existsSync p w = (Ok (is_file p (files w) || is_dir p (files w)), w).
Proof. reflexivity. Qed.

Create HintDb keeps.

#[local] Hint Resolve keeps_ret keeps_throw keeps_existsSync keeps_process_cwd
  keeps_readFileSync keeps_readdirSync : keeps.

Ltac keeps :=
  repeat first
    [ apply keeps_bind; [|intros ?]
    | apply keeps_try; [|intros ?]
    | solve [auto with keeps]
    | match goal with
      | |- keeps_files (if ?b then _ else _) => destruct b
      | |- keeps_files (match ?x with _ => _ end) => destruct x
      end ].

Lemma keeps_check_version_file name tag root :
  keeps_files (check_version_file name tag root).
Proof. unfold check_version_file. keeps. Qed.

Lemma keeps_checkPackageJson root : keeps_files (checkPackageJson root).
Proof. unfold checkPackageJson. keeps. Qed.

Lemma keeps_check_image_file name tag pat root :
  keeps_files (check_image_file name tag pat root).
Proof. unfold check_image_file. keeps. Qed.

Lemma keeps_checkToolVersions root : keeps_files (checkToolVersions root).
Proof. unfold checkToolVersions. keeps. Qed.

Lemma keeps_check_workflow_file dir name :
  keeps_files (check_workflow_file dir name).
Proof. unfold check_workflow_file. keeps. Qed.

Lemma keeps_checkGitHubWorkflows root : keeps_files (checkGitHubWorkflows root).
Proof.
  unfold checkGitHubWorkflows. apply keeps_bind; [auto with keeps|].
  intros present. destruct (negb present); [auto with keeps|].
  intros w x w' H.
  destruct (readdirSync (workflowDir root) w) as [[names|e] w1] eqn:E.
  - apply keeps_readdirSync in E.
    destruct (push_loop (check_workflow_file (workflowDir root))
                (filter is_workflow_name names) [] w1) as [[rs o] w2] eqn:L.
    apply keeps_push_loop in L; [|intros; apply keeps_check_workflow_file].
    inversion H; subst. congruence.
  - apply keeps_readdirSync in E. inversion H; subst. exact E.
Qed.

Lemma keeps_checks root : keeps_files (checks root).
Proof.
  unfold checks, checkNvmrc, checkDockerfile, checkDockerCompose,
    checkNodeVersion.
  do 6 (apply keeps_bind;
        [ first [ apply keeps_check_version_file | apply keeps_checkPackageJson
                | apply keeps_check_image_file | apply keeps_checkToolVersions ]
        | intros ? ]).
  apply keeps_ret.
Qed.

(** The scan reads: it never changes a file, whatever its outcome. *)
Lemma keeps_scanVersions root : keeps_files (scanVersions root).
Proof.
  unfold scanVersions.
  apply keeps_bind; [apply keeps_checks|intros cs].
  apply keeps_bind; [apply keeps_checkGitHubWorkflows|intros wf].
  apply keeps_ret.
Qed.

Lemma try_ok {A : Type} (m : M A) (h : jsstring -> M A) w a w' :
  try_catch m h w = (Ok a, w') ->
  m w = (Ok a, w')
  \/ exists e w1, m w = (Throw e, w1) /\ h e w1 = (Ok a, w').
Proof.
  unfold try_catch. destruct (m w) as [[x|e] w1]; intros H.
  - left. exact H.
  - right. eauto.
Qed.

Lemma ret_ok {A : Type} (a b : A) w w' : ret a w = (Ok b, w') -> a = b /\ w = w'.
Proof. intros H. inversion H. auto. Qed.

(** Peel the successful run of the first bind in hypothesis [H]. *)
Tactic Notation "peel" hyp(H) "as" ident(a) ident(w) ident(R) :=
  apply bind_ok in H as (a & w & R & H).

(* ------------------------------------------------------------------ *)
(** *** What the scan guarantees about each record *)

Lemma check_version_file_scanned name tag root w v w' :
  tag = js "nvmrc" \/ tag = js "node-version" ->
  check_version_file name tag root w = (Ok (Some v), w') ->
  scanned (files w) v /\ VersionCheck.file v = path_join root name.
Proof.
  intros Ht H. unfold check_version_file in H. peel H as present w1 R.
  inversion R; subst. destruct (negb _); [inversion H|].
  peel H as a0 w2 R0. apply readFileSync_ok in R0 as [L _].
  cbv zeta in H.
  destruct (exec re_leading_version (trim a0)) as [m|] eqn:E;
    inversion H; subst.
  split; [|reflexivity]. econstructor; eauto.
Qed.

Lemma checkPackageJson_scanned root w v w' :
  checkPackageJson root w = (Ok (Some v), w') ->
  scanned (files w) v
  /\ VersionCheck.file v = path_join root (js "package.json").
Proof.
  intros H. unfold checkPackageJson in H. peel H as present w1 R.
  inversion R; subst. destruct (negb _); [inversion H|].
  apply try_ok in H as [H | (e & w2 & _ & H)]; [|inversion H].
  peel H as a0 w2 R0. apply readFileSync_ok in R0 as [L _].
  destruct (JSON_parse a0) as [content|] eqn:P; [|inversion H].
  cbv zeta in H.
  destruct (negb (truthy _)) eqn:T; [inversion H|].
  destruct (opt_get _ _) as [[| | |version| |]|] eqn:G; inversion H; subst.
  split; [|reflexivity]. econstructor; eauto.
  intros ->. simpl in T. discriminate.
Qed.

Lemma check_image_file_scanned name tag pat root w v w' :
  (tag = js "dockerfile" /\ pat = re_from)
  \/ (tag = js "docker-compose" /\ pat = re_image) ->
  check_image_file name tag pat root w = (Ok (Some v), w') ->
  scanned (files w) v /\ VersionCheck.file v = path_join root name.
Proof.
  intros Ht H. unfold check_image_file in H. peel H as present w1 R.
  inversion R; subst. destruct (negb _); [inversion H|].
  peel H as a0 w2 R0. apply readFileSync_ok in R0 as [L _].
  destruct (regex_search pat a0) as [[pre m]|] eqn:E; inversion H; subst.
  split; [|reflexivity]. econstructor; eauto.
Qed.

Lemma checkToolVersions_scanned root w v w' :
  checkToolVersions root w = (Ok (Some v), w') ->
  scanned (files w) v
  /\ VersionCheck.file v = path_join root (js ".tool-versions").
Proof.
  intros H. unfold checkToolVersions in H. peel H as present w1 R.
  inversion R; subst. destruct (negb _); [inversion H|].
  peel H as a0 w2 R0. apply readFileSync_ok in R0 as [L _].
  destruct (regex_search re_nodejs a0) as [[pre m]|] eqn:E;
    inversion H; subst.
  split; [|reflexivity]. econstructor; eauto.
Qed.

Lemma check_workflow_file_scanned dir name w rs w' :
  check_workflow_file dir name w = (Ok rs, w') ->
  Forall (fun v => scanned (files w) v
                   /\ VersionCheck.file v = path_join dir name) rs.
Proof.
  intros H. unfold check_workflow_file in H. peel H as a w1 R.
  apply readFileSync_ok in R as [L _].
  destruct (regex_search re_node_version a) as [[pre m]|] eqn:E1.
  - inversion H; subst. constructor; [|constructor].
    split; [|reflexivity]. econstructor; eauto.
  - destruct (regex_search re_NODE_VERSION a) as [[pre m]|] eqn:E2;
      inversion H; subst; [|constructor].
    constructor; [|constructor].
    split; [|reflexivity]. econstructor; eauto.
Qed.

(** An invariant of the pushed results of a loop whose body keeps the
    files. *)
Lemma push_loop_Forall {A B : Type} (body : A -> M (list B)) (P : B -> Prop)
    (fs : list (jsstring * jsstring)) (xs : list A) :
  (forall x, keeps_files (body x)) ->
  (forall x w pushed w', In x xs -> files w = fs ->
      body x w = (Ok pushed, w') -> Forall P pushed) ->
  forall acc w rs o w',
    files w = fs -> Forall P acc ->
    push_loop body xs acc w = ((rs, o), w') -> Forall P rs.
Proof.
  intros Hk. induction xs as [|x xs IH]; simpl; intros Hb acc w rs o w' Hf Ha H.
  - inversion H; subst. exact Ha.
  - destruct (body x w) as [[pushed|e] w1] eqn:E.
    + eapply IH in H; eauto.
      * pose proof (Hk _ _ _ _ E). congruence.
      * apply Forall_app. split; [exact Ha|]. eapply Hb; eauto.
    + inversion H; subst. exact Ha.
Qed.

Lemma checkGitHubWorkflows_scanned root w rs w' :
  checkGitHubWorkflows root w = (Ok rs, w') ->
  Forall (fun v => scanned (files w) v
                   /\ exists name, VersionCheck.file v
                                   = path_join (workflowDir root) name) rs.
Proof.
  intros H. unfold checkGitHubWorkflows in H. peel H as present w0 R.
  inversion R; subst. destruct (negb _); [inversion H; constructor|].
  destruct (readdirSync (workflowDir root) w0) as [[names|e] w1] eqn:E;
    [|inversion H; constructor].
  destruct (push_loop _ _ _ _) as [[rs' o] w2] eqn:L.
  inversion H; subst.
  apply keeps_readdirSync in E.
  eapply (@push_loop_Forall _ _ (check_workflow_file (workflowDir root))
            (fun v => scanned (files w0) v
                      /\ exists name, VersionCheck.file v
                                      = path_join (workflowDir root) name)
            (files w0)); [ | | | | exact L].
  - intros; apply keeps_check_workflow_file.
  - intros x w pushed w3 _ Hf Hb.
    apply check_workflow_file_scanned in Hb. rewrite Hf in Hb.
    eapply Forall_impl; [|exact Hb]. intros v [S F]. split; eauto.
  - exact E.
  - constructor.
Qed.

Lemma checks_scanned root w cs w' :
  checks root w = (Ok cs, w') ->
  Forall (fun v => scanned (files w) v
                   /\ exists name, In name top_names
                        /\ VersionCheck.file v = path_join root name)
         (non_null cs).
Proof.
  intros H. unfold checks in H.
  peel H as c1 w1 R. peel H as c2 w2 R0. peel H as c3 w3 R1.
  peel H as c4 w4 R2. peel H as c5 w5 R3. peel H as c6 w6 R4.
  inversion H; subst. clear H.
  pose proof (keeps_check_version_file _ _ _ _ R) as F1.
  pose proof (keeps_checkPackageJson _ _ R0) as F2.
  pose proof (keeps_check_image_file _ _ _ _ _ R1) as F3.
  pose proof (keeps_check_image_file _ _ _ _ _ R2) as F4.
  pose proof (keeps_check_version_file _ _ _ _ R3) as F5.
  assert (files w2 = files w) as G2 by congruence.
  assert (files w3 = files w) as G3 by congruence.
  assert (files w4 = files w) as G4 by congruence.
  assert (files w5 = files w) as G5 by congruence.
  unfold non_null. simpl.
  repeat match goal with
         | |- context [match ?c with Some _ => _ | None => _ end] =>
             destruct c
         end;
    repeat constructor.
  all: repeat match goal with
    | H : checkNvmrc _ _ = (Ok (Some _), _) |- _ =>
        apply check_version_file_scanned in H as [? ?]; [|auto]
    | H : checkNodeVersion _ _ = (Ok (Some _), _) |- _ =>
        apply check_version_file_scanned in H as [? ?]; [|auto]
    | H : checkPackageJson _ _ = (Ok (Some _), _) |- _ =>
        apply checkPackageJson_scanned in H as [? ?]
    | H : checkDockerfile _ _ = (Ok (Some _), _) |- _ =>
        apply check_image_file_scanned in H as [? ?]; [|auto]
    | H : checkDockerCompose _ _ = (Ok (Some _), _) |- _ =>
        apply check_image_file_scanned in H as [? ?]; [|auto]
    | H : checkToolVersions _ _ = (Ok (Some _), _) |- _ =>
        apply checkToolVersions_scanned in H as [? ?]
    end.
  all: try congruence.
  all: try (eexists; split; [|eassumption]; simpl; tauto).
Qed.

Lemma scanVersions_scanned root w vs w' :
  scanVersions root w = (Ok vs, w') ->
  Forall (scanned (files w)) vs.
Proof.
  intros H. unfold scanVersions in H.
  peel H as cs w1 R. peel H as wf w2 R0. inversion H; subst.
  apply Forall_app. split.
  - apply checks_scanned in R. eapply Forall_impl; [|exact R]. now intros v [S _].
  - pose proof (keeps_checks _ _ R) as F.
    apply checkGitHubWorkflows_scanned in R0. rewrite F in R0.
    eapply Forall_impl; [|exact R0]. now intros v [S _].
Qed.

Lemma digits_then_tag (ds sfx tl s1 : jsstring) :
  span is_digit (ds ++ sfx ++ tl) = (ds, s1) ->
  match sfx with [] => True | c :: _ => is_digit c = false end.
Proof.
  intros H. pose proof (span_app _ _ H) as A. apply app_inv_head in A.
  apply span_stop in H. subst s1. destruct sfx; [exact I|exact H].
Qed.

(** The major version of a scanned record is the one its display value
    gives, and only a package.json record can display no integer. *)
Lemma scanned_major fs v :
  scanned fs v ->
  majorVersion v = major_of (fullVersion v)
  /\ (first_integer_run (fullVersion v) = None ->
      fileType v = js "package.json").
Proof.
  intros S. destruct S as
    [ f name tag raw m L E T
    | f text content version L P G Hne
    | f name tag pat content pre m L E T
    | f name content pre m L E
    | f content pre m L E ]; simpl.
  - apply exec_leading_version in E as (ds & tl & G & Hne & Hd & Hs & Ht).
    rewrite G. simpl. destruct Hs as [-> | ->].
    + unfold major_of. rewrite first_integer_run_digits by assumption.
      split; [reflexivity|discriminate].
    + unfold major_of. cbn [first_integer_run]. change (is_digit 118%N) with false.
      cbv iota. rewrite first_integer_run_digits by assumption.
      split; [reflexivity|discriminate].
  - split; [apply extractMajorVersion_major_of|reflexivity].
  - apply regex_search_app in E as [_ E].
    apply exec_image in E
      as (hd & ds & sfx & s1 & Hs & Hd & Hne & Hx & G1 & G2 & Hm).
    2:{ destruct T as [[_ ->] | [_ ->]]; auto. }
    rewrite G1, G2. simpl.
    pose proof (span_all _ _ Hd) as D. pose proof (digits_then_tag _ _ Hd) as Z.
    unfold major_of. rewrite first_integer_run_digits by assumption.
    split; [reflexivity|discriminate].
  - apply or_comm in E. destruct E as [[_ E] | E];
      apply regex_search_app in E as [_ E];
      apply exec_workflow in E as (ds & G & Hne & Hd); auto;
      unfold workflow_record; simpl; rewrite G; simpl;
      rewrite <- (app_nil_r ds) at 2 3;
      unfold major_of; rewrite first_integer_run_digits by auto;
      (split; [reflexivity|discriminate]).
  - apply regex_search_app in E as [_ E].
    apply exec_nodejs in E as (ds & G & Hne & Hd). rewrite G. simpl.
    rewrite <- (app_nil_r ds) at 2 3.
    unfold major_of. rewrite first_integer_run_digits by auto.
    split; [reflexivity|discriminate].
Qed.

(** C3, as stated, fails: for a package.json whose [engines.node] is the
    string [latest], the scan returns a record although its display value
    contains no integer; its major version is 0. *)
Lemma record_without_integer :
  exists v w',
    scanVersions (js "/p") project_latest = (Ok [v], w')
    /\ fullVersion v = js "latest"
    /\ first_integer_run (fullVersion v) = None
    /\ majorVersion v = 0%N.
Proof.
  eexists. eexists. split; [vm_compute; reflexivity|].
  repeat split.
Qed.

(** C3 (amended): for every record returned by [scanVersions], the major
    version equals the value of the first integer run of the display value
    when there is one and 0 when there is none, and a record whose display
    value has no integer run is a package.json record. *)
Theorem scan_major_of_display root w vs w' :
  scanVersions root w = (Ok vs, w') ->
  Forall (fun v =>
            majorVersion v = major_of (fullVersion v)
            /\ (first_integer_run (fullVersion v) = None ->
                fileType v = js "package.json" /\ majorVersion v = 0%N)) vs.
Proof.
  intros H. apply scanVersions_scanned in H.
  eapply Forall_impl; [|exact H]. intros v S.
  apply scanned_major in S as [M T]. split; [exact M|].
  intros Hn. split; [auto|]. rewrite M. unfold major_of. now rewrite Hn.
Qed.

(* ------------------------------------------------------------------ *)
(** *** The majority vote of [generateReport] *)

Lemma filter_split {A : Type} (f : A -> bool) (l a b : list A) (t : A) :
  filter f l = a ++ t :: b ->
  exists a' b', l = a' ++ t :: b' /\ filter f a' = a /\ filter f b' = b
                /\ f t = true.
Proof.
  revert a. induction l as [|x l IH]; simpl; intros a H.
  - destruct a; discriminate.
  - destruct (f x) eqn:Ex.
    + destruct a as [|y a]; simpl in H; injection H as E1 E2.
      * subst x. exists [], l. simpl. auto.
      * subst y. destruct (IH _ E2) as (a' & b' & -> & Ha & Hb & Ht).
        exists (x :: a'), b'. simpl. rewrite Ex, Ha. auto.
    + destruct (IH _ H) as (a' & b' & -> & Ha & Hb & Ht).
      exists (x :: a'), b'. simpl. rewrite Ex. auto.
Qed.

Lemma first_seen_In (l : list N) (x : N) : In x (first_seen l) <-> In x l.
Proof.
  induction l as [|y l IH]; simpl; [tauto|].
  rewrite filter_In, IH. split.
  - intros [H | [H _]]; auto.
  - intros [H | H]; auto. destruct (N.eq_dec y x) as [E|E]; auto.
    right. split; auto. apply negb_true_iff, N.eqb_neq. congruence.
Qed.

Lemma NoDup_filter {A : Type} (f : A -> bool) (l : list A) :
  NoDup l -> NoDup (filter f l).
Proof.
  induction 1 as [|x l Hx Hl IH]; simpl; [constructor|].
  destruct (f x); auto. constructor; auto.
  rewrite filter_In. tauto.
Qed.

Lemma first_seen_NoDup (l : list N) : NoDup (first_seen l).
Proof.
  induction l as [|y l IH]; simpl; constructor.
  - rewrite filter_In. intros [_ H].
    apply negb_true_iff, N.eqb_neq in H. congruence.
  - now apply NoDup_filter.
Qed.

Lemma filter_snoc_out (f : N -> bool) (l : list N) (x : N) :
  filter f (l ++ [x]) = filter f l ++ (if f x then [x] else []).
Proof. rewrite filter_app. reflexivity. Qed.

Lemma first_seen_snoc (p : list N) (x : N) :
  first_seen (p ++ [x])
  = first_seen p ++ (if in_dec N.eq_dec x p then [] else [x]).
Proof.
  induction p as [|y p IH]; simpl; [reflexivity|].
  rewrite IH, filter_app. f_equal. f_equal.
  destruct (N.eq_dec y x) as [E|E].
  - subst. destruct (in_dec N.eq_dec x p); simpl; [reflexivity|].
    now rewrite N.eqb_refl.
  - destruct (in_dec N.eq_dec x p); simpl; [reflexivity|].
    destruct (x =? y)%N eqn:Exy; [|reflexivity].
    apply N.eqb_eq in Exy. congruence.
Qed.

(** The position of a value among the first-seen values tells what was seen
    before its first occurrence. *)
Lemma first_seen_split (l k1 k2 : list N) (t : N) :
  first_seen l = k1 ++ t :: k2 ->
  exists pre post,
    l = pre ++ t :: post /\ ~ In t pre /\ (forall u, In u pre -> In u k1).
Proof.
  revert k1 k2. induction l as [|x l IH]; simpl; intros k1 k2 H.
  - destruct k1; discriminate.
  - destruct k1 as [|y k1]; simpl in H; inversion H; subst.
    + exists [], l. simpl. repeat split; auto; try tauto.
    + apply filter_split in H2 as (a' & b' & Hl & Ha & Hb & Ht).
      apply negb_true_iff, N.eqb_neq in Ht.
      destruct (IH _ _ Hl) as (pre & post & -> & Hn & Hpre).
      exists (y :: pre), post. simpl. repeat split; auto.
      * intros [E | E]; [congruence | contradiction].
      * intros u [E | E]; [auto|].
        destruct (N.eq_dec u y) as [Eu|Eu]; [auto|]. right.
        rewrite <- Ha. apply filter_In. split; [auto|].
        now apply negb_true_iff, N.eqb_neq.
Qed.

Lemma map_get_tally (g : N -> N) (ks : list N) (x : N) :
  map_get x (map (fun k => (k, g k)) ks)
  = if in_dec N.eq_dec x ks then Some (g x) else None.
Proof.
  induction ks as [|k ks IH]; simpl; [reflexivity|].
  destruct (x =? k)%N eqn:E.
  - apply N.eqb_eq in E. subst. destruct (N.eq_dec k k); [reflexivity|congruence].
  - apply N.eqb_neq in E. rewrite IH.
    destruct (N.eq_dec k x); [congruence|].
    destruct (in_dec N.eq_dec x ks); reflexivity.
Qed.

Lemma map_set_old (g : N -> N) (ks : list N) (x v : N) :
  NoDup ks -> In x ks ->
  map_set x v (map (fun k => (k, g k)) ks)
  = map (fun k => (k, if (k =? x)%N then v else g k)) ks.
Proof.
  induction 1 as [|k ks Hk Hn IH]; simpl; [contradiction|].
  intros [E | E].
  - subst. rewrite N.eqb_refl. f_equal. apply map_ext_in.
    intros a Ha. destruct (a =? x)%N eqn:Ea; [|reflexivity].
    apply N.eqb_eq in Ea. subst. contradiction.
  - destruct (x =? k)%N eqn:Ex.
    + apply N.eqb_eq in Ex. subst. contradiction.
    + rewrite N.eqb_sym, Ex. f_equal. now apply IH.
Qed.

Lemma map_set_new (g : N -> N) (ks : list N) (x v : N) :
  ~ In x ks ->
  map_set x v (map (fun k => (k, g k)) ks)
  = map (fun k => (k, g k)) ks ++ [(x, v)].
Proof.
  induction ks as [|k ks IH]; simpl; [reflexivity|]. intros Hn.
  destruct (x =? k)%N eqn:Ex.
  - apply N.eqb_eq in Ex. subst. tauto.
  - f_equal. apply IH. tauto.
Qed.

Lemma frequency_snoc (p : list N) (x k : N) :
  frequency (p ++ [x]) k
  = (frequency p k + if N.eq_dec x k then 1 else 0)%nat.
Proof.
  unfold frequency. rewrite count_occ_app. simpl.
  destruct (N.eq_dec x k); reflexivity.
Qed.

(** The map built by the counting loop: every value seen, in first-seen
    order, with its frequency. *)
Lemma count_versions_tally (majors : list N) :
  count_versions majors = map (tally majors) (first_seen majors).
Proof.
  induction majors as [|x p IH] using rev_ind; [reflexivity|].
  unfold count_versions in *. rewrite fold_left_app. simpl. rewrite IH.
  unfold tally at 1 2. rewrite map_get_tally, first_seen_snoc.
  destruct (in_dec N.eq_dec x (first_seen p)) as [Hi|Hi].
  - assert (In x p) as Hp by now apply first_seen_In.
    destruct (in_dec N.eq_dec x p); [|contradiction].
    rewrite app_nil_r, map_set_old; auto using first_seen_NoDup.
    apply map_ext. intros k. unfold tally. rewrite frequency_snoc. f_equal.
    destruct (k =? x)%N eqn:E.
    + apply N.eqb_eq in E. subst. destruct (N.eq_dec x x); [lia|congruence].
    + apply N.eqb_neq in E. destruct (N.eq_dec x k); [congruence|].
      now rewrite Nat.add_0_r.
  - assert (~ In x p) as Hp by (now rewrite <- first_seen_In).
    destruct (in_dec N.eq_dec x p); [contradiction|].
    rewrite map_set_new by assumption. rewrite map_app. simpl. f_equal.
    + apply map_ext_in. intros k Hk. unfold tally. rewrite frequency_snoc.
      destruct (N.eq_dec x k); [|now rewrite Nat.add_0_r].
      subst. contradiction.
    + unfold tally. rewrite frequency_snoc.
      destruct (N.eq_dec x x); [|congruence].
      assert (frequency p x = 0%nat) as ->
          by (now apply count_occ_not_In). reflexivity.
Qed.

(** The loop that picks the entry with the highest count, the first one
    among equals. *)
Lemma most_common_fold (counts : list (N * N)) (mx : N) (tg : option N) :
  let out := fold_left
       (fun (st : N * option N) (e : N * N) =>
          let (maxCount, target) := st in
          if (maxCount <? snd e)%N then (snd e, Some (fst e))
          else (maxCount, target))
       counts (mx, tg) in
  (out = (mx, tg) /\ forall e, In e counts -> (snd e <= mx)%N)
  \/ exists c1 k c c2,
       counts = c1 ++ (k, c) :: c2 /\ out = (c, Some k) /\ (mx < c)%N
       /\ (forall e, In e c1 -> (snd e < c)%N)
       /\ (forall e, In e c2 -> (snd e <= c)%N).
Proof.
  revert mx tg. induction counts as [|[k c] counts IH]; intros mx tg; simpl.
  - left. split; [reflexivity|]. intros e [].
  - destruct (mx <? c)%N eqn:E.
    + apply N.ltb_lt in E. right.
      destruct (IH c (Some k)) as [[Ho Hall] | (c1 & k' & c' & c2 & Hc & Ho & Hlt & H1 & H2)].
      * exists [], k, c, counts. simpl. repeat split; auto. intros e [].
      * exists ((k, c) :: c1), k', c', c2. subst counts. simpl.
        repeat split; auto; [lia|].
        intros e [<- | He]; simpl; auto.
    + apply N.ltb_ge in E.
      destruct (IH mx tg) as [[Ho Hall] | (c1 & k' & c' & c2 & Hc & Ho & Hlt & H1 & H2)].
      * left. split; [exact Ho|]. intros e [<- | He]; simpl; auto.
      * right. exists ((k, c) :: c1), k', c', c2. subst counts. simpl.
        repeat split; auto.
        intros e [<- | He]; simpl; [lia|auto].
Qed.

Lemma frequency_pos (l : list N) (x : N) : In x l -> (0 < frequency l x)%nat.
Proof. intros H. now apply count_occ_In. Qed.

(** The target resolved for a non-empty list of majors is its majority
    value. *)
Lemma most_common_majority (majors : list N) :
  majors <> [] ->
  exists t, most_common (count_versions majors) None = Some t
            /\ majority majors t.
Proof.
  intros Hne. unfold most_common.
  destruct (most_common_fold (count_versions majors) 0 None)
    as [[_ Hall] | (c1 & k & c & c2 & Hc & Ho & Hlt & H1 & H2)].
  - exfalso. destruct majors as [|x l]; [congruence|].
    assert (In (tally (x :: l) x) (count_versions (x :: l))) as Hin
        by (rewrite count_versions_tally; left; reflexivity).
    apply Hall in Hin. unfold tally in Hin. cbn [snd] in Hin.
    pose proof (@frequency_pos (x :: l) x (or_introl eq_refl)). lia.
  - rewrite Ho. simpl. exists k. split; [reflexivity|].
    rewrite count_versions_tally in Hc.
    assert (map fst (map (tally majors) (first_seen majors)) = first_seen majors) as Hk.
    { rewrite map_map. simpl. apply map_id. }
    assert (forall e, In e (c1 ++ (k, c) :: c2) ->
                      snd e = N.of_nat (frequency majors (fst e))) as Hval.
    { rewrite <- Hc. intros e He. apply in_map_iff in He as (u & <- & _).
      reflexivity. }
    assert (c = N.of_nat (frequency majors k)) as Hck.
    { apply (Hval (k, c)). apply in_or_app. right. now left. }
    rewrite Hc, map_app in Hk. simpl in Hk. symmetry in Hk.
    pose proof Hk as Hs.
    apply first_seen_split in Hs as (pre & post & Hm & Hn & Hpre).
    exists pre, post. repeat split; auto.
    + intros u Hu. apply Hpre in Hu. apply in_map_iff in Hu as (e & <- & He).
      specialize (H1 e He). rewrite (Hval e) in H1 by (apply in_or_app; auto).
      lia.
    + intros u. destruct (in_dec N.eq_dec u majors) as [Hi|Hi].
      * apply first_seen_In in Hi. rewrite Hk in Hi.
        apply in_app_or in Hi as [Hi | [<- | Hi]]; [| lia |].
        -- apply in_map_iff in Hi as (e & <- & He).
           specialize (H1 e He).
           rewrite (Hval e) in H1 by (apply in_or_app; auto). lia.
        -- apply in_map_iff in Hi as (e & <- & He).
           specialize (H2 e He).
           rewrite (Hval e) in H2 by (apply in_or_app; right; right; auto).
           lia.
      * assert (frequency majors u = 0%nat) as ->
            by (now apply count_occ_not_In).
        lia.
Qed.


(* ------------------------------------------------------------------ *)
(** *** Computations that only read *)

Lemma pop_fault_quiet (w : world) : faults w = [] -> pop_fault w = (false, w).
Proof. unfold pop_fault. now intros ->. Qed.

Lemma quiet_ret {A : Type} (a : A) : quiet (ret a).
Proof. intros w x w' _ H. now inversion H. Qed.

Lemma quiet_throw {A : Type} e : quiet (@throw A e).
Proof. intros w x w' _ H. now inversion H. Qed.

Lemma quiet_bind {A B : Type} (m : M A) (k : A -> M B) :
  quiet m -> (forall a, quiet (k a)) -> quiet (bind m k).
Proof.
  intros Hm Hk w x w' Hf H. unfold bind in H.
  destruct (m w) as [[a|e] w1] eqn:E; apply Hm in E; auto; subst w1.
  - eapply Hk; eauto.
  - now inversion H.
Qed.

Lemma quiet_try {A : Type} (m : M A) (h : jsstring -> M A) :
  quiet m -> (forall e, quiet (h e)) -> quiet (try_catch m h).
Proof.
  intros Hm Hh w x w' Hf H. unfold try_catch in H.
  destruct (m w) as [[a|e] w1] eqn:E; apply Hm in E; auto; subst w1.
  - now inversion H.
  - eapply Hh; eauto.
Qed.

Lemma quiet_existsSync p : quiet (existsSync p).
Proof. intros w x w' _ H. now inversion H. Qed.

Lemma quiet_process_cwd : quiet process_cwd.
Proof. intros w x w' _ H. now inversion H. Qed.

Lemma quiet_readFileSync p : quiet (readFileSync p).
Proof.
  intros w x w' Hf H. unfold readFileSync in H.
  rewrite (pop_fault_quiet _ Hf) in H.
  destruct (lookup_file p (files w)); now inversion H.
Qed.

Lemma quiet_readdirSync p : quiet (readdirSync p).
Proof.
  intros w x w' Hf H. unfold readdirSync in H.
  rewrite (pop_fault_quiet _ Hf) in H.
  destruct (is_dir p (files w)); now inversion H.
Qed.

Lemma quiet_push_loop {A B : Type} (body : A -> M (list B)) (xs : list A) :
  (forall x, quiet (body x)) ->
  forall acc w out w', faults w = [] ->
    push_loop body xs acc w = (out, w') -> w' = w.
Proof.
  intros Hb. induction xs as [|x xs IH]; simpl; intros acc w out w' Hf H.
  - now inversion H.
  - destruct (body x w) as [[pushed|e] w1] eqn:E; apply Hb in E; auto;
      subst w1.
    + eapply IH; eauto.
    + now inversion H.
Qed.

Create HintDb quiet.

#[local] Hint Resolve quiet_ret quiet_throw quiet_existsSync quiet_process_cwd
  quiet_readFileSync quiet_readdirSync : quiet.

Ltac quiet :=
  repeat first
    [ apply quiet_bind; [|intros ?]
    | apply quiet_try; [|intros ?]
    | solve [auto with quiet]
    | match goal with
      | |- quiet (if ?b then _ else _) => destruct b
      | |- quiet (match ?x with _ => _ end) => destruct x
      end ].

Lemma quiet_check_version_file name tag root :
  quiet (check_version_file name tag root).
Proof. unfold check_version_file. quiet. Qed.

Lemma quiet_checkPackageJson root : quiet (checkPackageJson root).
Proof. unfold checkPackageJson. quiet. Qed.

Lemma quiet_check_image_file name tag pat root :
  quiet (check_image_file name tag pat root).
Proof. unfold check_image_file. quiet. Qed.

Lemma quiet_checkToolVersions root : quiet (checkToolVersions root).
Proof. unfold checkToolVersions. quiet. Qed.

Lemma quiet_check_workflow_file dir name : quiet (check_workflow_file dir name).
Proof. unfold check_workflow_file. quiet. Qed.

Lemma quiet_checkGitHubWorkflows root : quiet (checkGitHubWorkflows root).
Proof.
  unfold checkGitHubWorkflows. apply quiet_bind; [auto with quiet|].
  intros present. destruct (negb present); [auto with quiet|].
  intros w x w' Hf H.
  destruct (readdirSync (workflowDir root) w) as [[names|e] w1] eqn:E;
    apply quiet_readdirSync in E; auto; subst w1.
  - destruct (push_loop (check_workflow_file (workflowDir root))
                (filter is_workflow_name names) [] w) as [[rs o] w2] eqn:L.
    apply quiet_push_loop in L; auto using quiet_check_workflow_file.
    inversion H; subst. reflexivity.
  - now inversion H.
Qed.

Lemma quiet_checks root : quiet (checks root).
Proof.
  unfold checks.
  do 6 (apply quiet_bind;
        [ first [ apply quiet_check_version_file | apply quiet_checkPackageJson
                | apply quiet_check_image_file | apply quiet_checkToolVersions ]
        | intros ? ]).
  apply quiet_ret.
Qed.

(** Without pending faults the scan leaves the world as it found it. *)
Lemma quiet_scanVersions root : quiet (scanVersions root).
Proof.
  unfold scanVersions.
  apply quiet_bind; [apply quiet_checks|intros cs].
  apply quiet_bind; [apply quiet_checkGitHubWorkflows|intros wf].
  apply quiet_ret.
Qed.

(* ------------------------------------------------------------------ *)
(** *** Properties of returned values *)

Lemma returns_ret {A : Type} (P : A -> Prop) (a : A) : P a -> returns P (ret a).
Proof. intros Ha w x w' H. inversion H; subst. exact Ha. Qed.

Lemma returns_throw {A : Type} (P : A -> Prop) e : returns P (throw e).
Proof. intros w x w' H. inversion H. Qed.

Lemma returns_bind {A B : Type} (P : B -> Prop) (m : M A) (k : A -> M B) :
  (forall a, returns P (k a)) -> returns P (bind m k).
Proof.
  intros Hk w b w' H. apply bind_ok in H as (a & w1 & _ & H).
  eapply Hk; eauto.
Qed.

Lemma returns_try {A : Type} (P : A -> Prop) (m : M A) (h : jsstring -> M A) :
  returns P m -> (forall e, returns P (h e)) -> returns P (try_catch m h).
Proof.
  intros Hm Hh w a w' H.
  apply try_ok in H as [H | (e & w1 & _ & H)]; [eapply Hm | eapply Hh]; eauto.
Qed.

Ltac returns :=
  repeat first
    [ apply returns_bind; intros ?
    | apply returns_try; [|intros ?]
    | apply returns_throw
    | solve [apply returns_ret; simpl; auto]
    | match goal with
      | |- returns _ (if ?b then _ else _) => destruct b
      | |- returns _ (match ?x with _ => _ end) => destruct x
      | |- returns _ (let '(_, _) := ?x in _) => destruct x
      end ].

(* ------------------------------------------------------------------ *)
(** *** The dispatch on the file type *)

Lemma dispatch_nvmrc v V o :
  fileType v = js "nvmrc" ->
  updateVersionFile v V o = updateNvmrc (VersionCheck.file v) V o.
Proof. intros H. unfold updateVersionFile. rewrite H. reflexivity. Qed.

Lemma dispatch_package v V o :
  fileType v = js "package.json" ->
  updateVersionFile v V o = updatePackageJson (VersionCheck.file v) V o.
Proof. intros H. unfold updateVersionFile. rewrite H. reflexivity. Qed.

Lemma dispatch_dockerfile v V o :
  fileType v = js "dockerfile" ->
  updateVersionFile v V o = updateDockerfile (VersionCheck.file v) V o.
Proof. intros H. unfold updateVersionFile. rewrite H. reflexivity. Qed.

Lemma dispatch_compose v V o :
  fileType v = js "docker-compose" ->
  updateVersionFile v V o = updateDockerCompose (VersionCheck.file v) V o.
Proof. intros H. unfold updateVersionFile. rewrite H. reflexivity. Qed.

Lemma dispatch_workflow v V o :
  fileType v = js "github-workflow" ->
  updateVersionFile v V o = updateGitHubWorkflow (VersionCheck.file v) V o.
Proof. intros H. unfold updateVersionFile. rewrite H. reflexivity. Qed.

Lemma dispatch_node_version v V o :
  fileType v = js "node-version" ->
  updateVersionFile v V o = updateNodeVersionFile (VersionCheck.file v) V o.
Proof. intros H. unfold updateVersionFile. rewrite H. reflexivity. Qed.

Lemma dispatch_tool v V o :
  fileType v = js "tool-versions" ->
  updateVersionFile v V o = updateToolVersions (VersionCheck.file v) V o.
Proof. intros H. unfold updateVersionFile. rewrite H. reflexivity. Qed.

(* ------------------------------------------------------------------ *)
(** *** Dry runs *)

Ltac unfold_updates :=
  unfold updateVersionFile, updateNvmrc, updateNodeVersionFile,
    updateDockerfile, updateDockerCompose, update_version_file,
    updatePackageJson, update_image_file, updateGitHubWorkflow,
    updateToolVersions, dry;
  cbn [dryRun].

Lemma keeps_updateVersionFile_dry v V b :
  keeps_files (updateVersionFile v V (dry b)).
Proof. unfold_updates. keeps. Qed.

Lemma quiet_updateVersionFile_dry v V b :
  quiet (updateVersionFile v V (dry b)).
Proof. unfold_updates. quiet. Qed.

Lemma returns_updateVersionFile_dry v V b :
  returns (fun r => backedUp r = None) (updateVersionFile v V (dry b)).
Proof. unfold_updates. returns. Qed.

Lemma keeps_update_record_dry V b v : keeps_files (update_record V (dry b) v).
Proof.
  unfold update_record. destruct (_ =? _)%N; [apply keeps_ret|].
  apply keeps_bind; [apply keeps_updateVersionFile_dry|intros; apply keeps_ret].
Qed.

Lemma returns_update_record_dry V b v :
  returns (Forall (fun r => backedUp r = None)) (update_record V (dry b) v).
Proof.
  unfold update_record. destruct (_ =? _)%N.
  - apply returns_ret. repeat constructor.
  - intros w rs w' H. peel H as r w1 R. inversion H; subst.
    apply returns_updateVersionFile_dry in R. repeat constructor. exact R.
Qed.

Lemma push_loop_returns {A B : Type} (body : A -> M (list B)) (P : B -> Prop)
    (xs : list A) :
  (forall x, returns (Forall P) (body x)) ->
  forall acc w rs o w',
    Forall P acc -> push_loop body xs acc w = ((rs, o), w') -> Forall P rs.
Proof.
  intros Hb. induction xs as [|x xs IH]; simpl; intros acc w rs o w' Ha H.
  - inversion H; subst. exact Ha.
  - destruct (body x w) as [[pushed|e] w1] eqn:E.
    + eapply IH; [|exact H]. apply Forall_app. split; [exact Ha|].
      eapply Hb; eauto.
    + inversion H; subst. exact Ha.
Qed.

Lemma merge_dry b :
  exists b', merge_options (mkPartialOptions (Some true) b) = dry b'.
Proof. unfold merge_options, dry. simpl. eauto. Qed.

(** A dry run changes no file, whatever its outcome. *)
Lemma keeps_updateAllVersions_dry root V b :
  keeps_files (updateAllVersions root V (mkPartialOptions (Some true) b)).
Proof.
  unfold updateAllVersions. destruct (merge_dry b) as [b' ->].
  apply keeps_bind; [apply keeps_scanVersions|]. intros vs w x w' H.
  unfold update_records in H.
  destruct (push_loop _ _ _ _) as [[rs o] w1] eqn:L.
  apply keeps_push_loop in L; [|intros; apply keeps_update_record_dry].
  destruct o; inversion H; subst; exact L.
Qed.

(** No result of a dry run says that a backup was made. *)
Lemma returns_updateAllVersions_dry root V b :
  returns (Forall (fun r => backedUp r = None))
          (updateAllVersions root V (mkPartialOptions (Some true) b)).
Proof.
  unfold updateAllVersions. destruct (merge_dry b) as [b' ->].
  apply returns_bind. intros vs w rs w' H. unfold update_records in H.
  destruct (push_loop _ _ _ _) as [[rs' o] w1] eqn:L.
  apply push_loop_returns with (P := fun r => backedUp r = None) in L;
    [| intros; apply returns_update_record_dry | constructor].
  destruct o; inversion H; subst; exact L.
Qed.

Lemma dropWhile_run (p : char -> bool) (m r : jsstring) :
  forallb p m = true ->
  match r with [] => True | c :: _ => p c = false end ->
  dropWhile p (m ++ r) = r.
Proof.
  intros Hm Hr. induction m as [|c m IH]; simpl in *.
  - destruct r as [|c r]; [reflexivity|]. simpl. now rewrite Hr.
  - apply andb_true_iff in Hm as [Hc Hm]. rewrite Hc. auto.
Qed.

Lemma workflow_updated content V pre m :
  regex_search re_node_version content = Some (pre, m)
  \/ (regex_search re_node_version content = None
      /\ regex_search re_NODE_VERSION content = Some (pre, m)) ->
  exists c old, rewrite_workflow content V = (c, old, true).
Proof.
  unfold rewrite_workflow. intros [E | [E1 E2]].
  - rewrite E. destruct (regex_search re_NODE_VERSION _) as [[p2 m2]|]; eauto.
  - rewrite E1, E2. eauto.
Qed.

Ltac preview :=
  split; [reflexivity|]; split; [reflexivity|]; intros _;
  split; [reflexivity|]; split; [reflexivity|].

Lemma dry_update_scanned V b v w :
  scanned (files w) v -> faults w = [] -> majorVersion v <> V ->
  exists r, updateVersionFile v V (dry b) w = (Ok r, w)
            /\ previewed V v r.
Proof.
  intros S Hf Hm. unfold previewed. destruct S as
    [ f name tag raw m L E T
    | f text content version L P G Hne
    | f name tag pat content pre m L E T
    | f name content pre m L E
    | f content pre m L E ].
  - assert (updateVersionFile
              (mkVersionInfo f name (or_empty (group 1 m)) (trim raw)
                 (parseInt (or_empty (group 1 m))) tag) V (dry b)
            = update_version_file f V (dry b)) as ->.
    { destruct T as [-> | ->];
        [apply dispatch_nvmrc | apply dispatch_node_version]; reflexivity. }
    unfold update_version_file, bind, process_cwd.
    rewrite (@readFileSync_run _ _ _ Hf L). simpl. eexists. split; [reflexivity|].
    simpl. preview. destruct T as [-> | ->]; reflexivity.
  - rewrite dispatch_package by reflexivity.
    unfold updatePackageJson, bind, try_catch, process_cwd. simpl.
    rewrite (@readFileSync_run _ _ _ Hf L), P. simpl.
    eexists. split; [reflexivity|]. simpl. preview. reflexivity.
  - assert (exists hd miss,
              updateVersionFile
                (mkVersionInfo f name (or_empty (group 1 m))
                   (or_empty (group 1 m) ++ or_empty (group 2 m))
                   (parseInt (or_empty (group 1 m))) tag) V (dry b)
              = update_image_file pat hd miss f V (dry b)) as (hd & miss & ->).
    { destruct T as [[-> ->] | [-> ->]]; eexists; eexists;
        [apply dispatch_dockerfile | apply dispatch_compose]; reflexivity. }
    unfold update_image_file, bind, process_cwd.
    rewrite (@readFileSync_run _ _ _ Hf L). simpl. rewrite E. simpl.
    eexists. split; [reflexivity|]. simpl. preview.
    apply regex_search_app in E as [_ E].
    apply exec_image in E
      as (h & ds & sfx & s1 & Hs & Hd & Hne & Hx & G1 & G2 & Hmm).
    2:{ destruct T as [[_ ->] | [_ ->]]; auto. }
    rewrite G1, G2. simpl.
    assert (after_value
              (mkVersionInfo f name ds (ds ++ sfx) (parseInt ds) tag) V
            = toString V ++ dropWhile is_digit (ds ++ sfx)) as ->
        by (destruct T as [[-> _] | [-> _]]; reflexivity).
    rewrite dropWhile_run; auto.
    + eapply span_all; eauto.
    + eapply digits_then_tag; eauto.
  - rewrite dispatch_workflow by reflexivity.
    unfold updateGitHubWorkflow, bind, process_cwd, workflow_record.
    cbn [VersionCheck.file].
    rewrite (@readFileSync_run _ _ _ Hf L). simpl.
    destruct (@workflow_updated content V pre m E) as (c & old & ->). simpl.
    eexists. split; [reflexivity|]. simpl. preview. reflexivity.
  - rewrite dispatch_tool by reflexivity.
    unfold updateToolVersions, bind, process_cwd. cbn [VersionCheck.file].
    rewrite (@readFileSync_run _ _ _ Hf L). simpl. rewrite E. simpl.
    eexists. split; [reflexivity|]. simpl. preview. reflexivity.
Qed.

Lemma dry_record_scanned V b v w :
  scanned (files w) v -> faults w = [] ->
  exists r, update_record V (dry b) v w = (Ok [r], w) /\ previewed V v r.
Proof.
  intros S Hf. unfold update_record.
  destruct (majorVersion v =? V)%N eqn:E.
  - apply N.eqb_eq in E. eexists. split; [reflexivity|].
    unfold previewed. simpl. repeat split. congruence.
  - apply N.eqb_neq in E.
    destruct (@dry_update_scanned V b v w S Hf E) as (r & R & Hr).
    exists r. unfold bind. rewrite R. auto.
Qed.

(** A loop whose body, in a world it does not change, pushes one result per
    element. *)
Lemma push_loop_each {A B : Type} (body : A -> M (list B)) (Q : A -> B -> Prop)
    (w : world) (xs : list A) :
  Forall (fun x => exists r, body x w = (Ok [r], w) /\ Q x r) xs ->
  forall acc, exists rs,
    push_loop body xs acc w = ((acc ++ rs, None), w) /\ Forall2 Q xs rs.
Proof.
  induction 1 as [|x xs (r & Hr & Hq) _ IH]; intros acc; simpl.
  - exists []. rewrite app_nil_r. auto.
  - rewrite Hr. destruct (IH (acc ++ [r])) as (rs & -> & F).
    exists (r :: rs). rewrite <- app_assoc. auto.
Qed.

(** C4: with [dryRun: true], [updateAllVersions] changes no file and makes
    no backup in any outcome, no result has [backedUp] set, and (when no I/O
    failure is injected) every scanned record gets its result, a record whose
    major differs from the target being reported as a success with the
    computed new value. *)
Theorem dry_run_writes_nothing root V b w :
  let options := mkPartialOptions (Some true) b in
  (forall out w', updateAllVersions root V options w = (out, w') ->
                  files w' = files w)
  /\ (forall results w', updateAllVersions root V options w = (Ok results, w') ->
                         Forall (fun r => is_backed_up r = false) results)
  /\ (faults w = [] ->
      forall vs w1, scanVersions root w = (Ok vs, w1) ->
      exists results,
        updateAllVersions root V options w = (Ok results, w)
        /\ Forall2 (previewed V) vs results).
Proof.
  intros options. split; [|split].
  - intros out w' H. eapply keeps_updateAllVersions_dry; eauto.
  - intros results w' H. apply returns_updateAllVersions_dry in H.
    eapply Forall_impl; [|exact H]. intros r Hr.
    unfold is_backed_up. now rewrite Hr.
  - intros Hf vs w1 Hs.
    assert (w1 = w) as -> by (eapply quiet_scanVersions; eauto).
    pose proof (@scanVersions_scanned _ _ _ _ Hs) as Sc.
    unfold options, updateAllVersions. destruct (merge_dry b) as [b' ->].
    unfold bind. rewrite Hs. unfold update_records.
    assert (Forall (fun v => exists r, update_record V (dry b') v w = (Ok [r], w)
                                       /\ previewed V v r) vs) as Each.
    { eapply Forall_impl; [|exact Sc]. intros v S.
      now apply dry_record_scanned. }
    destruct (@push_loop_each _ _ _ _ _ _ Each []) as (rs & -> & F).
    exists rs. auto.
Qed.

Lemma dry_run_writes_nothing_witness :
  faults sample_project = []
  /\ scanVersions (js "/p") sample_project = (Ok sample_records, sample_project)
  /\ exists results,
       updateAllVersions (js "/p") 22 (mkPartialOptions (Some true) None)
                         sample_project = (Ok results, sample_project)
       /\ Forall2 (previewed 22) sample_records results.
Proof.
  split; [reflexivity|]. split; [vm_compute; reflexivity|].
  apply (proj2 (proj2 (dry_run_writes_nothing (js "/p") 22 None sample_project))
           eq_refl sample_records sample_project).
  vm_compute. reflexivity.
Defined.

Lemma scan_major_of_display_witness :
  scanVersions (js "/p") sample_project = (Ok sample_records, sample_project)
  /\ Forall (fun v =>
               majorVersion v = major_of (fullVersion v)
               /\ (first_integer_run (fullVersion v) = None ->
                   fileType v = js "package.json" /\ majorVersion v = 0%N))
            sample_records.
Proof.
  assert (scanVersions (js "/p") sample_project
          = (Ok sample_records, sample_project)) as H
      by (vm_compute; reflexivity).
  split; [exact H|]. exact (scan_major_of_display _ _ H).
Defined.


(* ------------------------------------------------------------------ *)
(** *** Read failures during the scan *)

(** C7 fails on the code: when [.nvmrc] exists and reading it throws (an
    injected I/O error, or [.nvmrc] being a directory), the exception leaves
    [checkNvmrc] and [scanVersions], and no record of any format is
    returned, although the Dockerfile is fine.  The sibling
    [checkPackageJson] reads inside its handler: the same failure on
    package.json is swallowed and the scan returns the Dockerfile record. *)
Theorem scan_raises_on_unreadable_file :
  thrown (scanVersions (js "/p")) project_unreadable_nvmrc = Some EIO
  /\ thrown (scanVersions (js "/p")) project_nvmrc_directory = Some EISDIR
  /\ option_map (map fullVersion)
       (value (scanVersions (js "/p")) project_unreadable_package)
     = Some [js "20"].
Proof. repeat split; vm_compute; reflexivity. Qed.

(** The three conditions C7 lists do degrade to absence: as long as no
    file-system call throws (no injected fault, no directory where a file is
    expected), the scan returns whatever the files hold, be they missing,
    without the pattern, or with a package.json that does not parse. *)
Lemma is_file_lookup p fs :
  is_file p fs = true -> exists c, lookup_file p fs = Some c.
Proof. unfold is_file. destruct (lookup_file p fs); [eauto|discriminate]. Qed.

Lemma check_version_file_returns name tag root w :
  faults w = [] -> is_dir (path_join root name) (files w) = false ->
  exists c, check_version_file name tag root w = (Ok c, w).
Proof.
  intros Hf Hd. unfold check_version_file, bind. rewrite existsSync_run, Hd.
  destruct (is_file _ _) eqn:F; cbn [orb negb]; [|unfold ret; eauto].
  apply is_file_lookup in F as [c L]. rewrite (@readFileSync_run _ _ _ Hf L).
  destruct (exec re_leading_version (trim c)); unfold ret; eauto.
Qed.

Lemma check_image_file_returns name tag pat root w :
  faults w = [] -> is_dir (path_join root name) (files w) = false ->
  exists c, check_image_file name tag pat root w = (Ok c, w).
Proof.
  intros Hf Hd. unfold check_image_file, bind. rewrite existsSync_run, Hd.
  destruct (is_file _ _) eqn:F; cbn [orb negb]; [|unfold ret; eauto].
  apply is_file_lookup in F as [c L]. rewrite (@readFileSync_run _ _ _ Hf L).
  destruct (regex_search pat c) as [[pre m]|]; unfold ret; eauto.
Qed.

Lemma checkToolVersions_returns root w :
  faults w = [] ->
  is_dir (path_join root (js ".tool-versions")) (files w) = false ->
  exists c, checkToolVersions root w = (Ok c, w).
Proof.
  intros Hf Hd. unfold checkToolVersions, bind. rewrite existsSync_run, Hd.
  destruct (is_file _ _) eqn:F; cbn [orb negb]; [|unfold ret; eauto].
  apply is_file_lookup in F as [c L]. rewrite (@readFileSync_run _ _ _ Hf L).
  destruct (regex_search re_nodejs c) as [[pre m]|]; unfold ret; eauto.
Qed.

(** [checkPackageJson] never throws: its handler turns every exception of
    the read and of the parse into [null]. *)
Lemma checkPackageJson_returns root w :
  exists c w', checkPackageJson root w = (Ok c, w').
Proof.
  unfold checkPackageJson. unfold bind at 1. rewrite existsSync_run.
  destruct (negb _); [unfold ret; eauto|].
  match goal with
  | |- context [try_catch ?m ?h w] =>
      unfold try_catch; destruct (m w) as [[c|e] w1]; unfold ret; eauto
  end.
Qed.

(** [checkGitHubWorkflows] never throws either. *)
Lemma checkGitHubWorkflows_returns root w :
  exists rs w', checkGitHubWorkflows root w = (Ok rs, w').
Proof.
  unfold checkGitHubWorkflows, bind. rewrite existsSync_run.
  destruct (negb _); [unfold ret; eauto|].
  destruct (readdirSync _ w) as [[names|e] w1]; [|eauto].
  destruct (push_loop _ _ _ _) as [[rs o] w2]. eauto.
Qed.

Lemma scan_returns_without_io_error root w :
  faults w = [] ->
  Forall (fun name => is_dir (path_join root name) (files w) = false)
         top_names ->
  exists vs, scanVersions root w = (Ok vs, w).
Proof.
  intros Hf Hd. unfold top_names in Hd.
  repeat match goal with
         | H : Forall _ (_ :: _) |- _ => inversion H; clear H; subst
         end.
  destruct (@check_version_file_returns (js ".nvmrc") (js "nvmrc") root w)
    as [c1 E1]; auto.
  destruct (checkPackageJson_returns root w) as (c2 & w2 & E2).
  assert (w2 = w) as -> by (eapply quiet_checkPackageJson; eauto).
  destruct (@check_image_file_returns (js "Dockerfile") (js "dockerfile")
              re_from root w) as [c3 E3]; auto.
  destruct (@check_image_file_returns (js "docker-compose.yml")
              (js "docker-compose") re_image root w) as [c4 E4]; auto.
  destruct (@check_version_file_returns (js ".node-version")
              (js "node-version") root w) as [c5 E5]; auto.
  destruct (@checkToolVersions_returns root w) as [c6 E6]; auto.
  destruct (checkGitHubWorkflows_returns root w) as (rs & w7 & E7).
  assert (w7 = w) as -> by (eapply quiet_checkGitHubWorkflows; eauto).
  unfold scanVersions, checks, checkNvmrc, checkDockerfile,
    checkDockerCompose, checkNodeVersion.
  unfold bind at 1 2. rewrite E1. unfold bind at 1. rewrite E2.
  unfold bind at 1. rewrite E3. unfold bind at 1. rewrite E4.
  unfold bind at 1. rewrite E5. unfold bind at 1. rewrite E6.
  unfold ret at 1. unfold bind. rewrite E7. unfold ret. eauto.
Qed.

(** A missing file yields no record and no read. *)
Lemma missing_file_no_record name tag root w :
  is_file (path_join root name) (files w) = false ->
  is_dir (path_join root name) (files w) = false ->
  check_version_file name tag root w = (Ok None, w).
Proof.
  intros F D. unfold check_version_file, bind. now rewrite existsSync_run, F, D.
Qed.

(** A package.json that does not parse yields no record. *)
Lemma malformed_package_no_record root w text :
  lookup_file (path_join root (js "package.json")) (files w) = Some text ->
  JSON_parse text = None ->
  exists w', checkPackageJson root w = (Ok None, w').
Proof.
  intros L P. unfold checkPackageJson, bind, try_catch.
  rewrite existsSync_run. unfold is_file. rewrite L. simpl.
  destruct (readFileSync _ w) as [[c|e] w1] eqn:R; [|unfold ret; eauto].
  apply readFileSync_ok in R as [L' _].
  assert (c = text) as -> by congruence. rewrite P. unfold throw, ret. eauto.
Qed.

(* ------------------------------------------------------------------ *)
(** *** Failures during the update *)

(** The handler of the seven update functions catches every failure of the
    backup and of the write. *)
Lemma backup_and_write_never_throws f rel old new content opts :
  never_throws (backup_and_write f rel old new content opts).
Proof.
  intros w. unfold backup_and_write, try_catch.
  match goal with
  | |- context [match ?m w with _ => _ end] =>
      destruct (m w) as [[r|e] w1]; unfold ret; eauto
  end.
Qed.

(** [updatePackageJson] reads inside its handler: it never throws. *)
Lemma updatePackageJson_never_throws f V opts :
  never_throws (updatePackageJson f V opts).
Proof.
  intros w. unfold updatePackageJson. unfold bind at 1. unfold process_cwd.
  match goal with
  | |- context [try_catch ?m ?h w] =>
      unfold try_catch; destruct (m w) as [[r|e] w1]; unfold ret; eauto
  end.
Qed.

Ltac no_throw H :=
  repeat match type of H with
    | (if ?b then _ else _) _ = _ => destruct b
    | (let '(_, _) := ?x in _) _ = _ => destruct x
    | (match ?x with _ => _ end) _ = _ => destruct x
    | ret _ _ = _ => unfold ret in H; discriminate
    | backup_and_write ?a ?b ?c ?d ?e ?f ?w = _ =>
        let r := fresh "r" in
        let w2 := fresh "w" in
        let E := fresh "E" in
        destruct (backup_and_write_never_throws a b c d e f w) as (r & w2 & E);
        congruence
    end.

Lemma update_version_file_throws f V opts w e w' :
  update_version_file f V opts w = (Throw e, w') ->
  readFileSync f w = (Throw e, w').
Proof.
  unfold update_version_file. unfold bind at 1. unfold process_cwd.
  unfold bind at 1. destruct (readFileSync f w) as [[c|e0] w1];
    intros H; [exfalso|now inversion H]. no_throw H.
Qed.

Lemma update_image_file_throws pat hd miss f V opts w e w' :
  update_image_file pat hd miss f V opts w = (Throw e, w') ->
  readFileSync f w = (Throw e, w').
Proof.
  unfold update_image_file. unfold bind at 1. unfold process_cwd.
  unfold bind at 1. destruct (readFileSync f w) as [[c|e0] w1];
    intros H; [exfalso|now inversion H]. no_throw H.
Qed.

Lemma updateGitHubWorkflow_throws f V opts w e w' :
  updateGitHubWorkflow f V opts w = (Throw e, w') ->
  readFileSync f w = (Throw e, w').
Proof.
  unfold updateGitHubWorkflow. unfold bind at 1. unfold process_cwd.
  unfold bind at 1. destruct (readFileSync f w) as [[c|e0] w1];
    intros H; [exfalso|now inversion H]. no_throw H.
Qed.

Lemma updateToolVersions_throws f V opts w e w' :
  updateToolVersions f V opts w = (Throw e, w') ->
  readFileSync f w = (Throw e, w').
Proof.
  unfold updateToolVersions. unfold bind at 1. unfold process_cwd.
  unfold bind at 1. destruct (readFileSync f w) as [[c|e0] w1];
    intros H; [exfalso|now inversion H]. no_throw H.
Qed.

(** The only exception that leaves [updateVersionFile] is the one of its
    first statement, [readFileSync], which stands outside the handler. *)
Lemma updateVersionFile_throws_read v V opts w e w' :
  updateVersionFile v V opts w = (Throw e, w') ->
  readFileSync (VersionCheck.file v) w = (Throw e, w').
Proof.
  unfold updateVersionFile.
  repeat match goal with
         | |- context [if str_eqb ?a ?b then _ else _] =>
             destruct (str_eqb a b)
         end;
    eauto using update_version_file_throws, update_image_file_throws,
      updateGitHubWorkflow_throws, updateToolVersions_throws.
  - intros H.
    destruct (updatePackageJson_never_throws (VersionCheck.file v) V opts w)
      as (r & w1 & E). congruence.
  - unfold ret. discriminate.
Qed.

(** C2 fails on the code: two files are scanned; the read that
    [updateNvmrc] makes before its [try] throws; [updateAllVersions] throws
    and returns no result, and the Dockerfile is never processed.  When it
    is the backup of [.nvmrc] that fails, or when the failing read is the
    one [updatePackageJson] makes inside its [try], the batch goes on: one
    result per record, the first failed, the Dockerfile updated. *)
Theorem update_aborts_on_read_failure :
  option_map (map fileType)
    (value (scanVersions (js "/p")) project_read_fails_in_update)
  = Some [js "nvmrc"; js "dockerfile"]
  /\ thrown (updateAllVersions (js "/p") 22 no_options)
            project_read_fails_in_update = Some EIO
  /\ content_of "/p/Dockerfile"
       (after (updateAllVersions (js "/p") 22 no_options)
              project_read_fails_in_update)
     = Some (js "FROM node:20")
  /\ option_map (map success)
       (value (updateAllVersions (js "/p") 22 no_options)
              project_write_fails_in_update)
     = Some [false; true]
  /\ option_map (map success)
       (value (updateAllVersions (js "/p") 22 no_options)
              project_package_read_fails_in_update)
     = Some [false; true].
Proof. repeat split; vm_compute; reflexivity. Qed.

(* ------------------------------------------------------------------ *)
(** *** Replacement strings *)

(** C9 fails on the code.  The two rewrites of the claim do come out as it
    says: [FROM node:20-slim] to 22 and [image: node:18-alpine] to 20 keep
    their tags.  But the tag is pasted into the replacement string of
    [String.prototype.replace], where a dollar sign is special: for the line
    [FROM node:20$1] and the target 22 the file gets [FROM node:2220], the
    two characters dollar, one having been replaced by group 1, while the
    result reports the new value [22$1]. *)
Theorem suffix_with_dollar_is_rewritten :
  content_of "/p/Dockerfile"
    (after (updateDockerfile (js "/p/Dockerfile") 22 DEFAULT_OPTIONS)
           (single_file "/p/Dockerfile" (js "FROM node:20-slim")))
  = Some (js "FROM node:22-slim")
  /\ content_of "/p/docker-compose.yml"
       (after (updateDockerCompose (js "/p/docker-compose.yml") 20
                                   DEFAULT_OPTIONS)
              (single_file "/p/docker-compose.yml" (js "image: node:18-alpine")))
     = Some (js "image: node:20-alpine")
  /\ content_of "/p/Dockerfile"
       (after (updateDockerfile (js "/p/Dockerfile") 22 DEFAULT_OPTIONS)
              (single_file "/p/Dockerfile" (js "FROM node:20$1")))
     = Some (js "FROM node:2220")
  /\ option_map newVersion
       (value (updateDockerfile (js "/p/Dockerfile") 22 DEFAULT_OPTIONS)
              (single_file "/p/Dockerfile" (js "FROM node:20$1")))
     = Some (js "22$1").
Proof. repeat split; vm_compute; reflexivity. Qed.

(** C1 fails on the code, by the same defect.  The first run rewrites
    [FROM node:20$1] to [FROM node:2220]; the second run finds the major
    2220, does not skip the record, backs the file up and rewrites it to
    [FROM node:22]: its result is not the unchanged one and the content
    differs between the two runs. *)
Theorem second_run_rewrites_again :
  let run := updateAllVersions (js "/p") 22 no_options in
  let w1 := after run project_dollar in
  let w2 := after run w1 in
  content_of "/p/Dockerfile" w1 = Some (js "FROM node:2220")
  /\ option_map (map (fun r => (oldVersion r, newVersion r, is_backed_up r)))
       (value run w1)
     = Some [(js "2220", js "22", true)]
  /\ content_of "/p/Dockerfile" w2 = Some (js "FROM node:22")
  /\ content_of "/p/Dockerfile" w1 <> content_of "/p/Dockerfile" w2.
Proof.
  repeat split; try (vm_compute; reflexivity).
  vm_compute. discriminate.
Qed.

(* ------------------------------------------------------------------ *)
(** *** Backups *)

Lemma lookup_store_same p c fs : lookup_file p (store_file p c fs) = Some c.
Proof.
  induction fs as [|[q c'] fs IH]; simpl.
  - now rewrite str_eqb_refl.
  - destruct (str_eqb p q) eqn:E; simpl; rewrite ?str_eqb_refl, ?E; auto.
Qed.

Lemma lookup_store_other p q c fs :
  p <> q -> lookup_file q (store_file p c fs) = lookup_file q fs.
Proof.
  intros Hn. induction fs as [|[x c'] fs IH]; simpl.
  - rewrite str_eqb_neq; auto.
  - destruct (str_eqb p x) eqn:E; simpl.
    + apply str_eqb_eq in E. subst x. rewrite !str_eqb_neq; auto.
    + destruct (str_eqb q x); auto.
Qed.

Lemma backup_path_fresh f ts : backup_path f ts <> f.
Proof.
  unfold backup_path. intros H. rewrite <- (app_nil_r f) in H at 2.
  apply app_inv_head in H. discriminate.
Qed.

Lemma Date_now_files w ts w0 : Date_now w = (Ok ts, w0) -> files w0 = files w.
Proof.
  unfold Date_now. destruct (clock w); intros H; inversion H; reflexivity.
Qed.

Lemma Date_now_ok w : exists ts w0, Date_now w = (Ok ts, w0).
Proof. unfold Date_now. destruct (clock w); eauto. Qed.

Lemma copyFileSync_ok src dst w w' :
  copyFileSync src dst w = (Ok tt, w') ->
  exists c, lookup_file src (files w) = Some c
            /\ files w' = store_file dst c (files w).
Proof.
  unfold copyFileSync. pose proof (pop_fault_files w) as F.
  destruct (pop_fault w) as [[|] w1]; simpl in F; [discriminate|].
  cbv beta iota. rewrite F.
  destruct (lookup_file src (files w)) as [c|] eqn:L; [|discriminate].
  destruct (is_dir dst (files w)); [discriminate|].
  intros H. inversion H; subst. exists c. simpl. auto.
Qed.

Lemma writeFileSync_ok p c w w' :
  writeFileSync p c w = (Ok tt, w') -> files w' = store_file p c (files w).
Proof.
  unfold writeFileSync. pose proof (pop_fault_files w) as F.
  destruct (pop_fault w) as [[|] w1]; simpl in F.
  - destruct (write_progress (faults w1)) as [[k|] rest];
      [destruct (is_dir p (files w1))|]; discriminate.
  - cbv beta iota. rewrite F. destruct (is_dir p (files w)); [discriminate|].
    intros H. inversion H; subst. reflexivity.
Qed.

(** The backup and the write, taken from a world [wr] that still has the
    files of [w]. *)
Lemma backup_then_write f content w wr ts w0 w1 w' r :
  files wr = files w ->
  Date_now wr = (Ok ts, w0) ->
  copyFileSync f (backup_path f ts) w0 = (Ok tt, w1) ->
  writeFileSync f content w1 = (Ok tt, w') ->
  backedUp r = Some true ->
  backed_up_before_write f w r w'.
Proof.
  intros Hw Hn Hc Hwr Hb. pose proof (Date_now_files _ Hn) as F0.
  pose proof (copyFileSync_ok _ _ _ Hc) as (c & L & F1).
  pose proof (writeFileSync_ok _ _ _ Hwr) as F2.
  exists c, ts, w0, w1, content. repeat split; auto.
  - congruence.
  - congruence.
  - apply backup_path_fresh.
  - rewrite F2, lookup_store_other, F1, lookup_store_same; auto.
    intros E. symmetry in E. revert E. apply backup_path_fresh.
Qed.

Lemma backup_and_write_backs_up f rel old new content w wr r w' :
  files wr = files w ->
  backup_and_write f rel old new content real_with_backup wr = (Ok r, w') ->
  success r = true ->
  backed_up_before_write f w r w'.
Proof.
  intros Hw H Hs. unfold backup_and_write in H.
  apply try_ok in H as [H | (e & w2 & _ & H)].
  - cbn [backup real_with_backup] in H. peel H as b w2 R. peel R as p w3 R1.
    unfold backupFile in R1. peel R1 as ts w0 N. peel R1 as u w1 C.
    inversion R1; subst. inversion R; subst. peel H as u' w4 W.
    inversion H; subst. destruct u, u'.
    eapply backup_then_write; eauto.
  - inversion H; subst. discriminate.
Qed.

Lemma process_cwd_ok w d w1 : process_cwd w = (Ok d, w1) -> w1 = w.
Proof. intros H. now inversion H. Qed.

Lemma update_version_file_backs_up f V w r w' :
  update_version_file f V real_with_backup w = (Ok r, w') ->
  success r = true -> backed_up_before_write f w r w'.
Proof.
  intros H Hs. unfold update_version_file in H.
  peel H as d w1 R. apply process_cwd_ok in R as ->.
  peel H as raw w2 R0. apply keeps_readFileSync in R0.
  cbn [dryRun real_with_backup] in H. cbv zeta in H.
  eapply backup_and_write_backs_up; eauto.
Qed.

Lemma update_image_file_backs_up pat hd miss f V w r w' :
  update_image_file pat hd miss f V real_with_backup w = (Ok r, w') ->
  success r = true -> backed_up_before_write f w r w'.
Proof.
  intros H Hs. unfold update_image_file in H.
  peel H as d w1 R. apply process_cwd_ok in R as ->.
  peel H as content w2 R0. apply keeps_readFileSync in R0.
  destruct (regex_search pat content) as [[pre m]|].
  - cbn [dryRun real_with_backup] in H. cbv zeta in H.
    eapply backup_and_write_backs_up; eauto.
  - inversion H; subst. discriminate.
Qed.

Lemma updateGitHubWorkflow_backs_up f V w r w' :
  updateGitHubWorkflow f V real_with_backup w = (Ok r, w') ->
  success r = true -> backed_up_before_write f w r w'.
Proof.
  intros H Hs. unfold updateGitHubWorkflow in H.
  peel H as d w1 R. apply process_cwd_ok in R as ->.
  peel H as content w2 R0. apply keeps_readFileSync in R0.
  destruct (rewrite_workflow content V) as [[c old] updated].
  destruct updated; simpl in H.
  - eapply backup_and_write_backs_up; eauto.
  - inversion H; subst. discriminate.
Qed.

Lemma updateToolVersions_backs_up f V w r w' :
  updateToolVersions f V real_with_backup w = (Ok r, w') ->
  success r = true -> backed_up_before_write f w r w'.
Proof.
  intros H Hs. unfold updateToolVersions in H.
  peel H as d w1 R. apply process_cwd_ok in R as ->.
  peel H as content w2 R0. apply keeps_readFileSync in R0.
  destruct (regex_search re_nodejs content) as [[pre m]|].
  - cbn [dryRun real_with_backup] in H. cbv zeta in H.
    eapply backup_and_write_backs_up; eauto.
  - inversion H; subst. discriminate.
Qed.

Lemma updatePackageJson_backs_up f V w r w' :
  updatePackageJson f V real_with_backup w = (Ok r, w') ->
  success r = true -> backed_up_before_write f w r w'.
Proof.
  intros H Hs. unfold updatePackageJson in H.
  peel H as d w1 R. apply process_cwd_ok in R as ->. cbv zeta in H.
  apply try_ok in H as [H | (e & w2 & _ & H)];
    [|inversion H; subst; discriminate].
  peel H as text w2 R0. apply keeps_readFileSync in R0.
  destruct (JSON_parse text) as [content|]; [|inversion H].
  cbn [dryRun backup real_with_backup] in H. cbv zeta in H.
  destruct (set_engines_node content _) as [content'|]; [|inversion H].
  peel H as b w3 B. peel B as p w4 B1. unfold backupFile in B1.
  peel B1 as ts w0 N. peel B1 as u w5 C. inversion B1; subst.
  inversion B; subst. peel H as u' w6 W. inversion H; subst. destruct u, u'.
  eapply backup_then_write; eauto.
Qed.

(** C6: when an update without [dryRun] and with [backup] enabled succeeds,
    the file was copied to a backup path before it was written: the copy was
    taken while every file still had its original content, the write came
    after it, the backup path is the original path followed by [.backup.]
    and the timestamp, hence another path, the backup still holds the
    original content after the write, and the result has [backedUp] true. *)
Theorem backup_precedes_write v V w r w' :
  updateVersionFile v V real_with_backup w = (Ok r, w') ->
  success r = true ->
  backed_up_before_write (VersionCheck.file v) w r w'.
Proof.
  unfold updateVersionFile.
  repeat match goal with
         | |- context [if str_eqb ?a ?b then _ else _] =>
             destruct (str_eqb a b)
         end;
    eauto using update_version_file_backs_up, update_image_file_backs_up,
      updateGitHubWorkflow_backs_up, updateToolVersions_backs_up,
      updatePackageJson_backs_up.
  intros H Hs. inversion H; subst. discriminate.
Qed.

Lemma backup_precedes_write_witness :
  exists v r w',
    nth_error sample_records 0 = Some v
    /\ updateVersionFile v 22 real_with_backup sample_project = (Ok r, w')
    /\ success r = true
    /\ backed_up_before_write (VersionCheck.file v) sample_project r w'.
Proof.
  eexists. eexists. eexists. split; [reflexivity|].
  match goal with
  | |- ?run = _ /\ _ =>
      let res := eval vm_compute in run in
      assert (run = res) as H by (vm_compute; reflexivity)
  end.
  split; [exact H|]. split; [reflexivity|].
  exact (backup_precedes_write _ _ _ H eq_refl).
Defined.

(* ------------------------------------------------------------------ *)
(** *** The loop over the workflow files *)

Lemma push_loop_app {A B : Type} (body : A -> M (list B)) (xs ys : list A)
    (acc : list B) (w : world) :
  push_loop body (xs ++ ys) acc w =
  match push_loop body xs acc w with
  | ((rs, None), w') => push_loop body ys rs w'
  | out => out
  end.
Proof.
  revert acc w. induction xs as [|x xs IH]; intros acc w; simpl.
  - reflexivity.
  - destruct (body x w) as [[pushed|e] w1]; [apply IH|reflexivity].
Qed.

Lemma dedup_fresh seen l x :
  In x (dedup seen l) -> existsb (str_eqb x) seen = false.
Proof.
  revert seen. induction l as [|y l IH]; simpl; intros seen H; [contradiction|].
  destruct (existsb (str_eqb y) seen) eqn:E.
  - now apply IH.
  - destruct H as [<- | H]; [exact E|].
    apply IH in H. simpl in H. now apply orb_false_iff in H as [_ H].
Qed.

Lemma dedup_NoDup seen l : NoDup (dedup seen l).
Proof.
  revert seen. induction l as [|y l IH]; simpl; intros seen; [constructor|].
  destruct (existsb (str_eqb y) seen); [apply IH|].
  constructor; [|apply IH]. intros H. apply dedup_fresh in H. simpl in H.
  now rewrite str_eqb_refl in H.
Qed.

Lemma readdirSync_ok d w names w' :
  readdirSync d w = (Ok names, w') ->
  names = dir_entries d (files w) /\ is_dir d (files w) = true
  /\ files w' = files w.
Proof.
  intros H. pose proof (keeps_readdirSync _ _ H) as K.
  unfold readdirSync in H. pose proof (pop_fault_files w) as F.
  destruct (pop_fault w) as [[|] w1]; simpl in F; [discriminate|].
  rewrite F in H. destruct (is_dir d (files w)); inversion H; subst; auto.
Qed.

Lemma path_join_inj d a b : path_join d a = path_join d b -> a = b.
Proof.
  unfold path_join. intros H. apply app_inv_head in H.
  now apply app_inv_head in H.
Qed.

(** A single file of the project root is not a workflow file. *)
Lemma top_file_not_workflow root name g :
  In name top_names -> path_join root name <> path_join (workflowDir root) g.
Proof.
  unfold workflowDir, path_join, top_names. intros Hin H.
  rewrite <- !app_assoc in H. apply app_inv_head in H.
  simpl in Hin.
  repeat destruct Hin as [<- | Hin]; try contradiction; discriminate.
Qed.

(** The records pushed by the loop over [names] are records of those names. *)
Lemma workflow_loop_files dir names acc w rs o w' :
  Forall (fun v => exists name, In name names
                     /\ VersionCheck.file v = path_join dir name) acc ->
  push_loop (check_workflow_file dir) names acc w = ((rs, o), w') ->
  Forall (fun v => exists name, In name names
                     /\ VersionCheck.file v = path_join dir name) rs.
Proof.
  intros Ha H.
  eapply (@push_loop_Forall _ _ (check_workflow_file dir)
            (fun v => exists name, In name names
                        /\ VersionCheck.file v = path_join dir name)
            (files w)); [ | | | | exact H]; auto.
  - intros; apply keeps_check_workflow_file.
  - intros x w0 pushed w1 Hin _ Hb.
    apply check_workflow_file_scanned in Hb.
    eapply Forall_impl; [|exact Hb]. intros v [_ F]. eauto.
Qed.

(** C10: the six single-file checks have returned; the workflow directory
    lists the workflow files [pre ++ f :: post]; the loop has gone through
    [pre] and pushed the records [rs]; reading [f] throws.  Then
    [scanVersions] returns normally, with the single-file records and [rs],
    and with no record of [f] or of any file listed after it. *)
Theorem workflow_loop_abandoned root w cs w1 names w2 pre f post rs w3 e w4 :
  checks root w = (Ok cs, w1) ->
  readdirSync (workflowDir root) w1 = (Ok names, w2) ->
  filter is_workflow_name names = pre ++ f :: post ->
  push_loop (check_workflow_file (workflowDir root)) pre [] w2
    = ((rs, None), w3) ->
  readFileSync (path_join (workflowDir root) f) w3 = (Throw e, w4) ->
  scanVersions root w = (Ok (non_null cs ++ rs), w4)
  /\ forall g v, In g (f :: post) -> In v (non_null cs ++ rs) ->
                 VersionCheck.file v <> path_join (workflowDir root) g.
Proof.
  intros Hc Hd Hn Hl Hr.
  pose proof (readdirSync_ok _ _ Hd) as (Hnames & Hdir & _).
  split.
  - unfold scanVersions, bind. rewrite Hc.
    unfold checkGitHubWorkflows, bind. rewrite existsSync_run, Hdir.
    rewrite orb_true_r. cbn [negb]. rewrite Hd, Hn, push_loop_app, Hl.
    cbn [push_loop]. unfold check_workflow_file at 1. unfold bind.
    rewrite Hr. reflexivity.
  - intros g v Hg Hv. apply in_app_or in Hv as [Hv | Hv].
    + apply checks_scanned in Hc. rewrite Forall_forall in Hc.
      destruct (Hc _ Hv) as (_ & name & Hin & ->).
      now apply top_file_not_workflow.
    + pose proof (@workflow_loop_files _ _ _ _ _ _ _ (Forall_nil _) Hl) as Hf.
      rewrite Forall_forall in Hf. destruct (Hf _ Hv) as (name & Hin & ->).
      intros E. apply path_join_inj in E. subst name.
      assert (NoDup (pre ++ f :: post)) as Hnd.
      { rewrite <- Hn. apply NoDup_filter. rewrite Hnames. apply dedup_NoDup. }
      apply NoDup_app_remove_l in Hnd as Hnd2.
      revert Hin Hg. clear - Hnd. revert Hnd.
      induction pre as [|x pre IH]; simpl; [tauto|].
      intros Hnd [-> | Hin] Hg.
      * inversion Hnd; subst. apply H1. apply in_or_app. auto.
      * inversion Hnd; subst. eauto.
Qed.

(** Run the computation on the left of the first conjunct and keep its
    result as a hypothesis. *)
Ltac run_step step :=
  match goal with
  | |- ?run = _ /\ _ =>
      let res := eval vm_compute in run in
      apply (step _ run res); [vm_compute; reflexivity|];
      let H := fresh "H" in intros H; split; [exact H|]
  end.

Lemma workflow_loop_abandoned_witness :
  exists cs w1 names w2 rs w3 e w4,
    checks (js "/p") project_workflow_fault = (Ok cs, w1)
    /\ readdirSync (workflowDir (js "/p")) w1 = (Ok names, w2)
    /\ filter is_workflow_name names = [js "a.yml"] ++ js "b.yml" :: [js "c.yml"]
    /\ push_loop (check_workflow_file (workflowDir (js "/p"))) [js "a.yml"] [] w2
       = ((rs, None), w3)
    /\ readFileSync (path_join (workflowDir (js "/p")) (js "b.yml")) w3
       = (Throw e, w4)
    /\ scanVersions (js "/p") project_workflow_fault
       = (Ok (non_null cs ++ rs), w4)
    /\ map fullVersion (non_null cs ++ rs) = [js "18"].
Proof.
  do 8 eexists.
  assert (forall (A : Type) (x y : A) (P : Prop), x = y -> (x = y -> P) -> P)
    as step by auto.
  run_step step. run_step step. split; [vm_compute; reflexivity|].
  run_step step. run_step step.
  split.
  - exact (proj1 (@workflow_loop_abandoned _ _ _ _ _ _ [js "a.yml"] (js "b.yml")
                    [js "c.yml"] _ _ _ _ H H0 eq_refl H1 H2)).
  - vm_compute. reflexivity.
Defined.

(* ------------------------------------------------------------------ *)
(** *** Global replacement *)

Lemma getSubstitution_plain m before after caps repl :
  plain repl = true -> getSubstitution m before after caps repl = repl.
Proof.
  induction repl as [|c t IH]; [reflexivity|]. simpl. intros H.
  apply andb_true_iff in H as [Hc Ht]. rewrite Hc. f_equal. auto.
Qed.

Lemma literal_match_nonempty pat s m :
  starts_with_literal pat = true -> exec pat s = Some m -> matched m <> [].
Proof.
  destruct pat as [|[ci c| | | | |] pat]; try discriminate. intros _. simpl.
  destruct s as [|x t]; [discriminate|].
  destruct (if ci then char_eq_ci x c else char_eqb x c); [|discriminate].
  destruct (exec pat t); [|discriminate]. intros H. inversion H. discriminate.
Qed.

Lemma replace_all_skip pat repl x y seen :
  replace_all_from pat repl seen (length x) (x ++ y)
  = replace_all_from pat repl (rev x ++ seen) 0 y.
Proof.
  revert seen. induction x as [|c x IH]; intros seen; [reflexivity|].
  simpl. rewrite IH, <- app_assoc. reflexivity.
Qed.

Lemma replace_all_no_match pat repl s seen :
  regex_search pat s = None -> replace_all_from pat repl seen 0 s = s.
Proof.
  revert seen. induction s as [|c t IH]; intros seen; simpl.
  - destruct (exec pat []); [discriminate|reflexivity].
  - destruct (exec pat (c :: t)); [discriminate|].
    destruct (regex_search pat t) as [[pre m]|] eqn:E; [discriminate|].
    intros _. f_equal. now apply IH.
Qed.

Lemma replace_all_match pat repl s pre m seen :
  plain repl = true ->
  regex_search pat s = Some (pre, m) -> matched m <> [] ->
  replace_all_from pat repl seen 0 s
  = pre ++ repl
        ++ replace_all_from pat repl (rev (pre ++ matched m) ++ seen) 0 (rest m).
Proof.
  intros Hp. revert pre seen. induction s as [|c t IH]; intros pre seen; simpl.
  - destruct (exec pat []) as [res|] eqn:E; [|discriminate].
    intros H Hne. inversion H; subst. apply exec_app in E.
    destruct (matched m); [contradiction|discriminate].
  - destruct (exec pat (c :: t)) as [res|] eqn:E.
    + intros H Hne. inversion H; subst. rewrite getSubstitution_plain by auto.
      simpl. f_equal. apply exec_app in E.
      destruct (matched m) as [|x mt]; [contradiction|].
      simpl in E. injection E as -> ->. cbn [length].
      rewrite replace_all_skip. simpl. now rewrite <- app_assoc.
    + destruct (regex_search pat t) as [[pre' res]|] eqn:Et; [|discriminate].
      intros H Hne. inversion H; subst. simpl. f_equal.
      rewrite (IH _ (c :: seen) eq_refl Hne). do 2 f_equal.
      simpl. now rewrite <- app_assoc.
Qed.

(** With a replacement string free of dollar signs, the global replacement
    rewrites every occurrence. *)
Lemma replace_all_rewritten pat repl s :
  starts_with_literal pat = true -> plain repl = true ->
  rewritten_all pat repl s (replace_all pat repl s).
Proof.
  intros Hl Hp. unfold replace_all. generalize (@nil char) as seen.
  remember (length s) as n eqn:Hn. assert (length s <= n) as Hle by lia.
  clear Hn. revert s Hle. induction n as [|n IH]; intros s Hle seen.
  - destruct s; [|simpl in Hle; lia]. simpl.
    destruct (exec pat []) as [res|] eqn:E.
    + exfalso. apply (literal_match_nonempty _ _ Hl E).
      apply exec_app in E. now destruct (matched res).
    + apply rewritten_none. simpl. now rewrite E.
  - destruct (regex_search pat s) as [[pre m]|] eqn:E.
    + pose proof (regex_search_app _ _ E) as [Hs He].
      pose proof (literal_match_nonempty _ _ Hl He) as Hne.
      rewrite (@replace_all_match _ _ _ _ _ seen Hp E Hne).
      eapply rewritten_next; [exact E|]. apply IH.
      rewrite Hs, !length_app in Hle.
      destruct (matched m); [contradiction|]. simpl in Hle. lia.
    + rewrite replace_all_no_match by exact E. now apply rewritten_none.
Qed.

Lemma uint_chars_digits d : forallb is_digit (uint_chars d) = true.
Proof. induction d; simpl; auto. Qed.

Lemma digits_plain s : forallb is_digit s = true -> plain s = true.
Proof.
  unfold plain. induction s as [|c s IH]; simpl; [reflexivity|].
  intros H. apply andb_true_iff in H as [Hc Hs]. rewrite IH by exact Hs.
  rewrite andb_true_r. apply negb_true_iff, N.eqb_neq. intros ->. discriminate.
Qed.

(** A safe integer has at most 53 binary digits. *)
Lemma size_safe n : (n < 9007199254740992)%N -> (N.size n <=? 53)%N = true.
Proof.
  intros H. apply N.leb_le.
  destruct (N.le_gt_cases (N.size n) 53) as [L | G]; [exact L|].
  exfalso. pose proof (N.size_le n) as Hs.
  assert (2 ^ 54 <= 2 ^ N.size n)%N as P
      by (apply N.pow_le_mono_r; [discriminate|lia]).
  change (2 ^ 54)%N with 18014398509481984%N in P.
  rewrite N.succ_double_spec in Hs. lia.
Qed.

(** A safe integer is a Number of its own and prints as its decimal text. *)
Lemma to_number_safe n {Hsafe : safe_integer n} : to_number n = n.
Proof. unfold to_number. now rewrite size_safe. Qed.

Lemma toString_safe n {Hsafe : safe_integer n} : toString n = decimal n.
Proof.
  unfold toString.
  now replace (n <? 9007199254740992)%N with true
    by (symmetry; now apply N.ltb_lt).
Qed.

Lemma decimal_digits n : forallb is_digit (decimal n) = true.
Proof. apply uint_chars_digits. Qed.

Lemma toString_digits n {Hsafe : safe_integer n} :
  forallb is_digit (toString n) = true.
Proof. rewrite toString_safe. apply decimal_digits. Qed.

Lemma toString_plain n {Hsafe : safe_integer n} : plain (toString n) = true.
Proof. apply digits_plain, toString_digits. Qed.

Lemma plain_app a b : plain (a ++ b) = plain a && plain b.
Proof. unfold plain. apply forallb_app. Qed.

Lemma quoted_node_version_plain V {Hsafe : safe_integer V} :
  plain (quoted_node_version V) = true.
Proof.
  unfold quoted_node_version. now rewrite !plain_app, toString_plain.
Qed.

Lemma quoted_NODE_VERSION_plain V {Hsafe : safe_integer V} :
  plain (quoted_NODE_VERSION V) = true.
Proof.
  unfold quoted_NODE_VERSION. now rewrite !plain_app, toString_plain.
Qed.

(** The two rewrites of [updateGitHubWorkflow] on a content in which the
    first key occurs. *)
Lemma rewrite_workflow_rewritten content V pre m {Hsafe : safe_integer V} :
  regex_search re_node_version content = Some (pre, m) ->
  exists c1 c2 old,
    rewrite_workflow content V = (c2, old, true)
    /\ rewritten_all re_node_version (quoted_node_version V) content c1
    /\ rewritten_all re_NODE_VERSION (quoted_NODE_VERSION V) c1 c2.
Proof.
  intros E. unfold rewrite_workflow. rewrite E.
  fold (quoted_node_version V). fold (quoted_NODE_VERSION V).
  set (c1 := replace_all re_node_version (quoted_node_version V) content).
  assert (rewritten_all re_node_version (quoted_node_version V) content c1) as R1
      by (apply replace_all_rewritten;
          [reflexivity | apply quoted_node_version_plain]).
  destruct (regex_search re_NODE_VERSION c1) as [[pre2 m2]|] eqn:E2.
  - exists c1. eexists. eexists. split; [reflexivity|]. split; [exact R1|].
    apply replace_all_rewritten;
      [reflexivity | apply quoted_NODE_VERSION_plain].
  - exists c1, c1. eexists. split; [reflexivity|]. split; [exact R1|].
    now apply rewritten_none.
Qed.

Lemma backup_and_write_written f rel old new content opts w r w' :
  backup_and_write f rel old new content opts w = (Ok r, w') ->
  success r = true ->
  lookup_file f (files w') = Some content.
Proof.
  intros H Hs. unfold backup_and_write in H.
  apply try_ok in H as [H | (e & w2 & _ & H)].
  - peel H as b w2 R. peel H as u w3 W. inversion H; subst.
    destruct u. apply writeFileSync_ok in W. rewrite W.
    apply lookup_store_same.
  - inversion H; subst. discriminate.
Qed.

(* ------------------------------------------------------------------ *)
(** *** What holds of the rewrites apart from the dollar sign *)

(** A tag without a dollar sign is kept verbatim: the first occurrence of the
    image pattern becomes the head, the target and the captured tag, and
    nothing else changes. *)
Lemma plain_suffix_preserved pat hd content pre m V {Hsafe : safe_integer V} :
  (pat = re_from /\ hd = js "FROM node:")
  \/ (pat = re_image /\ hd = js "image: node:") ->
  regex_search pat content = Some (pre, m) ->
  plain (or_empty (group 2 m)) = true ->
  replace_first pat (hd ++ toString V ++ or_empty (group 2 m)) content
  = pre ++ (hd ++ toString V ++ or_empty (group 2 m)) ++ rest m.
Proof.
  intros Hp E Hs. unfold replace_first. rewrite E. f_equal. f_equal.
  apply getSubstitution_plain. rewrite !plain_app, toString_plain, Hs.
  destruct Hp as [[_ ->] | [_ ->]]; reflexivity.
Qed.

(** Every result carries the path of its record. *)
Lemma backup_and_write_file f rel old new content opts :
  returns (fun r => VersionUpdate.file r = f)
          (backup_and_write f rel old new content opts).
Proof. unfold backup_and_write. returns. Qed.

Lemma updateVersionFile_file v V opts :
  returns (fun r => VersionUpdate.file r = VersionCheck.file v)
          (updateVersionFile v V opts).
Proof.
  unfold updateVersionFile, updateNvmrc, updateNodeVersionFile,
    updateDockerfile, updateDockerCompose, update_version_file,
    updatePackageJson, update_image_file, updateGitHubWorkflow,
    updateToolVersions.
  repeat first
    [ apply returns_bind; intros ?
    | apply backup_and_write_file
    | apply returns_try; [|intros ?]
    | apply returns_throw
    | solve [apply returns_ret; simpl; auto]
    | match goal with
      | |- returns _ (if ?b then _ else _) => destruct b
      | |- returns _ (match ?x with _ => _ end) => destruct x
      | |- returns _ (let '(_, _) := ?x in _) => destruct x
      end ].
Qed.

(** The loop of [updateAllVersions], when it returns, has pushed one result
    per record, in the order of the records. *)
Lemma push_loop_update_records V opts vs :
  forall acc w rs w',
    push_loop (update_record V opts) vs acc w = ((rs, None), w') ->
    exists new, rs = acc ++ new
      /\ Forall2 (fun v r => VersionUpdate.file r = VersionCheck.file v) vs new.
Proof.
  induction vs as [|v vs IH]; simpl; intros acc w rs w' H.
  - inversion H; subst. exists []. rewrite app_nil_r. auto.
  - destruct (update_record V opts v w) as [[pushed|e] w1] eqn:E;
      [|discriminate].
    apply IH in H as (new & -> & F).
    unfold update_record in E.
    destruct (majorVersion v =? V)%N.
    + inversion E; subst. exists (skipped v V :: new).
      rewrite <- app_assoc. split; [reflexivity|]. constructor; auto.
    + peel E as r w2 R. inversion E; subst.
      apply updateVersionFile_file in R. exists (r :: new).
      rewrite <- app_assoc. split; [reflexivity|]. constructor; auto.
Qed.

Lemma update_records_one_per_record vs V opts w rs w' :
  update_records vs V opts w = (Ok rs, w') ->
  Forall2 (fun v r => VersionUpdate.file r = VersionCheck.file v) vs rs.
Proof.
  unfold update_records.
  destruct (push_loop _ _ _ _) as [[rs' [e|]] w1] eqn:L; [discriminate|].
  intros H. inversion H; subst.
  apply push_loop_update_records in L as (new & -> & F). exact F.
Qed.

(** The loop stops only on the read of a record's file: the failures of the
    backups and of the writes never leave the update of their file. *)
Lemma update_records_throws_read vs V opts w e w' :
  update_records vs V opts w = (Throw e, w') ->
  exists v w0, In v vs /\ majorVersion v <> V
               /\ readFileSync (VersionCheck.file v) w0 = (Throw e, w').
Proof.
  unfold update_records. generalize (@nil UpdateResult) as acc. revert w.
  induction vs as [|v vs IH]; simpl; intros w acc H; [discriminate|].
  destruct (update_record V opts v w) as [[pushed|e0] w1] eqn:E.
  - destruct (IH _ _ H) as (v' & w0 & Hin & Hm & R). eauto 6.
  - inversion H; subst. unfold update_record in E.
    destruct (majorVersion v =? V)%N eqn:EV; [discriminate|].
    apply N.eqb_neq in EV. unfold bind in E.
    destruct (updateVersionFile v V opts w) as [[r|e1] w2] eqn:U;
      [discriminate|].
    inversion E; subst. apply updateVersionFile_throws_read in U. eauto 6.
Qed.

(* ------------------------------------------------------------------ *)
(** *** Matches that cannot reach across a boundary *)

Lemma span_frame p b c z :
  p c = false ->
  span p (b ++ c :: z) = (fst (span p b), snd (span p b) ++ c :: z).
Proof.
  intros Hc. induction b as [|x b IH]; simpl.
  - now rewrite Hc.
  - destruct (p x); [|reflexivity]. rewrite IH.
    destruct (span p b). reflexivity.
Qed.

(** An atom that rejects [c] sees [b] followed by [c] as it sees [b]. *)
Lemma exec_atom_frame a b c z :
  rejects a c = true ->
  exec_atom a (b ++ c :: z)
  = option_map (fun mr => (fst mr, snd mr ++ c :: z)) (exec_atom a b).
Proof.
  induction a as [ci x | p | p | p | a IH | a IH]; simpl; intros H; auto.
  - apply negb_true_iff in H. destruct b as [|y b]; simpl.
    + now rewrite H.
    + destruct (if ci then char_eq_ci y x else char_eqb y x); reflexivity.
  - apply negb_true_iff in H. destruct b as [|y b]; simpl.
    + now rewrite H.
    + destruct (p y); reflexivity.
  - apply negb_true_iff in H. rewrite span_frame by exact H.
    destruct (span p b). reflexivity.
  - apply negb_true_iff in H. rewrite span_frame by exact H.
    destruct (span p b) as [[|y m] r]; reflexivity.
Qed.

(** So does a pattern all of whose atoms reject [c]. *)
Lemma exec_frame pat b c z :
  forallb (fun a => rejects a c) pat = true ->
  exec pat (b ++ c :: z) = option_map (frame (c :: z)) (exec pat b).
Proof.
  revert b. induction pat as [|a pat IH]; simpl; intros b H.
  - reflexivity.
  - apply andb_true_iff in H as [Ha Hp]. rewrite exec_atom_frame by exact Ha.
    destruct (exec_atom a b) as [[m r]|]; simpl; [|reflexivity].
    rewrite IH by exact Hp. destruct (exec pat r); reflexivity.
Qed.

Lemma matches_at_cat p1 p2 s :
  always_matches p2 -> matches_at (p1 ++ p2) s = matches_at p1 s.
Proof.
  intros Ha. unfold matches_at. rewrite exec_cat.
  destruct (exec p1 s) as [r1|]; [|reflexivity].
  specialize (Ha (rest r1)). destruct (exec p2 (rest r1)); congruence.
Qed.

Lemma matches_at_frame pat b c z :
  forallb (fun a => rejects a c) pat = true ->
  matches_at pat (b ++ c :: z) = matches_at pat b.
Proof.
  intros H. unfold matches_at. rewrite exec_frame by exact H.
  destruct (exec pat b); reflexivity.
Qed.

(** A pattern whose atoms after the first literal reject the first
    character of what follows, up to a tail that always matches: whether it
    matches a text that starts before the boundary does not depend on what
    lies after the boundary. *)
Lemma straddle_one ci l0 p1 tl c c' b z z' :
  forallb (fun a => rejects a c) p1 = true ->
  forallb (fun a => rejects a c') p1 = true ->
  always_matches tl ->
  b <> [] ->
  matches_at (Lit ci l0 :: p1 ++ tl) (b ++ c :: z)
  = matches_at (Lit ci l0 :: p1 ++ tl) (b ++ c' :: z').
Proof.
  intros H H' Ht Hb. destruct b as [|y b]; [contradiction|].
  unfold matches_at. simpl.
  destruct (if ci then char_eq_ci y l0 else char_eqb y l0); [|reflexivity].
  pose proof (matches_at_cat p1 (b ++ c :: z) Ht) as E1.
  pose proof (matches_at_cat p1 (b ++ c' :: z') Ht) as E2.
  rewrite (@matches_at_frame p1 b c z H) in E1.
  rewrite (@matches_at_frame p1 b c' z' H') in E2.
  unfold matches_at in E1, E2.
  destruct (exec (p1 ++ tl) (b ++ c :: z));
    destruct (exec (p1 ++ tl) (b ++ c' :: z')); congruence.
Qed.

Lemma matches_at_lit ci l0 pat y b :
  matches_at (Lit ci l0 :: pat) (y :: b)
  = (if ci then char_eq_ci y l0 else char_eqb y l0) && matches_at pat b.
Proof.
  unfold matches_at. simpl.
  destruct (if ci then char_eq_ci y l0 else char_eqb y l0); [|reflexivity].
  destruct (exec pat b); reflexivity.
Qed.

Lemma matches_at_cat_frame p1 p2 b c z :
  forallb (fun a => rejects a c) p1 = true ->
  matches_at (p1 ++ p2) (b ++ c :: z)
  = match exec p1 b with
    | None => false
    | Some r1 => matches_at p2 (rest r1 ++ c :: z)
    end.
Proof.
  intros H. unfold matches_at. rewrite exec_cat, exec_frame by exact H.
  destruct (exec p1 b) as [r1|]; [|reflexivity]. simpl.
  destruct (exec p2 (rest r1 ++ c :: z)); reflexivity.
Qed.

(** The same when the first literal comes back once inside the pattern,
    followed by a literal that rejects the second character after the
    boundary. *)
Lemma straddle_two ci l0 p1 ci1 k ci2 x p2 c0 c1 c0' c1' b z z' :
  forallb (fun a => rejects a c0) (p1 ++ Lit ci2 x :: p2) = true ->
  forallb (fun a => rejects a c0') (p1 ++ Lit ci2 x :: p2) = true ->
  rejects (Lit ci2 x) c1 = true -> rejects (Lit ci2 x) c1' = true ->
  b <> [] ->
  matches_at (Lit ci l0 :: p1 ++ Lit ci1 k :: Lit ci2 x :: p2)
             (b ++ c0 :: c1 :: z)
  = matches_at (Lit ci l0 :: p1 ++ Lit ci1 k :: Lit ci2 x :: p2)
               (b ++ c0' :: c1' :: z').
Proof.
  intros H H' R1 R1' Hb. destruct b as [|y b]; [contradiction|].
  rewrite forallb_app in H, H'.
  apply andb_true_iff in H as [Hp1 Hp2]. apply andb_true_iff in H' as [Hp1' Hp2'].
  cbn [app]. rewrite !matches_at_lit. f_equal.
  rewrite !matches_at_cat_frame by assumption.
  destruct (exec p1 b) as [r1|]; [|reflexivity].
  destruct (rest r1) as [|u r].
  - cbn [app]. rewrite !matches_at_lit.
    simpl in R1, R1'. apply negb_true_iff in R1, R1'. rewrite R1, R1'.
    cbn [andb]. now rewrite !andb_false_r.
  - cbn [app]. rewrite !matches_at_lit. f_equal.
    change (c0 :: c1 :: z) with (c0 :: (c1 :: z)).
    change (c0' :: c1' :: z') with (c0' :: (c1' :: z')).
    rewrite (@matches_at_frame (Lit ci2 x :: p2) r c0 (c1 :: z) Hp2).
    rewrite (@matches_at_frame (Lit ci2 x :: p2) r c0' (c1' :: z') Hp2').
    reflexivity.
Qed.

(* ------------------------------------------------------------------ *)
(** *** Where the occurrences are after a global replacement *)

Lemma search_none_everywhere pat s :
  regex_search pat s = None -> forall a b, s = a ++ b -> exec pat b = None.
Proof.
  induction s as [|c t IH]; simpl.
  - destruct (exec pat []) eqn:E; [discriminate|]. intros _ a b H.
    symmetry in H. apply app_eq_nil in H as [_ ->]. exact E.
  - destruct (exec pat (c :: t)) eqn:E; [discriminate|].
    destruct (regex_search pat t) as [[pre m]|]; [discriminate|].
    intros _ a b H. destruct a as [|x a]; simpl in H.
    + now subst b.
    + injection H as _ H. eapply IH; eauto.
Qed.

(** Nothing matches before the leftmost match. *)
Lemma search_first pat s pre m :
  regex_search pat s = Some (pre, m) ->
  forall a l, pre = a ++ l -> l <> [] ->
              exec pat (l ++ matched m ++ rest m) = None.
Proof.
  revert pre. induction s as [|c t IH]; simpl; intros pre.
  - destruct (exec pat []); [|discriminate]. intros H a l Hp Hl.
    injection H as <- <-. symmetry in Hp. apply app_eq_nil in Hp as [_ ->].
    contradiction.
  - destruct (exec pat (c :: t)) as [r|] eqn:E.
    + intros H a l Hp Hl. injection H as <- <-. symmetry in Hp.
      apply app_eq_nil in Hp as [_ ->]. contradiction.
    + destruct (regex_search pat t) as [[pre' r]|] eqn:Et; [|discriminate].
      intros H a l Hp Hl. injection H as <- <-.
      pose proof (regex_search_app _ _ Et) as [Hs _].
      destruct a as [|x a]; simpl in Hp.
      * subst l. simpl. rewrite <- Hs. exact E.
      * injection Hp as _ Hp. eapply IH; eauto.
Qed.

(** A match before which nothing matches is the leftmost one. *)
Lemma search_intro pat pre z m :
  (forall a l, pre = a ++ l -> l <> [] -> exec pat (l ++ z) = None) ->
  exec pat z = Some m ->
  regex_search pat (pre ++ z) = Some (pre, m).
Proof.
  intros Hn Hz. induction pre as [|c pre IH]; simpl.
  - destruct z; simpl; now rewrite Hz.
  - pose proof (Hn [] (c :: pre) eq_refl ltac:(discriminate)) as E0.
    simpl in E0. rewrite E0.
    rewrite IH; [reflexivity|]. intros a l Hp Hl.
    apply (Hn (c :: a) l); [now subst pre|exact Hl].
Qed.

Lemma matches_at_none pat s : matches_at pat s = false <-> exec pat s = None.
Proof. unfold matches_at. destruct (exec pat s); split; congruence. Qed.

Section Occurrences.

Variable P : regex.
Variable R : jsstring.
Variable head : jsstring -> bool.

Hypothesis straddle :
  forall b z z', b <> [] -> head z = true -> head z' = true ->
                 matches_at P (b ++ z) = matches_at P (b ++ z').
Hypothesis match_head : forall s m, exec P s = Some m -> head s = true.
Hypothesis R_head : forall z, head (R ++ z) = true.
Hypothesis R_exact : forall z m, exec P (R ++ z) = Some m -> matched m = R.
Hypothesis R_suffix :
  forall r1 r2 z, R = r1 ++ r2 -> r1 <> [] -> r2 <> [] ->
                  head (r2 ++ z) = false.

(** After every occurrence has been replaced by [R], every occurrence is
    [R]. *)
Lemma occurrences_rewritten s out :
  rewritten_all P R s out -> all_occurrences_are P R out.
Proof.
  induction 1 as [s Hn | s pre m out E Hr IH]; intros a b m' Hs Hb.
  - rewrite (search_none_everywhere _ Hn _ _ Hs) in Hb. discriminate.
  - pose proof (regex_search_app _ _ E) as [Es Em].
    apply app_eq_app in Hs as [l [[Hp Hl] | [Ha Hl]]].
    + (* the occurrence starts before [R], or at its start *)
      destruct l as [|x l].
      * simpl in Hl. subst b. eapply R_exact; eauto.
      * exfalso. subst b.
        pose proof (@search_first _ _ _ _ E a (x :: l) Hp) as Hnone.
        specialize (Hnone ltac:(discriminate)).
        apply matches_at_none in Hnone.
        rewrite (@straddle (x :: l) (matched m ++ rest m) (R ++ out)) in Hnone.
        -- apply matches_at_none in Hnone. congruence.
        -- discriminate.
        -- eapply match_head; eauto.
        -- apply R_head.
    + (* the occurrence starts in [R ++ out] *)
      apply app_eq_app in Hl as [l' [[H1 H2] | [H1 H2]]].
      * (* inside [R], at its start, or at its end *)
        destruct l as [|x l].
        -- simpl in H1. subst l'. subst b. eapply R_exact; eauto.
        -- destruct l' as [|y l'].
           ++ simpl in H2. subst b. exact (IH [] _ _ eq_refl Hb).
           ++ subst b.
              assert (head ((y :: l') ++ out) = false) as Hh
                  by (eapply R_suffix; eauto; discriminate).
              rewrite (match_head _ Hb) in Hh. discriminate.
      * (* after the end of [R] *)
        eapply IH; eauto.
Qed.

End Occurrences.

Section OtherOccurrences.

Variable P : regex.
Variable R1 : jsstring.
Variable Q : regex.
Variable R2 : jsstring.
Variable head : jsstring -> bool.

Hypothesis straddle :
  forall b z z', b <> [] -> head z = true -> head z' = true ->
                 matches_at P (b ++ z) = matches_at P (b ++ z').
Hypothesis other_head : forall s m, exec Q s = Some m -> head s = true.
Hypothesis R2_head : forall z, head (R2 ++ z) = true.
Hypothesis R1_exact : forall z m, exec P (R1 ++ z) = Some m -> matched m = R1.
Hypothesis R1_suffix :
  forall r1 r2 z, R1 = r1 ++ r2 -> r1 <> [] -> r2 <> [] ->
                  head (r2 ++ z) = false.
Hypothesis R2_nonempty : R2 <> [].
Hypothesis not_in_R2 :
  forall r1 r2 z, R2 = r1 ++ r2 -> r2 <> [] -> exec P (r2 ++ z) = None.

(** Replacing the occurrences of another pattern [Q] by [R2] keeps every
    occurrence of [P] equal to [R1]. *)
Lemma occurrences_kept c1 c2 :
  rewritten_all Q R2 c1 c2 ->
  all_occurrences_are P R1 c1 -> all_occurrences_are P R1 c2.
Proof.
  induction 1 as [s Hn | s pre m out E Hr IH]; intros Hall; [exact Hall|].
  pose proof (regex_search_app _ _ E) as [Es Em].
  assert (all_occurrences_are P R1 (rest m)) as Hrest.
  { intros a b m' Hs Hb.
    eapply (Hall (pre ++ matched m ++ a) b); eauto.
    rewrite Es, Hs, <- !app_assoc. reflexivity. }
  specialize (IH Hrest). intros a b m' Hs Hb.
  apply app_eq_app in Hs as [l [[Hp Hl] | [Ha Hl]]].
  - destruct l as [|x l].
    + simpl in Hl. subst b.
      rewrite (@not_in_R2 [] R2 out eq_refl R2_nonempty) in Hb. discriminate.
    + subst b.
      assert (matches_at P ((x :: l) ++ matched m ++ rest m) = true) as Hm.
      { rewrite (@straddle (x :: l) (matched m ++ rest m) (R2 ++ out)).
        - unfold matches_at. now rewrite Hb.
        - discriminate.
        - eapply other_head; eauto.
        - apply R2_head. }
      unfold matches_at in Hm.
      destruct (exec P ((x :: l) ++ matched m ++ rest m)) as [m0|] eqn:E0;
        [|discriminate].
      assert (matched m0 = R1) as HR.
      { eapply (Hall a); eauto. rewrite Es, Hp, <- app_assoc. reflexivity. }
      pose proof (exec_app _ _ E0) as Hs0. rewrite HR in Hs0.
      apply app_eq_app in Hs0 as [l2 [[H1 H2] | [H1 H2]]].
      * (* [R1] ends before the occurrence of [Q] *)
        rewrite H1, <- app_assoc in Hb. eapply R1_exact; eauto.
      * (* [R1] reaches into the occurrence of [Q] *)
        destruct l2 as [|u l2].
        -- rewrite app_nil_r in H1. rewrite <- H1 in Hb. eapply R1_exact; eauto.
        -- exfalso.
           assert (head ((u :: l2) ++ rest m0) = false) as Hh
               by (eapply R1_suffix; eauto; discriminate).
           rewrite <- H2 in Hh. rewrite (other_head _ Em) in Hh. discriminate.
  - apply app_eq_app in Hl as [l' [[H1 H2] | [H1 H2]]].
    + destruct l' as [|y l'].
      * simpl in H2. subst b. exact (IH [] _ _ eq_refl Hb).
      * subst b. rewrite (@not_in_R2 l (y :: l') out H1) in Hb by discriminate.
        discriminate.
    + eapply IH; eauto.
Qed.

End OtherOccurrences.

(* ------------------------------------------------------------------ *)
(** *** Decimal text *)

Lemma parse_acc d acc :
  fold_left (fun a c => (a * 10 + (c - 48))%N) (uint_chars d) (Npos acc)
  = Npos (Pos.of_uint_acc d acc).
Proof.
  revert acc.
  induction d; intros acc; cbn [uint_chars fold_left Pos.of_uint_acc];
    try reflexivity; rewrite <- IHd; f_equal; unfold digit_char; lia.
Qed.

Lemma parse_uint d :
  fold_left (fun a c => (a * 10 + (c - 48))%N) (uint_chars d) 0%N
  = Pos.of_uint d.
Proof.
  induction d; cbn [uint_chars fold_left Pos.of_uint]; try reflexivity;
    try exact IHd; rewrite <- parse_acc; f_equal.
Qed.

Lemma digits_value_decimal n : digits_value (decimal n) = n.
Proof.
  unfold digits_value, decimal. rewrite parse_uint.
  apply DecimalN.Unsigned.of_to.
Qed.

(** Reading back a printed safe integer gives the integer. *)
Lemma parseInt_toString n {Hsafe : safe_integer n} : parseInt (toString n) = n.
Proof.
  rewrite toString_safe. unfold parseInt. rewrite digits_value_decimal.
  now apply to_number_safe.
Qed.

Lemma decimal_nonempty n : decimal n <> [].
Proof.
  unfold decimal. destruct n as [|p]; [discriminate|]. simpl.
  pose proof (DecimalPos.Unsigned.to_uint_nonnil p) as H.
  destruct (Pos.to_uint p); try discriminate. contradiction.
Qed.

Lemma toString_nonempty n : toString n <> [].
Proof.
  unfold toString. destruct (n <? 9007199254740992)%N;
    [apply decimal_nonempty|].
  destruct (Infinity <=? n)%N; [discriminate|].
  unfold large_text. destruct (shortest n _) as [s p].
  destruct (length (decimal s) + p <=? 21)%nat.
  - intros E. apply app_eq_nil in E as [E _]. revert E.
    apply decimal_nonempty.
  - destruct (rev _); [apply decimal_nonempty|discriminate].
Qed.

(* ------------------------------------------------------------------ *)
(** *** The two workflow patterns *)

Lemma ci_n c : char_eq_ci c 110%N = true -> c = 78%N \/ c = 110%N.
Proof.
  unfold char_eq_ci, canonicalize. change ((97 <=? 110)%N && (110 <=? 122)%N)
    with true. cbv iota. change (110 - 32)%N with 78%N.
  destruct ((97 <=? c)%N && (c <=? 122)%N) eqn:E; intros H;
    apply N.eqb_eq in H; [|auto].
  apply andb_true_iff in E as [E1 E2]. apply N.leb_le in E1, E2. lia.
Qed.

Lemma ci_o c : char_eq_ci c 111%N = true -> c = 79%N \/ c = 111%N.
Proof.
  unfold char_eq_ci, canonicalize. change ((97 <=? 111)%N && (111 <=? 122)%N)
    with true. cbv iota. change (111 - 32)%N with 79%N.
  destruct ((97 <=? c)%N && (c <=? 122)%N) eqn:E; intros H;
    apply N.eqb_eq in H; [|auto].
  apply andb_true_iff in E as [E1 E2]. apply N.leb_le in E1, E2. lia.
Qed.

Lemma head_no_inv z :
  head_no z = true ->
  exists c0 c1 t, z = c0 :: c1 :: t
    /\ (c0 = 78%N \/ c0 = 110%N) /\ (c1 = 79%N \/ c1 = 111%N).
Proof.
  destruct z as [|c0 [|c1 t]]; try discriminate. simpl. intros H.
  apply andb_true_iff in H as [H0 H1]. exists c0, c1, t.
  auto using ci_n, ci_o.
Qed.

Lemma re_node_version_shape :
  re_node_version
  = Lit true 110%N :: lits true (js "ode-versio")
      ++ Lit true 110%N :: Lit true 58%N :: after_key.
Proof. reflexivity. Qed.

Lemma re_NODE_VERSION_shape :
  re_NODE_VERSION
  = Lit true 78%N :: lits true (js "ODE_VERSIO")
      ++ Lit true 78%N :: Lit true 58%N :: after_key.
Proof. reflexivity. Qed.

(** Whether a workflow pattern matches a text that starts before an
    occurrence of either key does not depend on that occurrence. *)
Lemma workflow_straddle pat b z z' :
  pat = re_node_version \/ pat = re_NODE_VERSION ->
  b <> [] -> head_no z = true -> head_no z' = true ->
  matches_at pat (b ++ z) = matches_at pat (b ++ z').
Proof.
  intros Hp Hb Hz Hz'.
  apply head_no_inv in Hz as (c0 & c1 & t & -> & H0 & H1).
  apply head_no_inv in Hz' as (c0' & c1' & t' & -> & H0' & H1').
  destruct Hp as [-> | ->];
    [rewrite re_node_version_shape | rewrite re_NODE_VERSION_shape];
    destruct H0 as [-> | ->]; destruct H1 as [-> | ->];
    destruct H0' as [-> | ->]; destruct H1' as [-> | ->];
    apply straddle_two; solve [reflexivity | exact Hb].
Qed.

Lemma matches_at_some pat s m : exec pat s = Some m -> matches_at pat s = true.
Proof. unfold matches_at. now intros ->. Qed.

(** An occurrence of either key starts with the letters n and o. *)
Lemma workflow_match_head pat s m :
  pat = re_node_version \/ pat = re_NODE_VERSION ->
  exec pat s = Some m -> head_no s = true.
Proof.
  intros Hp H. apply matches_at_some in H.
  assert (exists l0 l1 tl,
             matches_at (Lit true l0 :: Lit true l1 :: tl) s = true
             /\ canonicalize l0 = canonicalize 110%N
             /\ canonicalize l1 = canonicalize 111%N)
    as (l0 & l1 & tl & Ht & E0 & E1).
  { destruct Hp as [-> | ->]; do 3 eexists; (split; [exact H|]);
      split; reflexivity. }
  destruct s as [|c0 [|c1 t]]; try discriminate.
  - rewrite matches_at_lit in Ht. apply andb_true_iff in Ht as [_ Ht].
    discriminate.
  - rewrite !matches_at_lit in Ht. apply andb_true_iff in Ht as [H0 Ht].
    apply andb_true_iff in Ht as [H1 _]. unfold head_no, char_eq_ci in *.
    rewrite <- E0, <- E1, H0, H1. reflexivity.
Qed.

Lemma exec_lits_same ci K t : exec (lits ci K) (K ++ t) = Some (MRes K [] t).
Proof.
  induction K as [|k K IH]; [reflexivity|]. cbn [lits map app exec exec_atom].
  assert ((if ci then char_eq_ci k k else char_eqb k k) = true) as ->
      by (destruct ci; apply N.eqb_refl).
  change (map (Lit ci) K) with (lits ci K). rewrite IH. reflexivity.
Qed.

(** The quoted integer after a key. *)
Lemma exec_after_key ds z :
  ds <> [] -> forallb is_digit ds = true ->
  exec after_key (32 :: 39 :: ds ++ 39 :: z)%N
  = Some (MRes (32 :: 39 :: ds ++ [39])%N [Some ds] z).
Proof.
  intros Hne Hd. unfold after_key. cbn [exec]. cbn [exec_atom].
  change (span is_space (32 :: 39 :: ds ++ 39 :: z)%N)
    with ([32%N], (39 :: ds ++ 39 :: z)%N).
  cbv beta iota. change (is_quote 39%N) with true. cbv beta iota.
  rewrite (span_run is_digit ds (39%N :: z) Hd eq_refl).
  destruct ds as [|d ds]; [contradiction|].
  cbn [capture rest matched groups app]. cbv beta iota.
  change (is_quote 39%N) with true. reflexivity.
Qed.

(** A workflow pattern run on its key followed by the quoted target matches
    exactly that. *)
Lemma workflow_quoted_exact pat K V z m {Hsafe : safe_integer V} :
  (pat = re_node_version /\ K = js "node-version:")
  \/ (pat = re_NODE_VERSION /\ K = js "NODE_VERSION:") ->
  exec pat ((K ++ js " '" ++ toString V ++ js "'") ++ z) = Some m ->
  matched m = K ++ js " '" ++ toString V ++ js "'"
  /\ group 1 m = Some (toString V).
Proof.
  intros Hp.
  assert (pat = lits true K ++ after_key) as ->
      by (destruct Hp as [[-> ->] | [-> ->]]; reflexivity).
  rewrite <- !app_assoc, exec_cat, exec_lits_same. cbn [rest].
  change (js " '" ++ toString V ++ js "'" ++ z)
    with (32 :: 39 :: toString V ++ 39 :: z)%N.
  rewrite exec_after_key by auto using toString_nonempty, toString_digits.
  intros H. inversion H; subst. cbn [matched groups]. split; reflexivity.
Qed.

Lemma head_no_first c t : char_eq_ci c 110%N = false -> head_no (c :: t) = false.
Proof. intros H. destruct t; simpl; [reflexivity|]. now rewrite H. Qed.

Lemma digit_not_n d : is_digit d = true -> char_eq_ci d 110%N = false.
Proof.
  unfold is_digit, char_eq_ci, canonicalize. intros H.
  apply andb_true_iff in H as [H1 H2]. apply N.leb_le in H1, H2.
  change ((97 <=? 110)%N && (110 <=? 122)%N) with true. cbv iota.
  change (110 - 32)%N with 78%N.
  assert ((97 <=? d)%N = false) as -> by (apply N.leb_gt; lia).
  simpl. apply N.eqb_neq. lia.
Qed.

Lemma digits_suffix ds r1 r2 z :
  forallb is_digit ds = true -> ds ++ [39%N] = r1 ++ r2 -> r2 <> [] ->
  head_no (r2 ++ z) = false.
Proof.
  revert r1. induction ds as [|d ds IH]; intros r1 Hd H Hne.
  - destruct r1 as [|c r1]; simpl in H.
    + subst r2. apply head_no_first. reflexivity.
    + injection H as _ H. destruct r1; [|discriminate]. simpl in H.
      now subst r2.
  - simpl in Hd. apply andb_true_iff in Hd as [Hd0 Hd].
    destruct r1 as [|c r1]; simpl in H.
    + subst r2. apply head_no_first. now apply digit_not_n.
    + injection H as _ H. eapply IH; eauto.
Qed.

Ltac peel_suffix H :=
  match type of H with
  | _ :: _ = ?r1 ++ _ =>
      destruct r1 as [|? r1]; cbn [app] in H;
      [ subst; cbn [app]; first [reflexivity | apply head_no_first; reflexivity]
      | injection H as _ H ]
  end.

Lemma quoted_suffix K V r1 r2 z {Hsafe : safe_integer V} :
  K = js "node-version:" \/ K = js "NODE_VERSION:" ->
  K ++ js " '" ++ toString V ++ js "'" = r1 ++ r2 ->
  r1 <> [] -> r2 <> [] -> head_no (r2 ++ z) = false.
Proof.
  intros HK H H1 H2.
  destruct r1 as [|c r1]; [contradiction|]. clear H1.
  destruct HK as [-> | ->].
  - match type of H with
    | ?k ++ ?q ++ ?t = _ =>
        let k' := eval vm_compute in k in
        let q' := eval vm_compute in q in
        change (k' ++ q' ++ t = (c :: r1) ++ r2) in H
    end.
    cbn [app] in H. injection H as _ H.
    do 14 peel_suffix H.
    eapply digits_suffix; eauto. apply toString_digits.
  - match type of H with
    | ?k ++ ?q ++ ?t = _ =>
        let k' := eval vm_compute in k in
        let q' := eval vm_compute in q in
        change (k' ++ q' ++ t = (c :: r1) ++ r2) in H
    end.
    cbn [app] in H. injection H as _ H.
    do 14 peel_suffix H.
    eapply digits_suffix; eauto. apply toString_digits.
Qed.

Lemma exec_first_none (ci : bool) (l : char) (p : regex) (c : char) (t : jsstring) :
  (if ci then char_eq_ci c l else char_eqb c l) = false ->
  exec (Lit ci l :: p) (c :: t) = None.
Proof. intros H. cbn [exec exec_atom]. now rewrite H. Qed.

Lemma digits_none (p : regex) ds r1 r2 z :
  forallb is_digit ds = true -> ds ++ [39%N] = r1 ++ r2 -> r2 <> [] ->
  exec (Lit true 110%N :: p) (r2 ++ z) = None.
Proof.
  revert r1. induction ds as [|d ds IH]; intros r1 Hd H Hne.
  - destruct r1 as [|c r1]; simpl in H.
    + subst r2. apply exec_first_none. reflexivity.
    + injection H as _ H. destruct r1; [|discriminate]. simpl in H.
      now subst r2.
  - simpl in Hd. apply andb_true_iff in Hd as [Hd0 Hd].
    destruct r1 as [|c r1]; simpl in H.
    + subst r2. apply exec_first_none. now apply digit_not_n.
    + injection H as _ H. eapply IH; eauto.
Qed.

Ltac peel_none H :=
  match type of H with
  | _ :: _ = ?r1 ++ _ =>
      destruct r1 as [|? r1]; cbn [app] in H;
      [ subst; cbn [app];
        first [reflexivity | apply exec_first_none; reflexivity]
      | injection H as _ H ]
  end.

Lemma quoted_NODE_VERSION_no_node_version V r1 r2 z {Hsafe : safe_integer V} :
  quoted_NODE_VERSION V = r1 ++ r2 -> r2 <> [] ->
  exec re_node_version (r2 ++ z) = None.
Proof.
  intros H H2. rewrite re_node_version_shape. unfold quoted_NODE_VERSION in H.
  match type of H with
  | ?k ++ ?t = _ =>
      let k' := eval vm_compute in k in
      change (k' ++ t = r1 ++ r2) in H
  end.
  cbn [app] in H.
  do 15 peel_none H.
  eapply digits_none; eauto. apply toString_digits.
Qed.

Lemma quoted_exact pat K V z m {Hsafe : safe_integer V} :
  (pat = re_node_version /\ K = js "node-version:")
  \/ (pat = re_NODE_VERSION /\ K = js "NODE_VERSION:") ->
  exec pat ((K ++ js " '" ++ toString V ++ js "'") ++ z) = Some m ->
  matched m = K ++ js " '" ++ toString V ++ js "'".
Proof.
  intros Hp H. now destruct (@workflow_quoted_exact pat K V z m _ Hp H).
Qed.

(** After the two rewrites of a workflow file, every occurrence of either key
    is the key followed by the quoted target. *)
Lemma workflow_occurrences content c1 c2 V {Hsafe : safe_integer V} :
  rewritten_all re_node_version (quoted_node_version V) content c1 ->
  rewritten_all re_NODE_VERSION (quoted_NODE_VERSION V) c1 c2 ->
  all_occurrences_are re_node_version (quoted_node_version V) c2
  /\ all_occurrences_are re_NODE_VERSION (quoted_NODE_VERSION V) c2.
Proof.
  intros H1 H2. split.
  - apply (@occurrences_kept re_node_version (quoted_node_version V)
             re_NODE_VERSION (quoted_NODE_VERSION V) head_no) with (c1 := c1).
    + intros. apply workflow_straddle; auto.
    + intros s m. apply workflow_match_head. auto.
    + reflexivity.
    + intros z m. apply (@quoted_exact re_node_version (js "node-version:"));
      auto.
    + intros r1 r2 z. apply (@quoted_suffix (js "node-version:")); auto.
    + discriminate.
    + intros r1 r2 z. apply quoted_NODE_VERSION_no_node_version; assumption.
    + exact H2.
    + apply (@occurrences_rewritten re_node_version (quoted_node_version V)
               head_no) with (s := content).
      * intros. apply workflow_straddle; auto.
      * intros s m. apply workflow_match_head. auto.
      * reflexivity.
      * intros z m. apply (@quoted_exact re_node_version (js "node-version:"));
        auto.
      * intros r1 r2 z. apply (@quoted_suffix (js "node-version:")); auto.
      * exact H1.
  - apply (@occurrences_rewritten re_NODE_VERSION (quoted_NODE_VERSION V)
             head_no) with (s := c1).
    + intros. apply workflow_straddle; auto.
    + intros s m. apply workflow_match_head. auto.
    + reflexivity.
    + intros z m. apply (@quoted_exact re_NODE_VERSION (js "NODE_VERSION:"));
      auto.
    + intros r1 r2 z. apply (@quoted_suffix (js "NODE_VERSION:")); auto.
    + exact H2.
Qed.

(* ------------------------------------------------------------------ *)
(** *** A second rewrite *)

(** Apart from a tag with a dollar sign, what an update writes is a fixed
    point of that update, and the record scanned from it has the target as
    its major: the next run finds nothing to do in such a file. *)

(** A global replacement changes nothing where every occurrence is already
    the replacement. *)
Lemma rewritten_all_stable pat repl s out :
  rewritten_all pat repl s out -> all_occurrences_are pat repl s -> out = s.
Proof.
  induction 1 as [s Hn | s pre m out E Hr IH]; intros Hall; [reflexivity|].
  pose proof (regex_search_app _ _ E) as [Es Em].
  assert (matched m = repl) as <- by (eapply (Hall pre); eauto).
  rewrite IH; [symmetry; exact Es|].
  intros a b m' Hs Hb. eapply (Hall (pre ++ matched m ++ a) b); eauto.
  rewrite Es, Hs, <- !app_assoc. reflexivity.
Qed.

Lemma replace_all_stable pat repl s :
  starts_with_literal pat = true -> plain repl = true ->
  all_occurrences_are pat repl s -> replace_all pat repl s = s.
Proof.
  intros Hl Hp. apply rewritten_all_stable. now apply replace_all_rewritten.
Qed.

(** The two rewrites of [updateGitHubWorkflow], whether or not a key
    occurs. *)
Lemma rewrite_workflow_steps content V c2 old upd {Hsafe : safe_integer V} :
  rewrite_workflow content V = (c2, old, upd) ->
  exists c1,
    rewritten_all re_node_version (quoted_node_version V) content c1
    /\ rewritten_all re_NODE_VERSION (quoted_NODE_VERSION V) c1 c2.
Proof.
  unfold rewrite_workflow.
  fold (quoted_node_version V). fold (quoted_NODE_VERSION V).
  destruct (regex_search re_node_version content) as [[pre1 m1]|] eqn:E1.
  - set (c1 := replace_all re_node_version (quoted_node_version V) content).
    assert (rewritten_all re_node_version (quoted_node_version V) content c1)
      as R1 by (apply replace_all_rewritten;
                [reflexivity | apply quoted_node_version_plain]).
    destruct (regex_search re_NODE_VERSION c1) as [[pre2 m2]|] eqn:E2;
      intros H; injection H as <- _ _; exists c1; (split; [exact R1|]).
    + apply replace_all_rewritten;
        [reflexivity | apply quoted_NODE_VERSION_plain].
    + now apply rewritten_none.
  - destruct (regex_search re_NODE_VERSION content) as [[pre2 m2]|] eqn:E2;
      intros H; injection H as <- _ _; exists content;
      (split; [now apply rewritten_none|]).
    + apply replace_all_rewritten;
        [reflexivity | apply quoted_NODE_VERSION_plain].
    + now apply rewritten_none.
Qed.

(** Rewriting a rewritten workflow content again leaves it as it is. *)
Lemma rewrite_workflow_stable content V c2 old upd {Hsafe : safe_integer V} :
  rewrite_workflow content V = (c2, old, upd) ->
  fst (fst (rewrite_workflow c2 V)) = c2.
Proof.
  intros H. apply rewrite_workflow_steps in H as (c1 & R1 & R2); try assumption.
  destruct (workflow_occurrences R1 R2) as [O1 O2].
  unfold rewrite_workflow.
  fold (quoted_node_version V). fold (quoted_NODE_VERSION V).
  assert (replace_all re_node_version (quoted_node_version V) c2 = c2) as S1
      by (apply replace_all_stable;
          [reflexivity | apply quoted_node_version_plain | exact O1]).
  assert (replace_all re_NODE_VERSION (quoted_NODE_VERSION V) c2 = c2) as S2
      by (apply replace_all_stable;
          [reflexivity | apply quoted_NODE_VERSION_plain | exact O2]).
  destruct (regex_search re_node_version c2) as [[pre1 m1]|];
    rewrite ?S1; destruct (regex_search re_NODE_VERSION c2) as [[pre2 m2]|];
    rewrite ?S2; reflexivity.
Qed.

(** Whatever record the scan makes from a rewritten workflow content, its
    major is the target. *)
Lemma rewritten_workflow_major content V c2 old upd pat pre m
    {Hsafe : safe_integer V} :
  rewrite_workflow content V = (c2, old, upd) ->
  pat = re_node_version \/ pat = re_NODE_VERSION ->
  regex_search pat c2 = Some (pre, m) ->
  parseInt (or_empty (group 1 m)) = V.
Proof.
  intros H Hp E. apply rewrite_workflow_steps in H as (c1 & R1 & R2); try assumption.
  destruct (workflow_occurrences R1 R2) as [O1 O2].
  pose proof (regex_search_app _ _ E) as [Es Em].
  destruct Hp as [-> | ->].
  - assert (matched m = quoted_node_version V) as Hm by (eapply (O1 pre); eauto).
    rewrite Hm in Em.
    apply (@workflow_quoted_exact re_node_version (js "node-version:")) in Em
        as [_ G]; [|auto..].
    rewrite G. apply parseInt_toString.
  - assert (matched m = quoted_NODE_VERSION V) as Hm by (eapply (O2 pre); eauto).
    rewrite Hm in Em.
    apply (@workflow_quoted_exact re_NODE_VERSION (js "NODE_VERSION:")) in Em
        as [_ G]; [|auto..].
    rewrite G. apply parseInt_toString.
Qed.

Lemma char_eq_ci_inv c l :
  char_eq_ci c l = true ->
  c = canonicalize l \/ c = (canonicalize l + 32)%N.
Proof.
  unfold char_eq_ci. intros H. apply N.eqb_eq in H. rewrite <- H.
  unfold canonicalize.
  destruct ((97 <=? c)%N && (c <=? 122)%N) eqn:E; [|auto].
  apply andb_true_iff in E as [E1 E2]. apply N.leb_le in E1, E2. lia.
Qed.

Lemma tag_always_matches : always_matches [CapOpt (Star not_space)].
Proof.
  intros s. cbn [exec exec_atom]. destruct (span not_space s). discriminate.
Qed.

(** The image patterns run on a text written by the update. *)
Lemma exec_image_tail_run ds sfx r :
  forallb is_digit ds = true -> ds <> [] ->
  span not_space (sfx ++ r) = (sfx, r) ->
  match sfx ++ r with [] => True | c :: _ => is_digit c = false end ->
  exec image_tail (ds ++ sfx ++ r)
  = Some (MRes (ds ++ sfx)
               [Some ds; match sfx with [] => None | _ => Some sfx end] r).
Proof.
  intros Hd Hne Hs Hstop. unfold image_tail. cbn [exec exec_atom].
  rewrite (span_run is_digit ds (sfx ++ r) Hd Hstop).
  destruct ds as [|d ds]; [contradiction|]. rewrite Hs.
  cbn [capture matched groups rest app]. now rewrite app_nil_r.
Qed.

Lemma exec_image_written pat hd V sfx r {Hsafe : safe_integer V} :
  (pat = re_from /\ hd = js "FROM node:")
  \/ (pat = re_image /\ hd = js "image: node:") ->
  span not_space (sfx ++ r) = (sfx, r) ->
  match sfx ++ r with [] => True | c :: _ => is_digit c = false end ->
  exec pat (hd ++ toString V ++ sfx ++ r)
  = Some (MRes (hd ++ toString V ++ sfx)
               [Some (toString V); match sfx with [] => None | _ => Some sfx end]
               r).
Proof.
  intros Hp Hs Hstop.
  assert (exists h, pat = h ++ image_tail
                    /\ forall t, exec h (hd ++ t) = Some (MRes hd [] t))
    as (h & -> & Hh).
  { destruct Hp as [[-> ->] | [-> ->]];
      [exists from_head | exists image_head]; split; reflexivity. }
  rewrite exec_cat, Hh. cbn [rest].
  rewrite exec_image_tail_run;
    auto using toString_digits, toString_nonempty.
Qed.

Lemma image_shape pat :
  pat = re_from \/ pat = re_image ->
  exists l0 p1,
    pat = Lit true l0 :: p1 ++ [CapOpt (Star not_space)]
    /\ forallb (fun a => rejects a (canonicalize l0)) p1 = true
    /\ forallb (fun a => rejects a (canonicalize l0 + 32)%N) p1 = true.
Proof.
  intros [-> | ->].
  - exists 70%N, (lits true (js "ROM") ++ [Plus is_space]
                  ++ lits true (js "node:") ++ [Cap (Plus is_digit)]).
    repeat split.
  - exists 105%N, (lits true (js "mage:") ++ [Star is_space]
                   ++ lits true (js "node:") ++ [Cap (Plus is_digit)]).
    repeat split.
Qed.

(** After the rewrite of an image line whose tag has no dollar sign, the
    first occurrence of the pattern is the rewritten line: the same place,
    the target as its integer, the same tag. *)
Lemma image_rewrite_found pat hd content pre m V {Hsafe : safe_integer V} :
  (pat = re_from /\ hd = js "FROM node:")
  \/ (pat = re_image /\ hd = js "image: node:") ->
  regex_search pat content = Some (pre, m) ->
  plain (or_empty (group 2 m)) = true ->
  let sfx := or_empty (group 2 m) in
  exists m',
    regex_search pat (replace_first pat (hd ++ toString V ++ sfx) content)
    = Some (pre, m')
    /\ group 1 m' = Some (toString V)
    /\ or_empty (group 2 m') = sfx
    /\ matched m' = hd ++ toString V ++ sfx
    /\ rest m' = rest m.
Proof.
  intros Hp E Hpl sfx.
  assert (pat = re_from \/ pat = re_image) as Hp'
      by (destruct Hp as [[-> _] | [-> _]]; auto).
  unfold sfx. rewrite (@plain_suffix_preserved pat hd content pre m V _ Hp E Hpl). fold sfx.
  pose proof (regex_search_app _ _ E) as [Es Em].
  destruct (@exec_image pat _ m Hp' Em)
    as (hd0 & ds & sfx0 & s1 & Hz & Hd & Hne & Hsf & G1 & G2 & Hm).
  fold sfx in G2. subst sfx0.
  pose proof (span_app _ _ Hsf) as Hs1. subst s1.
  pose proof (span_stop _ _ Hd) as Hstop.
  pose proof (@exec_image_written pat hd V sfx (rest m) _ Hp Hsf Hstop) as Ex.
  eexists. split.
  - rewrite <- !app_assoc. apply search_intro; [|exact Ex].
    intros a l Hpre Hl.
    pose proof (@search_first pat content pre m E a l Hpre Hl) as Hnone.
    apply matches_at_none. apply matches_at_none in Hnone.
    etransitivity; [|exact Hnone].
    destruct (@image_shape pat Hp') as (l0 & p1 & Hshape & Hr1 & Hr2).
    assert (exists c t, matched m ++ rest m = c :: t
                        /\ char_eq_ci c l0 = true) as (c & t & Hc & Hci).
    { rewrite Hshape in Em. destruct (matched m ++ rest m) as [|c t];
        [discriminate|]. exists c, t. split; [reflexivity|].
      apply matches_at_some in Em. rewrite matches_at_lit in Em.
      now apply andb_true_iff in Em as [Em _]. }
    assert (exists c' t', hd ++ toString V ++ sfx ++ rest m = c' :: t'
                          /\ char_eq_ci c' l0 = true) as (c' & t' & Hc' & Hci').
    { rewrite Hshape in Ex.
      destruct (hd ++ toString V ++ sfx ++ rest m) as [|c' t'];
        [discriminate|]. exists c', t'. split; [reflexivity|].
      apply matches_at_some in Ex. rewrite matches_at_lit in Ex.
      now apply andb_true_iff in Ex as [Ex _]. }
    rewrite Hc, Hc', Hshape.
    apply straddle_one; auto using tag_always_matches.
    + apply char_eq_ci_inv in Hci' as [-> | ->]; assumption.
    + apply char_eq_ci_inv in Hci as [-> | ->]; assumption.
  - cbn [matched rest]. unfold group. cbn [groups nth_error].
    repeat split; try reflexivity. destruct sfx; reflexivity.
Qed.

(** Rewriting the image line a second time changes nothing, and the record
    scanned from the rewritten file has the target as its major. *)
Lemma image_rewrite_stable pat hd content pre m V {Hsafe : safe_integer V} :
  (pat = re_from /\ hd = js "FROM node:")
  \/ (pat = re_image /\ hd = js "image: node:") ->
  regex_search pat content = Some (pre, m) ->
  plain (or_empty (group 2 m)) = true ->
  let content' :=
    replace_first pat (hd ++ toString V ++ or_empty (group 2 m)) content in
  exists pre' m',
    regex_search pat content' = Some (pre', m')
    /\ parseInt (or_empty (group 1 m')) = V
    /\ replace_first pat (hd ++ toString V ++ or_empty (group 2 m')) content'
       = content'.
Proof.
  intros Hp E Hpl content'.
  destruct (@image_rewrite_found pat hd content pre m V _ Hp E Hpl) as (m' & E' & G1 & G2 & Hm & Hr).
  fold content' in E'. exists pre, m'. split; [exact E'|]. split.
  - rewrite G1. apply parseInt_toString.
  - rewrite (@plain_suffix_preserved pat hd content' pre m' V _ Hp E'); [|now rewrite G2].
    rewrite G2, Hr. unfold content'.
    now rewrite (@plain_suffix_preserved pat hd content pre m V _ Hp E Hpl).
Qed.

Lemma digit_cases c :
  is_digit c = true ->
  In c [48; 49; 50; 51; 52; 53; 54; 55; 56; 57]%N.
Proof.
  unfold is_digit. intros H. apply andb_true_iff in H as [H1 H2].
  apply N.leb_le in H1, H2. simpl.
  assert (c = 48 \/ c = 49 \/ c = 50 \/ c = 51 \/ c = 52 \/ c = 53 \/ c = 54
          \/ c = 55 \/ c = 56 \/ c = 57)%N by lia.
  intuition auto.
Qed.

Lemma digit_not_space c : is_digit c = true -> is_space c = false.
Proof.
  intros H. apply digit_cases in H. simpl in H.
  repeat (destruct H as [<- | H]; [reflexivity|]). contradiction.
Qed.

Lemma digit_not_v c : is_digit c = true -> (c =? 118)%N = false.
Proof.
  intros H. apply digit_cases in H. simpl in H.
  repeat (destruct H as [<- | H]; [reflexivity|]). contradiction.
Qed.

Lemma digits_head ds :
  forallb is_digit ds = true ->
  match ds with [] => True | c :: _ => is_space c = false end.
Proof.
  destruct ds as [|d ds]; [auto|]. simpl. intros H.
  apply andb_true_iff in H as [H _]. now apply digit_not_space.
Qed.

Lemma dropWhile_keep (p : char -> bool) (s : jsstring) :
  match s with [] => True | c :: _ => p c = false end -> dropWhile p s = s.
Proof. destruct s as [|c s]; [reflexivity|]. simpl. now intros ->. Qed.

(** What [.nvmrc] and [.node-version] hold after an update trims to the
    decimal text of the target. *)
Lemma trim_written V {Hsafe : safe_integer V} :
  trim (toString V ++ newline) = toString V.
Proof.
  unfold trim.
  pose proof (@toString_digits V _) as Hd.
  assert (forallb is_digit (rev (toString V)) = true) as Hr.
  { apply forallb_forall. intros x Hx. apply in_rev in Hx.
    eapply forallb_forall in Hd; eauto. }
  rewrite (@dropWhile_keep is_space (toString V ++ newline)).
  - rewrite rev_app_distr.
    change (rev newline ++ rev (toString V)) with (10%N :: rev (toString V)).
    change (dropWhile is_space (10%N :: rev (toString V)))
      with (dropWhile is_space (rev (toString V))).
    rewrite dropWhile_keep by now apply digits_head.
    apply rev_involutive.
  - pose proof (toString_nonempty V) as Hne.
    destruct (toString V) as [|d ds]; [contradiction|]. simpl in *.
    apply andb_true_iff in Hd as [Hd _]. now apply digit_not_space.
Qed.

(** The record scanned from an updated version file has the target as its
    major and as its display value. *)
Lemma version_file_rewritten V {Hsafe : safe_integer V} :
  exists m,
    exec re_leading_version (trim (toString V ++ newline)) = Some m
    /\ parseInt (or_empty (group 1 m)) = V.
Proof.
  rewrite trim_written.
  pose proof (@toString_digits V _) as Hd.
  pose proof (toString_nonempty V) as Hne.
  pose proof (@span_run is_digit (toString V) [] Hd I) as Hs.
  rewrite app_nil_r in Hs.
  assert (exec_atom (Opt (fun c => (c =? 118)%N)) (toString V)
          = Some ([], toString V)) as Ho.
  { destruct (toString V) as [|d ds]; [contradiction|]. simpl in Hd.
    apply andb_true_iff in Hd as [Hd _]. cbn [exec_atom].
    now rewrite digit_not_v. }
  unfold re_leading_version. cbn [exec]. rewrite Ho. cbn [exec_atom].
  rewrite Hs. destruct (toString V) as [|d ds] eqn:E; [contradiction|].
  eexists. split; [reflexivity|].
  unfold group. cbn [groups capture app nth_error or_empty].
  rewrite <- E. apply parseInt_toString.
Qed.

Lemma nodejs_shape :
  re_nodejs
  = Lit false 110%N
      :: (lits false (js "odejs") ++ [Plus is_space; Cap (Plus is_digit)])
      ++ [].
Proof. reflexivity. Qed.

Lemma exec_nodejs_written V r {Hsafe : safe_integer V} :
  match r with [] => True | c :: _ => is_digit c = false end ->
  exec re_nodejs (js "nodejs " ++ toString V ++ r)
  = Some (MRes (js "nodejs " ++ toString V) [Some (toString V)] r).
Proof.
  intros Hstop.
  change re_nodejs
    with (lits false (js "nodejs") ++ [Plus is_space; Cap (Plus is_digit)]).
  change (js "nodejs " ++ toString V ++ r)
    with (js "nodejs" ++ 32%N :: toString V ++ r).
  rewrite exec_cat, exec_lits_same. cbn [rest].
  pose proof (@toString_digits V _) as Hd.
  pose proof (toString_nonempty V) as Hne.
  assert (span is_space (toString V ++ r) = ([], toString V ++ r)) as Hsp.
  { destruct (toString V) as [|d ds]; [contradiction|]. simpl in *.
    apply andb_true_iff in Hd as [Hd _]. now rewrite digit_not_space. }
  cbn [exec]. cbn [exec_atom]. cbn [span]. change (is_space 32%N) with true.
  cbv iota. rewrite Hsp.
  rewrite (@span_run is_digit (toString V) r Hd Hstop).
  destruct (toString V) as [|d ds]; [contradiction|].
  cbn [capture matched groups rest app]. now rewrite app_nil_r.
Qed.

Lemma replace_first_plain pat repl s pre m :
  regex_search pat s = Some (pre, m) -> plain repl = true ->
  replace_first pat repl s = pre ++ repl ++ rest m.
Proof.
  intros E Hp. unfold replace_first. rewrite E. f_equal. f_equal.
  now apply getSubstitution_plain.
Qed.

Lemma nodejs_line_plain V
  {Hsafe : safe_integer V} : plain (js "nodejs " ++ toString V) = true.
Proof. rewrite plain_app, toString_plain. reflexivity. Qed.

(** After the rewrite of the [nodejs] line its first occurrence is the
    rewritten one, with the target as its integer, and a second rewrite
    changes nothing. *)
Lemma tool_versions_rewrite_stable content pre m V {Hsafe : safe_integer V} :
  regex_search re_nodejs content = Some (pre, m) ->
  let content' :=
    replace_first re_nodejs (js "nodejs " ++ toString V) content in
  exists m',
    regex_search re_nodejs content' = Some (pre, m')
    /\ parseInt (or_empty (group 1 m')) = V
    /\ replace_first re_nodejs (js "nodejs " ++ toString V) content'
       = content'.
Proof.
  intros E content'.
  assert (content' = pre ++ (js "nodejs " ++ toString V) ++ rest m) as Hc
      by (apply replace_first_plain; auto using nodejs_line_plain).
  pose proof (regex_search_app _ _ E) as [Es Em].
  assert (match rest m with [] => True | c :: _ => is_digit c = false end)
    as Hstop.
  { pose proof Em as H. rewrite re_nodejs_split in H.
    apply exec_split in H as (r1 & r2 & _ & H2 & _ & _ & Hr); [|reflexivity].
    apply exec_digits_cap in H2 as (ds & s1 & r3 & Hd & _ & H3 & _ & _ & Hr2).
    cbn [exec] in H3. injection H3 as <-. cbn [rest] in Hr2.
    rewrite Hr, Hr2. eapply span_stop; eauto. }
  pose proof (@exec_nodejs_written V (rest m) _ Hstop) as Ex.
  assert (regex_search re_nodejs content'
          = Some (pre, MRes (js "nodejs " ++ toString V) [Some (toString V)]
                            (rest m))) as E'.
  { rewrite Hc, <- app_assoc. apply search_intro; [|exact Ex].
    intros a l Hpre Hl.
    pose proof (@search_first re_nodejs content pre m E a l Hpre Hl) as Hnone.
    apply matches_at_none. apply matches_at_none in Hnone.
    etransitivity; [|exact Hnone].
    assert (exists t, matched m ++ rest m = 110%N :: t) as [t Ht].
    { destruct (matched m ++ rest m) as [|c t]; [discriminate|].
      apply matches_at_some in Em. rewrite nodejs_shape, matches_at_lit in Em.
      apply andb_true_iff in Em as [Em _]. apply N.eqb_eq in Em. subst c.
      now exists t. }
    rewrite Ht.
    change (js "nodejs " ++ toString V ++ rest m)
      with (110%N :: js "odejs " ++ toString V ++ rest m).
    rewrite nodejs_shape.
    apply (@straddle_one false 110%N
             (lits false (js "odejs") ++ [Plus is_space; Cap (Plus is_digit)])
             [] 110%N 110%N l (js "odejs " ++ toString V ++ rest m) t);
      [reflexivity | reflexivity | intros s; discriminate | exact Hl]. }
  eexists. split; [exact E'|]. split.
  - unfold group. cbn [groups nth_error or_empty]. apply parseInt_toString.
  - rewrite (@replace_first_plain _ _ _ _ _ E' (@nodejs_line_plain V _)).
    cbn [rest].
    now rewrite Hc.
Qed.

(* ------------------------------------------------------------------ *)
(** *** A write that nothing hinders *)

Lemma filter_map_nil {A B : Type} (g : A -> option B) l :
  filter_map g l = [] <-> forall x, In x l -> g x = None.
Proof.
  induction l as [|x l IH]; simpl; [tauto|].
  destruct (g x) eqn:E.
  - split; [discriminate|]. intros H. specialize (H x (or_introl eq_refl)).
    congruence.
  - rewrite IH. split; [intros H y [<- | Hy]; auto|auto].
Qed.

Lemma is_dir_false p fs :
  is_dir p fs = false <-> forall q, In q (map fst fs) -> child_name p q = None.
Proof.
  unfold is_dir, dir_entries. rewrite <- filter_map_nil.
  destruct (filter_map (child_name p) (map fst fs)) as [|x l]; simpl.
  - tauto.
  - split; discriminate.
Qed.

Lemma store_file_paths_in q p c fs :
  In q (map fst (store_file p c fs)) -> q = p \/ In q (map fst fs).
Proof.
  induction fs as [|[k c'] fs IH]; simpl.
  - intros [<- | []]. auto.
  - destruct (str_eqb p k) eqn:E; simpl.
    + apply str_eqb_eq in E. subst k. intros [<- | H]; auto.
    + intros [<- | H]; [auto|]. apply IH in H as [-> | H]; auto.
Qed.

Lemma strip_prefix_app a b c :
  strip_prefix (a ++ b) (a ++ c) = strip_prefix b c.
Proof.
  induction a as [|x a IH]; [reflexivity|]. simpl.
  assert (char_eqb x x = true) as -> by now apply char_eqb_eq.
  exact IH.
Qed.

Lemma backup_not_under f ts : child_name f (backup_path f ts) = None.
Proof.
  unfold child_name, backup_path. now rewrite strip_prefix_app.
Qed.

Lemma is_dir_store_backup f ts c fs :
  is_dir f fs = false -> is_dir f (store_file (backup_path f ts) c fs) = false.
Proof.
  rewrite !is_dir_false. intros H q Hq.
  apply store_file_paths_in in Hq as [-> | Hq]; [apply backup_not_under|auto].
Qed.

Lemma strip_prefix_length a s r :
  strip_prefix a s = Some r -> length s = length a + length r.
Proof.
  revert s. induction a as [|x a IH]; intros s; simpl.
  - intros H. now injection H as ->.
  - destruct s as [|c s]; [discriminate|]. destruct (char_eqb x c); [|discriminate].
    intros H. apply IH in H. simpl. lia.
Qed.

(** Paths that are too short to lie under a backup of [f]. *)
Lemma short_paths_writable f fs :
  is_dir f fs = false ->
  forallb (fun q => length q <=? length f + 8) (map fst fs) = true ->
  writable f fs.
Proof.
  intros Hd Hs. split; [exact Hd|]. intros ts. apply is_dir_false.
  intros q Hq. rewrite forallb_forall in Hs. apply Hs in Hq.
  apply Nat.leb_le in Hq. unfold child_name.
  destruct (strip_prefix (backup_path f ts ++ slash) q) as [r|] eqn:E;
    [|reflexivity].
  apply strip_prefix_length in E. unfold backup_path in E.
  rewrite !length_app in E. simpl in E. lia.
Qed.

Lemma pop_fault_none w : faults w = [] -> pop_fault w = (false, w).
Proof. unfold pop_fault. now intros ->. Qed.

Lemma writeFileSync_run p c w :
  faults w = [] -> is_dir p (files w) = false ->
  writeFileSync p c w = (Ok tt, set_files (store_file p c (files w)) w).
Proof.
  intros Hf Hd. unfold writeFileSync. rewrite (pop_fault_none _ Hf).
  now rewrite Hd.
Qed.

Lemma copyFileSync_run src dst c w :
  faults w = [] -> lookup_file src (files w) = Some c ->
  is_dir dst (files w) = false ->
  copyFileSync src dst w = (Ok tt, set_files (store_file dst c (files w)) w).
Proof.
  intros Hf L Hd. unfold copyFileSync. rewrite (pop_fault_none _ Hf).
  now rewrite L, Hd.
Qed.

Lemma backup_and_write_succeeds f rel old new content opts w c0 :
  faults w = [] ->
  lookup_file f (files w) = Some c0 ->
  writable f (files w) ->
  exists r w',
    backup_and_write f rel old new content opts w = (Ok r, w')
    /\ success r = true
    /\ lookup_file f (files w') = Some content.
Proof.
  intros Hf L [Hd Hb]. unfold backup_and_write, try_catch, bind.
  destruct (backup opts).
  - unfold backupFile, bind.
    destruct (Date_now_ok w) as (ts & w0 & D). rewrite D.
    pose proof (Date_now_files _ D) as F0.
    assert (faults w0 = []) as Hf0.
    { unfold Date_now in D. destruct (clock w); inversion D; subst;
        exact Hf. }
    rewrite (@copyFileSync_run f (backup_path f ts) c0 w0 Hf0)
      by (rewrite F0; auto).
    unfold ret.
    rewrite writeFileSync_run;
      [|exact Hf0| cbn [set_files files]; rewrite F0;
                   now apply is_dir_store_backup].
    do 2 eexists. split; [reflexivity|]. split; [reflexivity|].
    cbn [set_files files]. apply lookup_store_same.
  - unfold ret. rewrite writeFileSync_run by assumption.
    do 2 eexists. split; [reflexivity|]. split; [reflexivity|].
    cbn [set_files files]. apply lookup_store_same.
Qed.

(* ------------------------------------------------------------------ *)
(** *** A workflow file with both keys *)

(** C8, as stated, fails: the workflow file holds [node-version: 22] and
    [NODE_VERSION: 18]; the scan returns one record, with the major 22; a
    real update to 22 skips that record, the file stays as it was, and its
    [NODE_VERSION] occurrence still reads 18. *)
Lemma stale_key_left_behind :
  let run := updateAllVersions (js "/p") 22 no_options in
  option_map (map majorVersion)
    (value (scanVersions (js "/p")) project_both_keys) = Some [22%N]
  /\ option_map (map (fun r => (success r, is_backed_up r)))
       (value run project_both_keys) = Some [(true, false)]
  /\ content_of "/p/.github/workflows/ci.yml" (after run project_both_keys)
     = Some both_keys
  /\ option_map (fun found => matched (snd found))
       (regex_search re_node_version both_keys)
     = Some (js "node-version: 22")
  /\ option_map (fun found => matched (snd found))
       (regex_search re_NODE_VERSION both_keys)
     = Some (js "NODE_VERSION: 18").
Proof. repeat split; vm_compute; reflexivity. Qed.

(** C8 (amended): for a workflow file in which both keys occur, the scan
    pushes exactly one record, made from the first occurrence of
    [node-version:]; a real update skips the file when the major of that
    record is the target, and otherwise, when no file-system call fails and
    the target is a safe integer, it succeeds and rewrites every occurrence
    of [node-version:] and then every occurrence of [NODE_VERSION:] to the
    quoted target: the file then holds a content in which every occurrence
    of either key is the key followed by the quoted target. *)
Theorem both_keys_one_record_all_rewritten dir name content pre1 m1 pre2 m2 w :
  faults w = [] ->
  lookup_file (path_join dir name) (files w) = Some content ->
  writable (path_join dir name) (files w) ->
  regex_search re_node_version content = Some (pre1, m1) ->
  regex_search re_NODE_VERSION content = Some (pre2, m2) ->
  let v := workflow_record (path_join dir name) name m1 in
  check_workflow_file dir name w = (Ok [v], w)
  /\ forall V opts,
       safe_integer V ->
       dryRun opts = false ->
       exists rs w',
         update_record V opts v w = (Ok rs, w')
         /\ (majorVersion v = V -> rs = [skipped v V] /\ w' = w)
         /\ (majorVersion v <> V ->
             exists r c1 c2,
               rs = [r]
               /\ success r = true
               /\ rewritten_all re_node_version (quoted_node_version V)
                                content c1
               /\ rewritten_all re_NODE_VERSION (quoted_NODE_VERSION V)
                                c1 c2
               /\ all_occurrences_are re_node_version (quoted_node_version V)
                                       c2
               /\ all_occurrences_are re_NODE_VERSION (quoted_NODE_VERSION V)
                                       c2
               /\ lookup_file (path_join dir name) (files w') = Some c2).
Proof.
  intros Hf L Hw E1 E2 v. split.
  - unfold check_workflow_file, bind.
    rewrite (@readFileSync_run _ _ _ Hf L), E1. reflexivity.
  - intros V opts HV Hdry. unfold update_record.
    destruct (majorVersion v =? V)%N eqn:EV.
    + apply N.eqb_eq in EV. exists [skipped v V], w.
      split; [reflexivity|]. split; [auto|]. intros Hn. contradiction.
    + apply N.eqb_neq in EV.
      rewrite dispatch_workflow by reflexivity.
      unfold updateGitHubWorkflow, process_cwd.
      unfold bind at 1 2 3. unfold v at 1 2 3 4 5. unfold workflow_record.
      cbn [VersionCheck.file].
      rewrite (@readFileSync_run _ _ _ Hf L).
      destruct (@rewrite_workflow_rewritten content V pre1 m1 _ E1)
        as (c1 & c2 & old & -> & R1 & R2).
      cbn [negb]. rewrite Hdry.
      match goal with
      | |- context [backup_and_write ?a ?b ?c ?d ?e ?f w] =>
          destruct (@backup_and_write_succeeds a b c d e f w content Hf L Hw)
            as (r & w' & B & Hs & Lw)
      end.
      rewrite B. unfold ret. exists [r], w'. split; [reflexivity|].
      split; [intros; contradiction|]. intros _.
      destruct (workflow_occurrences R1 R2) as [O1 O2].
      exists r, c1, c2. do 6 (split; [assumption || reflexivity|]).
      exact Lw.
Qed.

Lemma both_keys_one_record_all_rewritten_witness :
  let dir := workflowDir (js "/p") in
  let name := js "ci.yml" in
  exists m1 m2,
    faults project_both_keys = []
    /\ lookup_file (path_join dir name) (files project_both_keys)
       = Some both_keys
    /\ writable (path_join dir name) (files project_both_keys)
    /\ regex_search re_node_version both_keys = Some ([], m1)
    /\ regex_search re_NODE_VERSION both_keys
       = Some (js "node-version: 22" ++ newline, m2)
    /\ check_workflow_file dir name project_both_keys
       = (Ok [workflow_record (path_join dir name) name m1], project_both_keys)
    /\ safe_integer 20
    /\ exists rs w',
         update_record 20 DEFAULT_OPTIONS
           (workflow_record (path_join dir name) name m1) project_both_keys
         = (Ok rs, w')
         /\ exists r c1 c2,
              rs = [r]
              /\ success r = true
              /\ rewritten_all re_node_version (quoted_node_version 20)
                               both_keys c1
              /\ rewritten_all re_NODE_VERSION (quoted_NODE_VERSION 20) c1 c2
              /\ all_occurrences_are re_node_version (quoted_node_version 20)
                                      c2
              /\ all_occurrences_are re_NODE_VERSION (quoted_NODE_VERSION 20)
                                      c2
              /\ lookup_file (path_join dir name) (files w') = Some c2.
Proof.
  intros dir name.
  match eval vm_compute in (regex_search re_node_version both_keys) with
  | Some (_, ?m) => exists m
  end.
  match eval vm_compute in (regex_search re_NODE_VERSION both_keys) with
  | Some (_, ?m) => exists m
  end.
  assert (writable (path_join dir name) (files project_both_keys)) as Hw
      by (apply short_paths_writable; vm_compute; reflexivity).
  match goal with
  | |- ?h1 /\ ?h2 /\ _ /\ ?h3 /\ ?h4 /\ _ =>
      assert h1 as H1 by reflexivity;
      assert h2 as H2 by reflexivity;
      assert h3 as H3 by (vm_compute; reflexivity);
      assert h4 as H4 by (vm_compute; reflexivity)
  end.
  destruct (@both_keys_one_record_all_rewritten dir name _ _ _ _ _ _
              H1 H2 Hw H3 H4) as [C U].
  repeat (split; [assumption|]). split; [reflexivity|].
  destruct (U 20%N DEFAULT_OPTIONS eq_refl eq_refl)
    as (rs & w' & R & _ & Hne).
  exists rs, w'. split; [exact R|]. apply Hne. vm_compute. discriminate.
Defined.

(* ================================================================== *)
(** ** Further properties of the code *)
(* ================================================================== *)

(** Run a closed computation and keep its result as a hypothesis. *)
Ltac ran H m :=
  let res := eval vm_compute in m in
  assert (m = res) as H by (vm_compute; reflexivity).

(* ------------------------------------------------------------------ *)
(** *** What the scan and the report never do *)

(** X1: [scanVersions] and [generateReport] only read: whatever they return
    or throw, and whatever I/O fails on the way, every file is afterwards as
    it was. *)
Theorem scan_and_report_only_read root target w :
  files (snd (scanVersions root w)) = files w
  /\ files (snd (generateReport root target w)) = files w.
Proof.
  split.
  - destruct (scanVersions root w) as [x w'] eqn:E.
    simpl. eapply keeps_scanVersions; exact E.
  - unfold generateReport, bind.
    destruct (scanVersions root w) as [[vs|e] w'] eqn:E; simpl;
      eapply keeps_scanVersions; exact E.
Qed.

(** X2: the major version of a text is the value of its first run of
    digits, for a run that is the decimal text of a safe integer: what
    stands before the run (no digit) and after it (not starting with a
    digit) does not count. *)
Theorem extractMajorVersion_first_run before n rest :
  safe_integer n ->
  forallb (fun c => negb (is_digit c)) before = true ->
  match rest with [] => True | c :: _ => is_digit c = false end ->
  extractMajorVersion (before ++ toString n ++ rest) = n.
Proof.
  intros Hn Hb Hr. rewrite extractMajorVersion_major_of.
  induction before as [|c before IH].
  - simpl. rewrite major_of_digits;
      auto using toString_nonempty, toString_digits, parseInt_toString.
  - simpl in Hb. apply andb_true_iff in Hb as [Hc Hb].
    apply negb_true_iff in Hc. unfold major_of in *. cbn [app first_integer_run].
    rewrite Hc. auto.
Qed.

Lemma extractMajorVersion_first_run_witness :
  safe_integer 22
  /\ forallb (fun c => negb (is_digit c)) (js ">=") = true
  /\ match js ".0.0" with [] => True | c :: _ => is_digit c = false end
  /\ extractMajorVersion (js ">=" ++ toString 22 ++ js ".0.0") = 22%N.
Proof.
  split; [reflexivity|]. split; [reflexivity|]. split; [reflexivity|].
  apply (@extractMajorVersion_first_run (js ">=") 22%N (js ".0.0"));
    reflexivity.
Defined.

(* ------------------------------------------------------------------ *)
(** *** The mismatch flag *)

Lemma distinct_In seen xs x :
  In x (distinct seen xs) <-> In x xs /\ ~ In x seen.
Proof.
  revert seen. induction xs as [|y t IH]; intros seen; simpl.
  - tauto.
  - destruct (existsb (N.eqb y) seen) eqn:E.
    + apply existsb_exists in E as (z & Hz & Ez). apply N.eqb_eq in Ez.
      subst z. rewrite IH. split.
      * intros [H1 H2]. auto.
      * intros [[-> | H1] H2]; [contradiction|auto].
    + assert (~ In y seen) as Hy.
      { intros Hin. apply not_true_iff_false in E. apply E.
        apply existsb_exists. exists y. split; [exact Hin|apply N.eqb_refl]. }
      simpl. rewrite IH. simpl. split.
      * intros [<- | [H1 H2]]; [auto|]. split; [auto|]. intros H3. apply H2. auto.
      * intros [[-> | H1] H2]; [auto|].
        destruct (N.eq_dec y x) as [-> | Hn]; [auto|]. right. split; [auto|].
        intros [H3 | H3]; auto.
Qed.

(** The size of the set of majors exceeds one exactly when two majors
    differ. *)
Lemma distinct_two xs :
  (1 <? length (distinct [] xs))%nat = true
  <-> exists x y, In x xs /\ In y xs /\ x <> y.
Proof.
  destruct xs as [|a t]; simpl.
  - split; [discriminate|]. intros (x & _ & [] & _).
  - rewrite Nat.ltb_lt. split.
    + intros H. destruct (distinct [a] t) as [|b r] eqn:E; [simpl in H; lia|].
      assert (In b (distinct [a] t)) as Hb by (rewrite E; left; reflexivity).
      apply distinct_In in Hb as [Hb Hn]. exists a, b.
      split; [auto|]. split; [auto|]. intros ->. apply Hn. left. reflexivity.
    + intros (x & y & Hx & Hy & Hxy).
      assert (exists z, In z t /\ z <> a) as (z & Hz & Hza).
      { destruct Hx as [<- | Hx], Hy as [<- | Hy].
        - contradiction.
        - exists y. auto.
        - exists x. auto.
        - destruct (N.eq_dec x a) as [-> | Hn]; [exists y|exists x]; auto. }
      assert (In z (distinct [a] t)) as Hd.
      { apply distinct_In. split; [exact Hz|]. intros [H | []]. auto. }
      destruct (distinct [a] t); [contradiction|]. simpl. lia.
Qed.

(** X3: the report flags a mismatch exactly when two of its records have
    different majors, whether or not a target was given. *)
Theorem mismatch_iff_two_majors root target w report w' :
  generateReport root target w = (Ok report, w') ->
  (hasMismatch report = true
   <-> exists v1 v2, In v1 (versions report) /\ In v2 (versions report)
                     /\ majorVersion v1 <> majorVersion v2).
Proof.
  unfold generateReport. intros H. peel H as vs w1 S.
  injection H as <- _. cbn [hasMismatch versions]. rewrite distinct_two.
  split.
  - intros (x & y & Hx & Hy & Hxy).
    apply in_map_iff in Hx as (v1 & <- & H1).
    apply in_map_iff in Hy as (v2 & <- & H2). eauto 6.
  - intros (v1 & v2 & H1 & H2 & Hn).
    exists (majorVersion v1), (majorVersion v2).
    auto using in_map.
Qed.

Lemma mismatch_iff_two_majors_witness :
  exists report w',
    generateReport (js "/p") None sample_project = (Ok report, w')
    /\ (hasMismatch report = true
        <-> exists v1 v2, In v1 (versions report) /\ In v2 (versions report)
                          /\ majorVersion v1 <> majorVersion v2).
Proof.
  destruct (generateReport (js "/p") None sample_project) as [[report|e] w']
    eqn:E; [|vm_compute in E; discriminate].
  exists report, w'. split; [reflexivity|].
  exact (@mismatch_iff_two_majors (js "/p") None sample_project report w' E).
Defined.

(* ------------------------------------------------------------------ *)
(** *** The rows of the report *)

Lemma all_same_major (majors : list N) :
  (1 <? length (distinct [] majors))%nat = false ->
  forall x y, In x majors -> In y majors -> x = y.
Proof.
  intros H x y Hx Hy. destruct (N.eq_dec x y) as [E|E]; [exact E|].
  exfalso. apply not_true_iff_false in H. apply H. apply distinct_two.
  eauto.
Qed.

(** X4: the table of a report made without an explicit target follows the
    mismatch flag.  Without a mismatch no row is marked for update.  With a
    mismatch, and a resolved target other than 0, some row is. *)
Theorem report_rows_follow_mismatch root w report w' :
  generateReport root None w = (Ok report, w') ->
  (hasMismatch report = false ->
   Forall (fun v => needsUpdate (targetVersion report) v = false)
          (versions report))
  /\ (hasMismatch report = true ->
      targetVersion report <> Some 0%N ->
      Exists (fun v => needsUpdate (targetVersion report) v = true)
             (versions report)).
Proof.
  unfold generateReport. intros H. peel H as vs w1 S.
  injection H as <- _. cbn [hasMismatch versions targetVersion no_target].
  destruct vs as [|v0 vs0] eqn:Evs.
  - split; [constructor|]. discriminate.
  - rewrite <- Evs. replace (0 <? length vs)%nat with true
      by (rewrite Evs; reflexivity).
    cbn [andb].
    destruct (@most_common_majority (map majorVersion vs))
      as (t & Ht & pre & post & Hm & _); [rewrite Evs; discriminate|].
    rewrite Ht.
    assert (In t (map majorVersion vs)) as Hin
        by (rewrite Hm; apply in_or_app; right; left; reflexivity).
    split.
    + intros Hmis. rewrite Forall_forall. intros v Hv. unfold needsUpdate.
      assert (majorVersion v = t) as ->
          by (apply (all_same_major _ Hmis); [now apply in_map|exact Hin]).
      rewrite N.eqb_refl. now rewrite andb_false_r.
    + intros Hmis Hz. apply distinct_two in Hmis as (x & y & Hx & Hy & Hxy).
      assert (exists u, In u (map majorVersion vs) /\ u <> t) as (u & Hu & Hne).
      { destruct (N.eq_dec x t) as [-> | Hn]; [exists y|exists x]; auto. }
      apply in_map_iff in Hu as (v & <- & Hv).
      apply Exists_exists. exists v. split; [exact Hv|]. unfold needsUpdate.
      apply andb_true_iff. split; apply negb_true_iff, N.eqb_neq; congruence.
Qed.

Lemma report_rows_follow_mismatch_witness :
  exists report w',
    generateReport (js "/p") None sample_project = (Ok report, w')
    /\ hasMismatch report = true
    /\ targetVersion report <> Some 0%N
    /\ Exists (fun v => needsUpdate (targetVersion report) v = true)
              (versions report).
Proof.
  ran H (generateReport (js "/p") None sample_project).
  do 2 eexists. split; [exact H|]. split; [reflexivity|].
  split; [discriminate|].
  apply (proj2 (@report_rows_follow_mismatch _ _ _ _ H)).
  - reflexivity.
  - discriminate.
Defined.

(* ------------------------------------------------------------------ *)
(** *** The order of the records *)

Ltac labelled :=
  repeat first
    [ apply returns_bind; intros ?
    | apply returns_try; [|intros ?]
    | apply returns_throw
    | solve [apply returns_ret; intros ? E; inversion E; subst; simpl; auto]
    | match goal with
      | |- returns _ (if ?b then _ else _) => destruct b
      | |- returns _ (match ?x with _ => _ end) => destruct x
      end ].

Lemma labelled_check_version_file name tag root :
  returns (labelled root name tag) (check_version_file name tag root).
Proof. unfold check_version_file. labelled. Qed.

Lemma labelled_checkPackageJson root :
  returns (labelled root (js "package.json") (js "package.json"))
          (checkPackageJson root).
Proof. unfold checkPackageJson. labelled. Qed.

Lemma labelled_check_image_file name tag pat root :
  returns (labelled root name tag) (check_image_file name tag pat root).
Proof. unfold check_image_file. labelled. Qed.

Lemma labelled_checkToolVersions root :
  returns (labelled root (js ".tool-versions") (js "tool-versions"))
          (checkToolVersions root).
Proof. unfold checkToolVersions. labelled. Qed.

(** The six checks, each with its tag and its name. *)
Lemma checks_labelled root w cs w' :
  checks root w = (Ok cs, w') ->
  Forall2 (fun c nt => labelled root (fst nt) (snd nt) c) cs
          (combine top_names format_tags).
Proof.
  intros H. unfold checks in H.
  peel H as c1 w1 R1. peel H as c2 w2 R2. peel H as c3 w3 R3.
  peel H as c4 w4 R4. peel H as c5 w5 R5. peel H as c6 w6 R6.
  inversion H; subst. clear H.
  apply labelled_check_version_file in R1, R5.
  apply labelled_checkPackageJson in R2.
  apply labelled_check_image_file in R3, R4.
  apply labelled_checkToolVersions in R6.
  simpl. repeat (constructor; [assumption|]). constructor.
Qed.

(** Records of checks taken along a list of distinct names and tags come
    in the order of that list and from distinct files. *)
Lemma non_null_ordered root (cs : list (option VersionInfo)) nts :
  Forall2 (fun c nt => labelled root (fst nt) (snd nt) c) cs nts ->
  Forall (fun v => exists nt, In nt nts /\ fileType v = snd nt
                              /\ VersionCheck.file v = path_join root (fst nt))
         (non_null cs)
  /\ (NoDup (map fst nts) -> NoDup (map VersionCheck.file (non_null cs)))
  /\ (forall rank : jsstring -> nat,
         ForallOrdPairs (fun a b => (rank (snd a) < rank (snd b))%nat) nts ->
         ForallOrdPairs (fun v1 v2 => (rank (fileType v1)
                                       < rank (fileType v2))%nat)
                        (non_null cs)).
Proof.
  induction 1 as [|c nt cs nts L F IH]; simpl.
  - repeat split; constructor.
  - destruct IH as (IH1 & IH2 & IH3).
    assert (Forall (fun v => exists nt0, In nt0 (nt :: nts)
                     /\ fileType v = snd nt0
                     /\ VersionCheck.file v = path_join root (fst nt0))
                   (non_null cs)) as IH1'.
    { eapply Forall_impl; [|exact IH1]. intros v (nt0 & Hin & E).
      exists nt0. split; [right; exact Hin|exact E]. }
    unfold non_null in *. simpl. destruct c as [v|].
    + destruct (L v eq_refl) as (Ht & Hf & _). split; [|split].
      * constructor; [|exact IH1']. exists nt. split; [left; reflexivity|auto].
      * intros Hnd. inversion Hnd as [|x l Hx Hl]; subst. simpl.
        constructor; [|auto]. intros Hin.
        apply in_map_iff in Hin as (v' & Ev & Hv').
        rewrite Forall_forall in IH1. destruct (IH1 _ Hv') as (nt0 & Hin0 & _ & Ef).
        rewrite Hf, Ef in Ev. apply path_join_inj in Ev.
        apply Hx. rewrite <- Ev. now apply in_map.
      * intros rank Hr. inversion Hr as [|x l Hx Hl]; subst.
        constructor; [|auto]. rewrite Forall_forall. intros v' Hv'.
        rewrite Forall_forall in IH1. destruct (IH1 _ Hv') as (nt0 & Hin0 & Et & _).
        rewrite Forall_forall in Hx. rewrite Ht, Et. now apply Hx.
    + split; [exact IH1'|]. split.
      * intros Hnd. inversion Hnd; subst. auto.
      * intros rank Hr. inversion Hr; subst. auto.
Qed.

(** What one workflow file pushes: nothing, or one record of that file. *)
Lemma check_workflow_file_pushes dir name w rs w' :
  check_workflow_file dir name w = (Ok rs, w') ->
  rs = []
  \/ exists v, rs = [v] /\ fileType v = js "github-workflow"
               /\ VersionCheck.file v = path_join dir name.
Proof.
  intros H. unfold check_workflow_file in H. peel H as a w1 R.
  destruct (regex_search re_node_version a) as [[pre m]|].
  - inversion H; subst. right. eexists. split; [reflexivity|]. split; reflexivity.
  - destruct (regex_search re_NODE_VERSION a) as [[pre m]|];
      inversion H; subst; [right|left; reflexivity].
    eexists. split; [reflexivity|]. split; reflexivity.
Qed.

Lemma workflow_loop_distinct dir names :
  NoDup names ->
  forall acc w rs o w',
    Forall (fun v => fileType v = js "github-workflow"
                     /\ exists g, VersionCheck.file v = path_join dir g
                                  /\ ~ In g names) acc ->
    NoDup (map VersionCheck.file acc) ->
    push_loop (check_workflow_file dir) names acc w = ((rs, o), w') ->
    Forall (fun v => fileType v = js "github-workflow"
                     /\ exists g, VersionCheck.file v = path_join dir g) rs
    /\ NoDup (map VersionCheck.file rs).
Proof.
  induction 1 as [|x names Hx Hnd IH]; simpl; intros acc w rs o w' Ha Hn H.
  - inversion H; subst. split; [|exact Hn].
    eapply Forall_impl; [|exact Ha]. intros v (T & g & E & _). eauto.
  - assert (Forall (fun v => fileType v = js "github-workflow"
                      /\ exists g, VersionCheck.file v = path_join dir g) acc)
      as Ha'.
    { eapply Forall_impl; [|exact Ha]. intros v (T & g & E & _). eauto. }
    destruct (check_workflow_file dir x w) as [[pushed|e] w1] eqn:E.
    + apply check_workflow_file_pushes in E as [-> | (v & -> & T & F)].
      * rewrite app_nil_r in H. eapply IH; [| exact Hn | exact H].
        eapply Forall_impl; [|exact Ha]. intros v (T & g & E & Hg).
        split; [exact T|]. exists g. split; [exact E|]. intros Hin. apply Hg.
        now right.
      * eapply IH; [| | exact H].
        -- apply Forall_app. split.
           ++ eapply Forall_impl; [|exact Ha]. intros v0 (T0 & g & E & Hg).
              split; [exact T0|]. exists g. split; [exact E|]. intros Hin.
              apply Hg. now right.
           ++ constructor; [|constructor]. split; [exact T|]. exists x.
              split; [exact F|exact Hx].
        -- rewrite map_app. simpl. apply NoDup_app; [exact Hn| |].
           ++ constructor; [intros []|constructor].
           ++ intros p Hp [<- | []]. apply in_map_iff in Hp as (v0 & E0 & H0).
              rewrite Forall_forall in Ha. destruct (Ha _ H0) as (_ & g & Eg & Hg).
              rewrite F, Eg in E0. apply path_join_inj in E0. apply Hg.
              left. now symmetry.
    + inversion H; subst. split; [exact Ha'|exact Hn].
Qed.

Lemma NoDup_filter_str (f : jsstring -> bool) l : NoDup l -> NoDup (filter f l).
Proof.
  induction 1 as [|x l Hx Hl IH]; simpl; [constructor|].
  destruct (f x); [|exact IH]. constructor; [|exact IH].
  intros Hin. apply filter_In in Hin as [Hin _]. contradiction.
Qed.

Lemma checkGitHubWorkflows_distinct root w rs w' :
  checkGitHubWorkflows root w = (Ok rs, w') ->
  Forall (fun v => fileType v = js "github-workflow"
                   /\ exists g, VersionCheck.file v
                                = path_join (workflowDir root) g) rs
  /\ NoDup (map VersionCheck.file rs).
Proof.
  intros H. unfold checkGitHubWorkflows in H. peel H as present w0 R.
  destruct (negb present); [inversion H; subst; split; constructor|].
  destruct (readdirSync (workflowDir root) w0) as [[names|e] w1] eqn:E;
    [|inversion H; subst; split; constructor].
  destruct (push_loop _ _ _ _) as [[rs' o] w2] eqn:L.
  inversion H; subst.
  apply readdirSync_ok in E as (-> & _ & _).
  eapply workflow_loop_distinct; [| | | exact L].
  - apply NoDup_filter_str. apply dedup_NoDup.
  - constructor.
  - constructor.
Qed.

Lemma top_names_tags_NoDup : NoDup (map fst (combine top_names format_tags)).
Proof.
  simpl. repeat constructor; simpl; intuition discriminate.
Qed.

Lemma format_tags_ranked :
  ForallOrdPairs
    (fun a b : jsstring * jsstring =>
       (format_rank (snd a) < format_rank (snd b))%nat)
    (combine top_names format_tags).
Proof.
  simpl. repeat constructor; vm_compute; lia.
Qed.

(** X5: the scan returns its records in a fixed order, at most one per
    file: the six single files in the order .nvmrc, package.json,
    Dockerfile, docker-compose.yml, .node-version, .tool-versions, each at
    most once, then the workflow files; every record has one of the seven
    known types (so that the update never meets an unknown one), and no
    file is returned twice. *)
Theorem scan_order root w vs w' :
  scanVersions root w = (Ok vs, w') ->
  ForallOrdPairs scans_before vs
  /\ Forall (fun v => (format_rank (fileType v) <= 6)%nat) vs
  /\ NoDup (map VersionCheck.file vs).
Proof.
  intros H. unfold scanVersions in H.
  peel H as cs w1 R. peel H as wf w2 R0. inversion H; subst. clear H.
  apply checks_labelled in R. apply non_null_ordered in R as (T1 & T2 & T3).
  specialize (T2 top_names_tags_NoDup).
  specialize (T3 format_rank format_tags_ranked).
  apply checkGitHubWorkflows_distinct in R0 as (W1 & W2).
  assert (Forall (fun v => (format_rank (fileType v) < 6)%nat
                   /\ exists name, In name top_names
                        /\ VersionCheck.file v = path_join root name)
                 (non_null cs)) as T1'.
  { eapply Forall_impl; [|exact T1]. intros v (nt & Hin & Et & Ef).
    rewrite Et, Ef. simpl in Hin.
    repeat destruct Hin as [<- | Hin]; try contradiction;
      (split; [vm_compute; lia | eexists; split; [|reflexivity]; simpl; tauto]). }
  rewrite Forall_forall in T1', W1.
  split; [|split].
  - clear T2 W2 T1. induction T3 as [|a l Ha Hl IH]; simpl.
    + clear T1'. induction wf as [|a l IH]; constructor.
      * rewrite Forall_forall. intros b Hb. right.
        split; [apply W1; now left|apply W1; now right].
      * apply IH. intros x Hx. apply W1. now right.
    + constructor.
      * apply Forall_app. split.
        -- eapply Forall_impl; [|exact Ha]. intros b Hb. now left.
        -- rewrite Forall_forall. intros b Hb. left.
           destruct (T1' a (or_introl eq_refl)) as [Hr _].
           destruct (W1 b Hb) as [-> _]. vm_compute. vm_compute in Hr. lia.
      * apply IH. intros x Hx. apply T1'. now right.
  - apply Forall_app. split; rewrite Forall_forall; intros v Hv.
    + destruct (T1' v Hv) as [Hr _]. lia.
    + destruct (W1 v Hv) as [-> _]. vm_compute. lia.
  - rewrite map_app. apply NoDup_app; [exact T2|exact W2|].
    intros p Hp Hq. apply in_map_iff in Hp as (v1 & E1 & H1).
    apply in_map_iff in Hq as (v2 & E2 & H2).
    destruct (T1' v1 H1) as (_ & name & Hn & F1).
    destruct (W1 v2 H2) as (_ & g & F2).
    apply (@top_file_not_workflow root name g Hn). congruence.
Qed.

Lemma scan_order_witness :
  exists vs w',
    scanVersions (js "/p") sample_project = (Ok vs, w')
    /\ ForallOrdPairs scans_before vs
    /\ Forall (fun v => (format_rank (fileType v) <= 6)%nat) vs
    /\ NoDup (map VersionCheck.file vs).
Proof.
  ran H (scanVersions (js "/p") sample_project).
  do 2 eexists. split; [exact H|].
  exact (@scan_order _ _ _ _ H).
Defined.

(* ------------------------------------------------------------------ *)
(** *** The batch *)

(** X6: when [updateAllVersions] returns, it returns one result per scanned
    record, in the order of the scan, each carrying the path of its
    record. *)
Theorem update_results_follow_scan root V options w rs w' :
  updateAllVersions root V options w = (Ok rs, w') ->
  exists vs w1,
    scanVersions root w = (Ok vs, w1)
    /\ map VersionUpdate.file rs = map VersionCheck.file vs.
Proof.
  unfold updateAllVersions. intros H. peel H as vs w1 S.
  exists vs, w1. split; [exact S|].
  apply update_records_one_per_record in H. clear S.
  induction H as [|v r vs rs E F IH]; [reflexivity|].
  simpl. now rewrite E, IH.
Qed.

Lemma update_results_follow_scan_witness :
  exists rs w',
    updateAllVersions (js "/p") 22 no_options sample_project = (Ok rs, w')
    /\ exists vs w1,
         scanVersions (js "/p") sample_project = (Ok vs, w1)
         /\ map VersionUpdate.file rs = map VersionCheck.file vs.
Proof.
  ran H (updateAllVersions (js "/p") 22 no_options sample_project).
  do 2 eexists. split; [exact H|].
  exact (update_results_follow_scan _ _ _ _ H).
Defined.

(** The loop stops where its body throws, after the elements before. *)
Lemma push_loop_stops {A B : Type} (body : A -> M (list B)) xs acc w rs e w' :
  push_loop body xs acc w = ((rs, Some e), w') ->
  exists before x after rs0 w0,
    xs = before ++ x :: after
    /\ push_loop body before acc w = ((rs0, None), w0)
    /\ body x w0 = (Throw e, w').
Proof.
  revert acc w. induction xs as [|x xs IH]; simpl; intros acc w H;
    [discriminate|].
  destruct (body x w) as [[pushed|e0] w1] eqn:E.
  - destruct (IH _ _ H) as (before & y & after & rs0 & w0 & -> & L & T).
    exists (x :: before), y, after, rs0, w0. split; [reflexivity|].
    split; [|exact T]. simpl. now rewrite E.
  - inversion H; subst. exists [], x, xs, rs, w. auto.
Qed.

Lemma update_records_stops_at_read vs V opts w e w' :
  update_records vs V opts w = (Throw e, w') ->
  exists before v after rs w0,
    vs = before ++ v :: after
    /\ update_records before V opts w = (Ok rs, w0)
    /\ majorVersion v <> V
    /\ readFileSync (VersionCheck.file v) w0 = (Throw e, w').
Proof.
  unfold update_records. intros H.
  destruct (push_loop (update_record V opts) vs [] w) as [[rs o] w1] eqn:L.
  destruct o as [e0|]; [|discriminate]. inversion H; subst.
  apply push_loop_stops in L as (before & v & after & rs0 & w0 & -> & L & T).
  exists before, v, after, rs0, w0. split; [reflexivity|].
  rewrite L. split; [reflexivity|].
  unfold update_record in T.
  destruct (majorVersion v =? V)%N eqn:EV; [discriminate|].
  apply N.eqb_neq in EV. split; [exact EV|]. unfold bind in T.
  destruct (updateVersionFile v V opts w0) as [[r|e1] w2] eqn:U;
    [discriminate|].
  inversion T; subst. now apply updateVersionFile_throws_read in U.
Qed.

(** X7: an exception leaves [updateAllVersions] only from the scan or from
    the read an update function makes of a record that is not at the target:
    the records before it were updated, each with a result, and the
    exception and the world of the batch are those of [readFileSync] on the
    file of that record in the world these updates left.  A failing backup
    or write never leaves the batch. *)
Theorem update_throws_only_on_read root V options w e w' :
  updateAllVersions root V options w = (Throw e, w') ->
  scanVersions root w = (Throw e, w')
  \/ exists vs w1 before v after rs w0,
       scanVersions root w = (Ok vs, w1)
       /\ vs = before ++ v :: after
       /\ update_records before V (merge_options options) w1 = (Ok rs, w0)
       /\ majorVersion v <> V
       /\ readFileSync (VersionCheck.file v) w0 = (Throw e, w').
Proof.
  unfold updateAllVersions, bind. intros H.
  destruct (scanVersions root w) as [[vs|e0] w1] eqn:HS.
  - right. apply update_records_stops_at_read in H
      as (before & v & after & rs & w0 & -> & U & Hm & R).
    exists (before ++ v :: after), w1, before, v, after, rs, w0. auto 6.
  - left. now inversion H.
Qed.

Lemma update_throws_only_on_read_witness :
  exists e w',
    updateAllVersions (js "/p") 22 no_options project_read_fails_in_update
    = (Throw e, w')
    /\ (scanVersions (js "/p") project_read_fails_in_update = (Throw e, w')
        \/ exists vs w1 before v after rs w0,
             scanVersions (js "/p") project_read_fails_in_update = (Ok vs, w1)
             /\ vs = before ++ v :: after
             /\ update_records before 22 (merge_options no_options) w1
                = (Ok rs, w0)
             /\ majorVersion v <> 22%N
             /\ readFileSync (VersionCheck.file v) w0 = (Throw e, w')).
Proof.
  ran H (updateAllVersions (js "/p") 22 no_options project_read_fails_in_update).
  do 2 eexists. split; [exact H|].
  exact (update_throws_only_on_read _ _ _ _ H).
Defined.

(** X8: the three functions that read inside their handler never throw,
    whatever the files hold and whatever I/O fails. *)
Theorem handlers_never_throw root f V opts :
  never_throws (checkPackageJson root)
  /\ never_throws (checkGitHubWorkflows root)
  /\ never_throws (updatePackageJson f V opts).
Proof.
  split; [|split]; intros w.
  - apply checkPackageJson_returns.
  - apply checkGitHubWorkflows_returns.
  - apply updatePackageJson_never_throws.
Qed.

(** X9: when every scanned record is already at the target, the update
    reads nothing more and writes nothing: it returns, for each record, a
    success without backup, and the world is the one the scan left, with or
    without backups enabled and whatever I/O failure is still pending. *)
Theorem update_at_target_is_noop root V options w vs w1 :
  scanVersions root w = (Ok vs, w1) ->
  Forall (fun v => majorVersion v = V) vs ->
  updateAllVersions root V options w
  = (Ok (map (fun v => skipped v V) vs), w1).
Proof.
  intros S Hall. unfold updateAllVersions, bind. rewrite S.
  unfold update_records.
  assert (forall acc,
             push_loop (update_record V (merge_options options)) vs acc w1
             = ((acc ++ map (fun v => skipped v V) vs, None), w1)) as L.
  { clear S. induction Hall as [|v vs Hv Hall IH]; intros acc; simpl.
    - now rewrite app_nil_r.
    - unfold update_record at 1. rewrite Hv, N.eqb_refl. unfold ret.
      rewrite IH, <- app_assoc. reflexivity. }
  now rewrite L.
Qed.

Lemma update_at_target_is_noop_witness :
  let w := World [ (js "/p/.nvmrc", js "v22.3.0");
                   (js "/p/Dockerfile", js "FROM node:22-alpine") ]
                 [false; false; true] [] (js "/p") in
  exists vs w1,
    scanVersions (js "/p") w = (Ok vs, w1)
    /\ Forall (fun v => majorVersion v = 22%N) vs
    /\ updateAllVersions (js "/p") 22 no_options w
       = (Ok (map (fun v => skipped v 22) vs), w1).
Proof.
  intros w.
  ran HS (scanVersions (js "/p") w).
  match type of HS with
  | _ = (Ok ?vs, _) =>
      assert (Forall (fun v => majorVersion v = 22%N) vs) as F
          by (repeat constructor)
  end.
  do 2 eexists. split; [exact HS|]. split; [exact F|].
  exact (@update_at_target_is_noop (js "/p") 22 no_options w _ _ HS F).
Defined.

(* ------------------------------------------------------------------ *)
(** *** What an update leaves alone *)

Section Moves.

Variable R : list (jsstring * jsstring) -> list (jsstring * jsstring) -> Prop.
Hypothesis R_refl : forall fs, R fs fs.
Hypothesis R_trans : forall a b c, R a b -> R b c -> R a c.

Lemma moves_keeps {A : Type} (m : M A) : keeps_files m -> moves R m.
Proof. intros H w x w' E. rewrite (H _ _ _ E). apply R_refl. Qed.

Lemma moves_bind {A B : Type} (m : M A) (k : A -> M B) :
  moves R m -> (forall a, moves R (k a)) -> moves R (bind m k).
Proof.
  intros Hm Hk w x w' H. unfold bind in H.
  destruct (m w) as [[a|e] w1] eqn:E.
  - eapply R_trans; [eapply Hm; eauto | eapply Hk; eauto].
  - inversion H; subst. eapply Hm; eauto.
Qed.

Lemma moves_try {A : Type} (m : M A) (h : jsstring -> M A) :
  moves R m -> (forall e, moves R (h e)) -> moves R (try_catch m h).
Proof.
  intros Hm Hh w x w' H. unfold try_catch in H.
  destruct (m w) as [[a|e] w1] eqn:E.
  - inversion H; subst. eapply Hm; eauto.
  - eapply R_trans; [eapply Hm; eauto | eapply Hh; eauto].
Qed.

Lemma moves_push_loop {A B : Type} (body : A -> M (list B)) (xs : list A) :
  (forall x, moves R (body x)) ->
  forall acc w out w', push_loop body xs acc w = (out, w') ->
                       R (files w) (files w').
Proof.
  intros Hb. induction xs as [|x xs IH]; simpl; intros acc w out w' H.
  - inversion H. apply R_refl.
  - destruct (body x w) as [[pushed|e] w1] eqn:E.
    + eapply R_trans; [eapply Hb; eauto | eapply IH; eauto].
    + inversion H; subst. eapply Hb; eauto.
Qed.

End Moves.

(** A write changes nothing, or it stores under its path the content or,
    when it fails on the way, a prefix of the content. *)
Lemma writeFileSync_files p c w x w' :
  writeFileSync p c w = (x, w') ->
  files w' = files w
  \/ exists k, files w' = store_file p (firstn k c) (files w).
Proof.
  unfold writeFileSync. pose proof (pop_fault_files w) as F.
  destruct (pop_fault w) as [[|] w1]; simpl in F; cbv beta iota.
  - destruct (write_progress (faults w1)) as [[k|] rest].
    + rewrite F. destruct (is_dir p (files w)); intros H; inversion H; subst;
        simpl; rewrite ?F; eauto.
    + intros H. inversion H; subst. auto.
  - rewrite F. destruct (is_dir p (files w)); intros H; inversion H; subst;
      simpl; rewrite ?F; [auto|]. right. exists (length c).
    now rewrite firstn_all.
Qed.

Lemma copyFileSync_files src dst w x w' :
  copyFileSync src dst w = (x, w') ->
  files w' = files w
  \/ exists c, lookup_file src (files w) = Some c
               /\ files w' = store_file dst c (files w).
Proof.
  unfold copyFileSync. pose proof (pop_fault_files w) as F.
  destruct (pop_fault w) as [[|] w1]; simpl in F; cbv beta iota.
  - intros H. inversion H; subst. auto.
  - rewrite F. destruct (lookup_file src (files w)) as [c|] eqn:L.
    + destruct (is_dir dst (files w)); intros H; inversion H; subst;
        simpl; rewrite ?F; eauto.
    + intros H. inversion H; subst. auto.
Qed.

Lemma keeps_Date_now : keeps_files Date_now.
Proof.
  intros w x w' H. unfold Date_now in H.
  destruct (clock w); inversion H; reflexivity.
Qed.

(** Storing under a path that is there keeps the paths. *)
Lemma store_file_paths p c fs :
  lookup_file p fs <> None -> map fst (store_file p c fs) = map fst fs.
Proof.
  induction fs as [|[q c'] fs IH]; simpl; [congruence|].
  destruct (str_eqb p q) eqn:E; simpl.
  - apply str_eqb_eq in E. now subst.
  - intros H. now rewrite IH.
Qed.

Lemma lookup_paths p fs fs' :
  map fst fs' = map fst fs -> lookup_file p fs <> None ->
  lookup_file p fs' <> None.
Proof.
  revert fs'. induction fs as [|[q c] fs IH]; intros [|[q' c'] fs'];
    simpl; try discriminate; auto.
  intros H. injection H as -> H. destruct (str_eqb p q); [discriminate|].
  eauto.
Qed.

Lemma only_touches_refl f fs : only_touches f fs fs.
Proof. intros q _ _. reflexivity. Qed.

Lemma only_touches_trans f a b c :
  only_touches f a b -> only_touches f b c -> only_touches f a c.
Proof. intros H1 H2 q Hq Hb. rewrite H2, H1; auto. Qed.

Lemma same_paths_if_refl f fs : same_paths_if f fs fs.
Proof. intros _. reflexivity. Qed.

Lemma same_paths_if_trans f a b c :
  same_paths_if f a b -> same_paths_if f b c -> same_paths_if f a c.
Proof.
  unfold same_paths_if, same_paths. intros H1 H2 Ha.
  specialize (H1 Ha). rewrite H2, H1; eauto using lookup_paths.
Qed.

Lemma same_paths_refl fs : same_paths fs fs.
Proof. reflexivity. Qed.

Lemma same_paths_trans a b c : same_paths a b -> same_paths b c -> same_paths a c.
Proof. unfold same_paths. congruence. Qed.

Lemma touches_writeFileSync f c : moves (only_touches f) (writeFileSync f c).
Proof.
  intros w x w' H. apply writeFileSync_files in H as [-> | [k ->]].
  - apply only_touches_refl.
  - intros q Hq _. apply lookup_store_other. congruence.
Qed.

Lemma touches_backupFile f : moves (only_touches f) (backupFile f).
Proof.
  unfold backupFile.
  apply moves_bind;
    [ apply only_touches_trans
    | apply moves_keeps; [apply only_touches_refl|apply keeps_Date_now] |].
  intros ts.
  apply moves_bind; [apply only_touches_trans | |].
  - intros w x w' H. apply copyFileSync_files in H as [-> | (c & _ & ->)].
    + apply only_touches_refl.
    + intros q _ Hb. apply lookup_store_other. intros E. apply (Hb ts).
      now symmetry.
  - intros _. apply moves_keeps; [apply only_touches_refl|apply keeps_ret].
Qed.

Lemma paths_writeFileSync f c : moves (same_paths_if f) (writeFileSync f c).
Proof.
  intros w x w' H Hf. apply writeFileSync_files in H as [-> | [k ->]].
  - reflexivity.
  - now apply store_file_paths.
Qed.

(** Closing a goal [moves R m] by the structure of [m]. *)
Ltac moves refl trans leaf :=
  repeat first
    [ solve [leaf]
    | solve [apply moves_keeps; [exact refl | auto with keeps]]
    | apply moves_bind; [exact trans | | intros ?]
    | apply moves_try; [exact trans | | intros ?]
    | match goal with
      | |- moves _ (if ?b then _ else _) => destruct b
      | |- moves _ (match ?x with _ => _ end) => destruct x
      | |- moves _ (let '(_, _) := ?x in _) => destruct x
      end ].

Lemma touches_updateVersionFile v V opts :
  moves (only_touches (VersionCheck.file v)) (updateVersionFile v V opts).
Proof.
  unfold updateVersionFile, updateNvmrc, updateNodeVersionFile,
    updateDockerfile, updateDockerCompose, update_version_file,
    updatePackageJson, update_image_file, updateGitHubWorkflow,
    updateToolVersions, backup_and_write.
  moves (@only_touches_refl (VersionCheck.file v))
        (@only_touches_trans (VersionCheck.file v))
        ltac:(first [apply touches_writeFileSync | apply touches_backupFile]).
Qed.

(** X10: whatever its outcome, the update of a record changes no file other
    than the file of the record and backups of that file. *)
Theorem update_touches_only_its_file v V opts w x w' q :
  updateVersionFile v V opts w = (x, w') ->
  q <> VersionCheck.file v ->
  (forall ts, q <> backup_path (VersionCheck.file v) ts) ->
  lookup_file q (files w') = lookup_file q (files w).
Proof.
  intros H Hq Hb. exact (@touches_updateVersionFile v V opts w x w' H q Hq Hb).
Qed.

Lemma update_touches_only_its_file_witness :
  exists v x w',
    nth_error sample_records 0 = Some v
    /\ updateVersionFile v 22 real_with_backup sample_project = (x, w')
    /\ js "/p/Dockerfile" <> VersionCheck.file v
    /\ (forall ts, js "/p/Dockerfile" <> backup_path (VersionCheck.file v) ts)
    /\ lookup_file (js "/p/Dockerfile") (files w')
       = lookup_file (js "/p/Dockerfile") (files sample_project).
Proof.
  eexists. eexists. eexists. split; [reflexivity|].
  match goal with
  | |- ?run = _ /\ _ => ran H run
  end.
  split; [exact H|].
  assert (js "/p/Dockerfile" <> js "/p/.nvmrc") as Hq by discriminate.
  assert (forall ts, js "/p/Dockerfile" <> backup_path (js "/p/.nvmrc") ts)
    as Hb by (intros ts; discriminate).
  split; [exact Hq|]. split; [exact Hb|].
  exact (@update_touches_only_its_file _ _ _ _ _ _ _ H Hq Hb).
Defined.

(* ------------------------------------------------------------------ *)
(** *** Runs without backups *)

Lemma paths_after_read {A : Type} f (k : jsstring -> M A) :
  (forall c, moves (same_paths_if f) (k c)) ->
  moves same_paths (bind (readFileSync f) k).
Proof.
  intros Hk w x w' H. unfold bind in H.
  destruct (readFileSync f w) as [[c|e] w1] eqn:E.
  - apply readFileSync_ok in E as [L F]. unfold same_paths.
    rewrite <- F. apply (Hk c _ _ _ H). rewrite F. congruence.
  - inversion H; subst. apply keeps_readFileSync in E. unfold same_paths.
    now rewrite E.
Qed.

Lemma paths_updateVersionFile v V d :
  moves same_paths (updateVersionFile v V (mkUpdateOptions d false)).
Proof.
  unfold updateVersionFile, updateNvmrc, updateNodeVersionFile,
    updateDockerfile, updateDockerCompose, update_version_file,
    updatePackageJson, update_image_file, updateGitHubWorkflow,
    updateToolVersions, backup_and_write.
  cbn [backup dryRun].
  repeat match goal with
         | |- context [if str_eqb ?a ?b then _ else _] =>
             destruct (str_eqb a b)
         end;
    try (apply moves_keeps; [exact same_paths_refl | apply keeps_ret]);
    (apply moves_bind;
     [ exact same_paths_trans
     | apply moves_keeps; [exact same_paths_refl | apply keeps_process_cwd]
     | intros dir ]);
    try (apply moves_try;
         [ exact same_paths_trans |
         | intros e; apply moves_keeps;
           [exact same_paths_refl | apply keeps_ret] ]);
    apply paths_after_read; intros c;
    moves (@same_paths_if_refl (VersionCheck.file v))
          (@same_paths_if_trans (VersionCheck.file v))
          ltac:(apply paths_writeFileSync).
Qed.

(** X11: a run with backups disabled creates no file and removes none:
    whatever its outcome, the paths of the project are afterwards the
    same, in the same order. *)
Theorem no_backup_creates_no_file root V d w :
  map fst (files (snd (updateAllVersions root V
                         (mkPartialOptions d (Some false)) w)))
  = map fst (files w).
Proof.
  assert (moves same_paths
            (updateAllVersions root V (mkPartialOptions d (Some false)))) as M.
  { unfold updateAllVersions.
    apply moves_bind;
      [ exact same_paths_trans
      | apply moves_keeps; [exact same_paths_refl | apply keeps_scanVersions]
      | intros vs ].
    intros w0 x w' H. unfold update_records in H.
    destruct (push_loop _ _ _ _) as [[rs o] w1] eqn:L.
    assert (same_paths (files w0) (files w1)) as P.
    { eapply (@moves_push_loop same_paths same_paths_refl same_paths_trans);
        [|exact L].
      intros v. unfold update_record.
      destruct (majorVersion v =? V)%N.
      - apply moves_keeps; [exact same_paths_refl | apply keeps_ret].
      - apply moves_bind; [exact same_paths_trans | |].
        + unfold merge_options. cbn [dryRun_opt backup_opt].
          apply paths_updateVersionFile.
        + intros r. apply moves_keeps; [exact same_paths_refl | apply keeps_ret]. }
    destruct o; inversion H; subst; exact P. }
  destruct (updateAllVersions root V (mkPartialOptions d (Some false)) w)
    as [x w'] eqn:E.
  exact (M _ _ _ E).
Qed.

(* ------------------------------------------------------------------ *)
(** *** What a failed update leaves *)

Lemma keeps_target_refl f fs : keeps_target f fs fs.
Proof. reflexivity. Qed.

Lemma keeps_target_trans f a b c :
  keeps_target f a b -> keeps_target f b c -> keeps_target f a c.
Proof. unfold keeps_target. congruence. Qed.

Lemma copyFileSync_throw src dst w e w' :
  copyFileSync src dst w = (Throw e, w') -> files w' = files w.
Proof.
  unfold copyFileSync. pose proof (pop_fault_files w) as F.
  destruct (pop_fault w) as [[|] w1]; simpl in F; cbv beta iota.
  - intros H. inversion H; subst. exact F.
  - destruct (lookup_file src (files w1)).
    + destruct (is_dir dst (files w1)); intros H; inversion H; subst.
      exact F.
    + intros H. inversion H; subst. exact F.
Qed.

Lemma protects_moves f (m : M UpdateResult) :
  moves (keeps_target f) m -> protects f m.
Proof. intros H w x w' E. left. eapply H; eauto. Qed.

Lemma protects_bind {A : Type} f (m : M A) (k : A -> M UpdateResult) :
  keeps_files m -> (forall a, protects f (k a)) -> protects f (bind m k).
Proof.
  intros Hm Hk w x w' H. unfold bind in H.
  destruct (m w) as [[a|e] w1] eqn:E; pose proof (Hm _ _ _ E) as F.
  - unfold protects, keeps_target in Hk. rewrite <- F. eapply Hk; eauto.
  - inversion H; subst. left. unfold keeps_target. now rewrite F.
Qed.

Lemma protects_try f (m : M UpdateResult) h :
  protects f m -> (forall e, keeps_files (h e)) -> protects f (try_catch m h).
Proof.
  intros Hm Hh w x w' H. unfold try_catch in H.
  destruct (m w) as [[a|e] w1] eqn:E.
  - inversion H; subst. eapply Hm; eauto.
  - apply Hh in H. rewrite H.
    destruct (Hm _ _ _ E) as [K | [B | (r & Hr & _)]]; [auto|auto|discriminate].
Qed.

(** The backup and the write of an update: when the write fails on the way,
    the backup made just before holds what the file held. *)
Lemma protects_backup_write f c (result : bool -> UpdateResult) :
  (forall b, success (result b) = true) ->
  protects f
    (bind (bind (backupFile f) (fun _ => ret true))
          (fun backedUp =>
             bind (writeFileSync f c) (fun _ => ret (result backedUp)))).
Proof.
  intros Hs w x w' H. unfold backupFile, bind, ret in H.
  destruct (Date_now w) as [[ts|e] w1] eqn:D;
    pose proof (keeps_Date_now _ D) as F1.
  - destruct (copyFileSync f (backup_path f ts) w1) as [[u|e] w2] eqn:C.
    + destruct u. apply copyFileSync_ok in C as (c0 & L & F2).
      destruct (writeFileSync f c w2) as [[u'|e] w3] eqn:W.
      * inversion H; subst. right. right. eauto.
      * inversion H; subst. right. left. exists ts.
        rewrite <- F1, L.
        apply writeFileSync_files in W as [-> | [k ->]]; rewrite F2.
        -- apply lookup_store_same.
        -- rewrite lookup_store_other
             by (intros E; symmetry in E; revert E; apply backup_path_fresh).
           apply lookup_store_same.
    + inversion H; subst. left. apply copyFileSync_throw in C.
      unfold keeps_target. congruence.
  - inversion H; subst. left. unfold keeps_target. now rewrite F1.
Qed.

(** Closing a goal [protects f m] by the structure of [m]. *)
Ltac protects f :=
  repeat first
    [ solve [apply protects_backup_write; intros ?; reflexivity]
    | solve [apply protects_moves; apply moves_keeps;
             [exact (@keeps_target_refl f) | auto with keeps]]
    | apply protects_try; [|intros ?; apply keeps_ret]
    | apply protects_bind; [solve [auto with keeps] | intros ?]
    | match goal with
      | |- protects _ (if ?b then _ else _) => destruct b
      | |- protects _ (match ?x with _ => _ end) => destruct x
      | |- protects _ (let '(_, _) := ?x in _) => destruct x
      end ].

Lemma protects_updateVersionFile v V dry :
  protects (VersionCheck.file v)
    (updateVersionFile v V (mkUpdateOptions dry true)).
Proof.
  unfold updateVersionFile, updateNvmrc, updateNodeVersionFile,
    updateDockerfile, updateDockerCompose, update_version_file,
    updatePackageJson, update_image_file, updateGitHubWorkflow,
    updateToolVersions, backup_and_write.
  cbn [backup dryRun].
  protects (VersionCheck.file v).
Qed.

(** X12: with backups on, an update that does not end in a success has not
    lost what the file of its record held: the file is as it was, or, when
    the write failed after the file was opened, the backup made just before
    holds it. *)
Theorem failed_update_keeps_file_or_backup v V opts w x w' :
  backup opts = true ->
  updateVersionFile v V opts w = (x, w') ->
  (forall r, x = Ok r -> success r = false) ->
  lookup_file (VersionCheck.file v) (files w')
  = lookup_file (VersionCheck.file v) (files w)
  \/ exists ts,
       lookup_file (backup_path (VersionCheck.file v) ts) (files w')
       = lookup_file (VersionCheck.file v) (files w).
Proof.
  intros Hb H Hs. destruct opts as [dry b]. cbn [backup] in Hb. subst b.
  destruct (@protects_updateVersionFile v V dry _ _ _ H)
    as [K | [B | (r & E & S)]]; [left; exact K | right; exact B |].
  specialize (Hs r E). congruence.
Qed.

Lemma failed_update_keeps_file_or_backup_witness :
  let w := World (files sample_project) [false; false; true; true]
                 [1700000000000%N] (js "/p") in
  exists v r w',
    nth_error sample_records 0 = Some v
    /\ backup real_with_backup = true
    /\ updateVersionFile v 22 real_with_backup w = (Ok r, w')
    /\ success r = false
    /\ lookup_file (VersionCheck.file v) (files w') = Some []
    /\ (lookup_file (VersionCheck.file v) (files w')
        = lookup_file (VersionCheck.file v) (files w)
        \/ exists ts,
             lookup_file (backup_path (VersionCheck.file v) ts) (files w')
             = lookup_file (VersionCheck.file v) (files w)).
Proof.
  intros w.
  eexists. eexists. eexists. split; [reflexivity|]. split; [reflexivity|].
  match goal with
  | |- ?run = _ /\ _ => ran H run
  end.
  split; [exact H|]. split; [reflexivity|]. split; [reflexivity|].
  apply (@failed_update_keeps_file_or_backup _ _ real_with_backup _ _ _
           eq_refl H).
  intros r E. injection E as <-. reflexivity.
Defined.

(* ------------------------------------------------------------------ *)
(** *** Backups and later scans *)

Lemma last_append (a b : jsstring) d : b <> [] -> last (a ++ b) d = last b d.
Proof.
  intros Hb. induction a as [|x a IH]; [reflexivity|].
  simpl. rewrite IH. destruct (a ++ b) eqn:E; [|reflexivity].
  apply app_eq_nil in E as [_ ->]. contradiction.
Qed.

Lemma endsWith_last s suffix d :
  endsWith s suffix = true -> suffix <> [] -> last s d = last suffix d.
Proof.
  unfold endsWith. intros H Hne. apply andb_true_iff in H as [H _].
  apply str_eqb_eq in H.
  rewrite <- (firstn_skipn (length s - length suffix) s), H.
  now apply last_append.
Qed.

Lemma last_digit ds d :
  ds <> [] -> forallb is_digit ds = true -> is_digit (last ds d) = true.
Proof.
  intros Hne H. induction ds as [|x ds IH]; [contradiction|].
  simpl in H. apply andb_true_iff in H as [Hx H].
  destruct ds as [|y ds]; [exact Hx|].
  change (last (x :: y :: ds) d) with (last (y :: ds) d).
  apply IH; [discriminate|exact H].
Qed.

Lemma decimal_last n : is_digit (last (decimal n) 0%N) = true.
Proof. apply last_digit; [apply decimal_nonempty|apply decimal_digits]. Qed.

(** The text of a number ends with a digit, or it is [Infinity]: it never
    ends with the letter l. *)
Lemma toString_last n : last (toString n) 0%N <> 108%N.
Proof.
  assert (forall m, last (decimal m) 0%N <> 108%N) as D.
  { intros m E. pose proof (decimal_last m) as H. rewrite E in H.
    discriminate. }
  unfold toString. destruct (n <? 9007199254740992)%N; [apply D|].
  destruct (Infinity <=? n)%N; [discriminate|].
  unfold large_text. destruct (shortest n _) as [s p].
  destruct (length (decimal s) + p <=? 21)%nat.
  - destruct p as [|p]; [simpl; rewrite app_nil_r; apply D|].
    rewrite last_append by discriminate.
    clear. induction p as [|p IH]; [discriminate|]. exact IH.
  - destruct (rev _) as [|d more]; [apply D|].
    rewrite app_comm_cons, !last_append;
      [apply D|apply decimal_nonempty|].
    intros E. apply app_eq_nil in E as [E _]. discriminate.
Qed.

(** X13: a backup is never taken for a workflow file by a later scan: the
    name of a backup ends with the text of its timestamp (digits, or
    [Infinity]), so it passes neither of the two tests on the extension. *)
Theorem backup_is_no_workflow name timestamp :
  is_workflow_name (backup_path name timestamp) = false.
Proof.
  assert (last (backup_path name timestamp) 0%N <> 108%N) as Hd.
  { unfold backup_path. rewrite app_assoc.
    rewrite last_append by apply toString_nonempty.
    apply toString_last. }
  unfold is_workflow_name. apply orb_false_iff. split.
  - destruct (endsWith _ (js ".yml")) eqn:E; [|reflexivity].
    apply (@endsWith_last _ _ 0%N) in E; [|discriminate].
    now rewrite E in Hd.
  - destruct (endsWith _ (js ".yaml")) eqn:E; [|reflexivity].
    apply (@endsWith_last _ _ 0%N) in E; [|discriminate].
    now rewrite E in Hd.
Qed.

(* ------------------------------------------------------------------ *)
(** *** Scanning what an update has written *)

Lemma read_back f c w :
  faults w = [] -> lookup_file f (files w) = Some c ->
  existsSync f w = (Ok true, w) /\ readFileSync f w = (Ok c, w).
Proof.
  intros Hf L. split; [|now apply readFileSync_run].
  rewrite existsSync_run. unfold is_file. now rewrite L.
Qed.

Lemma exec_leading_written V {Hsafe : safe_integer V} :
  exec re_leading_version (toString V)
  = Some (MRes (toString V) [Some (toString V)] []).
Proof.
  pose proof (@toString_digits V _) as Hd.
  pose proof (toString_nonempty V) as Hne.
  pose proof (@span_run is_digit (toString V) [] Hd I) as Hs.
  rewrite app_nil_r in Hs.
  assert (exec_atom (Opt (fun c => (c =? 118)%N)) (toString V)
          = Some ([], toString V)) as Ho.
  { destruct (toString V) as [|d ds]; [contradiction|]. simpl in Hd.
    apply andb_true_iff in Hd as [Hd _]. cbn [exec_atom].
    now rewrite digit_not_v. }
  unfold re_leading_version. cbn [exec]. rewrite Ho. cbn [exec_atom].
  rewrite Hs. destruct (toString V) as [|d ds] eqn:E; [contradiction|].
  cbn [capture matched groups rest app]. now rewrite app_nil_r.
Qed.

(** X14: for a target that is a safe integer, a successful real update of
    [.nvmrc] or of [.node-version] leaves a file that the matching check
    reads back as the target: the record has the target as its major and
    its decimal text as both displayed values. *)
Theorem version_file_update_then_check name tag root V opts w r w' :
  safe_integer V ->
  dryRun opts = false ->
  update_version_file (path_join root name) V opts w = (Ok r, w') ->
  success r = true ->
  faults w' = [] ->
  exists v,
    check_version_file name tag root w' = (Ok (Some v), w')
    /\ majorVersion v = V
    /\ fullVersion v = toString V
    /\ currentVersion v = toString V.
Proof.
  intros HV Hdry H Hs Hf. unfold update_version_file in H.
  peel H as dir w1 C. peel H as raw w2 R. rewrite Hdry in H.
  apply backup_and_write_written in H; [|exact Hs].
  destruct (@read_back _ _ _ Hf H) as [Ex Rd].
  unfold check_version_file, bind. rewrite Ex. cbn [negb]. rewrite Rd.
  rewrite trim_written, exec_leading_written.
  eexists. split; [reflexivity|]. cbn. unfold group. cbn.
  split; [apply parseInt_toString|]. split; reflexivity.
Qed.

Lemma version_file_update_then_check_witness :
  exists r w' v,
    safe_integer 22
    /\ dryRun real_with_backup = false
    /\ update_version_file (path_join (js "/p") (js ".nvmrc")) 22
         real_with_backup sample_project = (Ok r, w')
    /\ success r = true
    /\ faults w' = []
    /\ check_version_file (js ".nvmrc") (js "nvmrc") (js "/p") w'
       = (Ok (Some v), w')
    /\ majorVersion v = 22%N
    /\ fullVersion v = toString 22
    /\ currentVersion v = toString 22.
Proof.
  ran H (update_version_file (path_join (js "/p") (js ".nvmrc")) 22
           real_with_backup sample_project).
  destruct (@version_file_update_then_check (js ".nvmrc") (js "nvmrc")
              (js "/p") 22 real_with_backup sample_project _ _
              eq_refl eq_refl H eq_refl eq_refl) as (v & Hv).
  do 3 eexists. split; [reflexivity|]. split; [reflexivity|].
  split; [exact H|].
  split; [reflexivity|]. split; [reflexivity|]. exact Hv.
Defined.

(** After the rewrite of the [nodejs] line the first occurrence of the
    pattern is the rewritten line. *)
Lemma tool_versions_rewrite_found content pre m V {Hsafe : safe_integer V} :
  regex_search re_nodejs content = Some (pre, m) ->
  regex_search re_nodejs
    (replace_first re_nodejs (js "nodejs " ++ toString V) content)
  = Some (pre, MRes (js "nodejs " ++ toString V) [Some (toString V)] (rest m)).
Proof.
  intros E.
  destruct (@tool_versions_rewrite_stable content pre m V _ E)
    as (m' & E' & P & S).
  rewrite E'. f_equal. f_equal.
  pose proof (regex_search_app _ _ E') as [Es' Em'].
  pose proof (regex_search_app _ _ E) as [Es Em].
  rewrite (@replace_first_plain _ _ _ _ _ E (@nodejs_line_plain V _)) in Es'.
  apply app_inv_head in Es'.
  assert (match rest m with [] => True | c :: _ => is_digit c = false end)
    as Hstop.
  { pose proof Em as H. rewrite re_nodejs_split in H.
    apply exec_split in H as (r1 & r2 & _ & H2 & _ & _ & Hr); [|reflexivity].
    apply exec_digits_cap in H2 as (ds & s1 & r3 & Hd & _ & H3 & _ & _ & Hr2).
    cbn [exec] in H3. injection H3 as <-. cbn [rest] in Hr2.
    rewrite Hr, Hr2. eapply span_stop; eauto. }
  pose proof (@exec_nodejs_written V (rest m) _ Hstop) as Ex.
  rewrite <- app_assoc in Es'. rewrite Es' in Ex. congruence.
Qed.

(** X15: for a target that is a safe integer, a successful real update of
    [.tool-versions] leaves a file in which [checkToolVersions] finds the
    target. *)
Theorem tool_versions_update_then_check root V opts w r w' :
  safe_integer V ->
  dryRun opts = false ->
  updateToolVersions (path_join root (js ".tool-versions")) V opts w
  = (Ok r, w') ->
  success r = true ->
  faults w' = [] ->
  exists v,
    checkToolVersions root w' = (Ok (Some v), w')
    /\ majorVersion v = V
    /\ fullVersion v = toString V.
Proof.
  intros HV Hdry H Hs Hf. unfold updateToolVersions in H.
  peel H as dir w1 C. peel H as content w2 R.
  destruct (regex_search re_nodejs content) as [[pre m]|] eqn:E;
    [|inversion H; subst; discriminate].
  cbv zeta in H. rewrite Hdry in H.
  apply backup_and_write_written in H; [|exact Hs].
  destruct (@read_back _ _ _ Hf H) as [Ex Rd].
  unfold checkToolVersions, bind. rewrite Ex. cbn [negb]. rewrite Rd.
  rewrite (@tool_versions_rewrite_found content pre m V _ E).
  eexists. split; [reflexivity|]. cbn [majorVersion fullVersion].
  unfold group. cbn [groups nth_error or_empty].
  split; [apply parseInt_toString|reflexivity].
Qed.

Lemma tool_versions_update_then_check_witness :
  exists r w' v,
    safe_integer 22
    /\ dryRun real_with_backup = false
    /\ updateToolVersions (path_join (js "/p") (js ".tool-versions")) 22
         real_with_backup sample_project = (Ok r, w')
    /\ success r = true
    /\ faults w' = []
    /\ checkToolVersions (js "/p") w' = (Ok (Some v), w')
    /\ majorVersion v = 22%N
    /\ fullVersion v = toString 22.
Proof.
  ran H (updateToolVersions (path_join (js "/p") (js ".tool-versions")) 22
           real_with_backup sample_project).
  destruct (@tool_versions_update_then_check (js "/p") 22 real_with_backup
              sample_project _ _ eq_refl eq_refl H eq_refl eq_refl)
    as (v & Hv).
  do 3 eexists. split; [reflexivity|]. split; [reflexivity|].
  split; [exact H|].
  split; [reflexivity|]. split; [reflexivity|]. exact Hv.
Defined.

(** X16: for a target that is a safe integer, a successful real update of a
    Dockerfile or of a docker-compose.yml whose tag holds no dollar sign
    leaves a file in which the matching check finds the target followed by
    the same tag, which is also the new value the result reports. *)
Theorem image_update_then_check name tag pat hd miss root V opts w r w'
    content pre m :
  safe_integer V ->
  (pat = re_from /\ hd = js "FROM node:")
  \/ (pat = re_image /\ hd = js "image: node:") ->
  dryRun opts = false ->
  lookup_file (path_join root name) (files w) = Some content ->
  regex_search pat content = Some (pre, m) ->
  plain (or_empty (group 2 m)) = true ->
  update_image_file pat hd miss (path_join root name) V opts w = (Ok r, w') ->
  success r = true ->
  faults w' = [] ->
  exists v,
    check_image_file name tag pat root w' = (Ok (Some v), w')
    /\ majorVersion v = V
    /\ fullVersion v = toString V ++ or_empty (group 2 m)
    /\ fullVersion v = newVersion r.
Proof.
  intros HV Hp Hdry L E Hpl H Hs Hf. unfold update_image_file in H.
  peel H as dir w1 C. peel H as content0 w2 R.
  apply process_cwd_ok in C. subst w1.
  apply readFileSync_ok in R as [L0 _]. rewrite L in L0. injection L0 as <-.
  rewrite E in H. cbv zeta in H. rewrite Hdry in H.
  assert (newVersion r = toString V ++ or_empty (group 2 m)) as Hn.
  { pose proof H as H1. unfold backup_and_write in H1.
    apply try_ok in H1 as [H1 | (e & w3 & _ & H1)].
    - peel H1 as b w3 B. peel H1 as u w4 W. now inversion H1.
    - now inversion H1. }
  apply backup_and_write_written in H; [|exact Hs].
  destruct (@read_back _ _ _ Hf H) as [Ex Rd].
  destruct (@image_rewrite_found pat hd content pre m V _ Hp E Hpl)
    as (m' & E' & G1 & G2 & _ & _).
  unfold check_image_file, bind. rewrite Ex. cbn [negb]. rewrite Rd, E'.
  eexists. split; [reflexivity|]. cbn [majorVersion fullVersion].
  rewrite G1, G2. cbn [or_empty].
  split; [apply parseInt_toString|]. split; [reflexivity|now rewrite Hn].
Qed.

Lemma image_update_then_check_witness :
  let content := js "FROM node:20-slim" ++ newline ++ js "RUN true" in
  exists m r w' v,
    safe_integer 22
    /\ ((re_from = re_from /\ js "FROM node:" = js "FROM node:")
        \/ (re_from = re_image /\ js "FROM node:" = js "image: node:"))
    /\ dryRun real_with_backup = false
    /\ lookup_file (path_join (js "/p") (js "Dockerfile"))
         (files sample_project) = Some content
    /\ regex_search re_from content = Some ([], m)
    /\ plain (or_empty (group 2 m)) = true
    /\ update_image_file re_from (js "FROM node:")
         (js "No FROM node: line found")
         (path_join (js "/p") (js "Dockerfile")) 22 real_with_backup
         sample_project = (Ok r, w')
    /\ success r = true
    /\ faults w' = []
    /\ check_image_file (js "Dockerfile") (js "dockerfile") re_from
         (js "/p") w' = (Ok (Some v), w')
    /\ majorVersion v = 22%N
    /\ fullVersion v = toString 22 ++ or_empty (group 2 m)
    /\ fullVersion v = newVersion r.
Proof.
  intros content.
  ran E (regex_search re_from content).
  ran H (update_image_file re_from (js "FROM node:")
           (js "No FROM node: line found")
           (path_join (js "/p") (js "Dockerfile")) 22 real_with_backup
           sample_project).
  assert ((re_from = re_from /\ js "FROM node:" = js "FROM node:")
          \/ (re_from = re_image /\ js "FROM node:" = js "image: node:"))
    as Hp by (left; split; reflexivity).
  assert (lookup_file (path_join (js "/p") (js "Dockerfile"))
            (files sample_project) = Some content) as L
      by (vm_compute; reflexivity).
  match type of E with
  | _ = Some (_, ?m) =>
      assert (plain (or_empty (group 2 m)) = true) as Hpl
          by (vm_compute; reflexivity)
  end.
  match type of H with
  | _ = (Ok ?r, ?w') =>
      assert (success r = true) as Hs by (vm_compute; reflexivity);
      assert (faults w' = []) as Hf by (vm_compute; reflexivity)
  end.
  destruct (@image_update_then_check (js "Dockerfile") (js "dockerfile")
              re_from (js "FROM node:") (js "No FROM node: line found")
              (js "/p") 22 real_with_backup sample_project _ _ content _ _
              eq_refl Hp eq_refl L E Hpl H Hs Hf) as (v & Hv).
  do 4 eexists. split; [reflexivity|]. split; [exact Hp|].
  split; [reflexivity|].
  split; [exact L|]. split; [exact E|]. split; [exact Hpl|].
  split; [exact H|]. split; [exact Hs|]. split; [exact Hf|]. exact Hv.
Defined.

(* ------------------------------------------------------------------ *)

Lemma rewritten_all_first pat repl s out pre m :
  rewritten_all pat repl s out -> regex_search pat s = Some (pre, m) ->
  exists out', out = pre ++ repl ++ out'.
Proof.
  intros H E. destruct H as [s Hn | s pre0 m0 out0 E0 Hr]; [congruence|].
  rewrite E in E0. injection E0 as <- <-. eauto.
Qed.

Lemma search_some pat s a b m :
  s = a ++ b -> exec pat b = Some m -> regex_search pat s <> None.
Proof.
  intros Hs Hb Hn. rewrite (search_none_everywhere _ Hn _ _ Hs) in Hb.
  discriminate.
Qed.

(** A workflow pattern matches its key followed by the quoted target. *)
Lemma workflow_quoted_matches pat K V z {Hsafe : safe_integer V} :
  (pat = re_node_version /\ K = js "node-version:")
  \/ (pat = re_NODE_VERSION /\ K = js "NODE_VERSION:") ->
  exec pat ((K ++ js " '" ++ toString V ++ js "'") ++ z)
  = Some (MRes (K ++ js " '" ++ toString V ++ js "'") [Some (toString V)] z).
Proof.
  intros Hp.
  assert (pat = lits true K ++ after_key) as ->
      by (destruct Hp as [[-> ->] | [-> ->]]; reflexivity).
  rewrite <- !app_assoc, exec_cat, exec_lits_same. cbn [rest].
  change (js " '" ++ toString V ++ js "'" ++ z)
    with (32 :: 39 :: toString V ++ 39 :: z)%N.
  rewrite exec_after_key by auto using toString_nonempty, toString_digits.
  reflexivity.
Qed.

(** After the two rewrites that found a key, a key is there to be found. *)
Lemma rewrite_workflow_found content V c2 old {Hsafe : safe_integer V} :
  rewrite_workflow content V = (c2, old, true) ->
  regex_search re_node_version c2 <> None
  \/ regex_search re_NODE_VERSION c2 <> None.
Proof.
  intros H.
  pose proof (@rewrite_workflow_steps _ _ _ _ _ _ H) as (c1 & R1 & R2).
  destruct (regex_search re_NODE_VERSION c1) as [[pre2 m2]|] eqn:E2.
  - right. destruct (rewritten_all_first R2 E2) as (out & ->).
    eapply (@search_some _ _ pre2 (quoted_NODE_VERSION V ++ out));
      [reflexivity|].
    apply (@workflow_quoted_matches re_NODE_VERSION (js "NODE_VERSION:"));
    auto.
  - left. inversion R2 as [s Hn | s pre0 m0 out0 E0 Hr]; [|congruence].
    subst. unfold rewrite_workflow in H.
    destruct (regex_search re_node_version content) as [[pre1 m1]|] eqn:E1.
    + destruct (rewritten_all_first R1 E1) as (out & ->).
      eapply (@search_some _ _ pre1 (quoted_node_version V ++ out));
        [reflexivity|].
      apply (@workflow_quoted_matches re_node_version (js "node-version:"));
      auto.
    + exfalso. inversion R1 as [s Hn1 | s pre0 m0 out0 E0 Hr]; [|congruence].
      subst. rewrite E2 in H. discriminate.
Qed.

(** Whatever key the scan finds in a rewritten workflow content, its
    integer is the decimal text of the target. *)
Lemma rewritten_workflow_group content V c2 old upd pat pre m
  {Hsafe : safe_integer V} :
  rewrite_workflow content V = (c2, old, upd) ->
  pat = re_node_version \/ pat = re_NODE_VERSION ->
  regex_search pat c2 = Some (pre, m) ->
  group 1 m = Some (toString V).
Proof.
  intros H Hp E. apply rewrite_workflow_steps in H as (c1 & R1 & R2); try assumption.
  destruct (workflow_occurrences R1 R2) as [O1 O2].
  pose proof (regex_search_app _ _ E) as [Es Em].
  destruct Hp as [-> | ->].
  - assert (matched m = quoted_node_version V) as Hm by (eapply (O1 pre); eauto).
    rewrite Hm in Em.
    apply (@workflow_quoted_exact re_node_version (js "node-version:")) in Em
        as [_ G]; auto.
  - assert (matched m = quoted_NODE_VERSION V) as Hm by (eapply (O2 pre); eauto).
    rewrite Hm in Em.
    apply (@workflow_quoted_exact re_NODE_VERSION (js "NODE_VERSION:")) in Em
        as [_ G]; auto.
Qed.

(** X17: for a target that is a safe integer, a successful real update of a
    workflow file leaves a file from which the scan makes one record, with
    the target as its major and as its displayed value. *)
Theorem workflow_update_then_check dir name V opts w r w' :
  safe_integer V ->
  dryRun opts = false ->
  updateGitHubWorkflow (path_join dir name) V opts w = (Ok r, w') ->
  success r = true ->
  faults w' = [] ->
  exists v,
    check_workflow_file dir name w' = (Ok [v], w')
    /\ majorVersion v = V
    /\ fullVersion v = toString V.
Proof.
  intros HV Hdry H Hs Hf. unfold updateGitHubWorkflow in H.
  peel H as cwd w1 C. peel H as content w2 R.
  destruct (rewrite_workflow content V) as [[c2 old] upd] eqn:RW.
  destruct upd; cbn [negb] in H; [|inversion H; subst; discriminate].
  rewrite Hdry in H.
  apply backup_and_write_written in H; [|exact Hs].
  destruct (@read_back _ _ _ Hf H) as [_ Rd].
  unfold check_workflow_file, bind. rewrite Rd.
  destruct (regex_search re_node_version c2) as [[pre m]|] eqn:E1.
  - pose proof (@rewritten_workflow_group _ _ _ _ _ _ _ _ _ RW (or_introl eq_refl) E1) as G.
    eexists. split; [reflexivity|]. unfold workflow_record.
    cbn [majorVersion fullVersion]. rewrite G. cbn [or_empty].
    split; [apply parseInt_toString|reflexivity].
  - destruct (regex_search re_NODE_VERSION c2) as [[pre m]|] eqn:E2.
    + pose proof (@rewritten_workflow_group _ _ _ _ _ _ _ _ _ RW (or_intror eq_refl) E2) as G.
      eexists. split; [reflexivity|]. unfold workflow_record.
      cbn [majorVersion fullVersion]. rewrite G. cbn [or_empty].
      split; [apply parseInt_toString|reflexivity].
    + exfalso. destruct (@rewrite_workflow_found _ _ _ _ _ RW) as [F | F]; congruence.
Qed.

Lemma workflow_update_then_check_witness :
  let dir := workflowDir (js "/p") in
  exists r w' v,
    safe_integer 22
    /\ dryRun real_with_backup = false
    /\ updateGitHubWorkflow (path_join dir (js "ci.yml")) 22 real_with_backup
         sample_project = (Ok r, w')
    /\ success r = true
    /\ faults w' = []
    /\ check_workflow_file dir (js "ci.yml") w' = (Ok [v], w')
    /\ majorVersion v = 22%N
    /\ fullVersion v = toString 22.
Proof.
  intros dir.
  ran H (updateGitHubWorkflow (path_join dir (js "ci.yml")) 22
           real_with_backup sample_project).
  destruct (@workflow_update_then_check dir (js "ci.yml") 22 real_with_backup
              sample_project _ _ eq_refl eq_refl H eq_refl eq_refl)
    as (v & Hv).
  do 3 eexists. split; [reflexivity|]. split; [reflexivity|].
  split; [exact H|].
  split; [reflexivity|]. split; [reflexivity|]. exact Hv.
Defined.

(** X18: for a target that is a safe integer, the two rewrites of a
    workflow content are idempotent: applied to their own result they change
    nothing. *)
Theorem workflow_rewrite_idempotent content V :
  safe_integer V ->
  let rewritten := fst (fst (rewrite_workflow content V)) in
  fst (fst (rewrite_workflow rewritten V)) = rewritten.
Proof.
  intros HV rewritten. unfold rewritten.
  destruct (rewrite_workflow content V) as [[c2 old] upd] eqn:E.
  exact (@rewrite_workflow_stable content V c2 old upd _ E).
Qed.

Lemma workflow_rewrite_idempotent_witness :
  safe_integer 20
  /\ fst (fst (rewrite_workflow (fst (fst (rewrite_workflow both_keys 20)))
                 20))
     = fst (fst (rewrite_workflow both_keys 20)).
Proof.
  split; [reflexivity|].
  exact (@workflow_rewrite_idempotent both_keys 20 eq_refl).
Defined.

(* ------------------------------------------------------------------ *)
(** *** package.json *)

Lemma assoc_set_same k v ms : assoc k (assoc_set k v ms) = Some v.
Proof.
  induction ms as [|[k' v'] ms IH]; simpl.
  - now rewrite str_eqb_refl.
  - destruct (str_eqb k k') eqn:E; simpl; rewrite ?str_eqb_refl, ?E; auto.
Qed.




(** X20: [checkPackageJson] makes a record exactly for a package.json that
    parses and whose [engines.node] is a non-empty string.  A missing key, a
    number, an object or an array there, like a text that does not parse,
    gives no record and no error. *)
Theorem package_json_needs_string root w text :
  faults w = [] ->
  lookup_file (path_join root (js "package.json")) (files w) = Some text ->
  checkPackageJson root w
  = (Ok match JSON_parse text with
        | Some content =>
            match opt_get (opt_get (Some content) (js "engines")) (js "node")
            with
            | Some (JStr (c :: s)) =>
                Some (mkVersionInfo (path_join root (js "package.json"))
                        (js "package.json")
                        (toString (extractMajorVersion (c :: s))) (c :: s)
                        (extractMajorVersion (c :: s)) (js "package.json"))
            | _ => None
            end
        | None => None
        end, w).
Proof.
  intros Hf L. destruct (@read_back _ _ _ Hf L) as [Ex Rd].
  unfold checkPackageJson. unfold bind at 1. rewrite Ex. cbn [negb].
  unfold try_catch, bind. rewrite Rd.
  destruct (JSON_parse text) as [content|]; [|reflexivity].
  destruct (opt_get (opt_get (Some content) (js "engines")) (js "node"))
    as [[| b | lx | [|c s] | items | ms]|]; cbn [truthy negb]; try reflexivity.
  - destruct b; reflexivity.
  - destruct (mantissa_zero lx); reflexivity.
Qed.

Lemma package_json_needs_string_witness :
  let w := single_file "/p/package.json"
             (json_text "{'engines': {'node': 18}}") in
  faults w = []
  /\ lookup_file (path_join (js "/p") (js "package.json")) (files w)
     = Some (json_text "{'engines': {'node': 18}}")
  /\ checkPackageJson (js "/p") w = (Ok None, w).
Proof.
  intros w. split; [reflexivity|]. split; [reflexivity|].
  exact (@package_json_needs_string (js "/p") w
           (json_text "{'engines': {'node': 18}}") eq_refl eq_refl).
Defined.

(* ------------------------------------------------------------------ *)
(** *** The command line *)

Import Cli.

Lemma step_cwd (printed : list console_line) (k : jsstring -> world -> ending) w :
  step printed process_cwd k w = k (cwd w) w.
Proof. reflexivity. Qed.

(** X21: [update] with a version argument that does not read as an integer
    of at least 1 prints an error and exits with the code 1 before anything
    is read: the world is as it was. *)
Theorem main_rejects_bad_version args a w :
  nth_error args 0 = Some (js "update") ->
  nth_error args 1 = Some a ->
  (forall p, parseInt10 a <> Int false (Npos p)) ->
  exists lines, main args w = ((Ok 1%N, lines), w).
Proof.
  intros H0 H1 Hbad. unfold main. rewrite H0.
  change (str_eqb (js "update") [] || str_eqb (js "update") (js "help")
          || str_eqb (js "update") (js "--help")
          || str_eqb (js "update") (js "-h")) with false.
  cbv iota. rewrite step_cwd.
  change (str_eqb (js "update") (js "check")) with false.
  change (str_eqb (js "update") (js "update")) with true.
  cbv iota. rewrite H1. cbv zeta.
  destruct (absent (Some a)); [unfold finish; eauto|].
  destruct (parseInt10 a) as [|[|] [|p]] eqn:P; unfold finish; eauto.
  exfalso. exact (Hbad p eq_refl).
Qed.

Lemma main_rejects_bad_version_witness :
  nth_error [js "update"; js "v22"] 0 = Some (js "update")
  /\ nth_error [js "update"; js "v22"] 1 = Some (js "v22")
  /\ (forall p, parseInt10 (js "v22") <> Int false (Npos p))
  /\ exists lines,
       main [js "update"; js "v22"] sample_project
       = ((Ok 1%N, lines), sample_project).
Proof.
  assert (forall p, parseInt10 (js "v22") <> Int false (Npos p)) as Hbad
      by (intros p; vm_compute; discriminate).
  split; [reflexivity|]. split; [reflexivity|]. split; [exact Hbad|].
  exact (@main_rejects_bad_version [js "update"; js "v22"] (js "v22")
           sample_project eq_refl eq_refl Hbad).
Defined.

Lemma keeps_generateReport root target : keeps_files (generateReport root target).
Proof.
  unfold generateReport. apply keeps_bind; [apply keeps_scanVersions|].
  intros vs. apply keeps_ret.
Qed.

(** A step of [main] whose computation and whose continuation keep the
    files keeps them. *)
Lemma step_keeps {A : Type} printed (m : M A) k w :
  keeps_files m ->
  (forall a w1, files (snd (k a w1)) = files w1) ->
  files (snd (step printed m k w)) = files w.
Proof.
  intros Hm Hk. unfold step. destruct (m w) as [[a|e] w1] eqn:E.
  - rewrite Hk. eapply Hm; eauto.
  - simpl. eapply Hm; eauto.
Qed.

(** X22: with [--dry-run] anywhere among its arguments, [main] changes no
    file, whatever the command, the other arguments, the outcome of the run
    and the I/O failures on its way. *)
Theorem dry_run_flag_keeps_files args w :
  includes args (js "--dry-run") = true ->
  files (snd (main args w)) = files w.
Proof.
  intros Hdry. unfold main.
  destruct (nth_error args 0) as [command|]; [|reflexivity].
  destruct (_ || _); [reflexivity|].
  rewrite step_cwd.
  destruct (str_eqb command (js "check")).
  { apply step_keeps; [apply keeps_generateReport|].
    intros report w1. destruct (hasMismatch report); reflexivity. }
  destruct (str_eqb command (js "update")); [|reflexivity].
  cbv zeta. destruct (absent _); [reflexivity|].
  destruct (parseInt10 _) as [|[|] [|p]]; try reflexivity.
  rewrite Hdry. unfold run_update.
  apply step_keeps; [apply keeps_generateReport|]. intros report w1.
  apply step_keeps; [apply keeps_updateAllVersions_dry|]. intros results w2.
  destruct (_ <? _)%nat; reflexivity.
Qed.

Lemma dry_run_flag_keeps_files_witness :
  includes [js "update"; js "22"; js "--dry-run"] (js "--dry-run") = true
  /\ files (snd (main [js "update"; js "22"; js "--dry-run"] sample_project))
     = files sample_project.
Proof.
  split; [reflexivity|].
  exact (@dry_run_flag_keeps_files [js "update"; js "22"; js "--dry-run"]
           sample_project eq_refl).
Defined.

(** X23: [check] only reads, and when it ends by itself its exit code is 1
    when the report flags a mismatch and 0 otherwise; the first line it
    prints is the table of that report. *)
Theorem check_exit_code rest w code lines w' :
  main (js "check" :: rest) w = ((Ok code, lines), w') ->
  files w' = files w
  /\ exists report,
       generateReport (cwd w) None w = (Ok report, w')
       /\ hd_error lines = Some (Log (formatReportMarkdown report None))
       /\ code = (if hasMismatch report then 1%N else 0%N).
Proof.
  unfold main. cbn [nth_error].
  change (str_eqb (js "check") [] || str_eqb (js "check") (js "help")
          || str_eqb (js "check") (js "--help")
          || str_eqb (js "check") (js "-h")) with false.
  cbv iota. rewrite step_cwd.
  change (str_eqb (js "check") (js "check")) with true. cbv iota.
  unfold step. destruct (generateReport (cwd w) None w) as [[report|e] w1] eqn:G;
    [|discriminate].
  intros H. pose proof (@keeps_generateReport _ _ _ _ _ G) as K.
  destruct (hasMismatch report) eqn:Hm; unfold finish in H;
    injection H as <- <- <-;
    (split; [exact K|]); exists report; rewrite Hm; repeat split.
Qed.

Lemma check_exit_code_witness :
  exists lines w' report,
    main [js "check"] sample_project = ((Ok 1%N, lines), w')
    /\ files w' = files sample_project
    /\ generateReport (cwd sample_project) None sample_project
       = (Ok report, w')
    /\ hd_error lines = Some (Log (formatReportMarkdown report None))
    /\ 1%N = (if hasMismatch report then 1%N else 0%N).
Proof.
  ran H (main [js "check"] sample_project).
  destruct (@check_exit_code [] sample_project _ _ _ H)
    as (K & report & G & L & C).
  do 2 eexists. exists report. split; [exact H|]. split; [exact K|].
  split; [exact G|]. split; [exact L|]. exact C.
Defined.

(** X24: when [update] with a valid version ends by itself, its exit code
    is 0 exactly when every result of the batch is a success; the batch has
    run on the world the report left. *)
Theorem update_exit_code args a p w code lines w' :
  nth_error args 0 = Some (js "update") ->
  nth_error args 1 = Some a ->
  parseInt10 a = Int false (Npos p) ->
  main args w = ((Ok code, lines), w') ->
  exists report w1 results,
    generateReport (cwd w) (Some (Npos p)) w = (Ok report, w1)
    /\ updateAllVersions (cwd w) (Npos p)
         (mkPartialOptions (Some (includes args (js "--dry-run")))
                           (Some (negb (includes args (js "--no-backup")))))
         w1 = (Ok results, w')
    /\ (code = 0%N \/ code = 1%N)
    /\ (code = 0%N <-> Forall (fun r => success r = true) results).
Proof.
  intros H0 H1 P. unfold main. rewrite H0.
  change (str_eqb (js "update") [] || str_eqb (js "update") (js "help")
          || str_eqb (js "update") (js "--help")
          || str_eqb (js "update") (js "-h")) with false.
  cbv iota. rewrite step_cwd.
  change (str_eqb (js "update") (js "check")) with false.
  change (str_eqb (js "update") (js "update")) with true.
  cbv iota. rewrite H1. cbv zeta.
  assert (absent (Some a) = false) as ->.
  { destruct a; [|reflexivity]. vm_compute in P. discriminate. }
  rewrite P. unfold run_update, step.
  destruct (generateReport _ _ w) as [[report|e] w1] eqn:G; [|discriminate].
  destruct (updateAllVersions _ _ _ w1) as [[results|e] w2] eqn:U;
    [|discriminate].
  intros H. exists report, w1, results.
  assert ((0 <? length (filter (fun r => negb (success r)) results))%nat = false
          <-> Forall (fun r => success r = true) results) as Hf.
  { clear. induction results as [|r rs IH]; simpl.
    - split; [constructor|reflexivity].
    - destruct (success r) eqn:S; simpl.
      + rewrite IH. split; [intros; constructor; auto|].
        intros F. now inversion F.
      + split; [discriminate|]. intros F. inversion F. congruence. }
  destruct (0 <? _)%nat.
  - unfold finish in H. injection H as <- <- <-.
    split; [first [reflexivity | exact G]|].
    split; [first [reflexivity | exact U]|]. split; [auto|].
    split; [discriminate|]. intros F. apply Hf in F. discriminate.
  - assert (code = 0%N /\ w' = w2) as [-> ->]
        by (destruct (includes args (js "--dry-run")); unfold finish in H;
            injection H as <- _ <-; auto).
    split; [first [reflexivity | exact G]|].
    split; [first [reflexivity | exact U]|]. split; [auto|].
    split; [intros _; now apply Hf|reflexivity].
Qed.

Lemma update_exit_code_witness :
  let args := [js "update"; js "22"] in
  exists lines w' report w1 results,
    nth_error args 0 = Some (js "update")
    /\ nth_error args 1 = Some (js "22")
    /\ parseInt10 (js "22") = Int false 22%N
    /\ main args sample_project = ((Ok 0%N, lines), w')
    /\ generateReport (cwd sample_project) (Some 22%N) sample_project
       = (Ok report, w1)
    /\ updateAllVersions (cwd sample_project) 22
         (mkPartialOptions (Some (includes args (js "--dry-run")))
                           (Some (negb (includes args (js "--no-backup")))))
         w1 = (Ok results, w')
    /\ Forall (fun r => success r = true) results.
Proof.
  intros args.
  ran H (main args sample_project).
  destruct (@update_exit_code args (js "22") 22%positive sample_project _ _ _
              eq_refl eq_refl eq_refl H)
    as (report & w1 & results & G & U & _ & C).
  do 2 eexists. exists report, w1, results.
  split; [reflexivity|]. split; [reflexivity|]. split; [reflexivity|].
  split; [exact H|]. split; [exact G|]. split; [exact U|].
  apply C. reflexivity.
Defined.

Lemma parseInt10_toString n
  {Hsafe : safe_integer n} : parseInt10 (toString n) = Int false n.
Proof.
  unfold parseInt10.
  pose proof (@toString_digits n _) as Hd.
  pose proof (toString_nonempty n) as Hne.
  rewrite dropWhile_keep by now apply digits_head.
  pose proof (@span_run is_digit (toString n) [] Hd I) as Hs.
  rewrite app_nil_r in Hs.
  destruct (toString n) as [|d ds] eqn:E; [contradiction|].
  assert ((d =? 45)%N = false /\ (d =? 43)%N = false) as [-> ->].
  { simpl in Hd. apply andb_true_iff in Hd as [Hd _].
    apply digit_cases in Hd. simpl in Hd.
    repeat (destruct Hd as [<- | Hd]; [split; reflexivity|]). contradiction. }
  rewrite Hs. cbn [fst]. rewrite <- E. now rewrite parseInt_toString.
Qed.

(** X25: for a target that is a safe integer, the command a dry run prints
    as the way to apply its changes, [update] followed by the decimal text
    of its target, does run the update with that target, for real and with
    backups. *)
Theorem suggested_command_applies_target V w :
  safe_integer V ->
  V <> 0%N ->
  main [js "update"; toString V] w = run_update (cwd w) V false false w.
Proof.
  intros HV Hv. unfold main. cbn [nth_error].
  change (str_eqb (js "update") [] || str_eqb (js "update") (js "help")
          || str_eqb (js "update") (js "--help")
          || str_eqb (js "update") (js "-h")) with false.
  cbv iota. rewrite step_cwd.
  change (str_eqb (js "update") (js "check")) with false.
  change (str_eqb (js "update") (js "update")) with true.
  cbv iota zeta.
  assert (absent (Some (toString V)) = false) as ->.
  { pose proof (toString_nonempty V). now destruct (toString V). }
  rewrite parseInt10_toString. destruct V as [|p]; [contradiction|].
  assert (forall flag, flag = js "--dry-run" \/ flag = js "--no-backup" ->
                       includes [js "update"; toString (Npos p)] flag = false)
    as Hflag.
  { intros flag Hfl. unfold includes. cbn [existsb].
    assert (str_eqb flag (js "update") = false) as ->
        by (destruct Hfl as [-> | ->]; reflexivity).
    assert (str_eqb flag (toString (Npos p)) = false) as ->; [|reflexivity].
    apply str_eqb_neq. intros E.
    pose proof (@toString_digits (Npos p) _) as Hd. rewrite <- E in Hd.
    destruct Hfl as [-> | ->]; discriminate. }
  rewrite !Hflag by auto. reflexivity.
Qed.

Lemma suggested_command_applies_target_witness :
  safe_integer 22
  /\ 22%N <> 0%N
  /\ main [js "update"; toString 22] sample_project
     = run_update (cwd sample_project) 22 false false sample_project.
Proof.
  assert (22%N <> 0%N) as H by discriminate.
  split; [reflexivity|]. split; [exact H|].
  exact (@suggested_command_applies_target 22 sample_project eq_refl H).
Defined.

(* ------------------------------------------------------------------ *)
(** *** Reading back what [JSON.stringify] writes *)

Lemma hex_value_digit n :
  (n < 16)%N -> hex_value (hex_digit n) = Some n.
Proof.
  intros H. unfold hex_value, hex_digit, is_digit.
  destruct (n <? 10)%N eqn:E.
  - apply N.ltb_lt in E.
    replace ((48 <=? 48 + n)%N) with true by (symmetry; apply N.leb_le; lia).
    replace ((48 + n <=? 57)%N) with true by (symmetry; apply N.leb_le; lia).
    cbn [andb]. f_equal. lia.
  - apply N.ltb_ge in E.
    replace ((87 + n <=? 57)%N) with false by (symmetry; apply N.leb_gt; lia).
    rewrite andb_false_r.
    replace ((97 <=? 87 + n)%N) with true by (symmetry; apply N.leb_le; lia).
    replace ((87 + n <=? 102)%N) with true by (symmetry; apply N.leb_le; lia).
    cbn [andb]. f_equal. lia.
Qed.

Lemma hex4_escape c t :
  (c < 65536)%N ->
  match unicode_escape c ++ t with
  | b :: u :: h1 :: h2 :: h3 :: h4 :: t' =>
      b = 92%N /\ u = 117%N /\ hex4 h1 h2 h3 h4 = Some c /\ t' = t
  | _ => False
  end.
Proof.
  intros H. unfold unicode_escape. cbn [app]. split; [reflexivity|].
  split; [reflexivity|]. split; [|reflexivity]. unfold hex4.
  rewrite !hex_value_digit by (apply N.mod_lt; discriminate).
  f_equal.
  pose proof (N.div_mod c 4096 ltac:(discriminate)).
  pose proof (N.div_mod c 256 ltac:(discriminate)).
  pose proof (N.div_mod c 16 ltac:(discriminate)).
  pose proof (N.div_mod (c / 4096) 16 ltac:(discriminate)).
  pose proof (N.div_mod (c / 256) 16 ltac:(discriminate)).
  pose proof (N.div_mod (c / 16) 16 ltac:(discriminate)).
  pose proof (N.mod_lt c 16 ltac:(discriminate)).
  pose proof (N.mod_lt (c / 16) 16 ltac:(discriminate)).
  pose proof (N.mod_lt (c / 256) 16 ltac:(discriminate)).
  pose proof (N.mod_lt (c / 4096) 16 ltac:(discriminate)).
  assert (c / 4096 < 16)%N by (apply N.Div0.div_lt_upper_bound; lia).
  rewrite (N.mod_small (c / 4096) 16) by assumption.
  assert (c / 256 / 16 = c / 4096)%N as E1
      by (rewrite N.Div0.div_div; reflexivity).
  assert (c / 16 / 16 = c / 256)%N as E2
      by (rewrite N.Div0.div_div; reflexivity).
  rewrite E1 in *. rewrite E2 in *. lia.
Qed.

Lemma parse_unicode_escape c t :
  (c < 65536)%N ->
  parse_string_chars (unicode_escape c ++ t)
  = cons_fst c (parse_string_chars t).
Proof.
  intros H. pose proof (hex4_escape t H) as E.
  destruct (unicode_escape c ++ t) as [|b [|u [|h1 [|h2 [|h3 [|h4 t']]]]]];
    try contradiction.
  destruct E as (-> & -> & E & ->).
  cbn [parse_string_chars].
  change (92 =? 34)%N with false. change (92 <? 32)%N with false.
  change (92 =? 92)%N with true. change (117 =? 117)%N with true.
  cbv iota. now rewrite E.
Qed.

Lemma parse_plain_char c t :
  (c =? 34)%N = false -> (c <? 32)%N = false -> (c =? 92)%N = false ->
  parse_string_chars (c :: t) = cons_fst c (parse_string_chars t).
Proof. intros H1 H2 H3. cbn [parse_string_chars]. now rewrite H1, H2, H3. Qed.

Lemma parse_escape_char c t :
  (is_low_surrogate c = true -> (c < 65536)%N) ->
  parse_string_chars (escape_char c ++ t)
  = cons_fst c (parse_string_chars t).
Proof.
  intros Hs. unfold escape_char.
  destruct (c =? 34)%N eqn:E1; [apply N.eqb_eq in E1; subst; reflexivity|].
  destruct (c =? 92)%N eqn:E2; [apply N.eqb_eq in E2; subst; reflexivity|].
  destruct (c =? 8)%N eqn:E3; [apply N.eqb_eq in E3; subst; reflexivity|].
  destruct (c =? 12)%N eqn:E4; [apply N.eqb_eq in E4; subst; reflexivity|].
  destruct (c =? 10)%N eqn:E5; [apply N.eqb_eq in E5; subst; reflexivity|].
  destruct (c =? 13)%N eqn:E6; [apply N.eqb_eq in E6; subst; reflexivity|].
  destruct (c =? 9)%N eqn:E7; [apply N.eqb_eq in E7; subst; reflexivity|].
  destruct (c <? 32)%N eqn:E8.
  - apply parse_unicode_escape. apply N.ltb_lt in E8. lia.
  - destruct (is_low_surrogate c) eqn:E9.
    + apply parse_unicode_escape. auto.
    + now apply parse_plain_char.
Qed.

Lemma surrogate_bound c :
  is_high_surrogate c = true \/ is_low_surrogate c = true -> (c < 65536)%N.
Proof.
  unfold is_high_surrogate, is_low_surrogate.
  intros [H | H]; apply andb_true_iff in H as [_ H]; apply N.leb_le in H; lia.
Qed.

Lemma surrogate_plain c :
  is_high_surrogate c = true \/ is_low_surrogate c = true ->
  (c =? 34)%N = false /\ (c <? 32)%N = false /\ (c =? 92)%N = false.
Proof.
  unfold is_high_surrogate, is_low_surrogate.
  intros [H | H]; apply andb_true_iff in H as [H _]; apply N.leb_le in H;
    repeat split; first [apply N.eqb_neq | apply N.ltb_ge]; lia.
Qed.

(** A string literal written by [JSON.stringify] is read back as the
    string. *)
Lemma parse_escape_chars s r :
  parse_string_chars (escape_chars s ++ 34%N :: r) = Some (s, r).
Proof.
  remember (length s) as n eqn:Hn. assert (length s <= n) as Hle by lia.
  clear Hn. revert s Hle. induction n as [|n IH]; intros s Hle.
  - destruct s; [|simpl in Hle; lia]. reflexivity.
  - destruct s as [|c t]; [reflexivity|]. simpl in Hle.
    cbn [escape_chars].
    destruct (is_high_surrogate c) eqn:Eh.
    + destruct t as [|d t'].
      * rewrite parse_unicode_escape by (apply surrogate_bound; auto).
        cbn [parse_string_chars]. reflexivity.
      * destruct (is_low_surrogate d) eqn:El.
        -- cbn [app].
           destruct (@surrogate_plain c (or_introl Eh)) as (A1 & A2 & A3).
           destruct (@surrogate_plain d (or_intror El)) as (B1 & B2 & B3).
           rewrite parse_plain_char by assumption.
           rewrite parse_plain_char by assumption.
           rewrite IH by (simpl in Hle; lia). reflexivity.
        -- rewrite <- app_assoc.
           rewrite parse_unicode_escape by (apply surrogate_bound; auto).
           rewrite IH by lia. reflexivity.
    + rewrite <- app_assoc. rewrite parse_escape_char.
      * rewrite IH by lia. reflexivity.
      * intros H. apply surrogate_bound. auto.
Qed.

Lemma parse_number_stages s :
  parse_number s
  = let (sign, s1) := num_sign s in
    match num_int s1 with
    | None => None
    | Some (ip, s2) =>
        let (frac, s3) := num_frac s2 in
        match frac with
        | None => None
        | Some fp =>
            let (ex, s4) := num_exp s3 in
            match ex with
            | None => None
            | Some ep => Some (sign ++ ip ++ fp ++ ep, s4)
            end
        end
    end.
Proof. reflexivity. Qed.

Lemma head_in_app class a b :
  a <> [] -> head_in class a -> head_in class (a ++ b).
Proof. destruct a; [contradiction|auto]. Qed.

Lemma head_in_weaken (c1 c2 : char -> bool) s :
  (forall c, c1 c = true -> c2 c = true) -> head_in c1 s -> head_in c2 s.
Proof. destruct s; simpl; auto. Qed.

Lemma span_digits_stop ds X :
  forallb is_digit ds = true -> head_in (fun c => negb (is_digit c)) X ->
  span is_digit (ds ++ X) = (ds, X).
Proof.
  intros Hd HX. apply span_run; [exact Hd|].
  destruct X as [|c X]; [exact I|]. simpl in HX. now apply negb_true_iff.
Qed.

(** The exponent. *)
Lemma num_exp_back s3 ep s4 :
  num_exp s3 = (Some ep, s4) ->
  (ep = [] \/ exists c t, ep = c :: t /\ ((c =? 101)%N || (c =? 69)%N) = true)
  /\ forall r, ends_value r -> num_exp (ep ++ r) = (Some ep, r).
Proof.
  unfold num_exp. destruct s3 as [|c t].
  - intros H. injection H as <- <-. split; [auto|]. intros r Hr.
    destruct r as [|x r]; [reflexivity|]. simpl in Hr. cbn [app].
    destruct (x =? 101)%N eqn:E1;
      [apply N.eqb_eq in E1; subst; discriminate|].
    destruct (x =? 69)%N eqn:E2;
      [apply N.eqb_eq in E2; subst; discriminate|]. reflexivity.
  - destruct ((c =? 101)%N || (c =? 69)%N) eqn:Ec.
    + destruct (match t with
                | d :: u => if (d =? 43)%N || (d =? 45)%N then ([d], u)
                            else ([], t)
                | [] => ([], t)
                end) as [sg t'] eqn:Es.
      destruct (span is_digit t') as [ds r0] eqn:Ed.
      destruct ds as [|d0 ds]; [discriminate|].
      intros H. injection H as <- <-. split; [right; eauto|].
      intros r Hr. cbn [app]. rewrite Ec.
      pose proof (span_all _ _ Ed) as Hall.
      assert (span is_digit ((d0 :: ds) ++ r) = (d0 :: ds, r)) as Hs.
      { apply span_digits_stop; [exact Hall|].
        destruct r as [|x r]; [exact I|]. simpl in Hr. simpl.
        apply orb_true_iff in Hr as [Hx | Hx]; apply N.eqb_eq in Hx; subst;
          reflexivity. }
      assert (sg = [] \/ exists d, sg = [d]
                                   /\ ((d =? 43)%N || (d =? 45)%N) = true)
        as Hsg.
      { destruct t as [|d u]; [injection Es as <- _; auto|].
        destruct ((d =? 43)%N || (d =? 45)%N) eqn:E;
          injection Es as <- _; eauto. }
      destruct Hsg as [-> | (d & -> & Hd)].
      * cbn [app].
        assert (((d0 =? 43)%N || (d0 =? 45)%N) = false) as ->.
        { simpl in Hall. apply andb_true_iff in Hall as [H0 _].
          apply digit_cases in H0. simpl in H0.
          repeat (destruct H0 as [<- | H0]; [reflexivity|]). contradiction. }
        change (d0 :: ds ++ r) with ((d0 :: ds) ++ r). now rewrite Hs.
      * cbn [app]. rewrite Hd.
        change (d0 :: ds ++ r) with ((d0 :: ds) ++ r). now rewrite Hs.
    + intros H. injection H as <- <-. split; [auto|]. intros r Hr.
      destruct r as [|x r]; [reflexivity|]. simpl in Hr. cbn [app].
      destruct (x =? 101)%N eqn:E1;
        [apply N.eqb_eq in E1; subst; discriminate|].
      destruct (x =? 69)%N eqn:E2;
        [apply N.eqb_eq in E2; subst; discriminate|]. reflexivity.
Qed.

(** The fraction. *)
Lemma num_frac_back s2 fp s3 :
  num_frac s2 = (Some fp, s3) ->
  (fp = [] \/ exists t, fp = 46%N :: t)
  /\ forall X, head_in (fun c => negb (is_digit c) && negb (c =? 46)%N) X ->
               num_frac (fp ++ X) = (Some fp, X).
Proof.
  unfold num_frac. destruct s2 as [|c t].
  - intros H. injection H as <- <-. split; [auto|]. intros X HX.
    destruct X as [|x X]; [reflexivity|]. simpl in HX. cbn [app].
    apply andb_true_iff in HX as [_ HX]. apply negb_true_iff in HX.
    now rewrite HX.
  - destruct (c =? 46)%N eqn:Ec.
    + apply N.eqb_eq in Ec. subst c.
      destruct (span is_digit t) as [ds r0] eqn:Ed.
      destruct ds as [|d0 ds]; [discriminate|].
      intros H. injection H as <- <-. split; [right; eauto|].
      intros X HX. cbn [app]. simpl N.eqb. cbv iota.
      change (d0 :: ds ++ X) with ((d0 :: ds) ++ X).
      rewrite span_digits_stop; [reflexivity|exact (span_all _ _ Ed)|].
      eapply head_in_weaken; [|exact HX]. intros x Hx.
      now apply andb_true_iff in Hx as [Hx _].
    + intros H. injection H as <- <-. split; [auto|]. intros X HX.
      destruct X as [|x X]; [reflexivity|]. simpl in HX. cbn [app].
      apply andb_true_iff in HX as [_ HX]. apply negb_true_iff in HX.
      now rewrite HX.
Qed.

(** The integer part. *)
Lemma num_int_back s1 ip s2 :
  num_int s1 = Some (ip, s2) ->
  (exists d t, ip = d :: t /\ is_digit d = true)
  /\ forall X, head_in (fun c => negb (is_digit c)) X ->
               num_int (ip ++ X) = Some (ip, X).
Proof.
  unfold num_int. destruct s1 as [|c t]; [discriminate|].
  destruct (c =? 48)%N eqn:Ec.
  - apply N.eqb_eq in Ec. subst c. intros H. injection H as <- <-.
    split; [eauto|]. intros X _. reflexivity.
  - destruct (is_digit c) eqn:Hc; [|discriminate].
    intros H0. assert (span is_digit (c :: t) = (ip, s2)) as H by congruence.
    clear H0. pose proof (span_all _ _ H) as Hall.
    assert (exists t', ip = c :: t') as [t' ->].
    { simpl in H. rewrite Hc in H. destruct (span is_digit t) as [a b].
      injection H as <- _. eauto. }
    split; [eauto|]. intros X HX. cbn [app]. rewrite Ec, Hc.
    change (c :: t' ++ X) with ((c :: t') ++ X).
    now rewrite span_digits_stop.
Qed.

(** The sign. *)
Lemma num_sign_back s sign s1 :
  num_sign s = (sign, s1) ->
  (sign = [] \/ sign = [45%N])
  /\ forall d X, is_digit d = true -> num_sign (sign ++ d :: X) = (sign, d :: X).
Proof.
  unfold num_sign. destruct s as [|c t].
  - intros H. injection H as <- <-. split; [auto|]. intros d X Hd.
    cbn [app]. destruct (d =? 45)%N eqn:E; [|reflexivity].
    apply N.eqb_eq in E. subst. discriminate.
  - destruct (c =? 45)%N eqn:Ec.
    + apply N.eqb_eq in Ec. subst c. intros H. injection H as <- <-.
      split; [auto|]. reflexivity.
    + intros H. injection H as <- <-. split; [auto|]. intros d X Hd.
      cbn [app]. destruct (d =? 45)%N eqn:E; [|reflexivity].
      apply N.eqb_eq in E. subst. discriminate.
Qed.

(** The lexeme of a number that was read is read back as it is. *)
Lemma parse_number_lexeme s lx r :
  parse_number s = Some (lx, r) -> number_lexeme lx.
Proof.
  rewrite parse_number_stages.
  destruct (num_sign s) as [sign s1] eqn:E1.
  destruct (num_int s1) as [[ip s2]|] eqn:E2; [|discriminate].
  destruct (num_frac s2) as [[fp|] s3] eqn:E3; [|discriminate].
  destruct (num_exp s3) as [[ep|] s4] eqn:E4; [|discriminate].
  intros H. injection H as <- <-.
  apply num_sign_back in E1 as [_ B1].
  apply num_int_back in E2 as [(d & t & -> & Hd) B2].
  apply num_frac_back in E3 as [F3 B3].
  apply num_exp_back in E4 as [F4 B4].
  intros r Hr. rewrite parse_number_stages.
  rewrite <- !app_assoc. cbn [app]. rewrite (B1 d _ Hd).
  change (d :: t ++ fp ++ ep ++ r) with ((d :: t) ++ fp ++ ep ++ r).
  assert (head_in (fun c => negb (is_digit c) && negb (c =? 46)%N) (ep ++ r))
    as Hep.
  { destruct F4 as [-> | (c & t' & -> & Hc)].
    - simpl. eapply head_in_weaken; [|exact Hr]. intros x Hx.
      apply orb_true_iff in Hx as [Hx | Hx]; apply N.eqb_eq in Hx; subst;
        reflexivity.
    - simpl. apply orb_true_iff in Hc as [Hx | Hx]; apply N.eqb_eq in Hx;
        subst; reflexivity. }
  rewrite B2.
  - rewrite (B3 _ Hep), (B4 _ Hr). reflexivity.
  - destruct F3 as [-> | (t' & ->)]; [|reflexivity]. simpl.
    eapply head_in_weaken; [|exact Hep]. intros x Hx.
    now apply andb_true_iff in Hx as [Hx _].
Qed.

(** A number lexeme starts with a digit or a minus sign. *)
Lemma number_lexeme_head lx :
  number_lexeme lx ->
  exists c t, lx = c :: t /\ (c = 45%N \/ is_digit c = true).
Proof.
  intros H. specialize (H [] I). rewrite app_nil_r in H.
  rewrite parse_number_stages in H.
  destruct (num_sign lx) as [sign s1] eqn:E1.
  destruct (num_int s1) as [[ip s2]|] eqn:E2; [|discriminate].
  unfold num_sign in E1. destruct lx as [|c t].
  - injection E1 as <- <-. discriminate.
  - exists c, t. split; [reflexivity|].
    destruct (c =? 45)%N eqn:Ec; [left; now apply N.eqb_eq|].
    injection E1 as <- <-. right. unfold num_int in E2.
    destruct (c =? 48)%N eqn:E0; [apply N.eqb_eq in E0; now subst|].
    destruct (is_digit c); [reflexivity|discriminate].
Qed.

(* ------------------------------------------------------------------ *)
(** *** The parser on the text of a value *)

(** The fuel of the elements of an array, and of the members of an object. *)
Lemma parse_value_S f s :
  parse_value (S f) s
  = match dropWhile is_json_ws s with
    | [] => None
    | c :: t =>
        if (c =? 34)%N then
          match parse_string_chars t with
          | Some (str, r) => Some (JStr str, r)
          | None => None
          end
        else if (c =? 123)%N then
          match dropWhile is_json_ws t with
          | c' :: t' =>
              if (c' =? 125)%N then Some (JObj [], t')
              else parse_members f [] t
          | [] => None
          end
        else if (c =? 91)%N then
          match dropWhile is_json_ws t with
          | c' :: t' =>
              if (c' =? 93)%N then Some (JArr [], t')
              else parse_elements f [] t
          | [] => None
          end
        else
          match strip_prefix (js "true") (c :: t),
                strip_prefix (js "false") (c :: t),
                strip_prefix (js "null") (c :: t) with
          | Some r, _, _ => Some (JBool true, r)
          | _, Some r, _ => Some (JBool false, r)
          | _, _, Some r => Some (JNull, r)
          | None, None, None =>
              match parse_number (c :: t) with
              | Some (lx, r) => Some (JNum lx, r)
              | None => None
              end
          end
    end.
Proof. reflexivity. Qed.

Lemma parse_elements_S f acc s :
  parse_elements (S f) acc s
  = match parse_value f s with
    | None => None
    | Some (v, r) =>
        match dropWhile is_json_ws r with
        | c :: t =>
            if (c =? 44)%N then parse_elements f (acc ++ [v]) t
            else if (c =? 93)%N then Some (JArr (acc ++ [v]), t)
            else None
        | [] => None
        end
    end.
Proof. reflexivity. Qed.

Lemma parse_members_S f acc s :
  parse_members (S f) acc s
  = match dropWhile is_json_ws s with
    | q :: t =>
        if (q =? 34)%N then
          match parse_string_chars t with
          | None => None
          | Some (k, r) =>
              match dropWhile is_json_ws r with
              | c :: r' =>
                  if (c =? 58)%N then
                    match parse_value f r' with
                    | None => None
                    | Some (v, r2) =>
                        match dropWhile is_json_ws r2 with
                        | c2 :: t2 =>
                            if (c2 =? 44)%N
                            then parse_members f (assoc_set k v acc) t2
                            else if (c2 =? 125)%N
                            then Some (JObj (assoc_set k v acc), t2)
                            else None
                        | [] => None
                        end
                    end
                  else None
              | [] => None
              end
          end
        else None
    | [] => None
    end.
Proof. reflexivity. Qed.

Lemma dropWhile_skip (p : char -> bool) (w s : jsstring) :
  forallb p w = true -> dropWhile p (w ++ s) = dropWhile p s.
Proof.
  induction w as [|c w IH]; [reflexivity|]. simpl. intros H.
  apply andb_true_iff in H as [-> H]. auto.
Qed.

(** White space before a value is skipped. *)
Lemma parse_value_skip f w s :
  forallb is_json_ws w = true -> parse_value f (w ++ s) = parse_value f s.
Proof.
  intros H. destruct f as [|f]; [reflexivity|].
  now rewrite !parse_value_S, dropWhile_skip.
Qed.

Lemma indent_ws ind : is_indent ind -> forallb is_json_ws ind = true.
Proof.
  unfold is_indent. intros H. apply forallb_forall. intros c Hc.
  rewrite forallb_forall in H. apply H in Hc. apply N.eqb_eq in Hc.
  now subst.
Qed.

Lemma indent_deeper ind : is_indent ind -> is_indent (ind ++ [32; 32]%N).
Proof.
  unfold is_indent. intros H. rewrite forallb_app.
  apply andb_true_iff. split; [exact H | reflexivity].
Qed.

Lemma stringify_head ind v :
  well_formed v ->
  exists c t, stringify ind v = c :: t /\ value_start c = true.
Proof.
  intros W. destruct W as [|b|lx L|s|items _|ms _ _].
  - do 2 eexists. split; reflexivity.
  - destruct b; do 2 eexists; split; reflexivity.
  - apply number_lexeme_head in L as (c & t & -> & Hc). exists c, t.
    split; [reflexivity|]. destruct Hc as [-> | Hc]; [reflexivity|].
    apply digit_cases in Hc. simpl in Hc.
    repeat (destruct Hc as [<- | Hc]; [reflexivity|]). contradiction.
  - do 2 eexists. split; reflexivity.
  - destruct items; do 2 eexists; split; reflexivity.
  - destruct ms; do 2 eexists; split; reflexivity.
Qed.

Lemma value_start_keep c t :
  value_start c = true -> dropWhile is_json_ws (c :: t) = c :: t.
Proof.
  unfold value_start. intros H. apply dropWhile_keep.
  apply andb_true_iff in H as [H _]. apply andb_true_iff in H as [H _].
  now apply negb_true_iff.
Qed.

Lemma ends_value_comma t : ends_value (44%N :: t).
Proof. reflexivity. Qed.

Lemma ends_value_newline t : ends_value (10%N :: t).
Proof. reflexivity. Qed.

Lemma close_after_newline ind c r :
  is_indent ind -> is_json_ws c = false ->
  dropWhile is_json_ws (10%N :: ind ++ c :: r) = c :: r.
Proof.
  intros Hi Hc. change (10%N :: ind ++ c :: r) with ((10%N :: ind) ++ c :: r).
  apply dropWhile_run; [|exact Hc]. simpl. now apply indent_ws.
Qed.

(** White space before an element is skipped. *)
Lemma parse_elements_skip f acc w s :
  forallb is_json_ws w = true ->
  parse_elements f acc (w ++ s) = parse_elements f acc s.
Proof.
  intros H. destruct f as [|f]; [reflexivity|].
  now rewrite !parse_elements_S, parse_value_skip.
Qed.

Lemma parse_members_skip f acc w s :
  forallb is_json_ws w = true ->
  parse_members f acc (w ++ s) = parse_members f acc s.
Proof.
  intros H. destruct f as [|f]; [reflexivity|].
  now rewrite !parse_members_S, dropWhile_skip.
Qed.

Lemma elements_back ind ind' r items :
  is_indent ind -> is_indent ind' ->
  forall f acc,
    items <> [] ->
    Forall well_formed items ->
    (forall x f', In x items -> json_size x <= f' -> read_back_at f' x) ->
    elements_size items <= f ->
    parse_elements f acc
      (join_lines (map (fun x => ind' ++ stringify ind' x) items)
       ++ 10%N :: ind ++ 93%N :: r)
    = Some (JArr (acc ++ items), r).
Proof.
  intros Hi Hi'. induction items as [|x xs IH]; intros f acc Hne W HR Hf;
    [contradiction|].
  inversion W as [|? ? Wx Wxs]; subst.
  simpl in Hf. destruct f as [|f]; [lia|].
  rewrite parse_elements_S.
  destruct xs as [|y ys].
  - cbn [map join_lines]. rewrite <- app_assoc.
    rewrite parse_value_skip by now apply indent_ws.
    rewrite (HR x f (or_introl eq_refl) ltac:(lia) _ _ Hi'
               (ends_value_newline _)).
    rewrite close_after_newline by (exact Hi || reflexivity).
    reflexivity.
  - change (join_lines (map ?g (x :: y :: ys)))
      with (g x ++ 44%N :: 10%N :: join_lines (map g (y :: ys))).
    cbv beta. rewrite <- !app_assoc.
    rewrite parse_value_skip by now apply indent_ws.
    rewrite <- app_comm_cons.
    rewrite (HR x f (or_introl eq_refl) ltac:(lia) _ _ Hi'
               (ends_value_comma _)).
    cbn [dropWhile is_json_ws N.eqb Pos.eqb orb]. cbv iota.
    rewrite <- app_comm_cons.
    change (10%N :: ?a ++ ?b) with ([10%N] ++ a ++ b).
    rewrite parse_elements_skip by reflexivity.
    rewrite IH.
    + now rewrite <- app_assoc.
    + discriminate.
    + exact Wxs.
    + intros z f' Hz. apply HR. now right.
    + simpl in *. lia.
Qed.

(** A new key goes to the end. *)
Lemma assoc_set_new k v acc :
  ~ In k (map fst acc) -> assoc_set k v acc = acc ++ [(k, v)].
Proof.
  induction acc as [|[k' v'] acc IH]; [reflexivity|]. simpl. intros H.
  rewrite str_eqb_neq by (intros ->; apply H; now left).
  rewrite IH; [reflexivity|]. intros Hin. apply H. now right.
Qed.

Lemma members_back ind ind' r ms :
  is_indent ind -> is_indent ind' ->
  forall f acc,
    ms <> [] ->
    NoDup (map fst (acc ++ ms)) ->
    Forall (fun kv => well_formed (snd kv)) ms ->
    (forall kv f', In kv ms -> json_size (snd kv) <= f' ->
                   read_back_at f' (snd kv)) ->
    members_size ms <= f ->
    parse_members f acc
      (join_lines (map (fun kv => ind' ++ quote_json (fst kv) ++ [58; 32]%N
                                  ++ stringify ind' (snd kv)) ms)
       ++ 10%N :: ind ++ 125%N :: r)
    = Some (JObj (acc ++ ms), r).
Proof.
  intros Hi Hi'. induction ms as [|[k x] xs IH]; intros f acc Hne D W HR Hf;
    [contradiction|].
  inversion W as [|? ? Wx Wxs]; subst. simpl in Wx.
  simpl in Hf. destruct f as [|f]; [lia|].
  assert (assoc_set k x acc = acc ++ [(k, x)]) as Hset.
  { apply assoc_set_new. rewrite map_app in D. simpl in D.
    apply NoDup_remove_2 in D. intros Hin. apply D. apply in_or_app.
    now left. }
  assert (forall t, parse_members (S f) acc
                      (ind' ++ quote_json k ++ [58; 32]%N ++ t)
                    = match parse_value f t with
                      | None => None
                      | Some (v, r2) =>
                          match dropWhile is_json_ws r2 with
                          | c2 :: t2 =>
                              if (c2 =? 44)%N
                              then parse_members f (assoc_set k v acc) t2
                              else if (c2 =? 125)%N
                              then Some (JObj (assoc_set k v acc), t2)
                              else None
                          | [] => None
                          end
                      end) as Hstep.
  { intros t. rewrite parse_members_S.
    rewrite dropWhile_skip by now apply indent_ws.
    unfold quote_json. cbn [app dropWhile is_json_ws N.eqb Pos.eqb orb].
    cbv iota. rewrite <- app_assoc. cbn [app].
    rewrite parse_escape_chars.
    cbn [dropWhile is_json_ws N.eqb Pos.eqb orb]. cbv iota.
    change (32%N :: t) with ([32%N] ++ t).
    now rewrite parse_value_skip. }
  destruct xs as [|y ys].
  - cbn [map join_lines fst snd]. rewrite <- !app_assoc.
    rewrite Hstep.
    rewrite (HR (k, x) f (or_introl eq_refl) ltac:(simpl; lia) _ _ Hi'
               (ends_value_newline _)).
    rewrite close_after_newline by (exact Hi || reflexivity).
    cbn [N.eqb Pos.eqb snd]. cbv iota. now rewrite Hset.
  - change (join_lines (map ?g ((k, x) :: y :: ys)))
      with (g (k, x) ++ 44%N :: 10%N :: join_lines (map g (y :: ys))).
    cbv beta. cbn [fst snd]. rewrite <- !app_assoc.
    rewrite Hstep. rewrite <- app_comm_cons.
    rewrite (HR (k, x) f (or_introl eq_refl) ltac:(simpl; lia) _ _ Hi'
               (ends_value_comma _)).
    cbn [dropWhile is_json_ws N.eqb Pos.eqb orb snd]. cbv iota.
    rewrite <- app_comm_cons.
    change (10%N :: ?a ++ ?b) with ([10%N] ++ a ++ b).
    rewrite parse_members_skip by reflexivity.
    rewrite Hset, IH.
    + now rewrite <- app_assoc.
    + discriminate.
    + now rewrite <- app_assoc.
    + exact Wxs.
    + intros z f' Hz. apply HR. now right.
    + simpl in *. lia.
Qed.

Lemma In_elements_size x items :
  In x items -> json_size x < elements_size items.
Proof.
  induction items as [|y ys IH]; [contradiction|]. simpl.
  intros [-> | H]; [lia|]. apply IH in H. lia.
Qed.

Lemma In_members_size kv ms :
  In kv ms -> json_size (snd kv) < members_size ms.
Proof.
  induction ms as [|y ys IH]; [contradiction|]. simpl.
  intros [-> | H]; [lia|]. apply IH in H. lia.
Qed.

Lemma parse_value_number f c t :
  c = 45%N \/ is_digit c = true ->
  parse_value (S f) (c :: t)
  = match parse_number (c :: t) with
    | Some (lx, r) => Some (JNum lx, r)
    | None => None
    end.
Proof.
  intros [-> | Hc]; [reflexivity|].
  apply digit_cases in Hc. simpl in Hc.
  repeat (destruct Hc as [<- | Hc]; [reflexivity|]). contradiction.
Qed.

Lemma json_size_arr items : json_size (JArr items) = S (elements_size items).
Proof. reflexivity. Qed.

Lemma json_size_obj ms : json_size (JObj ms) = S (members_size ms).
Proof. reflexivity. Qed.

(** The parser reads the text of a value back, given enough fuel. *)
Lemma parse_value_stringify n :
  forall v, json_size v <= n -> well_formed v ->
  forall f, json_size v <= f -> read_back_at f v.
Proof.
  induction n as [|n IHn]; intros v Hn W f Hf.
  { destruct v; simpl in Hn; lia. }
  intros ind r Hi Hr.
  destruct f as [|f]; [destruct v; simpl in Hf; lia|].
  destruct W as [|b|lx L|s|items Wi|ms D Wm].
  - reflexivity.
  - destruct b; reflexivity.
  - cbn [stringify].
    pose proof (number_lexeme_head L) as (c & t & E & Hc).
    pose proof (L r Hr) as Hl. subst lx. rewrite <- app_comm_cons.
    rewrite (parse_value_number f _ Hc), app_comm_cons. now rewrite Hl.
  - rewrite parse_value_S. cbn [stringify]. unfold quote_json.
    cbn [app dropWhile is_json_ws N.eqb Pos.eqb orb]. cbv iota.
    rewrite <- app_assoc. cbn [app]. now rewrite parse_escape_chars.
  - destruct items as [|x xs]; [reflexivity|].
    rewrite parse_value_S.
    change (stringify ind (JArr (x :: xs)))
      with (91%N :: newline
            ++ join_lines (map (fun x => (ind ++ [32; 32]%N)
                                  ++ stringify (ind ++ [32; 32]%N) x)
                             (x :: xs))
            ++ newline ++ ind ++ [93%N]).
    pose proof (indent_deeper Hi) as Hi'.
    remember (ind ++ [32; 32]%N) as ind' eqn:Ei. clear Ei.
    pose proof (@stringify_head ind' x
                  ltac:(now inversion Wi)) as (c & t & E & Hc).
    rewrite json_size_arr in Hn, Hf.
    assert (elements_size (x :: xs) <= f) as Hsz by lia.
    assert (forall z f', In z (x :: xs) -> json_size z <= f' ->
                         read_back_at f' z) as HR.
    { intros z f' Hz Hz'. apply IHn; [|now rewrite Forall_forall in Wi; auto
                                      |exact Hz'].
      apply In_elements_size in Hz. lia. }
    cbn [app newline dropWhile is_json_ws N.eqb Pos.eqb orb]. cbv iota.
    rewrite <- !app_assoc. cbn [app].
    assert (forall rest,
              dropWhile is_json_ws
                (join_lines (map (fun x => ind'
                                   ++ stringify ind' x)
                              (x :: xs)) ++ rest)
              = c :: t ++ match xs with
                          | [] => rest
                          | _ => 44%N :: 10%N 
                                 :: join_lines
                                      (map (fun x => ind'
                                         ++ stringify ind' x)
                                         xs) ++ rest
                          end) as Hd.
    { intros rest. destruct xs as [|y ys].
      - cbn [map join_lines]. rewrite <- app_assoc.
        rewrite dropWhile_skip by now apply indent_ws.
        rewrite E. cbn [app]. now rewrite (@value_start_keep c _ Hc).
      - change (join_lines (map ?g (x :: y :: ys)))
          with (g x ++ 44%N :: 10%N :: join_lines (map g (y :: ys))).
        cbv beta. rewrite <- !app_assoc.
        rewrite dropWhile_skip by now apply indent_ws.
        rewrite E. cbn [app]. now rewrite (@value_start_keep c _ Hc). }
    rewrite Hd.
    assert ((c =? 93)%N = false) as ->.
    { unfold value_start in Hc. apply andb_true_iff in Hc as [Hc _].
      apply andb_true_iff in Hc as [_ Hc]. now apply negb_true_iff. }
    change (10%N :: ?a ++ ?b) with ([10%N] ++ a ++ b).
    rewrite parse_elements_skip by reflexivity.
    replace ((ind ++ [93%N]) ++ r) with (ind ++ 93%N :: r)
      by now rewrite <- app_assoc.
    apply (@elements_back ind ind' r (x :: xs) Hi Hi' f []);
      [discriminate | exact Wi | exact HR | exact Hsz].
  - destruct ms as [|[k x] xs]; [reflexivity|].
    rewrite parse_value_S.
    change (stringify ind (JObj ((k, x) :: xs)))
      with (123%N :: newline
            ++ join_lines
                 (map (fun kv => (ind ++ [32; 32]%N) ++ quote_json (fst kv)
                                 ++ [58; 32]%N
                                 ++ stringify (ind ++ [32; 32]%N) (snd kv))
                    ((k, x) :: xs))
            ++ newline ++ ind ++ [125%N]).
    pose proof (indent_deeper Hi) as Hi'.
    remember (ind ++ [32; 32]%N) as ind' eqn:Ei. clear Ei.
    rewrite json_size_obj in Hn, Hf.
    assert (members_size ((k, x) :: xs) <= f) as Hsz by lia.
    assert (forall z f', In z ((k, x) :: xs) -> json_size (snd z) <= f' ->
                         read_back_at f' (snd z)) as HR.
    { intros z f' Hz Hz'. apply IHn; [| |exact Hz'].
      - apply In_members_size in Hz. lia.
      - rewrite Forall_forall in Wm. auto. }
    cbn [app newline dropWhile is_json_ws N.eqb Pos.eqb orb]. cbv iota.
    rewrite <- !app_assoc. cbn [app].
    assert (forall rest,
              dropWhile is_json_ws
                (join_lines
                   (map (fun kv => ind' ++ quote_json (fst kv)
                                   ++ [58; 32]%N
                                   ++ stringify ind' (snd kv))
                      ((k, x) :: xs)) ++ rest)
              = 34%N :: tl (dropWhile is_json_ws
                (join_lines
                   (map (fun kv => ind' ++ quote_json (fst kv)
                                   ++ [58; 32]%N
                                   ++ stringify ind' (snd kv))
                      ((k, x) :: xs)) ++ rest))) as Hd.
    { intros rest. destruct xs as [|y ys].
      - cbn [map join_lines fst snd]. rewrite <- !app_assoc.
        rewrite dropWhile_skip by now apply indent_ws. reflexivity.
      - change (join_lines (map ?g ((k, x) :: y :: ys)))
          with (g (k, x) ++ 44%N :: 10%N :: join_lines (map g (y :: ys))).
        cbv beta. rewrite <- !app_assoc.
        rewrite dropWhile_skip by now apply indent_ws. reflexivity. }
    rewrite Hd. cbn [N.eqb Pos.eqb]. cbv iota.
    change (10%N :: ?a ++ ?b) with ([10%N] ++ a ++ b).
    rewrite parse_members_skip by reflexivity.
    replace ((ind ++ [125%N]) ++ r) with (ind ++ 125%N :: r)
      by now rewrite <- app_assoc.
    apply (@members_back ind ind' r ((k, x) :: xs) Hi Hi' f []);
      [discriminate | exact D | exact Wm | exact HR | exact Hsz].
Qed.

(* ------------------------------------------------------------------ *)
(** *** What the parser returns *)

Lemma assoc_set_keys_in x k v acc :
  In x (map fst (assoc_set k v acc)) -> x = k \/ In x (map fst acc).
Proof.
  induction acc as [|[k' v'] acc IH]; simpl.
  - intros [<- | []]. now left.
  - destruct (str_eqb k k') eqn:E; simpl.
    + apply str_eqb_eq in E. subst k'. intros [<- | H]; auto.
    + intros [<- | H]; [auto|]. apply IH in H as [-> | H]; auto.
Qed.

Lemma assoc_set_keys k v acc :
  NoDup (map fst acc) -> NoDup (map fst (assoc_set k v acc)).
Proof.
  induction acc as [|[k' v'] acc IH]; simpl; intros D.
  - constructor; [intros []|constructor].
  - inversion D as [|? ? Hn D']; subst.
    destruct (str_eqb k k') eqn:E; simpl.
    + apply str_eqb_eq in E. subst k'. now constructor.
    + constructor; [|auto]. intros H.
      apply assoc_set_keys_in in H as [-> | H]; [|contradiction].
      now rewrite str_eqb_refl in E.
Qed.

Lemma assoc_set_values (P : json -> Prop) k v acc :
  P v -> Forall (fun kv => P (snd kv)) acc ->
  Forall (fun kv => P (snd kv)) (assoc_set k v acc).
Proof.
  intros Hv. induction acc as [|[k' v'] acc IH]; simpl; intros F.
  - now repeat constructor.
  - inversion F as [|? ? Hx F']; subst.
    destruct (str_eqb k k'); constructor; auto.
Qed.

Lemma parse_results_well_formed f :
  (forall s v r, parse_value f s = Some (v, r) -> well_formed v)
  /\ (forall acc s v r, Forall well_formed acc ->
        parse_elements f acc s = Some (v, r) -> well_formed v)
  /\ (forall acc s v r,
        NoDup (map fst acc) -> Forall (fun kv => well_formed (snd kv)) acc ->
        parse_members f acc s = Some (v, r) -> well_formed v).
Proof.
  induction f as [|f (IHv & IHe & IHm)]; [repeat split; discriminate|].
  split; [|split].
  - intros s v r. rewrite parse_value_S.
    destruct (dropWhile is_json_ws s) as [|c t]; [discriminate|].
    destruct (c =? 34)%N.
    { destruct (parse_string_chars t) as [[str r0]|]; [|discriminate].
      intros H. injection H as <- _. constructor. }
    destruct (c =? 123)%N.
    { destruct (dropWhile is_json_ws t) as [|c' t']; [discriminate|].
      destruct (c' =? 125)%N.
      - intros H. injection H as <- _. constructor; constructor.
      - apply IHm; constructor. }
    destruct (c =? 91)%N.
    { destruct (dropWhile is_json_ws t) as [|c' t']; [discriminate|].
      destruct (c' =? 93)%N.
      - intros H. injection H as <- _. constructor; constructor.
      - apply IHe; constructor. }
    destruct (strip_prefix (js "true") (c :: t));
      [intros H; injection H as <- _; constructor|].
    destruct (strip_prefix (js "false") (c :: t));
      [intros H; injection H as <- _; constructor|].
    destruct (strip_prefix (js "null") (c :: t));
      [intros H; injection H as <- _; constructor|].
    destruct (parse_number (c :: t)) as [[lx r0]|] eqn:E; [|discriminate].
    intros H. injection H as <- _. constructor.
    exact (parse_number_lexeme _ E).
  - intros acc s v r F. rewrite parse_elements_S.
    destruct (parse_value f s) as [[x r0]|] eqn:E; [|discriminate].
    apply IHv in E.
    assert (Forall well_formed (acc ++ [x])) as F'.
    { apply Forall_app. split; [exact F|now constructor]. }
    destruct (dropWhile is_json_ws r0) as [|c t]; [discriminate|].
    destruct (c =? 44)%N; [now apply IHe|].
    destruct (c =? 93)%N; [|discriminate].
    intros H. injection H as <- _. now constructor.
  - intros acc s v r D F. rewrite parse_members_S.
    destruct (dropWhile is_json_ws s) as [|q t]; [discriminate|].
    destruct (q =? 34)%N; [|discriminate].
    destruct (parse_string_chars t) as [[k r0]|]; [|discriminate].
    destruct (dropWhile is_json_ws r0) as [|c r']; [discriminate|].
    destruct (c =? 58)%N; [|discriminate].
    destruct (parse_value f r') as [[x r2]|] eqn:E; [|discriminate].
    apply IHv in E.
    pose proof (@assoc_set_keys k x acc D) as D'.
    pose proof (@assoc_set_values well_formed k x acc E F) as F'.
    destruct (dropWhile is_json_ws r2) as [|c2 t2]; [discriminate|].
    destruct (c2 =? 44)%N; [now apply IHm|].
    destruct (c2 =? 125)%N; [|discriminate].
    intros H. injection H as <- _. now constructor.
Qed.

(** [JSON.parse] returns well-formed values. *)
Lemma JSON_parse_well_formed text v :
  JSON_parse text = Some v -> well_formed v.
Proof.
  unfold JSON_parse.
  destruct (parse_value (2 * length text + 2) text) as [[x r]|] eqn:E;
    [|discriminate].
  destruct (dropWhile is_json_ws r); [|discriminate].
  intros H. injection H as <-.
  now apply (proj1 (parse_results_well_formed _)) in E.
Qed.

(** The text of a value is at least as long as the fuel it takes. *)
Lemma join_lines_length (g : json -> jsstring) items :
  (forall x, In x items -> json_size x + 2 <= length (g x)) ->
  elements_size items <= length (join_lines (map g items)).
Proof.
  induction items as [|x xs IH]; [simpl; lia|]. intros H.
  destruct xs as [|y ys].
  - simpl. rewrite Nat.add_0_r. specialize (H x (or_introl eq_refl)).
    simpl in H. lia.
  - change (join_lines (map g (x :: y :: ys)))
      with (g x ++ 44%N :: 10%N :: join_lines (map g (y :: ys))).
    rewrite length_app. cbn [length].
    change (elements_size (x :: y :: ys))
      with (S (json_size x) + elements_size (y :: ys)).
    specialize (IH (fun z Hz => H z (or_intror Hz))).
    specialize (H x (or_introl eq_refl)). lia.
Qed.

Lemma join_members_length (g : jsstring * json -> jsstring) ms :
  (forall kv, In kv ms -> json_size (snd kv) + 2 <= length (g kv)) ->
  members_size ms <= length (join_lines (map g ms)).
Proof.
  induction ms as [|x xs IH]; [simpl; lia|]. intros H.
  destruct xs as [|y ys].
  - simpl. rewrite Nat.add_0_r. specialize (H x (or_introl eq_refl)).
    simpl in H. lia.
  - change (join_lines (map g (x :: y :: ys)))
      with (g x ++ 44%N :: 10%N :: join_lines (map g (y :: ys))).
    rewrite length_app. cbn [length].
    change (members_size (x :: y :: ys))
      with (S (json_size (snd x)) + members_size (y :: ys)).
    specialize (IH (fun z Hz => H z (or_intror Hz))).
    specialize (H x (or_introl eq_refl)). lia.
Qed.

Lemma stringify_length n :
  forall v, json_size v <= n -> well_formed v ->
  forall ind, json_size v <= length (stringify ind v).
Proof.
  induction n as [|n IHn]; intros v Hn W ind.
  { destruct v; simpl in Hn; lia. }
  destruct W as [|b|lx L|s|items Wi|ms D Wm].
  - simpl. lia.
  - destruct b; simpl; lia.
  - apply number_lexeme_head in L as (c & t & -> & _). simpl. lia.
  - simpl. lia.
  - destruct items as [|x xs]; [simpl; lia|].
    change (stringify ind (JArr (x :: xs)))
      with (91%N :: newline
            ++ join_lines (map (fun x => (ind ++ [32; 32]%N)
                                  ++ stringify (ind ++ [32; 32]%N) x)
                             (x :: xs))
            ++ newline ++ ind ++ [93%N]).
    rewrite json_size_arr in *. cbn [length]. rewrite !length_app.
    cbn [length newline].
    assert (elements_size (x :: xs)
            <= length (join_lines
                         (map (fun x => (ind ++ [32; 32]%N)
                                 ++ stringify (ind ++ [32; 32]%N) x)
                            (x :: xs)))); [|lia].
    apply join_lines_length. intros z Hz. rewrite !length_app. cbn [length].
    assert (json_size z <= length (stringify (ind ++ [32; 32]%N) z)); [|lia].
    apply IHn; [|now rewrite Forall_forall in Wi; auto].
    apply In_elements_size in Hz. lia.
  - destruct ms as [|[k x] xs]; [simpl; lia|].
    change (stringify ind (JObj ((k, x) :: xs)))
      with (123%N :: newline
            ++ join_lines
                 (map (fun kv => (ind ++ [32; 32]%N) ++ quote_json (fst kv)
                                 ++ [58; 32]%N
                                 ++ stringify (ind ++ [32; 32]%N) (snd kv))
                    ((k, x) :: xs))
            ++ newline ++ ind ++ [125%N]).
    rewrite json_size_obj in *. cbn [length]. rewrite !length_app.
    cbn [length newline].
    assert (members_size ((k, x) :: xs)
            <= length (join_lines
                 (map (fun kv => (ind ++ [32; 32]%N) ++ quote_json (fst kv)
                                 ++ [58; 32]%N
                                 ++ stringify (ind ++ [32; 32]%N) (snd kv))
                    ((k, x) :: xs)))); [|lia].
    apply join_members_length. intros z Hz. rewrite !length_app.
    cbn [length].
    assert (json_size (snd z)
            <= length (stringify (ind ++ [32; 32]%N) (snd z))); [|unfold jsstring, char in *; lia].
    apply IHn; [|rewrite Forall_forall in Wm; auto].
    apply In_members_size in Hz. lia.
Qed.

(** [JSON.parse] reads back what [JSON.stringify] wrote, also with a line
    break after it. *)
Lemma JSON_parse_stringify v tail :
  well_formed v -> tail = [] \/ tail = newline ->
  JSON_parse (JSON_stringify v ++ tail) = Some v.
Proof.
  intros W Ht. unfold JSON_parse, JSON_stringify.
  rewrite (@parse_value_stringify (json_size v) v (le_n _) W
             (2 * length (stringify [] v ++ tail) + 2)
             ltac:(pose proof (@stringify_length _ v (le_n _) W []);
                   rewrite length_app; lia)
             [] tail eq_refl
             ltac:(destruct Ht as [-> | ->]; exact I || reflexivity)).
  destruct Ht as [-> | ->]; reflexivity.
Qed.

(** Setting [engines.node] keeps a value well formed. *)
Lemma set_engines_node_well_formed content v content' :
  well_formed content -> set_engines_node content v = Some content' ->
  well_formed content'.
Proof.
  intros W. unfold set_engines_node.
  destruct W as [|b|lx L|s|items Wi|ms D Wm]; try discriminate.
  - intros H. injection H as <-. now constructor.
  - destruct (negb (truthy (assoc (js "engines") ms))).
    + intros H. injection H as <-. constructor.
      * now apply assoc_set_keys.
      * apply (assoc_set_values well_formed); [|exact Wm].
        constructor; [repeat constructor; intros []|repeat constructor].
    + destruct (assoc (js "engines") ms) as [[| | | | |es]|] eqn:E;
        intros H; injection H as <-; try now constructor.
      * assert (well_formed (JObj es)) as We.
        { clear D. induction ms as [|[k' x'] ms IH]; [discriminate|].
          inversion Wm as [|? ? Wx Wm']; subst. cbn [assoc] in E.
          cbn [snd] in Wx.
          revert E. destruct (str_eqb (js "engines") k'); intros E; [|auto].
          injection E as ->. exact Wx. }
        inversion We as [| | | | |? De Fe]; subst.
        constructor.
        -- now apply assoc_set_keys.
        -- apply (assoc_set_values well_formed); [|exact Wm].
           constructor; [now apply assoc_set_keys|].
           apply (assoc_set_values well_formed); [constructor|exact Fe].
Qed.

(* ------------------------------------------------------------------ *)
(** *** Scanning the package.json an update has written *)

Lemma extractMajorVersion_range V {Hsafe : safe_integer V} :
  extractMajorVersion (js ">=" ++ toString V ++ js ".0.0") = V.
Proof.
  rewrite extractMajorVersion_major_of. unfold major_of.
  change (js ">=" ++ toString V ++ js ".0.0")
    with (62%N :: 61%N :: toString V ++ js ".0.0").
  cbn [first_integer_run]. change (is_digit 62%N) with false.
  change (is_digit 61%N) with false. cbv iota.
  rewrite first_integer_run_digits;
    [apply parseInt_toString | apply toString_nonempty
     | apply toString_digits | reflexivity].
Qed.

(** What a successful real update of package.json has written. *)
Lemma updatePackageJson_written f V opts w r w' text content :
  dryRun opts = false ->
  lookup_file f (files w) = Some text ->
  JSON_parse text = Some content ->
  updatePackageJson f V opts w = (Ok r, w') ->
  success r = true ->
  exists content',
    set_engines_node content (js ">=" ++ toString V ++ js ".0.0")
    = Some content'
    /\ lookup_file f (files w')
       = Some (JSON_stringify content' ++ newline)
    /\ newVersion r = js ">=" ++ toString V ++ js ".0.0".
Proof.
  intros Hdry L P H Hs. unfold updatePackageJson in H.
  peel H as dir w1 C. apply process_cwd_ok in C. subst w1.
  apply try_ok in H as [H | (e & w2 & _ & H)];
    [|inversion H; subst; discriminate].
  peel H as text0 w2 R. apply readFileSync_ok in R as [L0 _].
  rewrite L in L0. injection L0 as <-. rewrite P, Hdry in H.
  destruct (set_engines_node content _) as [content'|] eqn:E;
    [|discriminate].
  exists content'. split; [reflexivity|].
  peel H as b w3 B. peel H as u w4 W. inversion H; subst.
  destruct u. apply writeFileSync_ok in W. rewrite W.
  split; [apply lookup_store_same|reflexivity].
Qed.

(** After the assignment [engines.node] is the new value, when [engines]
    was falsy or an object. *)
Lemma set_engines_node_get ms v content' :
  set_engines_node (JObj ms) v = Some content' ->
  takes_node (assoc (js "engines") ms) ->
  opt_get (opt_get (Some content') (js "engines")) (js "node")
  = Some (JStr v).
Proof.
  unfold set_engines_node, takes_node. intros H Hn.
  destruct (negb (truthy (assoc (js "engines") ms))) eqn:T.
  - injection H as <-. cbn [opt_get]. rewrite assoc_set_same.
    cbn [opt_get assoc]. now rewrite str_eqb_refl.
  - apply negb_false_iff in T.
    destruct Hn as [F | (es & E)]; [rewrite F in T; discriminate|].
    rewrite E in H. injection H as <-. cbn [opt_get].
    rewrite assoc_set_same. cbn [opt_get]. apply assoc_set_same.
Qed.

(** An assignment that went to an array is lost: the value is as before. *)
Lemma set_engines_node_lost content v content' :
  set_engines_node content v = Some content' ->
  (exists items, content = JArr items)
  \/ (exists ms items, content = JObj ms
                       /\ assoc (js "engines") ms = Some (JArr items)) ->
  content' = content
  /\ opt_get (opt_get (Some content) (js "engines")) (js "node") = None.
Proof.
  intros H [(items & ->) | (ms & items & -> & E)].
  - injection H as <-. split; reflexivity.
  - unfold set_engines_node in H. rewrite E in H. cbn [truthy negb] in H.
    injection H as <-. cbn [opt_get]. rewrite E. split; reflexivity.
Qed.

(** X26: for a target that is a safe integer, a successful real update of a
    package.json that is an object whose [engines] is falsy or an object
    leaves a file that [checkPackageJson] reads back as the target: the
    record has the target as its major and the range written, which is also
    the new value the result reports, as its displayed value. *)
Theorem package_json_update_then_check root V opts w r w' text ms :
  safe_integer V ->
  dryRun opts = false ->
  lookup_file (path_join root (js "package.json")) (files w) = Some text ->
  JSON_parse text = Some (JObj ms) ->
  takes_node (assoc (js "engines") ms) ->
  updatePackageJson (path_join root (js "package.json")) V opts w
  = (Ok r, w') ->
  success r = true ->
  faults w' = [] ->
  exists v,
    checkPackageJson root w' = (Ok (Some v), w')
    /\ majorVersion v = V
    /\ fullVersion v = js ">=" ++ toString V ++ js ".0.0"
    /\ fullVersion v = newVersion r.
Proof.
  intros HV Hdry L P Hn H Hs Hf.
  destruct (@updatePackageJson_written _ _ _ _ _ _ _ _ Hdry L P H Hs)
    as (content' & E & Lw & Hv).
  pose proof (JSON_parse_well_formed _ P) as W.
  pose proof (@set_engines_node_well_formed _ _ _ W E) as W'.
  pose proof (@JSON_parse_stringify content' newline W'
                (or_intror eq_refl)) as Pr.
  pose proof (@set_engines_node_get _ _ _ E Hn) as G.
  destruct (@read_back _ _ _ Hf Lw) as [Ex Rd].
  unfold checkPackageJson. unfold bind at 1. rewrite Ex. cbn [negb].
  unfold try_catch, bind. rewrite Rd, Pr, G.
  change (js ">=" ++ toString V ++ js ".0.0")
    with (62%N :: 61%N :: toString V ++ js ".0.0") in *.
  cbn [truthy negb].
  eexists. split; [reflexivity|]. cbn [majorVersion fullVersion].
  split; [|split; [reflexivity|now rewrite Hv]].
  apply extractMajorVersion_range.
Qed.

Lemma package_json_update_then_check_witness :
  exists r w' v,
    safe_integer 22
    /\ dryRun real_with_backup = false
    /\ updatePackageJson (path_join (js "/p") (js "package.json")) 22
         real_with_backup sample_project = (Ok r, w')
    /\ success r = true
    /\ faults w' = []
    /\ checkPackageJson (js "/p") w' = (Ok (Some v), w')
    /\ majorVersion v = 22%N
    /\ fullVersion v = js ">=" ++ toString 22 ++ js ".0.0"
    /\ fullVersion v = newVersion r.
Proof.
  ran H (updatePackageJson (path_join (js "/p") (js "package.json")) 22
           real_with_backup sample_project).
  assert (JSON_parse (json_text "{'engines': {'node': '>=18.0.0'}}")
          = Some (JObj [(js "engines",
                         JObj [(js "node", JStr (js ">=18.0.0"))])])) as P
    by (vm_compute; reflexivity).
  destruct (@package_json_update_then_check (js "/p") 22 real_with_backup
              sample_project _ _ _ _ eq_refl eq_refl eq_refl P
              ltac:(right; eexists; reflexivity) H eq_refl eq_refl)
    as (v & A & B & C & D).
  do 3 eexists. split; [reflexivity|]. split; [reflexivity|].
  split; [exact H|]. split; [reflexivity|]. split; [reflexivity|].
  split; [exact A|]. split; [exact B|]. split; [exact C|exact D].
Defined.

(** X27: a real update of a package.json that is an array, or whose
    [engines] is an array, can report a success with the range as new
    value, yet the assignment is lost when the file is written:
    [checkPackageJson] finds no version afterwards. *)
Theorem package_json_array_update_lost root V opts w r w' text content :
  dryRun opts = false ->
  lookup_file (path_join root (js "package.json")) (files w) = Some text ->
  JSON_parse text = Some content ->
  (exists items, content = JArr items)
  \/ (exists ms items, content = JObj ms
                       /\ assoc (js "engines") ms = Some (JArr items)) ->
  updatePackageJson (path_join root (js "package.json")) V opts w
  = (Ok r, w') ->
  success r = true ->
  faults w' = [] ->
  newVersion r = js ">=" ++ toString V ++ js ".0.0"
  /\ checkPackageJson root w' = (Ok None, w').
Proof.
  intros Hdry L P Ha H Hs Hf.
  destruct (@updatePackageJson_written _ _ _ _ _ _ _ _ Hdry L P H Hs)
    as (content' & E & Lw & Hv).
  split; [exact Hv|].
  pose proof (JSON_parse_well_formed _ P) as W.
  destruct (@set_engines_node_lost _ _ _ E Ha) as [-> G].
  pose proof (@JSON_parse_stringify content newline W
                (or_intror eq_refl)) as Pr.
  destruct (@read_back _ _ _ Hf Lw) as [Ex Rd].
  unfold checkPackageJson. unfold bind at 1. rewrite Ex. cbn [negb].
  unfold try_catch, bind. rewrite Rd, Pr, G. reflexivity.
Qed.

Lemma package_json_array_update_lost_witness :
  let w := single_file "/p/package.json" (json_text "{'engines': []}") in
  exists r w',
    dryRun (mkUpdateOptions false false) = false
    /\ updatePackageJson (path_join (js "/p") (js "package.json")) 22
         (mkUpdateOptions false false) w = (Ok r, w')
    /\ success r = true
    /\ faults w' = []
    /\ newVersion r = js ">=" ++ toString 22 ++ js ".0.0"
    /\ checkPackageJson (js "/p") w' = (Ok None, w').
Proof.
  intros w.
  ran H (updatePackageJson (path_join (js "/p") (js "package.json")) 22
           (mkUpdateOptions false false) w).
  assert (JSON_parse (json_text "{'engines': []}")
          = Some (JObj [(js "engines", JArr [])])) as P
    by (vm_compute; reflexivity).
  destruct (@package_json_array_update_lost (js "/p") 22
              (mkUpdateOptions false false) w _ _ _ _ eq_refl eq_refl P
              ltac:(right; do 2 eexists; split; reflexivity)
              H eq_refl eq_refl)
    as (A & B).
  do 2 eexists. repeat split; [exact H| | |exact A|exact B]; reflexivity.
Defined.

Lemma assoc_set_twice k v ms :
  assoc_set k v (assoc_set k v ms) = assoc_set k v ms.
Proof.
  induction ms as [|[k' v'] ms IH]; simpl.
  - now rewrite str_eqb_refl.
  - destruct (str_eqb k k') eqn:E; simpl.
    + now rewrite str_eqb_refl.
    + now rewrite E, IH.
Qed.

(** Setting [engines.node] to the value it was just set to changes
    nothing. *)
Lemma set_engines_node_twice content v content' :
  v <> [] ->
  set_engines_node content v = Some content' ->
  set_engines_node content' v = Some content'.
Proof.
  intros Hv. unfold set_engines_node at 1.
  destruct content as [| | | |items|ms]; try discriminate.
  - intros H. injection H as <-. reflexivity.
  - destruct (negb (truthy (assoc (js "engines") ms))) eqn:T.
    + intros H. injection H as <-. unfold set_engines_node.
      rewrite assoc_set_same. cbn [truthy negb assoc_set].
      rewrite str_eqb_refl. now rewrite assoc_set_twice.
    + destruct (assoc (js "engines") ms) as [[| | | | |es]|] eqn:E;
        intros H; injection H as <-; unfold set_engines_node;
        try (now rewrite E, T).
      rewrite assoc_set_same. cbn [truthy negb].
      now rewrite !assoc_set_twice.
Qed.

(** X28: after a successful real update of a package.json that is an object
    whose [engines] is falsy or an object, a second successful real update
    to the same target writes the text the first one wrote, and reports the
    target range as the old value as well as the new one. *)
Theorem package_json_second_update root V opts opts2 w r w' text ms r2 w2 :
  dryRun opts = false -> dryRun opts2 = false ->
  lookup_file (path_join root (js "package.json")) (files w) = Some text ->
  JSON_parse text = Some (JObj ms) ->
  takes_node (assoc (js "engines") ms) ->
  updatePackageJson (path_join root (js "package.json")) V opts w
  = (Ok r, w') ->
  success r = true ->
  updatePackageJson (path_join root (js "package.json")) V opts2 w'
  = (Ok r2, w2) ->
  success r2 = true ->
  lookup_file (path_join root (js "package.json")) (files w2)
  = lookup_file (path_join root (js "package.json")) (files w')
  /\ oldVersion r2 = newVersion r2.
Proof.
  intros Hdry Hdry2 L P Hn H Hs H2 Hs2.
  destruct (@updatePackageJson_written _ _ _ _ _ _ _ _ Hdry L P H Hs)
    as (content' & E & Lw & Hv).
  pose proof (JSON_parse_well_formed _ P) as W.
  pose proof (@set_engines_node_well_formed _ _ _ W E) as W'.
  pose proof (@JSON_parse_stringify content' newline W'
                (or_intror eq_refl)) as Pr.
  destruct (@updatePackageJson_written _ _ _ _ _ _ _ _ Hdry2 Lw Pr H2 Hs2)
    as (content2 & E2 & Lw2 & Hv2).
  assert (js ">=" ++ toString V ++ js ".0.0" <> []) as Hne by discriminate.
  pose proof (@set_engines_node_twice _ _ _ Hne E) as E'. rewrite E' in E2.
  injection E2 as <-. split; [now rewrite Lw, Lw2|].
  rewrite Hv2.
  pose proof (@set_engines_node_get _ _ _ E Hn) as G.
  unfold updatePackageJson in H2.
  peel H2 as dir w1 C. apply process_cwd_ok in C. subst w1.
  apply try_ok in H2 as [H2 | (e & w3 & _ & H2)];
    [|inversion H2; subst; discriminate].
  peel H2 as text0 w3 R. apply readFileSync_ok in R as [L0 _].
  rewrite Lw in L0. injection L0 as <-. rewrite Pr, Hdry2, E' in H2.
  peel H2 as b w4 B. peel H2 as u w5 Wr. inversion H2; subst.
  cbn [oldVersion].
  change (shown (opt_get (opt_get (Some content') (js "engines")) (js "node"))
          = js ">=" ++ toString V ++ js ".0.0").
  rewrite G. reflexivity.
Qed.

Lemma package_json_second_update_witness :
  exists r w' r2 w2,
    dryRun real_with_backup = false
    /\ dryRun (mkUpdateOptions false false) = false
    /\ updatePackageJson (path_join (js "/p") (js "package.json")) 22
         real_with_backup sample_project = (Ok r, w')
    /\ success r = true
    /\ updatePackageJson (path_join (js "/p") (js "package.json")) 22
         (mkUpdateOptions false false) w' = (Ok r2, w2)
    /\ success r2 = true
    /\ lookup_file (path_join (js "/p") (js "package.json")) (files w2)
       = lookup_file (path_join (js "/p") (js "package.json")) (files w')
    /\ oldVersion r2 = newVersion r2.
Proof.
  ran H (updatePackageJson (path_join (js "/p") (js "package.json")) 22
           real_with_backup sample_project).
  match type of H with
  | _ = (Ok _, ?w') =>
      ran H2 (updatePackageJson (path_join (js "/p") (js "package.json")) 22
                (mkUpdateOptions false false) w')
  end.
  assert (JSON_parse (json_text "{'engines': {'node': '>=18.0.0'}}")
          = Some (JObj [(js "engines",
                         JObj [(js "node", JStr (js ">=18.0.0"))])])) as P
    by (vm_compute; reflexivity).
  destruct (@package_json_second_update (js "/p") 22 real_with_backup
              (mkUpdateOptions false false) sample_project _ _ _ _ _ _
              eq_refl eq_refl eq_refl P
              ltac:(right; eexists; reflexivity) H eq_refl H2 eq_refl)
    as (A & B).
  do 4 eexists.
  split; [reflexivity|]. split; [reflexivity|]. split; [exact H|].
  split; [reflexivity|]. split; [exact H2|]. split; [reflexivity|].
  split; [exact A|exact B].
Defined.
